(** * NBTify: binary NBT reader and writer, SNBT reader and writer

    A shallow embedding of the codecs of the library and the properties
    of its specification.  The development follows the source files:

    - [JS]: the ECMAScript operators the source relies on (32-bit
      integer operators, strings as sequences of UTF-16 code units,
      [DataView] accessors, the two text codecs);
    - [Primitive]: [src/primitive.ts];
    - [Tags]: the tag model;
    - [Read]: the binary reader ([NBTReader] and [read]);
    - [Write]: the binary writer ([src/write.ts]);
    - [Stringify]: the SNBT writer;
    - [Parse]: the SNBT reader. *)

From Stdlib Require Import ZArith List Lia Bool String Ascii.
From Stdlib.Strings Require Import Byte.
From Stdlib Require Import Floats.SpecFloat.
Import ListNotations.

Local Open Scope Z_scope.

(* ================================================================== *)
(** * ECMAScript operators *)

Module JS.

(** ** 32-bit integer operators

    A Number that takes part in [<<], [>>], [>>>], [&], [|] or [^] is
    first converted with ToInt32 (ToUint32 for the shift count, of which
    the low five bits are used).  Integral Numbers are modelled by [Z]. *)

Definition ToInt32 (z : Z) : Z := (z + 2 ^ 31) mod 2 ^ 32 - 2 ^ 31.
Definition ToUint32 (z : Z) : Z := z mod 2 ^ 32.

(** [a << b] *)
Definition shl (a b : Z) : Z := ToInt32 (Z.shiftl (ToInt32 a) (ToUint32 b mod 32)).
(** [a >> b], sign-propagating *)
Definition sar (a b : Z) : Z := Z.shiftr (ToInt32 a) (ToUint32 b mod 32).
(** [a >>> b], zero-filling *)
Definition shr (a b : Z) : Z := Z.shiftr (ToUint32 a) (ToUint32 b mod 32).
(** [a & b], [a | b], [a ^ b] *)
Definition and (a b : Z) : Z := Z.land (ToInt32 a) (ToInt32 b).
Definition or (a b : Z) : Z := Z.lor (ToInt32 a) (ToInt32 b).
Definition xor (a b : Z) : Z := Z.lxor (ToInt32 a) (ToInt32 b).

Definition int32 (z : Z) : Prop := - 2 ^ 31 <= z < 2 ^ 31.

(** Two's-complement truncation to [w] bits, as a value of the signed
    range. *)
Definition wrap (w : Z) (z : Z) : Z := (z + 2 ^ (w - 1)) mod 2 ^ w - 2 ^ (w - 1).

(** ** Strings

    A string is its sequence of UTF-16 code units. *)

Abbreviation char := Z (only parsing).
Abbreviation jsstring := (list Z) (only parsing).

Definition js (s : string) : jsstring :=
  map (fun a => Z.of_N (N_of_ascii a)) (list_ascii_of_string s).

Definition str_eqb (a b : jsstring) : bool :=
  if list_eq_dec Z.eq_dec a b then true else false.

(** ** Numbers

    A Number is an IEEE-754 binary64 value, here a [spec_float] whose
    mantissa and exponent are in the binary64 form; [to_double] brings
    a finite value into that form.  [round32] rounds to the nearest
    binary32 value, ties to even, and [fround] is [Math.fround]: that
    value as a Number, the single-precision narrowing. *)

Definition to_double (v : spec_float) : spec_float :=
  match v with
  | S754_finite s m e => binary_normalize 53 1024 (cond_Zopp s (Zpos m)) e s
  | _ => v
  end.

Definition round32 (v : spec_float) : spec_float :=
  match v with
  | S754_finite s m e => binary_normalize 24 128 (cond_Zopp s (Zpos m)) e s
  | _ => v
  end.

Definition fround (v : spec_float) : spec_float := to_double (round32 v).

End JS.

Import JS.

(* ================================================================== *)
(** * Primitive wrappers ([src/primitive.ts]) *)

Module Primitive.

(** [class Byte extends Number { constructor(value) { super(value << 24 >> 24) } }] *)
Definition Byte (value : Z) : Z := sar (shl value 24) 24.

(** [class Short]: [super(value << 16 >> 16)] *)
Definition Short (value : Z) : Z := sar (shl value 16) 16.

(** [class Int]: [super(value | 0)] *)
Definition Int (value : Z) : Z := or value 0.

(** [class Float]: [super(value)].  The Number is handed to the base
    class as it is; Numbers are IEEE-754 binary64 values, here
    [spec_float]. *)
Definition Float (value : spec_float) : spec_float := value.

End Primitive.

(* ================================================================== *)
(** * Results of a call: a value, a thrown error, or no return *)

Module Res.

(** [Diverge] is the outcome of a run that is cut off by the fuel of the
    model: the modelled call has not returned at that point.

    [Untracked] is the outcome of a run that goes on with a value the
    tag model does not hold: an object whose prototype an assignment
    under the key [__proto__] has replaced (see [Tags.obj_assign]).
    The program neither returns nor throws at that point; what it does
    next depends on the replaced prototype and on [getTagType] of
    [tag.js], which is not among the sources, so the run is followed no
    further.  No handler catches this outcome. *)
Inductive result (E A : Type) : Type :=
| Ok (a : A)
| Throw (e : E)
| Diverge
| Untracked.

Arguments Ok {E A} a.
Arguments Throw {E A} e.
Arguments Diverge {E A}.
Arguments Untracked {E A}.

End Res.

Import Res.

(* ================================================================== *)
(** * The external text codecs and DataView accessors *)

Module Codec.

Definition byte_val (b : byte) : Z := Z.of_N (Byte.to_N b).

Definition byte_of (z : Z) : byte :=
  match Byte.of_N (Z.to_N (z mod 256)) with
  | Some b => b
  | None => x00
  end.

(** ** DataView integers

    [be_uint bs] is the unsigned integer whose big-endian bytes are [bs];
    the little-endian accessors read the same bytes in reverse. *)

Definition be_uint (bs : list byte) : Z :=
  fold_left (fun acc b => acc * 256 + byte_val b) bs 0.

Definition get_uint (littleEndian : bool) (bs : list byte) : Z :=
  be_uint (if littleEndian then rev bs else bs).

Definition signed (w : Z) (u : Z) : Z := if u <? 2 ^ (w - 1) then u else u - 2 ^ w.

Definition get_int (littleEndian : bool) (bs : list byte) : Z :=
  signed (8 * Z.of_nat (List.length bs)) (get_uint littleEndian bs).

(** The [n] bytes of the big-endian representation of [u mod 2^(8n)]. *)
Fixpoint be_bytes (n : nat) (u : Z) : list byte :=
  match n with
  | O => []
  | S n' => be_bytes n' (u / 256) ++ [byte_of u]
  end.

Definition set_uint (littleEndian : bool) (n : nat) (u : Z) : list byte :=
  if littleEndian then rev (be_bytes n u) else be_bytes n u.

(** ** IEEE-754 encodings ([getFloat32], [getFloat64], [setFloat32],
    [setFloat64])

    [mw] is the width of the stored mantissa and [ew] that of the
    exponent. *)

Definition decode_float (mw ew : Z) (bits : Z) : spec_float :=
  let m := bits mod 2 ^ mw in
  let e := (bits / 2 ^ mw) mod 2 ^ ew in
  let s := Z.odd (bits / 2 ^ (mw + ew)) in
  if e =? 0 then
    match m with
    | Zpos p => S754_finite s p (2 - 2 ^ (ew - 1) - mw)
    | _ => S754_zero s
    end
  else if e =? 2 ^ ew - 1 then
    if m =? 0 then S754_infinity s else S754_nan
  else
    match m + 2 ^ mw with
    | Zpos p => S754_finite s p (e - 2 ^ (ew - 1) + 1 - mw)
    | _ => S754_zero s
    end.

(** The NaN written is the quiet NaN with an empty payload. *)
Definition encode_float (mw ew : Z) (v : spec_float) : Z :=
  let sign (s : bool) := if s then 2 ^ (mw + ew) else 0 in
  match v with
  | S754_zero s => sign s
  | S754_infinity s => sign s + (2 ^ ew - 1) * 2 ^ mw
  | S754_nan => (2 ^ ew - 1) * 2 ^ mw + 2 ^ (mw - 1)
  | S754_finite s m e =>
      if Zpos m <? 2 ^ mw then sign s + Zpos m
      else sign s + (e + 2 ^ (ew - 1) - 1 + mw) * 2 ^ mw + (Zpos m - 2 ^ mw)
  end.

Definition getFloat32 (littleEndian : bool) (bs : list byte) : spec_float :=
  to_double (decode_float 23 8 (get_uint littleEndian bs)).

Definition getFloat64 (littleEndian : bool) (bs : list byte) : spec_float :=
  decode_float 52 11 (get_uint littleEndian bs).

Definition setFloat32 (littleEndian : bool) (v : spec_float) : list byte :=
  set_uint littleEndian 4 (encode_float 23 8 (round32 v)).

Definition setFloat64 (littleEndian : bool) (v : spec_float) : list byte :=
  set_uint littleEndian 8 (encode_float 52 11 v).

(** ** [MUtf8Decoder.decode] (package [mutf-8])

    Modified UTF-8: one byte for U+0001..U+007F, two bytes for U+0000
    and U+0080..U+07FF, three bytes for every other UTF-16 code unit (a
    supplementary character is two surrogates of three bytes each).  A
    byte that starts no such sequence is replaced by U+FFFD.  The
    reader constructs the decoder without [ignoreBOM], so the bytes
    EF BB BF at the very start of the input are a byte order mark and
    give no code unit. *)

Definition is_cont (b : byte) : bool := Z.land (byte_val b) 192 =? 128.

Fixpoint mutf8_decode_fuel (fuel : nat) (bs : list byte) : jsstring :=
  match fuel with
  | O => []
  | S fuel' =>
      match bs with
      | [] => []
      | b1 :: r1 =>
          let v1 := byte_val b1 in
          if (Z.land v1 128 =? 0) && negb (v1 =? 0) then
            v1 :: mutf8_decode_fuel fuel' r1
          else if Z.land v1 224 =? 192 then
            match r1 with
            | b2 :: r2 =>
                if is_cont b2 then
                  Z.lor (Z.shiftl (Z.land v1 31) 6) (Z.land (byte_val b2) 63)
                    :: mutf8_decode_fuel fuel' r2
                else 65533 :: mutf8_decode_fuel fuel' r1
            | [] => [65533]
            end
          else if Z.land v1 240 =? 224 then
            match r1 with
            | b2 :: b3 :: r3 =>
                if is_cont b2 && is_cont b3 then
                  Z.lor (Z.shiftl (Z.land v1 15) 12)
                    (Z.lor (Z.shiftl (Z.land (byte_val b2) 63) 6)
                           (Z.land (byte_val b3) 63))
                    :: mutf8_decode_fuel fuel' r3
                else 65533 :: mutf8_decode_fuel fuel' r1
            | _ => 65533 :: mutf8_decode_fuel fuel' r1
            end
          else 65533 :: mutf8_decode_fuel fuel' r1
      end
  end.

(** The input starts with the byte order mark EF BB BF. *)
Definition has_bom (bs : list byte) : bool :=
  match bs with
  | b1 :: b2 :: b3 :: _ =>
      (byte_val b1 =? 239) && (byte_val b2 =? 187) && (byte_val b3 =? 191)
  | _ => false
  end.

Definition mutf8_decode (bs : list byte) : jsstring :=
  let bs := if has_bom bs then skipn 3 bs else bs in
  mutf8_decode_fuel (List.length bs) bs.

(** ** [TextEncoder.encode]

    UTF-8 of the string's scalar values: a surrogate pair is one scalar
    value of four bytes, a lone surrogate is replaced by U+FFFD. *)

Definition utf8_scalar (c : Z) : list byte :=
  if c <? 128 then [byte_of c]
  else if c <? 2048 then
    [byte_of (192 + c / 64); byte_of (128 + c mod 64)]
  else if c <? 65536 then
    [byte_of (224 + c / 4096); byte_of (128 + (c / 64) mod 64);
     byte_of (128 + c mod 64)]
  else
    [byte_of (240 + c / 262144); byte_of (128 + (c / 4096) mod 64);
     byte_of (128 + (c / 64) mod 64); byte_of (128 + c mod 64)].

Definition is_high_surrogate (c : Z) : bool := (55296 <=? c) && (c <=? 56319).
Definition is_low_surrogate (c : Z) : bool := (56320 <=? c) && (c <=? 57343).

Fixpoint utf8_encode (s : jsstring) : list byte :=
  match s with
  | [] => []
  | c :: r =>
      if is_high_surrogate c then
        match r with
        | d :: r' =>
            if is_low_surrogate d then
              utf8_scalar (65536 + (c - 55296) * 1024 + (d - 56320))
                ++ utf8_encode r'
            else utf8_scalar 65533 ++ utf8_encode r
        | [] => utf8_scalar 65533
        end
      else if is_low_surrogate c then utf8_scalar 65533 ++ utf8_encode r
      else utf8_scalar c ++ utf8_encode r
  end.

End Codec.

Import Codec.

(* ================================================================== *)
(** * The tag model *)

Module Tags.

(** [enum TAG]: the wire ids 0..12 in this order. *)
Inductive TAG : Set :=
| END | BYTE | SHORT | INT | LONG | FLOAT | DOUBLE | BYTE_ARRAY | STRING
| LIST | COMPOUND | INT_ARRAY | LONG_ARRAY.

Definition TAG_id (t : TAG) : Z :=
  match t with
  | END => 0 | BYTE => 1 | SHORT => 2 | INT => 3 | LONG => 4 | FLOAT => 5
  | DOUBLE => 6 | BYTE_ARRAY => 7 | STRING => 8 | LIST => 9 | COMPOUND => 10
  | INT_ARRAY => 11 | LONG_ARRAY => 12
  end.

Definition TAG_eqb (a b : TAG) : bool := TAG_id a =? TAG_id b.

(** Modelled from the spec: [isTagType] of [tag.ts], which is not among
    the sources; a byte is a tag id when it lies in 0..12. *)
Definition isTagType (n : Z) : option TAG :=
  match n with
  | 0 => Some END | 1 => Some BYTE | 2 => Some SHORT | 3 => Some INT
  | 4 => Some LONG | 5 => Some FLOAT | 6 => Some DOUBLE
  | 7 => Some BYTE_ARRAY | 8 => Some STRING | 9 => Some LIST
  | 10 => Some COMPOUND | 11 => Some INT_ARRAY | 12 => Some LONG_ARRAY
  | _ => None
  end.

(** The in-memory tree.  The integer wrappers and typed arrays hold
    integers, [FloatTag] and [DoubleTag] a Number, a [CompoundTag] the
    own enumerable properties of an object in the order in which
    [Object.entries] lists them.  The reader also records the element
    type of a list under the non-enumerable symbol [TAG_TYPE], which no
    function of the sources reads; it is not part of the model. *)
#[warnings="-register-all"]
Inductive Tag : Type :=
| BooleanTag (b : bool)
| ByteTag (v : Z)
| ShortTag (v : Z)
| IntTag (v : Z)
| LongTag (v : Z)
| FloatTag (v : spec_float)
| DoubleTag (v : spec_float)
| ByteArrayTag (l : list Z)
| StringTag (s : jsstring)
| ListTag (l : list Tag)
| CompoundTag (l : list (jsstring * Tag))
| IntArrayTag (l : list Z)
| LongArrayTag (l : list Z).

(** Modelled from the spec: [getTagType] of [tag.ts], which is not among
    the sources: a boolean reports BYTE, a wrapper its declared width,
    a bigint LONG, a bare Number DOUBLE, the typed arrays their array
    ids, a sequence LIST, a map COMPOUND, a string STRING.  Every value
    of [Tag] has a tag type; [None] is the [null] of other values. *)
Definition getTagType (value : Tag) : option TAG :=
  Some match value with
       | BooleanTag _ => BYTE
       | ByteTag _ => BYTE
       | ShortTag _ => SHORT
       | IntTag _ => INT
       | LongTag _ => LONG
       | FloatTag _ => FLOAT
       | DoubleTag _ => DOUBLE
       | ByteArrayTag _ => BYTE_ARRAY
       | StringTag _ => STRING
       | ListTag _ => LIST
       | CompoundTag _ => COMPOUND
       | IntArrayTag _ => INT_ARRAY
       | LongArrayTag _ => LONG_ARRAY
       end.

(** ** Objects

    A compound is an object created by [{}]; the reader fills it with
    [value[name] = entry] ([#readCompound]) and [tag[key] = ...]
    ([#readCompoundTag]), and the writers list it with
    [Object.entries]. *)

(** An array index: the decimal numeral, without a leading zero, of an
    integer below 2^32 - 1.  [Object.entries] lists the own properties
    whose keys are array indices first, in ascending order, and the
    others after them in the order of their creation. *)
Definition array_index (k : jsstring) : option Z :=
  match k with
  | [] => None
  | c :: r =>
      if forallb (fun d => (48 <=? d) && (d <=? 57)) k
         && (negb (c =? 48) || match r with [] => true | _ => false end)
      then
        let n := fold_left (fun acc d => acc * 10 + (d - 48)) k 0 in
        if n <? 2 ^ 32 - 1 then Some n else None
      else None
  end.

(** A new property [a] is listed before the property [b]. *)
Definition key_before (a b : jsstring) : bool :=
  match array_index a with
  | Some n =>
      match array_index b with
      | Some m => n <? m
      | None => true
      end
  | None => false
  end.

Definition has_key (value : list (jsstring * Tag)) (name : jsstring) : bool :=
  existsb (fun kv => str_eqb (fst kv) name) value.

(** An existing property keeps its place and takes the new value. *)
Fixpoint obj_replace (value : list (jsstring * Tag)) (name : jsstring) (entry : Tag)
  : list (jsstring * Tag) :=
  match value with
  | [] => []
  | (k, v) :: rest =>
      if str_eqb k name then (k, entry) :: rest
      else (k, v) :: obj_replace rest name entry
  end.

(** A new property takes its place in the listing. *)
Fixpoint obj_add (value : list (jsstring * Tag)) (name : jsstring) (entry : Tag)
  : list (jsstring * Tag) :=
  match value with
  | [] => [(name, entry)]
  | (k, v) :: rest =>
      if key_before name k then (name, entry) :: (k, v) :: rest
      else (k, v) :: obj_add rest name entry
  end.

(** The store of an own data property: [value[name] = entry] for a
    [name] that no accessor of the prototype chain handles. *)
Definition obj_set (value : list (jsstring * Tag)) (name : jsstring) (entry : Tag)
  : list (jsstring * Tag) :=
  if has_key value name then obj_replace value name entry
  else obj_add value name entry.

(** The one accessor property of [Object.prototype]. *)
Definition proto_key : jsstring := js "__proto__".

(** The tags that are objects: the wrappers of [primitive.ts] (classes
    that extend [Number]), the typed arrays, arrays and objects.  A
    boolean, a bigint, a bare Number and a string are primitive
    values. *)
Definition is_object (entry : Tag) : bool :=
  match entry with
  | BooleanTag _ | LongTag _ | DoubleTag _ | StringTag _ => false
  | _ => true
  end.

(** [value[name] = entry] on an object created by [{}], in strict
    code.  Under the key [__proto__] the assignment runs the setter of
    [Object.prototype]: no own property is created; a primitive entry
    is dropped and the object is as before, an entry that is an object
    becomes the prototype of [value], which then is no plain object any
    more ([None]: later assignments go through the new prototype, where
    a key such as [length] over a typed array throws a TypeError).
    Under any other key the assignment stores an own property. *)
Definition obj_assign (value : list (jsstring * Tag)) (name : jsstring) (entry : Tag)
  : option (list (jsstring * Tag)) :=
  if str_eqb name proto_key then
    if is_object entry then None else Some value
  else Some (obj_set value name entry).

Inductive Endian : Set := big | little | little_varint.
Inductive Compression : Set := deflate | deflate_raw | gzip.

(** [boolean | number | null] of the [bedrockLevel] option. *)
Inductive BedrockLevel : Set :=
| BLbool (b : bool)
| BLnumber (n : Z)
| BLnull.

(** [boolean | string | null] of the [rootName] option. *)
Inductive RootNameOption : Set :=
| RNbool (b : bool)
| RNstring (s : jsstring)
| RNnull.

(** Modelled from the spec: [NBTData] of [format.js], which is not among
    the sources: the root tag with the envelope (root name, endian,
    compression, Bedrock level); a field that is not given is [null]. *)
Record NBTData : Type := mkNBTData {
  nbt_data : Tag;
  nbt_rootName : option jsstring;
  nbt_endian : Endian;
  nbt_compression : option Compression;
  nbt_bedrockLevel : BedrockLevel
}.

End Tags.

Import Tags.

(* ================================================================== *)
(** * The binary reader ([NBTReader], [read]) *)

Module Read.

Inductive error : Type :=
| RanOutOfBytes
    (* "Ran out of bytes to read, unexpectedly reached the end of the buffer" *)
| UnexpectedEndTag (byteOffset remaining : Z)
    (* "Encountered unexpected End tag at byte offset ..." *)
| UnsupportedTagType (type byteOffset : Z)
    (* "Encountered unsupported tag type ..." *)
| ExpectedListOrCompound (type : TAG)
    (* "Expected an opening List or Compound tag at the start of the buffer" *)
| VarintTooBig (shift : Z)
    (* "varint is too big: ..." *)
| RangeError
    (* raised by a DataView accessor outside the view, or by a typed
       array constructor given a negative length *)
| NBTError (byteOffset remaining : Z) (cause : NBTData)
    (* the error of strict mode for unread bytes *)
| DecompressError.
    (* raised by the compression service *)

(** The reader: the buffer, the two dialect flags, and the cursor
    [#byteOffset], which is the state threaded through every method. *)
Record NBTReader : Type := mkReader {
  data : list byte;
  littleEndian : bool;
  varint : bool
}.

Definition M (A : Type) : Type := NBTReader -> Z -> result error (A * Z).

Definition ret {A} (a : A) : M A := fun _ o => Ok (a, o).
Definition throw {A} (e : error) : M A := fun _ _ => Throw e.
Definition diverge {A} : M A := fun _ _ => Diverge.
Definition untracked {A} : M A := fun _ _ => Untracked.
Definition bind {A B} (m : M A) (k : A -> M B) : M B :=
  fun r o =>
    match m r o with
    | Ok (a, o') => k a r o'
    | Throw e => Throw e
    | Diverge => Diverge
    | Untracked => Untracked
    end.

Notation "x <- m ;; k" := (bind m (fun x => k))
  (at level 61, m at next level, right associativity).
Notation "m ;;; k" := (bind m (fun _ => k))
  (at level 61, right associativity).

Definition byteLength (r : NBTReader) : Z := Z.of_nat (List.length (data r)).

Definition get_byteOffset : M Z := fun _ o => Ok (o, o).
Definition add_byteOffset (n : Z) : M unit := fun _ o => Ok (tt, o + n).
Definition get_varint : M bool := fun r o => Ok (varint r, o).
Definition get_littleEndian : M bool := fun r o => Ok (littleEndian r, o).

(** [#allocate(byteLength)] *)
Definition allocate (n : Z) : M unit :=
  fun r o => if o + n >? byteLength r then Throw RanOutOfBytes else Ok (tt, o).

(** The [n] bytes a DataView accessor reads at [#byteOffset]. *)
Definition view (n : nat) : M (list byte) :=
  fun r o =>
    if (0 <=? o) && (o + Z.of_nat n <=? byteLength r)
    then Ok (firstn n (skipn (Z.to_nat o) (data r)), o)
    else Throw RangeError.

(** [Uint8Array.prototype.subarray(begin, end)]: a negative index counts
    from the end, both are clamped to the array. *)
Definition subarray (d : list byte) (begin end_ : Z) : list byte :=
  let len := Z.of_nat (List.length d) in
  let rel i := if i <? 0 then Z.max (len + i) 0 else Z.min i len in
  firstn (Z.to_nat (rel end_ - rel begin)) (skipn (Z.to_nat (rel begin)) d).

Definition data_subarray (length : Z) : M (list byte) :=
  fun r o => Ok (subarray (data r) o (o + length), o).

(** Modelled from the spec: [Int8], [Int16], [Int32] and [Float32] are
    the wrappers of the [primitive.js] this reader imports, which is
    not among the sources; they normalise as the wrappers of
    [src/primitive.ts] do, [Float32] by single-precision narrowing. *)
Definition Int8 := Primitive.Byte.
Definition Int16 := Primitive.Short.
Definition Int32 := Primitive.Int.
Definition Float32 := fround.

(** [#readUnsignedByte()] *)
Definition readUnsignedByte : M Z :=
  allocate 1 ;;;
  bs <- view 1 ;;
  add_byteOffset 1 ;;;
  ret (get_uint false bs).

(** [#readTagType()] *)
Definition readTagType : M TAG :=
  type <- readUnsignedByte ;;
  match isTagType type with
  | None => o <- get_byteOffset ;; throw (UnsupportedTagType type o)
  | Some t => ret t
  end.

(** [#readByte(true)]: the Number *)
Definition readByte_valueOf : M Z :=
  allocate 1 ;;;
  bs <- view 1 ;;
  add_byteOffset 1 ;;;
  ret (get_int false bs).

(** [#readByte()]: the tag *)
Definition readByte : M Tag :=
  value <- readByte_valueOf ;; ret (ByteTag (Int8 value)).

(** [#readVarInt()] *)
Fixpoint readVarInt_loop (fuel : nat) (value shift : Z) : M Z :=
  match fuel with
  | O => diverge
  | S fuel' =>
      byte <- readByte_valueOf ;;
      let value := JS.or value (shl (JS.and byte 127) shift) in
      if JS.and byte 128 =? 0 then ret value
      else readVarInt_loop fuel' value (shift + 7)
  end.

Definition readVarInt (fuel : nat) : M Z := readVarInt_loop fuel 0 0.

(** The expression of [#readVarIntZigZag] that undoes the zig-zag:
    [((((result << 63) >> 63) ^ result) >> 1) ^ (result & (1 << 63))] *)
Definition zigzag32 (result : Z) : Z :=
  JS.xor (sar (JS.xor (sar (shl result 63) 63) result) 1)
         (JS.and result (shl 1 63)).

(** [#readVarIntZigZag()]: [{ value, size }] *)
Fixpoint readVarIntZigZag_loop (fuel : nat) (result shift cursor : Z) : M (Z * Z) :=
  match fuel with
  | O => diverge
  | S fuel' =>
      allocate 1 ;;;
      b <- readByte_valueOf ;;
      let result := JS.or result (shl (JS.and b 127) shift) in
      let cursor := cursor + 1 in
      if JS.and b 128 =? 0 then
        o <- get_byteOffset ;; ret (result, cursor - o)
      else
        let shift := shift + 7 in
        if shift >? 63 then throw (VarintTooBig shift)
        else readVarIntZigZag_loop fuel' result shift cursor
  end.

Definition readVarIntZigZag (fuel : nat) : M (Z * Z) :=
  cursor <- get_byteOffset ;;
  rs <- readVarIntZigZag_loop fuel 0 0 cursor ;;
  ret (zigzag32 (fst rs), snd rs).

(** [#readUnsignedShort()] *)
Definition readUnsignedShort (fuel : nat) : M Z :=
  v <- get_varint ;;
  if v then readVarInt fuel
  else
    allocate 2 ;;;
    bs <- view 2 ;;
    le <- get_littleEndian ;;
    add_byteOffset 2 ;;;
    ret (get_uint le bs).

(** [#readShort()] *)
Definition readShort : M Tag :=
  allocate 2 ;;;
  bs <- view 2 ;;
  le <- get_littleEndian ;;
  add_byteOffset 2 ;;;
  ret (ShortTag (Int16 (get_int le bs))).

(** [#readUnsignedInt()] *)
Definition readUnsignedInt (fuel : nat) : M Z :=
  v <- get_varint ;;
  if v then readVarInt fuel
  else
    allocate 4 ;;;
    bs <- view 4 ;;
    le <- get_littleEndian ;;
    add_byteOffset 4 ;;;
    ret (get_uint le bs).

(** [#readInt(true)]: the Number *)
Definition readInt_valueOf (fuel : nat) : M Z :=
  v <- get_varint ;;
  if v then rs <- readVarIntZigZag fuel ;; ret (fst rs)
  else
    allocate 4 ;;;
    bs <- view 4 ;;
    le <- get_littleEndian ;;
    add_byteOffset 4 ;;;
    ret (get_int le bs).

(** [#readInt()]: the tag *)
Definition readInt (fuel : nat) : M Tag :=
  value <- readInt_valueOf fuel ;; ret (IntTag (Int32 value)).

(** The expression of [#readVarLongZigZag] that undoes the zig-zag, on
    bigints: [(result >> 1n) ^ -(result & 1n)] *)
Definition zigzag64 (result : Z) : Z :=
  Z.lxor (Z.shiftr result 1) (- Z.land result 1).

(** [#readVarLongZigZag()]: [{ value, size }] *)
Fixpoint readVarLongZigZag_loop (fuel : nat) (result shift cursor : Z) : M (Z * Z) :=
  match fuel with
  | O => diverge
  | S fuel' =>
      allocate 1 ;;;
      b <- readByte_valueOf ;;
      let result := Z.lor result (Z.shiftl (Z.land b 127) shift) in
      let cursor := cursor + 1 in
      if JS.and b 128 =? 0 then
        o <- get_byteOffset ;; ret (result, cursor - o)
      else
        let shift := shift + 7 in
        if shift >? 63 then throw (VarintTooBig shift)
        else readVarLongZigZag_loop fuel' result shift cursor
  end.

Definition readVarLongZigZag (fuel : nat) : M (Z * Z) :=
  cursor <- get_byteOffset ;;
  rs <- readVarLongZigZag_loop fuel 0 0 cursor ;;
  ret (zigzag64 (fst rs), snd rs).

(** [#readLong()]: a bigint *)
Definition readLong_valueOf (fuel : nat) : M Z :=
  v <- get_varint ;;
  if v then rs <- readVarLongZigZag fuel ;; ret (fst rs)
  else
    allocate 8 ;;;
    bs <- view 8 ;;
    le <- get_littleEndian ;;
    add_byteOffset 8 ;;;
    ret (get_int le bs).

Definition readLong (fuel : nat) : M Tag :=
  value <- readLong_valueOf fuel ;; ret (LongTag value).

(** [#readFloat()] *)
Definition readFloat : M Tag :=
  allocate 4 ;;;
  bs <- view 4 ;;
  le <- get_littleEndian ;;
  add_byteOffset 4 ;;;
  ret (FloatTag (Float32 (getFloat32 le bs))).

(** [#readDouble()] *)
Definition readDouble : M Tag :=
  allocate 8 ;;;
  bs <- view 8 ;;
  le <- get_littleEndian ;;
  add_byteOffset 8 ;;;
  ret (DoubleTag (getFloat64 le bs)).

(** [#readByteArray()]; [new Int8Array(bytes)] reads each byte as a
    signed one. *)
Definition readByteArray (fuel : nat) : M Tag :=
  length <- readInt_valueOf fuel ;;
  allocate length ;;;
  bs <- data_subarray length ;;
  add_byteOffset length ;;;
  ret (ByteArrayTag (map (fun b => signed 8 (byte_val b)) bs)).

(** [#readString()] *)
Definition readString (fuel : nat) : M jsstring :=
  length <- readUnsignedShort fuel ;;
  allocate length ;;;
  bs <- data_subarray length ;;
  add_byteOffset length ;;;
  ret (mutf8_decode bs).

(** The loop of [#readList]: [for (let i = 0; i < length; i++)] *)
Fixpoint readList_loop (readTag : M Tag) (fuel : nat) (length i : Z)
  (value : list Tag) : M (list Tag) :=
  match fuel with
  | O => diverge
  | S fuel' =>
      if i <? length then
        entry <- readTag ;;
        readList_loop readTag fuel' length (i + 1) (value ++ [entry])
      else ret value
  end.

(** [#readList()] *)
Definition readList (readTag : TAG -> M Tag) (fuel : nat) : M Tag :=
  type <- readTagType ;;
  v <- get_varint ;;
  length <- (if v then rs <- readVarIntZigZag fuel ;; ret (fst rs)
             else readInt_valueOf fuel) ;;
  value <- readList_loop (readTag type) fuel length 0 [] ;;
  ret (ListTag value).

(** [#readCompound()]: [while (true)] *)
Fixpoint readCompound_loop (readTag : TAG -> M Tag) (fuel : nat)
  (value : list (jsstring * Tag)) : M (list (jsstring * Tag)) :=
  match fuel with
  | O => diverge
  | S fuel' =>
      type <- readTagType ;;
      match type with
      | END => ret value
      | _ =>
          name <- readString fuel' ;;
          entry <- readTag type ;;
          match obj_assign value name entry with
          | Some value => readCompound_loop readTag fuel' value
          | None => untracked
          end
      end
  end.

Definition readCompound (readTag : TAG -> M Tag) (fuel : nat) : M Tag :=
  value <- readCompound_loop readTag fuel [] ;;
  ret (CompoundTag value).

(** The loops of [#readIntArray] and [#readLongArray]:
    [for (const i in value)] visits the indices [0 .. length - 1]. *)
Fixpoint readArray_loop (readEntry : M Z) (fuel : nat) (length i : Z)
  (value : list Z) : M (list Z) :=
  match fuel with
  | O => diverge
  | S fuel' =>
      if i <? length then
        entry <- readEntry ;;
        readArray_loop readEntry fuel' length (i + 1) (value ++ [entry])
      else ret value
  end.

(** [#readIntArray()]; [new Int32Array(length)] raises a RangeError for
    a negative length, the store [value[i] = entry] keeps 32 bits. *)
Definition readIntArray (fuel : nat) : M Tag :=
  length <- readInt_valueOf fuel ;;
  if length <? 0 then throw RangeError
  else
    value <- readArray_loop (readInt_valueOf fuel) fuel length 0 [] ;;
    ret (IntArrayTag (map ToInt32 value)).

(** [#readLongArray()]; a [BigInt64Array] keeps 64 bits. *)
Definition readLongArray (fuel : nat) : M Tag :=
  length <- readInt_valueOf fuel ;;
  if length <? 0 then throw RangeError
  else
    value <- readArray_loop (readLong_valueOf fuel) fuel length 0 [] ;;
    ret (LongArrayTag (map (wrap 64) value)).

(** [#readTag(type)] *)
Fixpoint readTag (fuel : nat) (type : TAG) : M Tag :=
  match fuel with
  | O => diverge
  | S fuel' =>
      match type with
      | END =>
          fun r o => Throw (UnexpectedEndTag o (byteLength r - o))
      | BYTE => readByte
      | SHORT => readShort
      | INT => readInt fuel'
      | LONG => readLong fuel'
      | FLOAT => readFloat
      | DOUBLE => readDouble
      | BYTE_ARRAY => readByteArray fuel'
      | STRING => s <- readString fuel' ;; ret (StringTag s)
      | LIST => readList (readTag fuel') fuel'
      | COMPOUND => readCompound (readTag fuel') fuel'
      | INT_ARRAY => readIntArray fuel'
      | LONG_ARRAY => readLongArray fuel'
      end
  end.

(** ** [readRoot] and [read] *)

Record ReadOptions : Type := mkReadOptions {
  rootName : RootNameOption;
  endian : Endian;
  compression : option Compression;
  bedrockLevel : BedrockLevel;
  strict : bool
}.

(** [Partial<ReadOptions>]: [None] is a field left [undefined]. *)
Record PartialReadOptions : Type := mkPartial {
  p_rootName : option RootNameOption;
  p_endian : option Endian;
  p_compression : option (option Compression);
  p_bedrockLevel : option BedrockLevel;
  p_strict : option bool
}.

(** Truth value of [bedrockLevel] in [if (bedrockLevel)]. *)
Definition bedrock_truthy (b : BedrockLevel) : bool :=
  match b with
  | BLbool b => b
  | BLnumber n => negb (n =? 0)
  | BLnull => false
  end.

(** [typeof rootName === "string" || rootName] *)
Definition rootName_truthy (n : RootNameOption) : bool :=
  match n with
  | RNstring _ => true
  | RNbool b => b
  | RNnull => false
  end.

Definition try_catch {A} (m : result error A) (handler : error -> result error A)
  : result error A :=
  match m with
  | Ok a => Ok a
  | Throw e => handler e
  | Diverge => Diverge
  | Untracked => Untracked
  end.

(** [hasGzipHeader()]: [getUint16(0, false) === 0x1F8B] *)
Definition hasGzipHeader (r : NBTReader) : result error bool :=
  match view 2 r 0 with
  | Ok (bs, _) => Ok (get_uint false bs =? 8075)
  | Throw e => Throw e
  | Diverge => Diverge
  | Untracked => Untracked
  end.

(** [hasZlibHeader()]: [getUint8(0) === 0x78] *)
Definition hasZlibHeader (r : NBTReader) : result error bool :=
  match view 1 r 0 with
  | Ok (bs, _) => Ok (get_uint false bs =? 120)
  | Throw e => Throw e
  | Diverge => Diverge
  | Untracked => Untracked
  end.

(** [hasBedrockLevelHeader(endian)] *)
Definition hasBedrockLevelHeader (r : NBTReader) (e : Endian) : result error bool :=
  match e with
  | little =>
      if byteLength r <? 8 then Ok false
      else
        match view 4 r 4 with
        | Ok (bs, _) => Ok (get_uint true bs =? byteLength r - 8)
        | Throw e => Throw e
        | Diverge => Diverge
        | Untracked => Untracked
        end
  | _ => Ok false
  end.

Section WithCompression.

(** [decompress(data, format)] of [compression.js], the external
    compression service. *)
Variable decompress : list byte -> Compression -> result error (list byte).

(** The body of [readRoot] after the decompression, as a computation over
    the cursor. *)
Definition readRoot_body (fuel : nat) (o : ReadOptions) : M NBTData :=
  (if bedrock_truthy (bedrockLevel o)
   then readUnsignedInt fuel ;;; readUnsignedInt fuel ;;; ret tt
   else ret tt) ;;;
  type <- readTagType ;;
  match type with
  | LIST | COMPOUND =>
      rootNameV <- (if rootName_truthy (rootName o)
                    then s <- readString fuel ;; ret (Some s)
                    else ret None) ;;
      root <- readTag fuel type ;;
      fun r off =>
        if strict o && (byteLength r >? off) then
          Throw (NBTError off (byteLength r - off)
                   (mkNBTData root rootNameV (endian o) None BLnull))
        else
          Ok (mkNBTData root rootNameV (endian o) (compression o) (bedrockLevel o), off)
  | _ => throw (ExpectedListOrCompound type)
  end.

(** [readRoot(options)] on a reader whose cursor is at 0. *)
Definition readRoot (fuel : nat) (r : NBTReader) (o : ReadOptions)
  : result error NBTData :=
  let r' :=
    match compression o with
    | None => Ok r
    | Some c =>
        match decompress (data r) c with
        | Ok d => Ok (mkReader d (littleEndian r) (varint r))
        | Throw e => Throw e
        | Diverge => Diverge
        | Untracked => Untracked
        end
    end in
  match r' with
  | Ok r =>
      match readRoot_body fuel o r 0 with
      | Ok (d, _) => Ok d
      | Throw e => Throw e
      | Diverge => Diverge
      | Untracked => Untracked
      end
  | Throw e => Throw e
  | Diverge => Diverge
  | Untracked => Untracked
  end.

Definition with_compression (o : PartialReadOptions) (c : option Compression) :=
  mkPartial (p_rootName o) (p_endian o) (Some c) (p_bedrockLevel o) (p_strict o).
Definition with_endian (o : PartialReadOptions) (e : Endian) :=
  mkPartial (p_rootName o) (Some e) (p_compression o) (p_bedrockLevel o) (p_strict o).
Definition with_rootName (o : PartialReadOptions) (n : RootNameOption) :=
  mkPartial (Some n) (p_endian o) (p_compression o) (p_bedrockLevel o) (p_strict o).

(** The part of [read] below the probe of the compression: the local
    [compression] is known, [options] are the options of the call. *)
Definition read_rest (read : PartialReadOptions -> result error NBTData)
  (fuel : nat) (d : list byte) (reader : NBTReader) (options : PartialReadOptions)
  (compression : option Compression) : result error NBTData :=
  match p_endian options with
  | None =>
      try_catch (read (with_endian options big)) (fun error =>
        try_catch (read (with_endian options little)) (fun _ =>
          try_catch (read (with_endian options little_varint)) (fun _ =>
            Throw error)))
  | Some endian =>
      match p_rootName options with
      | None =>
          try_catch (read (with_rootName options (RNbool true))) (fun error =>
            try_catch (read (with_rootName options (RNbool false))) (fun _ =>
              Throw error))
      | Some rootName =>
          let decompressed :=
            match compression with
            | None => Ok d
            | Some c => decompress d c
            end in
          match decompressed with
          | Ok _ =>
              let bedrock :=
                match p_bedrockLevel options with
                | Some b => Ok b
                | None =>
                    match hasBedrockLevelHeader reader endian with
                    | Ok b => Ok (BLbool b)
                    | Throw e => Throw e
                    | Diverge => Diverge
                    | Untracked => Untracked
                    end
                end in
              match bedrock with
              | Ok bedrockLevel =>
                  readRoot fuel reader
                    (mkReadOptions rootName endian compression bedrockLevel
                       (match p_strict options with Some s => s | None => true end))
              | Throw e => Throw e
              | Diverge => Diverge
              | Untracked => Untracked
              end
          | Throw e => Throw e
          | Diverge => Diverge
          | Untracked => Untracked
          end
      end
  end.

(** [read(data, options)].  The function calls itself with one more
    option fixed; [depth] bounds the nesting of these calls, which is at
    most three. *)
Fixpoint read_rec (depth : nat) (fuel : nat) (d : list byte)
  (options : PartialReadOptions) : result error NBTData :=
  match depth with
  | O => Diverge
  | S depth' =>
      let reader :=
        mkReader d
          (match p_endian options with Some big => false | _ => true end)
          (match p_endian options with Some little_varint => true | _ => false end) in
      let read := read_rec depth' fuel d in
      match p_compression options with
      | Some compression => read_rest read fuel d reader options compression
      | None =>
          match hasGzipHeader reader with
          | Ok true => read_rest read fuel d reader options (Some gzip)
          | Ok false =>
              match hasZlibHeader reader with
              | Ok true => read_rest read fuel d reader options (Some deflate)
              | Ok false =>
                  try_catch (read (with_compression options None)) (fun error =>
                    try_catch (read (with_compression options (Some deflate_raw)))
                      (fun _ => Throw error))
              | Throw e => Throw e
              | Diverge => Diverge
              | Untracked => Untracked
              end
          | Throw e => Throw e
          | Diverge => Diverge
          | Untracked => Untracked
          end
      end
  end.

Definition read (fuel : nat) (d : list byte) (options : PartialReadOptions)
  : result error NBTData :=
  read_rec 4 fuel d options.

End WithCompression.

End Read.

(* ================================================================== *)
(** * The binary writer ([src/write.ts]) *)

Module Write.

Inductive error : Type :=
| TypeError_endian
    (* "Endian option must be a valid endian type" *)
| TypeError_list
    (* "Encountered unexpected item type in array, all tags in a List
       tag must be of the same type" *)
| CompressError.
    (* raised by the compression service *)

(** The writer stores at [#byteOffset] and moves the cursor past what it
    stored, after [#allocate] has made room; the result of [write] is
    the prefix of the buffer up to the cursor.  Each method is modelled
    by the bytes it appends to that prefix. *)
Definition W : Type := result error (list byte).

Definition seq_w (a b : W) : W :=
  match a with
  | Ok x => match b with
            | Ok y => Ok (x ++ y)
            | Throw e => Throw e
            | Diverge => Diverge
            | Untracked => Untracked
            end
  | Throw e => Throw e
  | Diverge => Diverge
  | Untracked => Untracked
  end.

Infix "+++" := seq_w (at level 60, right associativity).

Section Writer.

Variable littleEndian : bool.

Definition writeUnsignedByte (value : Z) : W := Ok [byte_of value].
Definition writeTagType (type : TAG) : W := writeUnsignedByte (TAG_id type).
Definition writeByte (value : Z) : W := Ok [byte_of value].
Definition writeUnsignedShort (value : Z) : W := Ok (set_uint littleEndian 2 value).
Definition writeShort (value : Z) : W := Ok (set_uint littleEndian 2 value).
Definition writeInt (value : Z) : W := Ok (set_uint littleEndian 4 value).
Definition writeLong (value : Z) : W := Ok (set_uint littleEndian 8 value).
Definition writeFloat (value : spec_float) : W := Ok (setFloat32 littleEndian value).
Definition writeDouble (value : spec_float) : W := Ok (setFloat64 littleEndian value).

(** [#writeByteArray(value)] *)
Definition writeByteArray (value : list Z) : W :=
  writeInt (Z.of_nat (List.length value)) +++ Ok (map byte_of value).

(** [#writeString(value)]: the bytes of [TextEncoder.encode]. *)
Definition writeString (value : jsstring) : W :=
  let entry := utf8_encode value in
  writeUnsignedShort (Z.of_nat (List.length entry)) +++ Ok entry.

(** [#writeIntArray(value)] *)
Definition writeIntArray (value : list Z) : W :=
  writeInt (Z.of_nat (List.length value))
  +++ fold_right (fun entry rest => writeInt entry +++ rest) (Ok []) value.

(** [#writeLongArray(value)] *)
Definition writeLongArray (value : list Z) : W :=
  writeInt (Z.of_nat (List.length value))
  +++ fold_right (fun entry rest => writeLong entry +++ rest) (Ok []) value.

(** [Number(value)] of a [ByteTag | BooleanTag] *)
Definition Number_of_bool (b : bool) : Z := if b then 1 else 0.

Definition type_of (value : Tag) : TAG :=
  match getTagType value with
  | Some t => t
  | None => END
  end.

(** [#writeTag(value)], with [#writeList] and [#writeCompound].  The
    filter of [#writeList] and the [continue] of [#writeCompound] drop
    the entries whose [getTagType] is [null]; a value of [Tag] always
    has a tag type. *)
Fixpoint writeTag (value : Tag) : W :=
  match value with
  | BooleanTag b => writeByte (Number_of_bool b)
  | ByteTag v => writeByte v
  | ShortTag v => writeShort v
  | IntTag v => writeInt v
  | LongTag v => writeLong v
  | FloatTag v => writeFloat v
  | DoubleTag v => writeDouble v
  | ByteArrayTag l => writeByteArray l
  | StringTag s => writeString s
  | ListTag l =>
      let type := match l with
                  | [] => END
                  | first :: _ => type_of first
                  end in
      writeTagType type
      +++ writeInt (Z.of_nat (List.length l))
      +++ (fix entries (l : list Tag) : W :=
             match l with
             | [] => Ok []
             | entry :: rest =>
                 if TAG_eqb (type_of entry) type
                 then writeTag entry +++ entries rest
                 else Throw TypeError_list
             end) l
  | CompoundTag l =>
      (fix entries (l : list (jsstring * Tag)) : W :=
         match l with
         | [] => Ok []
         | (name, entry) :: rest =>
             writeTagType (type_of entry)
             +++ writeString name
             +++ writeTag entry
             +++ entries rest
         end) l
      +++ writeTagType END
  | IntArrayTag l => writeIntArray l
  | LongArrayTag l => writeLongArray l
  end.

(** [#writeCompound(value)] *)
Definition writeCompound (value : list (jsstring * Tag)) : W :=
  writeTag (CompoundTag value).

End Writer.

(** [NBTWriter.write(data, { name, endian })]: the root is written as
    a compound. *)
Definition NBTWriter_write (data : list (jsstring * Tag)) (name : option jsstring)
  (endian : Endian) : W :=
  match endian with
  | little_varint => Throw TypeError_endian
  | _ =>
      let littleEndian := match endian with little => true | _ => false end in
      writeTagType COMPOUND
      +++ match name with
          | Some n => writeString littleEndian n
          | None => Ok []
          end
      +++ writeCompound littleEndian data
  end.

Record WriteOptions : Type := mkWriteOptions {
  name : option jsstring;
  endian : Endian;
  compression : option Compression;
  bedrockLevel : option Z
}.

Section WithCompression.

(** [compress(data, format)] of [compression.js], the external
    compression service. *)
Variable compress : list byte -> Compression -> W.

(** [write(data, options)] *)
Definition write (data : list (jsstring * Tag)) (o : WriteOptions) : W :=
  match endian o with
  | little_varint => Throw TypeError_endian
  | _ =>
      match NBTWriter_write data (name o) (endian o) with
      | Ok result =>
          let result :=
            match bedrockLevel o with
            | Some version =>
                set_uint true 4 version
                  ++ set_uint true 4 (Z.of_nat (List.length result)) ++ result
            | None => result
            end in
          match compression o with
          | Some c => compress result c
          | None => Ok result
          end
      | Throw e => Throw e
      | Diverge => Diverge
      | Untracked => Untracked
      end
  end.

End WithCompression.

End Write.

(* ================================================================== *)
(** * Characters, patterns and decimal numerals of SNBT *)

Module Text.

(** In the patterns quoted below a space is written between a star and
    a closing parenthesis. *)

Definition ch (a : ascii) : char := Z.of_N (N_of_ascii a).

Definition char_eqb (a b : char) : bool := Z.eqb a b.

Definition is_digit (c : char) : bool := (48 <=? c) && (c <=? 57).
Definition is_digit19 (c : char) : bool := (49 <=? c) && (c <=? 57).
Definition is_lower (c : char) : bool := (97 <=? c) && (c <=? 122).
Definition is_upper (c : char) : bool := (65 <=? c) && (c <=? 90).
Definition is_sign (c : char) : bool := (c =? 45) || (c =? 43).

(** The class "[0-9a-z_\-.+]" under the flag [i]. *)
Definition is_unquoted (c : char) : bool :=
  is_digit c || is_lower c || is_upper c
  || (c =? 95) || (c =? 45) || (c =? 46) || (c =? 43).

(** [WHITESPACE_PATTERN.test(c)] on one character: the class [\s]. *)
Definition is_whitespace (c : char) : bool :=
  ((9 <=? c) && (c <=? 13)) || (c =? 32) || (c =? 160) || (c =? 5760)
  || ((8192 <=? c) && (c <=? 8202)) || (c =? 8232) || (c =? 8233)
  || (c =? 8239) || (c =? 8287) || (c =? 12288) || (c =? 65279).

(** "/^[0-9a-z_\-.+]+$/i".test(key) *)
Definition UNQUOTED_STRING_PATTERN (key : jsstring) : bool :=
  match key with
  | [] => false
  | _ => forallb is_unquoted key
  end.

(** The longest prefix of characters of a class, and what follows it. *)
Fixpoint span (p : char -> bool) (s : jsstring) : jsstring * jsstring :=
  match s with
  | [] => ([], [])
  | c :: r => if p c then let (a, b) := span p r in (c :: a, b) else ([], s)
  end.

(** s.match("/^[0-9a-z_\-.+]+/i"): the matched prefix, [None] for
    [null]. *)
Definition UNQUOTED_STRING_OPEN_PATTERN (s : jsstring) : option jsstring :=
  match fst (span is_unquoted s) with
  | [] => None
  | m => Some m
  end.

(** A pattern "^(body)([xyz]?)$": no body below ends in a character of
    its suffix class, so the suffix group is the last character when
    that is in the class and is empty otherwise. *)
Definition split_suffix (p : char -> bool) (s : jsstring) : jsstring * jsstring :=
  match rev s with
  | c :: r => if p c then (rev r, [c]) else (s, [])
  | [] => (s, [])
  end.

Definition strip_sign (s : jsstring) : jsstring :=
  match s with
  | c :: r => if is_sign c then r else s
  | [] => s
  end.

(** The first group of the integer pattern, "[-+]?(?:0|[1-9][0-9]* )". *)
Definition integer_body (s : jsstring) : bool :=
  match strip_sign s with
  | [] => false
  | c :: r => ((c =? 48) && match r with [] => true | _ => false end)
              || (is_digit19 c && forallb is_digit r)
  end.

(** INTEGER_PATTERN = "/^([-+]?(?:0|[1-9][0-9]* ))([bls]?)$/i": the two
    groups of a match. *)
Definition is_bls (c : char) : bool :=
  (c =? 98) || (c =? 108) || (c =? 115) || (c =? 66) || (c =? 76) || (c =? 83).

Definition INTEGER_PATTERN (s : jsstring) : option (jsstring * jsstring) :=
  let (value, suffix) := split_suffix is_bls s in
  if integer_body value then Some (value, suffix) else None.

(** "(?:e[-+]?[0-9]+)?" up to the end of the body *)
Definition exponent_opt (s : jsstring) : bool :=
  match s with
  | [] => true
  | c :: r =>
      ((c =? 101) || (c =? 69))
      && match strip_sign r with
         | [] => false
         | ds => forallb is_digit ds
         end
  end.

(** The first group of the float pattern,
    "[-+]?(?:[0-9]+[.]?|[0-9]*[.][0-9]+)(?:e[-+]?[0-9]+)?". *)
Definition float_body (s : jsstring) : bool :=
  let (d1, r1) := span is_digit (strip_sign s) in
  match r1 with
  | c :: r2 =>
      if c =? 46 then
        let (d2, r3) := span is_digit r2 in
        match d1, d2 with
        | [], [] => false
        | _, [] => exponent_opt r2
        | _, _ => exponent_opt r3
        end
      else match d1 with [] => false | _ => exponent_opt r1 end
  | [] => match d1 with [] => false | _ => true end
  end.

(** FLOAT_PATTERN =
    "/^([-+]?(?:[0-9]+[.]?|[0-9]*[.][0-9]+)(?:e[-+]?[0-9]+)?)([df]?)$/i" *)
Definition is_df (c : char) : bool :=
  (c =? 100) || (c =? 102) || (c =? 68) || (c =? 70).

Definition FLOAT_PATTERN (s : jsstring) : option (jsstring * jsstring) :=
  let (value, suffix) := split_suffix is_df s in
  if float_body value then Some (value, suffix) else None.

(** BOOLEAN_PATTERN = "/^(true|false)$/" *)
Definition BOOLEAN_PATTERN (s : jsstring) : bool :=
  str_eqb s (js "true") || str_eqb s (js "false").

(** ** Decimal numerals

    [String(n)] of an integral Number below 1e21 in magnitude, and of a
    bigint, is the decimal numeral, with [-] for a negative one. *)

Fixpoint digits_fuel (fuel : nat) (n : Z) (acc : jsstring) : jsstring :=
  match fuel with
  | O => acc
  | S fuel' =>
      let acc' := (48 + n mod 10) :: acc in
      if n <? 10 then acc' else digits_fuel fuel' (n / 10) acc'
  end.

Definition digits (n : Z) : jsstring :=
  digits_fuel (S (Z.to_nat (Z.log2 n))) n [].

Definition decimal (z : Z) : jsstring :=
  if z <? 0 then 45 :: digits (- z) else digits z.

(** The integer a signed decimal numeral denotes. *)
Definition digits_value (s : jsstring) : Z :=
  fold_left (fun acc c => acc * 10 + (c - 48)) s 0.

Definition integer_value (s : jsstring) : Z :=
  match s with
  | c :: r => if c =? 45 then - digits_value r
              else if c =? 43 then digits_value r
              else digits_value s
  | [] => 0
  end.

(** [Number(value)] of a match of the integer pattern, where every use
    of it is an operand of a 32-bit operator: the integer nearest to
    the numeral among the binary64 values, ties to even; a numeral that
    rounds to an infinity counts as 0, which is its ToInt32. *)
Definition nearest_double (z : Z) : Z :=
  let a := Z.abs z in
  if a <? 2 ^ 53 then z
  else
    let k := Z.log2 a - 52 in
    let q := a / 2 ^ k in
    let r := a mod 2 ^ k in
    let half := 2 ^ (k - 1) in
    let q' := if (half <? r) || ((r =? half) && Z.odd q) then q + 1 else q in
    let m := q' * 2 ^ k in
    if 2 ^ 1024 <=? m then 0 else Z.sgn z * m.

Definition Number_of_integer (value : jsstring) : Z :=
  nearest_double (integer_value value).

(** [BigInt(value)] of a match of the integer pattern. *)
Definition BigInt_of_integer (value : jsstring) : Z := integer_value value.

End Text.

Import Text.

(* ================================================================== *)
(** * The SNBT writer ([stringify], [SNBTWriter]) *)

Module Stringify.

(** [text.replace(SINGLE_QUOTE_ESCAPE_PATTERN, escapeChar)] and
    [text.replace(DOUBLE_QUOTE_ESCAPE_PATTERN, escapeChar)]: the global
    patterns are the class of the quote [q] and the backslash, so they
    match one character at a time, and [escapeChar] puts a backslash in
    front of it. *)
Definition escapeChar (char : char) : jsstring := [92; char].

Definition replace_escape (q : char) (text : jsstring) : jsstring :=
  flat_map (fun c => if (c =? q) || (c =? 92) then escapeChar c else [c]) text.

(** [escapeWithQuotes(text)] of the command-line front end *)
Definition escapeWithQuotes (text : jsstring) : jsstring :=
  let singleQuoteString := replace_escape 39 text in
  let doubleQuoteString := replace_escape 34 text in
  if (List.length singleQuoteString <? List.length doubleQuoteString)%nat
  then [39] ++ singleQuoteString ++ [39]
  else [34] ++ doubleQuoteString ++ [34].

(** [SNBTWriter.#writeString(value)] *)
Definition writeString (value : jsstring) : jsstring :=
  let singleQuoteString := replace_escape 39 value in
  let doubleQuoteString := replace_escape 34 value in
  if (List.length singleQuoteString <? List.length doubleQuoteString)%nat
  then [39] ++ singleQuoteString ++ [39]
  else [34] ++ doubleQuoteString ++ [34].

(** [Array.prototype.join(separator)] of strings *)
Fixpoint join (sep : jsstring) (l : list jsstring) : jsstring :=
  match l with
  | [] => []
  | [x] => x
  | x :: r => x ++ sep ++ join sep r
  end.

(** [space.repeat(n)] *)
Fixpoint repeat_str (s : jsstring) (n : nat) : jsstring :=
  match n with
  | O => []
  | S n' => s ++ repeat_str s n'
  end.

Section Writer.

(** [String(value)] of a Number ([Number::toString]). *)
Variable NumberToString : spec_float -> jsstring.

(** [#space] *)
Variable space : jsstring.

Definition fancy : bool := negb (str_eqb space []).

Definition writeByte (value : Z) : jsstring := decimal value ++ js "b".
Definition writeBoolean (value : bool) : jsstring :=
  if value then js "true" else js "false".
Definition writeShort (value : Z) : jsstring := decimal value ++ js "s".
Definition writeInt (value : Z) : jsstring := decimal value.
Definition writeLong (value : Z) : jsstring := decimal value ++ js "l".
Definition writeFloat (value : spec_float) : jsstring := NumberToString value ++ js "f".
Definition writeDouble (value : spec_float) : jsstring := NumberToString value ++ js "d".

(** [#writeByteArray(value)]: the entries are wrapped with [Int8]. *)
Definition writeByteArray (value : list Z) : jsstring :=
  js "[B;" ++ join (js ",") (map (fun entry => writeByte (Primitive.Byte entry)) value)
  ++ js "]".

(** [#writeIntArray(value)]: the entries are wrapped with [Int32]. *)
Definition writeIntArray (value : list Z) : jsstring :=
  js "[I;" ++ join (js ",") (map (fun entry => writeInt (Primitive.Int entry)) value)
  ++ js "]".

Definition writeLongArray (value : list Z) : jsstring :=
  js "[L;" ++ join (js ",") (map writeLong value) ++ js "]".

(** The set of [#writeList] whose members make an indented list. *)
Definition is_complex (type : TAG) : bool :=
  match type with
  | BYTE_ARRAY | LIST | COMPOUND | INT_ARRAY | LONG_ARRAY => true
  | _ => false
  end.

Definition list_type (value : list Tag) : TAG :=
  match value with
  | [] => END
  | first :: _ => match getTagType first with Some t => t | None => END end
  end.

Definition writeKey (key : jsstring) : jsstring :=
  if UNQUOTED_STRING_PATTERN key then key else writeString key.

(** Modelled from the spec: [sanitizeList] and [sanitizeCompound] of
    [tag.ts], which is not among the sources, drop the entries whose
    [getTagType] is [null]; a value of [Tag] always has a tag type and
    is kept.

    [#writeTag(value)], with [#writeList] and [#writeCompound].
    [#level] is raised by one around the call for an entry and lowered
    after it, so it is the depth of the container written, here the
    argument [level]. *)
Fixpoint writeTag (level : nat) (value : Tag) : jsstring :=
  match value with
  | BooleanTag b => writeBoolean b
  | ByteTag v => writeByte v
  | ShortTag v => writeShort v
  | IntTag v => writeInt v
  | LongTag v => writeLong v
  | FloatTag v => writeFloat v
  | DoubleTag v => writeDouble v
  | ByteArrayTag l => writeByteArray l
  | StringTag s => writeString s
  | ListTag value =>
      let isIndentedList := fancy && is_complex (list_type value) in
      js "["
      ++ join (js "," ++ (if fancy && negb isIndentedList then js " " else []))
           (map (fun entry =>
                   (if isIndentedList then [10] ++ repeat_str space level else [])
                   ++ writeTag (S level) entry) value)
      ++ (if isIndentedList then [10] ++ repeat_str space (level - 1) else [])
      ++ js "]"
  | CompoundTag value =>
      js "{"
      ++ join (js ",")
           (map (fun kv =>
                   (if fancy then [10] ++ repeat_str space level else [])
                   ++ writeKey (fst kv) ++ js ":"
                   ++ (if fancy then js " " else [])
                   ++ writeTag (S level) (snd kv)) value)
      ++ (if fancy && negb (match value with [] => true | _ => false end)
          then [10] ++ repeat_str space (level - 1) else [])
      ++ js "}"
  | IntArrayTag l => writeIntArray l
  | LongArrayTag l => writeLongArray l
  end.

Definition writeList (level : nat) (value : list Tag) : jsstring :=
  writeTag level (ListTag value).

Definition writeCompound (level : nat) (value : list (jsstring * Tag)) : jsstring :=
  writeTag level (CompoundTag value).

(** [SNBTWriter.write(data, { space })]: [#level = 1], the root is
    written as a compound. *)
Definition write (data : list (jsstring * Tag)) : jsstring :=
  writeCompound 1 data.

End Writer.

(** [options.space]: a string, or a number of spaces. *)
Inductive Space : Type :=
| SpaceString (s : jsstring)
| SpaceNumber (n : nat).

(** [stringify(data, { space })], where [space] defaults to the empty
    string. *)
Definition stringify (NumberToString : spec_float -> jsstring)
  (data : list (jsstring * Tag)) (space : Space) : jsstring :=
  write NumberToString
    (match space with
     | SpaceString s => s
     | SpaceNumber n => repeat_str [32] n
     end) data.

End Stringify.

(* ================================================================== *)
(** * The SNBT reader ([parse], [SNBTReader]) *)

Module Parse.

Inductive error : Type :=
| Expected (character : char)            (* "Expected '...'" *)
| ExpectedTag                            (* "Expected tag" *)
| UnexpectedCharacter (c : option char)  (* "... while reading tag" *)
| UnexpectedEndOfEscape                  (* "Unexpected end while reading escape sequence" *)
| InvalidEscape (c : char)               (* "Invalid escape character '...'" *)
| MissingEndQuote                        (* "Missing end quote" *)
| InvalidArrayType (c : option char)     (* "Invalid array type '...'" *)
| UnexpectedAtEndOfTag (c : option char) (* "Unexpected character '...' at end of tag" *)
| ExpectedTagOrBracket                   (* "Expected tag or ']'" *)
| UnexpectedInCompound (c : option char) (* "... while expecting key-value pair or '}'" *)
| EmptyKey                               (* "Key cannot be empty" *)
| ExpectedPairOrBrace                    (* "Expected key-value pair or '}'" *)
| NonWhitespaceAfterTag                  (* "Unexpected non-whitespace character after tag" *)
| TypeError_store.                       (* a typed array refuses the value stored *)

Section Reader.

(** [Number(value)] of a match of the float pattern (StringToNumber). *)
Variable StringToNumber : jsstring -> spec_float.

(** The Number a typed array of Numbers stores for a tag that is not
    a wrapper, a boolean or a Number (ToNumber of a string, an array or
    an object), and the bigint a [BigInt64Array] stores for a tag that
    is not a bigint or a boolean (ToBigInt), if any. *)
Variable ToNumber_other : Tag -> spec_float.
Variable ToBigInt_other : Tag -> option Z.

(** [#data]; the cursor [#byteOffset] is the state every method
    threads. *)
Variable data : jsstring.

Definition P (A : Type) : Type := nat -> result error (A * nat).

(** [#allocate(byteLength)] *)
Definition allocate (byteLength : nat) (o : nat) : bool :=
  (o + byteLength <=? List.length data)%nat.

(** [#peek(byteOffset)]: [None] is [undefined]. *)
Definition peek (byteOffset : nat) (o : nat) : option char :=
  nth_error data (o + byteOffset).

(** [#peek(-1)] *)
Definition peek_back (o : nat) : option char :=
  match o with
  | O => None
  | S o' => nth_error data o'
  end.

Definition peek_is (c : char) (byteOffset o : nat) : bool :=
  match peek byteOffset o with
  | Some c' => c' =? c
  | None => false
  end.

(** [#data.slice(from, to)] *)
Definition slice (from to : nat) : jsstring :=
  firstn (to - from) (skipn from data).

(** [#skipWhitespace()]: the cursor moves over the whitespace at it. *)
Fixpoint count_whitespace (s : jsstring) : nat :=
  match s with
  | c :: r => if is_whitespace c then S (count_whitespace r) else O
  | [] => O
  end.

Definition skipWhitespace (o : nat) : nat :=
  (o + count_whitespace (skipn o data))%nat.

(** [#skipSeperator()] *)
Definition skipSeperator (o : nat) : bool * nat :=
  let o := skipWhitespace o in
  if negb (allocate 1 o) || negb (peek_is 44 0 o) then (false, o)
  else (true, skipWhitespace (o + 1)).

(** [#expect(character)] *)
Definition expect (character : char) : P unit :=
  fun o =>
    if negb (allocate 1 o) || negb (peek_is character 0 o)
    then Throw (Expected character)
    else Ok (tt, (o + 1)%nat).

(** [#readUnquotedString()] *)
Definition readUnquotedString (o : nat) : option (jsstring * nat) :=
  match UNQUOTED_STRING_OPEN_PATTERN (skipn o data) with
  | None => None
  | Some m => Some (m, (o + List.length m)%nat)
  end.

(** The loop of [#readQuotedString]; [rest] is the input from the
    cursor [o] on. *)
Fixpoint readQuotedString_loop (quoteChar : char) (rest : jsstring)
  (o lastPos : nat) (string : jsstring) : result error (jsstring * nat) :=
  match rest with
  | [] => Throw MissingEndQuote
  | char :: rest' =>
      let o := S o in
      if char =? 92 then
        match rest' with
        | [] => Throw UnexpectedEndOfEscape
        | escapeChar :: rest'' =>
            if negb (escapeChar =? quoteChar) && negb (escapeChar =? 92)
            then Throw (InvalidEscape escapeChar)
            else
              readQuotedString_loop quoteChar rest'' (S o) (S o)
                (string ++ slice lastPos (o - 1) ++ [escapeChar])
        end
      else if char =? quoteChar then
        Ok (string ++ slice lastPos (o - 1), o)
      else readQuotedString_loop quoteChar rest' o lastPos string
  end.

(** [#readQuotedString(quoteChar)] *)
Definition readQuotedString (quoteChar : char) : P jsstring :=
  fun o => readQuotedString_loop quoteChar (skipn (S o) data) (S o) (S o) [].

Definition is_quote (c : char) : bool := (c =? 34) || (c =? 39).

(** [#readString()]: [None] is [null]. *)
Definition readString : P (option jsstring) :=
  fun o =>
    match peek 0 o with
    | Some char =>
        if is_quote char then
          match readQuotedString char o with
          | Ok (s, o') => Ok (Some s, o')
          | Throw e => Throw e
          | Diverge => Diverge
          | Untracked => Untracked
          end
        else
          match readUnquotedString o with
          | Some (s, o') => Ok (Some s, o')
          | None => Ok (None, o)
          end
    | None =>
        match readUnquotedString o with
        | Some (s, o') => Ok (Some s, o')
        | None => Ok (None, o)
        end
    end.

(** Modelled from the spec: [Int8], [Int16], [Int32] and [Float32] of
    the [primitive.js] this reader imports, as in [Read]. *)
Definition Int8 := Primitive.Byte.
Definition Int16 := Primitive.Short.
Definition Int32 := Primitive.Int.
Definition Float32 := fround.

Definition has_suffix (suffix : jsstring) (lower upper : char) : bool :=
  match suffix with
  | [c] => (c =? lower) || (c =? upper)
  | _ => false
  end.

(** [#readInteger([_, value, suffix])] *)
Definition readInteger (value suffix : jsstring) : Tag :=
  if has_suffix suffix 98 66 then ByteTag (Int8 (Number_of_integer value))
  else if has_suffix suffix 115 83 then ShortTag (Int16 (Number_of_integer value))
  else if has_suffix suffix 108 76 then LongTag (BigInt_of_integer value)
  else IntTag (Int32 (Number_of_integer value)).

(** [#readFloat([_, value, suffix])] *)
Definition readFloat (value suffix : jsstring) : Tag :=
  if has_suffix suffix 102 70 then FloatTag (Float32 (StringToNumber value))
  else DoubleTag (StringToNumber value).

(** [Boolean(string)]: a string is truthy unless it is empty. *)
Definition Boolean (string : jsstring) : bool :=
  match string with
  | [] => false
  | _ => true
  end.

(** The tag of an unquoted token, the last part of [#readTag].  None of
    the three conversions raises, so the [catch] is not entered. *)
Definition readToken (string : jsstring) : Tag :=
  match INTEGER_PATTERN string with
  | Some (value, suffix) => readInteger value suffix
  | None =>
      match FLOAT_PATTERN string with
      | Some (value, suffix) => readFloat value suffix
      | None =>
          if BOOLEAN_PATTERN string then BooleanTag (Boolean string)
          else StringTag string
      end
  end.

(** The integral part of a Number, 0 for a NaN or an infinity: the
    first step of the conversion a typed array of integers applies to
    the value stored in it. *)
Definition integral (v : spec_float) : Z :=
  match v with
  | S754_finite s m e =>
      cond_Zopp s (if e <? 0 then Zpos m / 2 ^ (- e) else Zpos m * 2 ^ e)
  | _ => 0
  end.

(** [tags[i].valueOf()] as the Number a typed array stores; a bigint
    is refused. *)
Definition valueOf_Number (t : Tag) : result error Z :=
  match t with
  | BooleanTag b => Ok (if b then 1 else 0)
  | ByteTag v | ShortTag v | IntTag v => Ok v
  | LongTag _ => Throw TypeError_store
  | FloatTag v | DoubleTag v => Ok (integral v)
  | _ => Ok (integral (ToNumber_other t))
  end.

(** [entries[i]] as the bigint a [BigInt64Array] stores; a Number is
    refused. *)
Definition valueOf_BigInt (t : Tag) : result error Z :=
  match t with
  | BooleanTag b => Ok (if b then 1 else 0)
  | LongTag v => Ok v
  | ByteTag _ | ShortTag _ | IntTag _ | FloatTag _ | DoubleTag _ =>
      Throw TypeError_store
  | _ => match ToBigInt_other t with
         | Some v => Ok v
         | None => Throw TypeError_store
         end
  end.

Fixpoint store_all (conv : Tag -> result error Z) (w : Z) (tags : list Tag)
  : result error (list Z) :=
  match tags with
  | [] => Ok []
  | t :: r =>
      match conv t with
      | Ok v =>
          match store_all conv w r with
          | Ok vs => Ok (wrap w v :: vs)
          | Throw e => Throw e
          | Diverge => Diverge
          | Untracked => Untracked
          end
      | Throw e => Throw e
      | Diverge => Diverge
      | Untracked => Untracked
      end
  end.

(** [#readByteArray(tags)], [#readIntArray(entries)] and
    [#readLongArray(entries)]: the typed array keeps 8, 32 and 64 bits
    of each value. *)
Definition readByteArray (tags : list Tag) : result error Tag :=
  match store_all valueOf_Number 8 tags with
  | Ok l => Ok (ByteArrayTag l)
  | Throw e => Throw e
  | Diverge => Diverge
  | Untracked => Untracked
  end.

Definition readIntArray (entries : list Tag) : result error Tag :=
  match store_all valueOf_Number 32 entries with
  | Ok l => Ok (IntArrayTag l)
  | Throw e => Throw e
  | Diverge => Diverge
  | Untracked => Untracked
  end.

Definition readLongArray (entries : list Tag) : result error Tag :=
  match store_all valueOf_BigInt 64 entries with
  | Ok l => Ok (LongArrayTag l)
  | Throw e => Throw e
  | Diverge => Diverge
  | Untracked => Untracked
  end.

(** The [while] loop of [#readSomeList]. *)
Fixpoint readSomeList_loop (readTag : P Tag) (fuel : nat) (tags : list Tag)
  : P (list Tag) :=
  fun o =>
    match fuel with
    | O => Diverge
    | S fuel' =>
        if allocate 1 o && negb (peek_is 93 0 o) then
          match readTag o with
          | Ok (tag, o) =>
              let tags := tags ++ [tag] in
              let (more, o) := skipSeperator o in
              if more then readSomeList_loop readTag fuel' tags o
              else if negb (peek_is 93 0 o)
                   then Throw (UnexpectedAtEndOfTag (peek 0 o))
                   else Ok (tags, o)
          | Throw e => Throw e
          | Diverge => Diverge
          | Untracked => Untracked
          end
        else Ok (tags, o)
    end.

(** [#readSomeList()] *)
Definition readSomeList (readTag : P Tag) (fuel : nat) : P Tag :=
  fun o =>
    match expect 91 o with
    | Ok (_, o) =>
        let prefix :=
          if allocate 2 o && peek_is 59 1 o then
            match peek 0 o with
            | Some 66 => Ok (BYTE_ARRAY, (o + 2)%nat)
            | Some 73 => Ok (INT_ARRAY, (o + 2)%nat)
            | Some 76 => Ok (LONG_ARRAY, (o + 2)%nat)
            | c => Throw (InvalidArrayType c)
            end
          else Ok (LIST, o) in
        match prefix with
        | Ok (tagType, o) =>
            let o := skipWhitespace o in
            match readSomeList_loop readTag fuel [] o with
            | Ok (tags, o) =>
                if negb (allocate 1 o) then Throw ExpectedTagOrBracket
                else
                  match expect 93 o with
                  | Ok (_, o) =>
                      match
                        match tagType with
                        | BYTE_ARRAY => readByteArray tags
                        | INT_ARRAY => readIntArray tags
                        | LONG_ARRAY => readLongArray tags
                        | _ => Ok (ListTag tags)
                        end
                      with
                      | Ok t => Ok (t, o)
                      | Throw e => Throw e
                      | Diverge => Diverge
                      | Untracked => Untracked
                      end
                  | Throw e => Throw e
                  | Diverge => Diverge
                  | Untracked => Untracked
                  end
            | Throw e => Throw e
            | Diverge => Diverge
            | Untracked => Untracked
            end
        | Throw e => Throw e
        | Diverge => Diverge
        | Untracked => Untracked
        end
    | Throw e => Throw e
    | Diverge => Diverge
    | Untracked => Untracked
    end.

(** The [while] loop of [#readCompoundTag]. *)
Fixpoint readCompoundTag_loop (readTag : P Tag) (fuel : nat)
  (tag : list (jsstring * Tag)) : P (list (jsstring * Tag)) :=
  fun o =>
    match fuel with
    | O => Diverge
    | S fuel' =>
        if allocate 1 o && negb (peek_is 125 0 o) then
          let o := skipWhitespace o in
          if peek_is 125 0 o then Ok (tag, o)
          else
            match readString o with
            | Ok (None, o) => Throw (UnexpectedInCompound (peek 0 o))
            | Ok (Some [], _) => Throw EmptyKey
            | Ok (Some key, o) =>
                let o := skipWhitespace o in
                match expect 58 o with
                | Ok (_, o) =>
                    match readTag o with
                    | Ok (entry, o) =>
                        match obj_assign tag key entry with
                        | Some tag =>
                            let (more, o) := skipSeperator o in
                            if more then readCompoundTag_loop readTag fuel' tag o
                            else if negb (peek_is 125 0 o)
                                 then Throw (UnexpectedAtEndOfTag (peek 0 o))
                                 else Ok (tag, o)
                        | None => Untracked
                        end
                    | Throw e => Throw e
                    | Diverge => Diverge
                    | Untracked => Untracked
                    end
                | Throw e => Throw e
                | Diverge => Diverge
                | Untracked => Untracked
                end
            | Throw e => Throw e
            | Diverge => Diverge
            | Untracked => Untracked
            end
        else Ok (tag, o)
    end.

(** [#readCompoundTag()] *)
Definition readCompoundTag (readTag : P Tag) (fuel : nat)
  : P (list (jsstring * Tag)) :=
  fun o =>
    let o := skipWhitespace o in
    match expect 123 o with
    | Ok (_, o) =>
        match readCompoundTag_loop readTag fuel [] o with
        | Ok (tag, o) =>
            if negb (allocate 1 o) then Throw ExpectedPairOrBrace
            else Ok (tag, (o + 1)%nat)
        | Throw e => Throw e
        | Diverge => Diverge
        | Untracked => Untracked
        end
    | Throw e => Throw e
    | Diverge => Diverge
    | Untracked => Untracked
    end.

(** [#readTag()] *)
Fixpoint readTag (fuel : nat) : P Tag :=
  fun o =>
    match fuel with
    | O => Diverge
    | S fuel' =>
        let o := skipWhitespace o in
        if negb (allocate 1 o) then Throw ExpectedTag
        else
          match peek 0 o with
          | None => Throw ExpectedTag
          | Some char =>
              if char =? 123 then
                match readCompoundTag (readTag fuel') fuel' o with
                | Ok (tag, o) => Ok (CompoundTag tag, o)
                | Throw e => Throw e
                | Diverge => Diverge
                | Untracked => Untracked
                end
              else if char =? 91 then readSomeList (readTag fuel') fuel' o
              else if is_quote char then
                match readQuotedString char o with
                | Ok (s, o) => Ok (StringTag s, o)
                | Throw e => Throw e
                | Diverge => Diverge
                | Untracked => Untracked
                end
              else
                match readUnquotedString o with
                | None => Throw (UnexpectedCharacter (Some char))
                | Some (string, o) => Ok (readToken string, o)
                end
          end
    end.

(** [SNBTReader.read(data)] *)
Definition read (fuel : nat) : result error (list (jsstring * Tag)) :=
  match readCompoundTag (readTag fuel) fuel 0%nat with
  | Ok (tag, o) =>
      let lastChar := peek_back o in
      let endPos := o in
      let o := skipWhitespace o in
      if allocate 1 o then
        let type := getTagType (CompoundTag tag) in
        if (endPos <? o)%nat
           || match type with Some LIST | Some COMPOUND => true | _ => false end
           || match lastChar with Some c => is_quote c | None => false end
        then Throw NonWhitespaceAfterTag
        else Throw (UnexpectedAtEndOfTag (peek 0 o))
      else Ok tag
  | Throw e => Throw e
  | Diverge => Diverge
  | Untracked => Untracked
  end.

End Reader.

(** [parse(data)].  Every call of [#readTag] and every turn of a loop
    consumes a character, so more fuel than the text has characters is
    never used up. *)
Definition parse (StringToNumber : jsstring -> spec_float)
  (ToNumber_other : Tag -> spec_float) (ToBigInt_other : Tag -> option Z)
  (data : jsstring) : result error (list (jsstring * Tag)) :=
  read StringToNumber ToNumber_other ToBigInt_other data (S (List.length data)).

End Parse.
(* ================================================================== *)
(** * Arithmetic of the 32-bit operators *)

Section Int32Facts.

Lemma ToInt32_range z : int32 (ToInt32 z).
Proof.
  unfold int32, ToInt32.
  pose proof (Z.mod_pos_bound (z + 2 ^ 31) (2 ^ 32) ltac:(lia)). lia.
Qed.

Lemma ToInt32_id z : int32 z -> ToInt32 z = z.
Proof.
  unfold int32, ToInt32. intros H.
  rewrite Z.mod_small; lia.
Qed.

Lemma ToInt32_idem z : ToInt32 (ToInt32 z) = ToInt32 z.
Proof. apply ToInt32_id, ToInt32_range. Qed.

Lemma shl_sar_wrap (w v : Z) :
  0 < w <= 32 ->
  sar (shl v (32 - w)) (32 - w) = wrap w v.
Proof.
  intros Hw. unfold sar, shl, wrap.
  assert (Hk : ToUint32 (32 - w) mod 32 = 32 - w).
  { unfold ToUint32. rewrite (Z.mod_small (32 - w)) by lia.
    apply Z.mod_small; lia. }
  rewrite Hk, ToInt32_idem.
  rewrite Z.shiftl_mul_pow2, Z.shiftr_div_pow2 by lia.
  set (k := 32 - w).
  assert (Hp : 2 ^ 32 = 2 ^ k * 2 ^ w).
  { rewrite <- Z.pow_add_r by lia. f_equal; lia. }
  assert (Hq : 2 ^ 31 = 2 ^ k * 2 ^ (w - 1)).
  { rewrite <- Z.pow_add_r by lia. f_equal; lia. }
  assert (Hk0 : 0 < 2 ^ k) by (apply Z.pow_pos_nonneg; lia).
  assert (Hw0 : 0 < 2 ^ w) by (apply Z.pow_pos_nonneg; lia).
  (* ToInt32 v * 2^k is congruent to v * 2^k modulo 2^32 *)
  assert (E : ToInt32 (ToInt32 v * 2 ^ k)
              = 2 ^ k * ((v + 2 ^ (w - 1)) mod 2 ^ w) - 2 ^ k * 2 ^ (w - 1)).
  { unfold ToInt32 at 1. rewrite <- Hq. f_equal.
    rewrite <- Z.mul_mod_distr_l by lia.
    rewrite <- Hp. rewrite Z.mul_add_distr_l, <- Hq.
    unfold ToInt32.
    rewrite (Z.mul_comm (2 ^ k) v).
    replace (((v + 2 ^ 31) mod 2 ^ 32 - 2 ^ 31) * 2 ^ k + 2 ^ 31)
      with (((v + 2 ^ 31) mod 2 ^ 32) * 2 ^ k + (v * 2 ^ k + 2 ^ 31 - (v + 2 ^ 31) * 2 ^ k)) by lia.
    rewrite (Z.add_comm _ (v * 2 ^ k + 2 ^ 31 - _)).
    rewrite <- Z.add_mod_idemp_r by lia.
    rewrite Z.mul_mod_idemp_l by lia.
    rewrite Z.add_mod_idemp_r by lia.
    f_equal. lia. }
  rewrite E.
  replace (2 ^ k * ((v + 2 ^ (w - 1)) mod 2 ^ w) - 2 ^ k * 2 ^ (w - 1))
    with (((v + 2 ^ (w - 1)) mod 2 ^ w - 2 ^ (w - 1)) * 2 ^ k) by lia.
  apply Z.div_mul. lia.
Qed.

End Int32Facts.

(* ================================================================== *)
(** * The primitive wrappers *)

Section PrimitiveFacts.

Lemma wrap_range w z : 0 < w -> - 2 ^ (w - 1) <= wrap w z < 2 ^ (w - 1).
Proof.
  intros Hw. unfold wrap.
  assert (H2 : 2 ^ w = 2 * 2 ^ (w - 1)).
  { rewrite <- Z.pow_succ_r by lia. f_equal; lia. }
  assert (0 < 2 ^ (w - 1)) by (apply Z.pow_pos_nonneg; lia).
  pose proof (Z.mod_pos_bound (z + 2 ^ (w - 1)) (2 ^ w) ltac:(lia)). lia.
Qed.

Lemma Int_wrap v : Primitive.Int v = wrap 32 v.
Proof.
  unfold Primitive.Int, JS.or.
  change (ToInt32 0) with 0. now rewrite Z.lor_0_r.
Qed.

(** C6, as the specification states it, fails for the Float wrapper: the
    Number 16777217 (2^24 + 1) is not a single-precision value, and
    [new Float(16777217)] holds it unchanged where single-precision
    narrowing gives 16777216. *)
Lemma C6_Float_is_not_narrowed :
  let v := to_double (S754_finite false 16777217 0) in
  Primitive.Float v <> fround v.
Proof. vm_compute. discriminate. Qed.

(** C6 (amended): the integer wrappers store the two's-complement
    truncation of their argument to 8, 16 and 32 bits, which is what
    [v << 24 >> 24], [v << 16 >> 16] and [v | 0] compute, so the stored
    value lies in the declared range; the Float wrapper stores its
    argument unchanged. *)
Theorem C6_wrappers (v : Z) (f : spec_float) :
  (Primitive.Byte v = wrap 8 v /\ - 128 <= Primitive.Byte v < 128) /\
  (Primitive.Short v = wrap 16 v /\ - 32768 <= Primitive.Short v < 32768) /\
  (Primitive.Int v = wrap 32 v /\ int32 (Primitive.Int v)) /\
  Primitive.Float f = f.
Proof.
  assert (B : Primitive.Byte v = wrap 8 v)
    by (exact (shl_sar_wrap 8 v ltac:(lia))).
  assert (S : Primitive.Short v = wrap 16 v)
    by (exact (shl_sar_wrap 16 v ltac:(lia))).
  pose proof (Int_wrap v) as I.
  repeat split; try assumption; try reflexivity.
  - rewrite B. apply (wrap_range 8); lia.
  - rewrite B. apply (wrap_range 8); lia.
  - rewrite S. apply (wrap_range 16); lia.
  - rewrite S. apply (wrap_range 16); lia.
  - rewrite I. apply (wrap_range 32); lia.
  - rewrite I. apply (wrap_range 32); lia.
Qed.

End PrimitiveFacts.

(* ================================================================== *)
(** * Zig-zag decoding *)

Section ZigZag.

Import Read.

(** The formula of the specification, [(n >>> 1) ^ -(n & 1)], on
    32-bit integers. *)
Definition zigzag_reference32 (n : Z) : Z := JS.xor (shr n 1) (- JS.and n 1).

(** The same formula on unbounded integers. *)
Definition zigzag_reference (n : Z) : Z := Z.lxor (Z.shiftr n 1) (- Z.land n 1).

Lemma min_int_lnot_ones : - 2 ^ 31 = Z.lnot (Z.ones 31).
Proof. reflexivity. Qed.

Lemma land_sign_bit m :
  int32 m -> Z.land m (- 2 ^ 31) = if m <? 0 then - 2 ^ 31 else 0.
Proof.
  unfold int32. intros H.
  rewrite min_int_lnot_ones, <- Z.ldiff_land, Z.ldiff_ones_r by lia.
  rewrite Z.shiftr_div_pow2, Z.shiftl_mul_pow2 by lia.
  destruct (Z.ltb_spec m 0).
  - replace (m / 2 ^ 31) with (- 1); [reflexivity|].
    apply Z.div_unique with (r := m + 2 ^ 31); lia.
  - rewrite Z.div_small by lia. reflexivity.
Qed.

Lemma lxor_sign_bit x :
  int32 x -> Z.lxor x (- 2 ^ 31) = if x <? 0 then x + 2 ^ 31 else x - 2 ^ 31.
Proof.
  intros H. pose proof H as H'. unfold int32 in H'.
  destruct (Z.ltb_spec x 0).
  - assert (Hy : int32 (x + 2 ^ 31)) by (unfold int32; lia).
    pose proof (land_sign_bit _ Hy) as L.
    destruct (Z.ltb_spec (x + 2 ^ 31) 0); [lia|].
    apply Z.add_nocarry_lxor in L.
    replace (x + 2 ^ 31 + - 2 ^ 31) with x in L by lia.
    rewrite L at 1.
    rewrite Z.lxor_assoc, Z.lxor_nilpotent, Z.lxor_0_r. reflexivity.
  - pose proof (land_sign_bit _ H) as L.
    destruct (Z.ltb_spec x 0); [lia|].
    apply Z.add_nocarry_lxor in L. rewrite <- L. lia.
Qed.

Lemma land_1 m : Z.land m 1 = m mod 2.
Proof. change 1 with (Z.ones 1) at 1. rewrite Z.land_ones by lia. reflexivity. Qed.

Lemma shl_63 n :
  shl n 63 = if Z.even (ToInt32 n) then 0 else - 2 ^ 31.
Proof.
  unfold shl. change (ToUint32 63 mod 32) with 31.
  set (m := ToInt32 n).
  rewrite Z.shiftl_mul_pow2 by lia.
  rewrite (Z.div_mod m 2) at 1 by lia.
  rewrite Zeven_mod. unfold ToInt32.
  pose proof (Z.mod_pos_bound m 2 ltac:(lia)) as Hr.
  replace ((2 * (m / 2) + m mod 2) * 2 ^ 31 + 2 ^ 31)
    with ((m mod 2) * 2 ^ 31 + 2 ^ 31 + (m / 2) * 2 ^ 32) by lia.
  rewrite Z.mod_add by lia.
  destruct (Z.eqb_spec (m mod 2) 0) as [E|E].
  - rewrite E. reflexivity.
  - replace (m mod 2) with 1 by lia. reflexivity.
Qed.

Lemma zigzag32_reference n : zigzag32 n = zigzag_reference32 n.
Proof.
  unfold zigzag32, zigzag_reference32.
  rewrite shl_63. change (shl 1 63) with (- 2 ^ 31).
  unfold JS.and, JS.xor, sar, shr.
  change (ToUint32 63 mod 32) with 31. change (ToUint32 1 mod 32) with 1.
  change (ToInt32 1) with 1. change (ToInt32 (- 2 ^ 31)) with (- 2 ^ 31).
  pose proof (ToInt32_range n) as Hm.
  assert (Hu : ToUint32 n = if ToInt32 n <? 0 then ToInt32 n + 2 ^ 32 else ToInt32 n).
  { unfold ToUint32, ToInt32 in *. unfold int32 in Hm.
    pose proof (Z.mod_pos_bound n (2 ^ 32) ltac:(lia)).
    pose proof (Z.mod_pos_bound (n + 2 ^ 31) (2 ^ 32) ltac:(lia)).
    rewrite Z.add_mod in * by lia.
    remember (n mod 2 ^ 32) as a.
    change (2 ^ 31 mod 2 ^ 32) with (2 ^ 31) in *.
    destruct (Z_lt_dec a (2 ^ 31)).
    - rewrite (Z.mod_small (a + 2 ^ 31)) in * by lia.
      destruct (Z.ltb_spec (a + 2 ^ 31 - 2 ^ 31) 0); lia.
    - assert (E : (a + 2 ^ 31) mod 2 ^ 32 = a - 2 ^ 31).
      { symmetry. apply Z.mod_unique with (q := 1); lia. }
      rewrite E in *.
      destruct (Z.ltb_spec (a - 2 ^ 31 - 2 ^ 31) 0); lia. }
  rewrite Hu. set (m := ToInt32 n) in *. clearbody m. clear Hu.
  rewrite land_1, land_sign_bit by assumption.
  rewrite Zeven_mod. pose proof Hm as Hi. unfold int32 in Hm.
  pose proof (Z.mod_pos_bound m 2 ltac:(lia)) as Hr.
  rewrite !Z.shiftr_div_pow2 by lia. change (2 ^ 1) with 2.
  pose proof (Z.div_mod m 2 ltac:(lia)) as Hdm.
  destruct (Z.eqb_spec (m mod 2) 0) as [E|E].
  - (* even *)
    rewrite E. change (ToInt32 (ToInt32 0 / 2 ^ 31)) with 0.
    change (ToInt32 (- 0)) with 0.
    rewrite Z.lxor_0_l, (ToInt32_id m) by exact Hi.
    destruct (Z.ltb_spec m 0).
    + change (ToInt32 (- 2 ^ 31)) with (- 2 ^ 31).
      rewrite (ToInt32_id (m / 2)) by (unfold int32; Z.div_mod_to_equations; lia).
      rewrite lxor_sign_bit by (unfold int32; Z.div_mod_to_equations; lia).
      destruct (Z.ltb_spec (m / 2) 0); [|Z.div_mod_to_equations; lia].
      rewrite Z.lxor_0_r. rewrite ToInt32_id by (unfold int32; Z.div_mod_to_equations; lia). Z.div_mod_to_equations; lia.
    + change (ToInt32 0) with 0. reflexivity.
  - (* odd *)
    assert (E1 : m mod 2 = 1) by lia. rewrite E1.
    change (ToInt32 (ToInt32 (- 2 ^ 31) / 2 ^ 31)) with (- 1).
    change (ToInt32 (- (1))) with (- 1).
    rewrite Z.lxor_m1_l, Z.lxor_m1_r.
    rewrite !Z.lnot_eq_pred_opp.
    rewrite (ToInt32_id (- m - 1)) by (unfold int32; Z.div_mod_to_equations; lia).
    destruct (Z.ltb_spec m 0).
    + change (ToInt32 (- 2 ^ 31)) with (- 2 ^ 31).
      rewrite (ToInt32_id ((- m - 1) / 2)) by (unfold int32; Z.div_mod_to_equations; lia).
      rewrite lxor_sign_bit by (unfold int32; Z.div_mod_to_equations; lia).
      destruct (Z.ltb_spec ((- m - 1) / 2) 0); [Z.div_mod_to_equations; lia|].
      rewrite ToInt32_id by (unfold int32; Z.div_mod_to_equations; lia). Z.div_mod_to_equations; lia.
    + change (ToInt32 0) with 0. rewrite Z.lxor_0_r.
      rewrite !ToInt32_id by (unfold int32; Z.div_mod_to_equations; lia). Z.div_mod_to_equations; lia.
Qed.

(** C5: the value [#readVarIntZigZag] returns is the reference formula
    [(n >>> 1) ^ -(n & 1)], in 32-bit arithmetic, of the value [n] its
    loop assembles: the expression of the source,
    [((((n << 63) >> 63) ^ n) >> 1) ^ (n & (1 << 63))], equals that
    formula for every [n]; the value [#readVarLongZigZag] returns is
    the formula on unbounded integers. *)
Theorem C5_zigzag_decoding :
  (forall n, zigzag32 n = zigzag_reference32 n) /\
  (forall fuel r o,
     readVarIntZigZag fuel r o =
     match readVarIntZigZag_loop fuel 0 0 o r o with
     | Ok ((n, size), o') => Ok ((zigzag_reference32 n, size), o')
     | Throw e => Throw e
     | Diverge => Diverge
     | Untracked => Untracked
     end) /\
  (forall fuel r o,
     readVarLongZigZag fuel r o =
     match readVarLongZigZag_loop fuel 0 0 o r o with
     | Ok ((n, size), o') => Ok ((zigzag_reference n, size), o')
     | Throw e => Throw e
     | Diverge => Diverge
     | Untracked => Untracked
     end).
Proof.
  split; [exact zigzag32_reference|]. split.
  - intros fuel r o. unfold readVarIntZigZag, bind, get_byteOffset, ret.
    destruct (readVarIntZigZag_loop fuel 0 0 o r o) as [[[n size] o']| | |];
      cbn; try reflexivity.
    now rewrite zigzag32_reference.
  - intros fuel r o. unfold readVarLongZigZag, bind, get_byteOffset, ret.
    destruct (readVarLongZigZag_loop fuel 0 0 o r o) as [[[n size] o']| | |];
      reflexivity.
Qed.

End ZigZag.

(* ================================================================== *)
(** * Varints of the reader *)

Section Varints.

Import Read.

(** The reader of a buffer read in the [little-varint] dialect. *)
Definition varint_reader (d : list byte) : NBTReader := mkReader d true true.

(** Every option of [read] fixed: no compression, no Bedrock header. *)
Definition pinned (n : RootNameOption) (e : Endian) (strict : bool)
  : PartialReadOptions :=
  mkPartial (Some n) (Some e) (Some None) (Some BLnull) (Some strict).

(** A compound [{a: INT}] in the [little-varint] dialect whose INT is
    the six-byte varint [80 80 80 80 80 01]: the sixth byte is read at
    the shift 35. *)
Definition six_byte_varint : list byte := [x80; x80; x80; x80; x80; x01].

Definition six_byte_int_buffer : list byte :=
  [x0a; x00; x03; x01; x61] ++ six_byte_varint ++ [x00].

(** An eleven-byte varint: ten continuation bytes. *)
Definition eleven_byte_varint : list byte :=
  [x80; x80; x80; x80; x80; x80; x80; x80; x80; x80; x01].

(** C4 fails for the int-sized varints.  [#readVarIntZigZag] compares
    the shift with 63, the limit of a long, so it accepts the six-byte
    varint, whose shift passes 31, and the [<<] of 32-bit integers
    takes the shift modulo 32; [#readVarInt], which reads the string
    lengths, has no limit at all and runs to the end of the buffer.
    Only beyond the shift 63 does [#readVarIntZigZag] fail, as
    [#readVarLongZigZag] does. *)
Theorem C4_int_varint_limit_is_63 (decompress : list byte -> Compression -> result error (list byte)) (fuel : nat) :
  readVarIntZigZag (6 + fuel) (varint_reader six_byte_varint) 0 = Ok ((4, 0), 6) /\
  readVarInt (6 + fuel) (varint_reader six_byte_varint) 0 = Ok (8, 6) /\
  readVarInt (11 + fuel) (varint_reader eleven_byte_varint) 0 = Ok (64, 11) /\
  readVarIntZigZag (11 + fuel) (varint_reader eleven_byte_varint) 0
    = Throw (VarintTooBig 70) /\
  readVarLongZigZag (11 + fuel) (varint_reader eleven_byte_varint) 0
    = Throw (VarintTooBig 70) /\
  read decompress (8 + fuel) six_byte_int_buffer (pinned (RNbool true) little_varint true)
    = Ok (mkNBTData (CompoundTag [(js "a", IntTag 4)]) (Some []) little_varint None BLnull).
Proof. repeat split; vm_compute; reflexivity. Qed.

End Varints.

(* ================================================================== *)
(** * A buffer on which the reader does not return *)

Section Rewind.

Import Read.

(** A named big-endian root compound whose only entry is a BYTE_ARRAY
    with the empty name and the length -7:
    [0A] [00 00] [07] [00 00] [FF FF FF F9]. *)
Definition rewind_buffer : list byte :=
  [x0a; x00; x00; x07; x00; x00; xff; xff; xff; xf9].

Definition rewind_reader : NBTReader := mkReader rewind_buffer false false.

Lemma rewind_tag_type : readTagType rewind_reader 3 = Ok (BYTE_ARRAY, 4).
Proof. reflexivity. Qed.

Lemma rewind_name fuel : readString fuel rewind_reader 4 = Ok ([], 6).
Proof. reflexivity. Qed.

(** The negative length passes [#allocate] and moves the cursor from 10
    back to 3, the offset of the tag id of the entry. *)
Lemma rewind_byte_array fuel :
  readTag (S fuel) BYTE_ARRAY rewind_reader 6 = Ok (ByteArrayTag [], 3).
Proof. reflexivity. Qed.

Lemma rewind_loop fuel fuel' value :
  readCompound_loop (readTag fuel) fuel' value rewind_reader 3 = Diverge.
Proof.
  revert value. induction fuel' as [|fuel' IH]; intros value; [reflexivity|].
  cbn [readCompound_loop]. unfold bind at 1. rewrite rewind_tag_type.
  unfold bind at 1. rewrite rewind_name.
  unfold bind at 1.
  destruct fuel as [|fuel]; [reflexivity|].
  rewrite (rewind_byte_array fuel). apply IH.
Qed.

(** C10 fails: on this buffer the loop of [#readCompound] comes back
    to the offset 3 after every entry, so for no amount of fuel does
    [read] return a tree or an error. *)
Theorem C10_negative_length_never_returns (decompress : list byte -> Compression -> result error (list byte)) (fuel : nat) :
  read decompress fuel rewind_buffer (pinned (RNbool true) big true) = Diverge.
Proof.
  unfold read. cbn [read_rec pinned p_compression p_endian p_rootName
                    p_bedrockLevel p_strict read_rest].
  fold rewind_reader. unfold readRoot.
  cbn [compression Read.data littleEndian varint].
  replace (readRoot_body fuel _ rewind_reader 0) with (@Diverge error (NBTData * Z));
    [reflexivity|].
  unfold readRoot_body.
  cbn [bedrockLevel bedrock_truthy rootName rootName_truthy].
  unfold bind at 1. cbn [ret].
  unfold bind at 1.
  change (readTagType rewind_reader 0) with (@Ok error _ (COMPOUND, 1)).
  cbn iota beta.
  unfold bind at 1. unfold bind at 1.
  change (readString fuel rewind_reader 1) with (@Ok error _ (@nil Z, 3)).
  cbn iota beta. unfold ret at 1. unfold bind at 1.
  destruct fuel as [|fuel]; [reflexivity|].
  cbn [readTag]. unfold readCompound. unfold bind at 1.
  now rewrite rewind_loop.
Qed.

End Rewind.

(* ================================================================== *)
(** * Strings through the reader and the writer *)

Section StringPayload.

Import Read.

(** A named big-endian root compound [{a: STRING}] whose string is the
    two bytes [C0 80], the Modified UTF-8 form of U+0000. *)
Definition nul_string_buffer : list byte :=
  [x0a; x00; x00; x08; x00; x01; x61; x00; x02; xc0; x80; x00].

(** C1 fails on a string payload: [#readString] decodes with the
    Modified UTF-8 decoder and [#writeString] encodes with
    [TextEncoder], that is UTF-8.  The reader turns [C0 80] into the
    string of the one character U+0000, and the writer emits that
    string as the single byte [00] with the length 1, so the bytes
    written differ from the bytes read. *)
Theorem C1_string_payload_is_not_preserved
  (decompress : list byte -> Compression -> result error (list byte))
  (compress : list byte -> Compression -> Write.W) (fuel : nat) :
  read decompress (3 + fuel) nul_string_buffer (pinned (RNbool true) big true)
    = Ok (mkNBTData (CompoundTag [(js "a", StringTag [0])]) (Some []) big None BLnull) /\
  Write.write compress [(js "a", StringTag [0])]
      (Write.mkWriteOptions (Some []) big None None)
    = Ok [x0a; x00; x00; x08; x00; x01; x61; x00; x01; x00; x00] /\
  [x0a; x00; x00; x08; x00; x01; x61; x00; x01; x00; x00] <> nul_string_buffer.
Proof. repeat split; try (vm_compute; reflexivity). discriminate. Qed.

End StringPayload.

(* ================================================================== *)
(** * Booleans of SNBT *)

Section Booleans.

Variable StringToNumber : jsstring -> spec_float.
Variable ToNumber_other : Tag -> spec_float.
Variable ToBigInt_other : Tag -> option Z.
Variable compress : list byte -> Compression -> Write.W.

Let parse := Parse.parse StringToNumber ToNumber_other ToBigInt_other.
Let write_big (data : list (jsstring * Tag)) :=
  Write.write compress data (Write.mkWriteOptions (Some []) big None None).

(** C3 fails for [false]: the token matches the boolean pattern and the
    tag is [Boolean(string)], which is [true] for every string that is
    not empty, so [false] becomes the boolean [true] and is written as
    BYTE 1.  The token [true] becomes BYTE 1 as claimed, and the other
    capitalizations are strings. *)
Theorem C3_false_is_read_as_true :
  parse (js "{a:false}") = Ok [(js "a", BooleanTag true)] /\
  write_big [(js "a", BooleanTag true)]
    = Ok [x0a; x00; x00; x01; x00; x01; x61; x01; x00] /\
  parse (js "{a:true}") = Ok [(js "a", BooleanTag true)] /\
  parse (js "{a:False}") = Ok [(js "a", StringTag (js "False"))] /\
  parse (js "{a:TRUE}") = Ok [(js "a", StringTag (js "TRUE"))].
Proof. repeat split; vm_compute; reflexivity. Qed.

End Booleans.

(* ================================================================== *)
(** * The quotes of a string *)

Section Quotes.

Import Stringify.

Definition single_quote : char := 39.
Definition double_quote : char := 34.
Definition backslash : char := 92.

(** The number of [c] in [s]. *)
Definition occurrences (c : char) (s : jsstring) : nat := count_occ Z.eq_dec s c.

(** The number of characters of [s] that the form quoted with [q]
    escapes. *)
Definition escapes (q : char) (s : jsstring) : nat :=
  List.length (filter (fun c => (c =? q) || (c =? 92)) s).

Lemma length_replace_escape q s :
  List.length (replace_escape q s) = (List.length s + escapes q s)%nat.
Proof.
  unfold replace_escape, escapes.
  induction s as [|c s IH]; [reflexivity|].
  cbn [flat_map filter]. rewrite length_app, IH.
  destruct ((c =? q) || (c =? 92)); cbn; lia.
Qed.

Lemma escapes_occurrences q s :
  q <> backslash -> escapes q s = (occurrences q s + occurrences backslash s)%nat.
Proof.
  intros Hq. unfold escapes, occurrences, backslash in *.
  induction s as [|c s IH]; [reflexivity|].
  cbn [filter count_occ].
  destruct (Z.eqb_spec c q) as [E|E]; destruct (Z.eqb_spec c 92) as [E'|E'];
    destruct (Z.eq_dec c q); destruct (Z.eq_dec c 92);
    cbn [orb List.length]; try lia; congruence.
Qed.

(** The form of [value] quoted with [q]: every [q] and every backslash
    follows a backslash, no other character does. *)
Fixpoint quoted_body (q : char) (value : jsstring) : jsstring :=
  match value with
  | [] => []
  | c :: r =>
      if (c =? q) || (c =? 92) then 92 :: c :: quoted_body q r
      else c :: quoted_body q r
  end.

Lemma replace_escape_quoted_body q s : replace_escape q s = quoted_body q s.
Proof.
  unfold replace_escape. induction s as [|c s IH]; [reflexivity|].
  cbn [flat_map quoted_body]. rewrite IH.
  destruct ((c =? q) || (c =? 92)); reflexivity.
Qed.

(** C8: [#writeString] (and [escapeWithQuotes]) writes the form in
    single quotes exactly when it needs fewer escapes than the form in
    double quotes, which is when the string has fewer single quotes
    than double quotes, and the form in double quotes otherwise, also
    on a tie; in the form chosen the backslash and the chosen quote,
    and no other character, get a backslash in front. *)
Theorem C8_quote_choice (value : jsstring) :
  writeString value =
    (if (escapes single_quote value <? escapes double_quote value)%nat
     then [single_quote] ++ quoted_body single_quote value ++ [single_quote]
     else [double_quote] ++ quoted_body double_quote value ++ [double_quote]) /\
  (escapes single_quote value <? escapes double_quote value)%nat
    = (occurrences single_quote value <? occurrences double_quote value)%nat /\
  escapeWithQuotes value = writeString value.
Proof.
  split; [|split; [|reflexivity]].
  - unfold writeString.
    change 39 with single_quote. change 34 with double_quote.
    rewrite !length_replace_escape, !replace_escape_quoted_body.
    destruct (Nat.ltb_spec (List.length value + escapes single_quote value)
                           (List.length value + escapes double_quote value));
      destruct (Nat.ltb_spec (escapes single_quote value) (escapes double_quote value));
      try reflexivity; lia.
  - rewrite !escapes_occurrences by discriminate.
    destruct (Nat.ltb_spec (occurrences single_quote value + occurrences backslash value)
                           (occurrences double_quote value + occurrences backslash value));
      destruct (Nat.ltb_spec (occurrences single_quote value) (occurrences double_quote value));
      try reflexivity; lia.
Qed.

End Quotes.

(* ================================================================== *)
(** * The probe of the compression *)

Section CompressionProbe.

Import Read.

Variable decompress : list byte -> Compression -> result error (list byte).

(** The two header tests look at the buffer only. *)
Definition gzip_header (d : list byte) : result error bool :=
  hasGzipHeader (mkReader d true false).

Definition zlib_header (d : list byte) : result error bool :=
  hasZlibHeader (mkReader d true false).

Lemma hasGzipHeader_data d le vi :
  hasGzipHeader (mkReader d le vi) = gzip_header d.
Proof. reflexivity. Qed.

Lemma hasZlibHeader_data d le vi :
  hasZlibHeader (mkReader d le vi) = zlib_header d.
Proof. reflexivity. Qed.

Lemma hasGzipHeader_short d le vi :
  (List.length d < 2)%nat -> hasGzipHeader (mkReader d le vi) = Throw RangeError.
Proof.
  intros H. unfold hasGzipHeader, view, byteLength. cbn [Read.data].
  replace (0 + Z.of_nat 2 <=? Z.of_nat (List.length d)) with false; [reflexivity|].
  symmetry. apply Z.leb_gt. lia.
Qed.

(** C9 fails on a buffer of fewer than two bytes: [hasGzipHeader] reads
    an unsigned 16-bit integer at the offset 0 of the view, which
    raises a RangeError there, so [read] selects no compression and
    attempts no decode.  The one byte [78] is not taken for a zlib
    header, and the error of an empty buffer is not the error of the
    attempt without compression. *)
Theorem C9_short_buffer_raises_RangeError (fuel : nat) (d : list byte)
  (options : PartialReadOptions) :
  p_compression options = None ->
  (List.length d < 2)%nat ->
  read decompress fuel d options = Throw RangeError.
Proof.
  intros Hc Hd. unfold read. cbn [read_rec]. rewrite Hc.
  now rewrite hasGzipHeader_short.
Qed.

(** With every option fixed, [read] is [readRoot] after the check that
    the buffer decompresses. *)
Lemma read_rec_pinned depth fuel d n e c b s :
  read_rec decompress (S depth) fuel d (mkPartial (Some n) (Some e) (Some c) (Some b) (Some s))
  = match (match c with None => Ok d | Some c' => decompress d c' end) with
    | Ok _ =>
        readRoot decompress fuel
          (mkReader d (match e with big => false | _ => true end)
                      (match e with little_varint => true | _ => false end))
          (mkReadOptions n e c b s)
    | Throw err => Throw err
    | Diverge => Diverge
    | Untracked => Untracked
    end.
Proof. reflexivity. Qed.

(** A call whose compression is fixed nests at most two more calls. *)
Lemma read_rec_depth fuel d options c :
  p_compression options = Some c ->
  read_rec decompress 3 fuel d options = read_rec decompress 4 fuel d options.
Proof.
  destruct options as [[n|] [e|] [c'|] b s]; cbn [p_compression];
    intros H; try discriminate; reflexivity.
Qed.

(** On a buffer of two bytes or more, [read] without a compression
    option: a buffer that starts with [1F 8B] is read as gzip, one that
    starts with [78] as zlib ([deflate]); any other is first read
    without compression and, if that fails, as raw deflate, and if that
    fails too the error is that of the first attempt. *)
Lemma read_probe_gzip fuel d options :
  p_compression options = None ->
  gzip_header d = Ok true ->
  read decompress fuel d options
  = read decompress fuel d (with_compression options (Some gzip)).
Proof.
  intros Hc Hg. unfold read.
  destruct options as [[n|] [e|] [c'|] b s]; cbn [p_compression] in Hc;
    try discriminate;
    cbn [read_rec read_rest with_compression with_endian with_rootName
         p_compression p_endian p_rootName p_bedrockLevel p_strict];
    rewrite ?hasGzipHeader_data, ?Hg; reflexivity.
Qed.

Lemma read_probe_zlib fuel d options :
  p_compression options = None ->
  gzip_header d = Ok false ->
  zlib_header d = Ok true ->
  read decompress fuel d options
  = read decompress fuel d (with_compression options (Some deflate)).
Proof.
  intros Hc Hg Hz. unfold read.
  destruct options as [[n|] [e|] [c'|] b s]; cbn [p_compression] in Hc;
    try discriminate;
    cbn [read_rec read_rest with_compression with_endian with_rootName
         p_compression p_endian p_rootName p_bedrockLevel p_strict];
    rewrite ?hasGzipHeader_data, ?Hg, ?hasZlibHeader_data, ?Hz; reflexivity.
Qed.

Lemma read_probe_retry fuel d options :
  p_compression options = None ->
  gzip_header d = Ok false ->
  zlib_header d = Ok false ->
  read decompress fuel d options
  = try_catch (read decompress fuel d (with_compression options None))
      (fun error =>
         try_catch (read decompress fuel d (with_compression options (Some deflate_raw)))
           (fun _ => Throw error)).
Proof.
  intros Hc Hg Hz. unfold read.
  rewrite <- (read_rec_depth fuel d (with_compression options None) None eq_refl).
  rewrite <- (read_rec_depth fuel d (with_compression options (Some deflate_raw))
                (Some deflate_raw) eq_refl).
  cbn [read_rec]. rewrite Hc.
  rewrite hasGzipHeader_data, Hg, hasZlibHeader_data, Hz.
  reflexivity.
Qed.

End CompressionProbe.

(** The one byte [78], no option given, a compression service that
    always fails. *)
Lemma C9_short_buffer_witness :
  Read.read (fun _ _ => Throw Read.DecompressError) 0 [x78]
    (Read.mkPartial None None None None None)
  = Throw Read.RangeError.
Proof.
  apply (C9_short_buffer_raises_RangeError
           (fun _ _ => Throw Read.DecompressError) 0 [x78]
           (Read.mkPartial None None None None None)).
  - reflexivity.
  - simpl. lia.
Defined.

(* ================================================================== *)
(** * Bytes after the root *)

Section TrailingBytes.

Import Read.

(** The reader of the same dialect over the buffer followed by [s]. *)
Definition extend (r : NBTReader) (s : list byte) : NBTReader :=
  mkReader (data r ++ s) (littleEndian r) (varint r).

Lemma byteLength_extend r s :
  byteLength (extend r s) = byteLength r + Z.of_nat (List.length s).
Proof. unfold byteLength, extend. cbn [data]. rewrite length_app. lia. Qed.

Lemma byteLength_nonneg r : 0 <= byteLength r.
Proof. unfold byteLength. lia. Qed.

Lemma bind_Ok {A B} (m : M A) (k : A -> M B) r o b o' :
  bind m k r o = Ok (b, o') ->
  exists a o1, m r o = Ok (a, o1) /\ k a r o1 = Ok (b, o').
Proof.
  unfold bind. destruct (m r o) as [[a o1]| | |]; try discriminate.
  intros H. now exists a, o1.
Qed.

Lemma bind_intro {A B} (m : M A) (k : A -> M B) r o a o1 :
  m r o = Ok (a, o1) -> bind m k r o = k a r o1.
Proof. unfold bind. now intros ->. Qed.

(** ** Reads that look at the buffer at the cursor

    A computation is _local_ when a successful run does not move the
    cursor backwards, stays inside the buffer if it moves the cursor at
    all, and runs the same way over a longer buffer. *)
Definition local {A} (m : M A) : Prop :=
  forall r s o a o',
    m r o = Ok (a, o') ->
    o <= o' /\ (o < o' -> 0 <= o /\ o' <= byteLength r) /\
    m (extend r s) o = Ok (a, o').

Definition moves {A} (m : M A) : Prop :=
  forall r o a o', m r o = Ok (a, o') -> o < o'.

Lemma local_ret {A} (a : A) : local (ret a).
Proof.
  intros r s o a' o' H. unfold ret in *. inversion H; subst.
  repeat split; try lia. 
Qed.

Lemma local_throw {A} e : local (@throw A e).
Proof. intros r s o a o' H. discriminate. Qed.

Lemma local_diverge {A} : local (@diverge A).
Proof. intros r s o a o' H. discriminate. Qed.

Lemma local_bind {A B} (m : M A) (k : A -> M B) :
  local m -> (forall a, local (k a)) -> local (bind m k).
Proof.
  intros Hm Hk r s o b o' H.
  apply bind_Ok in H as (a & o1 & H1 & H2).
  destruct (Hm r s o a o1 H1) as (L1 & B1 & E1).
  destruct (Hk a r s o1 b o' H2) as (L2 & B2 & E2).
  split; [lia|]. split.
  - intros Hlt.
    destruct (Z.eq_dec o o1) as [->|]; [apply B2; lia|].
    destruct (Z.eq_dec o1 o') as [<-|]; [apply B1; lia|].
    split; [apply B1; lia | apply B2; lia].
  - now rewrite (bind_intro _ _ _ _ _ _ E1).
Qed.

Lemma local_get_byteOffset : local get_byteOffset.
Proof.
  intros r s o a o' H. unfold get_byteOffset in *. inversion H; subst.
  repeat split; lia.
Qed.

Lemma local_get_varint : local get_varint.
Proof.
  intros r s o a o' H. unfold get_varint in *. inversion H; subst.
  repeat split; lia.
Qed.

Lemma local_get_littleEndian : local get_littleEndian.
Proof.
  intros r s o a o' H. unfold get_littleEndian in *. inversion H; subst.
  repeat split; lia.
Qed.

Lemma local_allocate n : local (allocate n).
Proof.
  intros r s o a o' H. unfold allocate in *.
  destruct (Z.gtb_spec (o + n) (byteLength r)); [discriminate|].
  inversion H; subst. repeat split; try lia.
  rewrite byteLength_extend.
  destruct (Z.gtb_spec (o' + n) (byteLength r + Z.of_nat (List.length s)));
    [lia|reflexivity].
Qed.

Lemma firstn_skipn_app {A} (d s : list A) (k o : nat) :
  (o + k <= List.length d)%nat ->
  firstn k (skipn o (d ++ s)) = firstn k (skipn o d).
Proof.
  intros H. rewrite skipn_app.
  replace (o - List.length d)%nat with O by lia. cbn [skipn].
  rewrite firstn_app, length_skipn.
  replace (k - (List.length d - o))%nat with O by lia.
  cbn [firstn]. now rewrite app_nil_r.
Qed.

(** A fixed-size read: [#allocate(n)], a DataView accessor on [n]
    bytes, and the cursor moved by [n]. *)
Definition fixed_read {A} (n : nat) (f : bool -> list byte -> A) : M A :=
  fun r o =>
    if o + Z.of_nat n >? byteLength r then Throw RanOutOfBytes
    else if (0 <=? o) && (o + Z.of_nat n <=? byteLength r)
         then Ok (f (littleEndian r) (firstn n (skipn (Z.to_nat o) (data r))),
                  o + Z.of_nat n)
         else Throw RangeError.

Lemma fixed_read_local {A} (n : nat) (f : bool -> list byte -> A) :
  (0 < n)%nat -> local (fixed_read n f) /\ moves (fixed_read n f).
Proof.
  intros Hn.
  assert (Inv : forall r o a o',
    fixed_read n f r o = Ok (a, o') ->
    0 <= o /\ o + Z.of_nat n <= byteLength r /\ o' = o + Z.of_nat n /\
    a = f (littleEndian r) (firstn n (skipn (Z.to_nat o) (data r)))).
  { intros r o a o' H. unfold fixed_read in H.
    destruct (Z.gtb_spec (o + Z.of_nat n) (byteLength r)); [discriminate|].
    destruct (Z.leb_spec 0 o); [|discriminate].
    destruct (Z.leb_spec (o + Z.of_nat n) (byteLength r)); [|discriminate].
    cbn [andb] in H. inversion H; subst. auto. }
  split.
  - intros r s o a o' H. destruct (Inv r o a o' H) as (H0 & Hb & -> & ->).
    split; [lia|]. split; [lia|].
    unfold fixed_read. rewrite byteLength_extend.
    destruct (Z.gtb_spec (o + Z.of_nat n) (byteLength r + Z.of_nat (List.length s)));
      [lia|].
    destruct (Z.leb_spec 0 o); [|lia].
    destruct (Z.leb_spec (o + Z.of_nat n) (byteLength r + Z.of_nat (List.length s)));
      [|lia].
    cbn [andb extend data littleEndian].
    rewrite firstn_skipn_app by (unfold byteLength in Hb; lia).
    reflexivity.
  - intros r o a o' H. destruct (Inv r o a o' H) as (H0 & Hb & -> & ->). lia.
Qed.

Lemma local_ext {A} (m m' : M A) :
  (forall r o, m r o = m' r o) -> local m' -> local m.
Proof.
  intros E H r s o a o' Hm. rewrite E in Hm. rewrite E. now apply H.
Qed.

Lemma moves_ext {A} (m m' : M A) :
  (forall r o, m r o = m' r o) -> moves m' -> moves m.
Proof. intros E H r o a o' Hm. rewrite E in Hm. now apply (H r o a). Qed.

Ltac fixed_eq :=
  intros r o;
  unfold fixed_read, bind, allocate, view, get_littleEndian, add_byteOffset, ret;
  simpl Z.of_nat;
  match goal with
  | |- context [?a >? ?b] => destruct (a >? b); [reflexivity|]
  end;
  match goal with
  | |- context [(0 <=? ?a) && ?b] => destruct ((0 <=? a) && b); reflexivity
  end.

Lemma readUnsignedByte_fixed r o :
  readUnsignedByte r o = fixed_read 1 (fun _ bs => get_uint false bs) r o.
Proof. revert r o. unfold readUnsignedByte. fixed_eq. Qed.

Lemma readByte_valueOf_fixed r o :
  readByte_valueOf r o = fixed_read 1 (fun _ bs => get_int false bs) r o.
Proof. revert r o. unfold readByte_valueOf. fixed_eq. Qed.

Lemma readShort_fixed r o :
  readShort r o = fixed_read 2 (fun le bs => ShortTag (Int16 (get_int le bs))) r o.
Proof. revert r o. unfold readShort. fixed_eq. Qed.

Lemma readFloat_fixed r o :
  readFloat r o
  = fixed_read 4 (fun le bs => FloatTag (Float32 (getFloat32 le bs))) r o.
Proof. revert r o. unfold readFloat. fixed_eq. Qed.

Lemma readDouble_fixed r o :
  readDouble r o = fixed_read 8 (fun le bs => DoubleTag (getFloat64 le bs)) r o.
Proof. revert r o. unfold readDouble. fixed_eq. Qed.

Lemma local_readUnsignedByte : local readUnsignedByte /\ moves readUnsignedByte.
Proof.
  destruct (fixed_read_local 1 (fun _ bs => get_uint false bs) ltac:(lia)).
  split; [eapply local_ext | eapply moves_ext];
    eauto using readUnsignedByte_fixed.
Qed.

Lemma local_readByte_valueOf : local readByte_valueOf /\ moves readByte_valueOf.
Proof.
  destruct (fixed_read_local 1 (fun _ bs => get_int false bs) ltac:(lia)).
  split; [eapply local_ext | eapply moves_ext];
    eauto using readByte_valueOf_fixed.
Qed.

Lemma local_readShort : local readShort.
Proof.
  eapply local_ext; [apply readShort_fixed|].
  apply fixed_read_local; lia.
Qed.

Lemma local_readFloat : local readFloat.
Proof.
  eapply local_ext; [apply readFloat_fixed|].
  apply fixed_read_local; lia.
Qed.

Lemma local_readDouble : local readDouble.
Proof.
  eapply local_ext; [apply readDouble_fixed|].
  apply fixed_read_local; lia.
Qed.

Lemma local_readByte : local readByte.
Proof.
  unfold readByte. apply local_bind; [apply local_readByte_valueOf|].
  intros; apply local_ret.
Qed.

Lemma local_readTagType : local readTagType /\ moves readTagType.
Proof.
  split.
  - unfold readTagType. apply local_bind; [apply local_readUnsignedByte|].
    intros a. destruct (isTagType a); [apply local_ret|].
    apply local_bind; [apply local_get_byteOffset|]. intros; apply local_throw.
  - intros r o a o' H. unfold readTagType in H.
    apply bind_Ok in H as (x & o1 & H1 & H).
    apply local_readUnsignedByte in H1.
    destruct (isTagType x); [|apply bind_Ok in H as (? & ? & _ & H); discriminate].
    unfold ret in H. inversion H; subst. lia.
Qed.

(** The varint loops read one byte a turn. *)
Lemma local_readVarInt_loop fuel value shift :
  local (readVarInt_loop fuel value shift)
  /\ moves (readVarInt_loop fuel value shift).
Proof.
  revert value shift.
  induction fuel as [|fuel IH]; intros value shift.
  - split; [apply local_diverge | intros r o a o' H; discriminate].
  - cbn [readVarInt_loop]. split.
    + apply local_bind; [apply local_readByte_valueOf|]. intros byte.
      destruct (JS.and byte 128 =? 0); [apply local_ret | apply IH].
    + intros r o a o' H. apply bind_Ok in H as (byte & o1 & H1 & H).
      apply local_readByte_valueOf in H1.
      destruct (JS.and byte 128 =? 0).
      * unfold ret in H. inversion H; subst. lia.
      * apply IH in H. lia.
Qed.

Lemma local_readVarIntZigZag_loop fuel result shift cursor :
  local (readVarIntZigZag_loop fuel result shift cursor)
  /\ moves (readVarIntZigZag_loop fuel result shift cursor).
Proof.
  revert result shift cursor.
  induction fuel as [|fuel IH]; intros result shift cursor.
  - split; [apply local_diverge | intros r o a o' H; discriminate].
  - cbn [readVarIntZigZag_loop]. split.
    + apply local_bind; [apply local_allocate|]. intros _.
      apply local_bind; [apply local_readByte_valueOf|]. intros b.
      destruct (JS.and b 128 =? 0).
      * apply local_bind; [apply local_get_byteOffset|]. intros; apply local_ret.
      * destruct (shift + 7 >? 63); [apply local_throw | apply IH].
    + intros r o a o' H. apply bind_Ok in H as ([] & o0 & H0 & H).
      apply (local_allocate 1 r []) in H0. destruct H0 as (L0 & _).
      apply bind_Ok in H as (b & o1 & H1 & H).
      apply local_readByte_valueOf in H1.
      destruct (JS.and b 128 =? 0).
      * apply bind_Ok in H as (x & o2 & H2 & H).
        unfold get_byteOffset in H2. unfold ret in H. inversion H2; inversion H; subst. lia.
      * destruct (shift + 7 >? 63); [discriminate|]. apply IH in H. lia.
Qed.

Lemma local_readVarLongZigZag_loop fuel result shift cursor :
  local (readVarLongZigZag_loop fuel result shift cursor)
  /\ moves (readVarLongZigZag_loop fuel result shift cursor).
Proof.
  revert result shift cursor.
  induction fuel as [|fuel IH]; intros result shift cursor.
  - split; [apply local_diverge | intros r o a o' H; discriminate].
  - cbn [readVarLongZigZag_loop]. split.
    + apply local_bind; [apply local_allocate|]. intros _.
      apply local_bind; [apply local_readByte_valueOf|]. intros b.
      destruct (JS.and b 128 =? 0).
      * apply local_bind; [apply local_get_byteOffset|]. intros; apply local_ret.
      * destruct (shift + 7 >? 63); [apply local_throw | apply IH].
    + intros r o a o' H. apply bind_Ok in H as ([] & o0 & H0 & H).
      apply (local_allocate 1 r []) in H0. destruct H0 as (L0 & _).
      apply bind_Ok in H as (b & o1 & H1 & H).
      apply local_readByte_valueOf in H1.
      destruct (JS.and b 128 =? 0).
      * apply bind_Ok in H as (x & o2 & H2 & H).
        unfold get_byteOffset in H2. unfold ret in H. inversion H2; inversion H; subst. lia.
      * destruct (shift + 7 >? 63); [discriminate|]. apply IH in H. lia.
Qed.

Lemma local_readVarInt fuel : local (readVarInt fuel) /\ moves (readVarInt fuel).
Proof. apply local_readVarInt_loop. Qed.

Lemma local_readVarIntZigZag fuel :
  local (readVarIntZigZag fuel) /\ moves (readVarIntZigZag fuel).
Proof.
  unfold readVarIntZigZag. split.
  - apply local_bind; [apply local_get_byteOffset|]. intros cursor.
    apply local_bind; [apply local_readVarIntZigZag_loop|].
    intros; apply local_ret.
  - intros r o a o' H. apply bind_Ok in H as (c & o1 & H1 & H).
    unfold get_byteOffset in H1. inversion H1; subst.
    apply bind_Ok in H as (rs & o2 & H2 & H).
    apply local_readVarIntZigZag_loop in H2.
    unfold ret in H. inversion H; subst. lia.
Qed.

Lemma local_readVarLongZigZag fuel :
  local (readVarLongZigZag fuel) /\ moves (readVarLongZigZag fuel).
Proof.
  unfold readVarLongZigZag. split.
  - apply local_bind; [apply local_get_byteOffset|]. intros cursor.
    apply local_bind; [apply local_readVarLongZigZag_loop|].
    intros; apply local_ret.
  - intros r o a o' H. apply bind_Ok in H as (c & o1 & H1 & H).
    unfold get_byteOffset in H1. inversion H1; subst.
    apply bind_Ok in H as (rs & o2 & H2 & H).
    apply local_readVarLongZigZag_loop in H2.
    unfold ret in H. inversion H; subst. lia.
Qed.

(** A read that is a varint in the [little-varint] dialect and a
    fixed-size read otherwise. *)
Lemma local_by_dialect {A} (mv mf : M A) :
  local mv /\ moves mv -> local mf /\ moves mf ->
  local (v <- get_varint ;; if v then mv else mf)
  /\ moves (v <- get_varint ;; if v then mv else mf).
Proof.
  intros [Lv Mv] [Lf Mf]. split.
  - apply local_bind; [apply local_get_varint|].
    intros v; destruct v; assumption.
  - intros r o a o' H. apply bind_Ok in H as (v & o1 & H1 & H).
    unfold get_varint in H1. inversion H1; subst.
    destruct (varint r); [eapply Mv | eapply Mf]; eauto.
Qed.

Ltac by_fixed n f :=
  split; [eapply (local_ext _ (fixed_read n f)); [fixed_eq|]
         |eapply (moves_ext _ (fixed_read n f)); [fixed_eq|]];
  apply fixed_read_local; lia.

Lemma local_readUnsignedShort fuel :
  local (readUnsignedShort fuel) /\ moves (readUnsignedShort fuel).
Proof.
  unfold readUnsignedShort. apply local_by_dialect; [apply local_readVarInt|].
  by_fixed 2%nat (fun le bs => get_uint le bs).
Qed.

Lemma local_readUnsignedInt fuel :
  local (readUnsignedInt fuel) /\ moves (readUnsignedInt fuel).
Proof.
  unfold readUnsignedInt. apply local_by_dialect; [apply local_readVarInt|].
  by_fixed 4%nat (fun le bs => get_uint le bs).
Qed.

Lemma local_fst {A B} (m : M (A * B)) :
  local m /\ moves m ->
  local (rs <- m ;; ret (fst rs)) /\ moves (rs <- m ;; ret (fst rs)).
Proof.
  intros [L Mv]. split.
  - apply local_bind; [assumption|]. intros; apply local_ret.
  - intros r o a o' H. apply bind_Ok in H as (x & o1 & H1 & H).
    apply Mv in H1. unfold ret in H. inversion H; subst. lia.
Qed.

Lemma local_readInt_valueOf fuel :
  local (readInt_valueOf fuel) /\ moves (readInt_valueOf fuel).
Proof.
  unfold readInt_valueOf. apply local_by_dialect.
  - apply local_fst, local_readVarIntZigZag.
  - by_fixed 4%nat (fun le bs => get_int le bs).
Qed.

Lemma local_readLong_valueOf fuel :
  local (readLong_valueOf fuel) /\ moves (readLong_valueOf fuel).
Proof.
  unfold readLong_valueOf. apply local_by_dialect.
  - apply local_fst, local_readVarLongZigZag.
  - by_fixed 8%nat (fun le bs => get_int le bs).
Qed.

Lemma local_readInt fuel : local (readInt fuel).
Proof.
  unfold readInt. apply local_bind; [apply local_readInt_valueOf|].
  intros; apply local_ret.
Qed.

Lemma local_readLong fuel : local (readLong fuel).
Proof.
  unfold readLong. apply local_bind; [apply local_readLong_valueOf|].
  intros; apply local_ret.
Qed.

(** ** Reads that may move the cursor backwards

    [#readByteArray] and [#readString] move the cursor by a length they
    have read, which may be negative.  A computation is _stable_ when a
    successful run that starts inside the buffer ends inside it, and
    when a successful run that ends at a cursor that is not negative
    has started at one and runs the same way over a longer buffer. *)
Definition stable {A} (m : M A) : Prop :=
  (forall r o a o',
     m r o = Ok (a, o') -> o <= byteLength r -> o' <= byteLength r) /\
  (forall r s o a o',
     m r o = Ok (a, o') -> 0 <= o' -> o <= byteLength r ->
     0 <= o /\ m (extend r s) o = Ok (a, o')).

Lemma local_stable {A} (m : M A) : local m -> stable m.
Proof.
  intros L. split.
  - intros r o a o' H Ho. destruct (L r [] o a o' H) as (L1 & B1 & _).
    destruct (Z.eq_dec o o'); [lia | apply B1; lia].
  - intros r s o a o' H Ho' Ho. destruct (L r s o a o' H) as (L1 & B1 & E1).
    split; [|assumption].
    destruct (Z.eq_dec o o'); [lia | apply B1; lia].
Qed.

Lemma stable_bind {A B} (m : M A) (k : A -> M B) :
  stable m -> (forall a, stable (k a)) -> stable (bind m k).
Proof.
  intros [Bm Qm] Hk. split.
  - intros r o b o' H Ho. apply bind_Ok in H as (a & o1 & H1 & H2).
    destruct (Hk a) as [Bk _]. eauto.
  - intros r s o b o' H Ho' Ho. apply bind_Ok in H as (a & o1 & H1 & H2).
    destruct (Hk a) as [_ Qk].
    destruct (Qk r s o1 b o' H2 Ho' (Bm r o a o1 H1 Ho)) as (Ho1 & E2).
    destruct (Qm r s o a o1 H1 Ho1 Ho) as (Ho0 & E1).
    split; [assumption|]. now rewrite (bind_intro _ _ _ _ _ _ E1).
Qed.

Lemma stable_ret {A} (a : A) : stable (ret a).
Proof. apply local_stable, local_ret. Qed.

Lemma stable_throw {A} e : stable (@throw A e).
Proof. apply local_stable, local_throw. Qed.

Lemma stable_diverge {A} : stable (@diverge A).
Proof. apply local_stable, local_diverge. Qed.

Lemma stable_untracked {A} : stable (@untracked A).
Proof. split; intros; discriminate. Qed.

Lemma subarray_app d s b e :
  0 <= b <= Z.of_nat (List.length d) ->
  0 <= e <= Z.of_nat (List.length d) ->
  subarray (d ++ s) b e = subarray d b e.
Proof.
  intros Hb He. unfold subarray. rewrite length_app.
  destruct (Z.ltb_spec b 0); [lia|]. destruct (Z.ltb_spec e 0); [lia|].
  rewrite !Z.min_l by lia.
  apply firstn_skipn_app. lia.
Qed.

(** A length read at the cursor, then that many bytes of the buffer. *)
Lemma stable_take {A} (m : M Z) (f : list byte -> A) :
  local m -> moves m ->
  stable (length <- m ;; allocate length ;;; bs <- data_subarray length ;;
          add_byteOffset length ;;; ret (f bs)).
Proof.
  intros L Mv.
  assert (Inv : forall r o a o',
    (length <- m ;; allocate length ;;; bs <- data_subarray length ;;
     add_byteOffset length ;;; ret (f bs)) r o = Ok (a, o') ->
    exists length o1,
      m r o = Ok (length, o1) /\ o1 + length <= byteLength r /\
      o' = o1 + length /\ a = f (subarray (data r) o1 (o1 + length))).
  { intros r o a o' H.
    apply bind_Ok in H as (length & o1 & H1 & H).
    apply bind_Ok in H as ([] & o2 & H2 & H).
    apply bind_Ok in H as (bs & o3 & H3 & H).
    apply bind_Ok in H as ([] & o4 & H4 & H).
    unfold allocate in H2.
    destruct (Z.gtb_spec (o1 + length) (byteLength r)); [discriminate|].
    inversion H2; subst o2.
    unfold data_subarray in H3. inversion H3; subst o3 bs.
    unfold add_byteOffset in H4. inversion H4; subst o4.
    unfold ret in H. inversion H; subst.
    exists length, o1. auto. }
  split.
  - intros r o a o' H Ho.
    destruct (Inv r o a o' H) as (length & o1 & H1 & Hb & -> & ->). assumption.
  - intros r s o a o' H Ho' Ho.
    destruct (Inv r o a o' H) as (length & o1 & H1 & Hb & -> & ->).
    pose proof (Mv r o _ _ H1) as Hlt.
    destruct (L r s o _ _ H1) as (_ & B1 & E1).
    destruct (B1 Hlt) as (H0 & Hlen).
    split; [assumption|].
    rewrite (bind_intro _ _ _ _ _ _ E1).
    unfold bind, allocate, data_subarray, add_byteOffset, ret.
    rewrite byteLength_extend.
    destruct (Z.gtb_spec (o1 + length) (byteLength r + Z.of_nat (List.length s)));
      [lia|].
    cbn [extend data].
    rewrite subarray_app by (unfold byteLength in *; lia).
    reflexivity.
Qed.

Lemma stable_readByteArray fuel : stable (readByteArray fuel).
Proof.
  unfold readByteArray.
  apply (stable_take (readInt_valueOf fuel)
           (fun bs => ByteArrayTag (map (fun b => signed 8 (byte_val b)) bs)));
    apply local_readInt_valueOf.
Qed.

Lemma stable_readString fuel : stable (readString fuel).
Proof.
  unfold readString.
  apply (stable_take (readUnsignedShort fuel) mutf8_decode);
    apply local_readUnsignedShort.
Qed.

Lemma stable_readList_loop (rt : M Tag) fuel length i value :
  stable rt -> stable (readList_loop rt fuel length i value).
Proof.
  intros Hrt. revert i value.
  induction fuel as [|fuel IH]; intros i value; [apply stable_diverge|].
  cbn [readList_loop]. destruct (i <? length); [|apply stable_ret].
  apply stable_bind; [assumption|]. intros entry. apply IH.
Qed.

Lemma stable_readArray_loop (re : M Z) fuel length i value :
  stable re -> stable (readArray_loop re fuel length i value).
Proof.
  intros Hre. revert i value.
  induction fuel as [|fuel IH]; intros i value; [apply stable_diverge|].
  cbn [readArray_loop]. destruct (i <? length); [|apply stable_ret].
  apply stable_bind; [assumption|]. intros entry. apply IH.
Qed.

Lemma stable_readCompound_loop (rt : TAG -> M Tag) fuel value :
  (forall type, stable (rt type)) -> stable (readCompound_loop rt fuel value).
Proof.
  intros Hrt. revert value.
  induction fuel as [|fuel IH]; intros value; [apply stable_diverge|].
  cbn [readCompound_loop].
  apply stable_bind; [apply local_stable, local_readTagType|].
  intros type.
  assert (S : stable (name <- readString fuel ;; entry <- rt type ;;
                      match obj_assign value name entry with
                      | Some value => readCompound_loop rt fuel value
                      | None => untracked
                      end)).
  { apply stable_bind; [apply stable_readString|]. intros name.
    apply stable_bind; [apply Hrt|]. intros entry.
    destruct (obj_assign value name entry); [apply IH | apply stable_untracked]. }
  destruct type; first [apply stable_ret | exact S].
Qed.

Lemma stable_readList (rt : TAG -> M Tag) fuel :
  (forall type, stable (rt type)) -> stable (readList rt fuel).
Proof.
  intros Hrt. unfold readList.
  apply stable_bind; [apply local_stable, local_readTagType|]. intros type.
  apply stable_bind; [apply local_stable, local_get_varint|]. intros v.
  apply stable_bind.
  - destruct v; apply local_stable.
    + apply (local_fst (readVarIntZigZag fuel)), local_readVarIntZigZag.
    + apply local_readInt_valueOf.
  - intros length. apply stable_bind; [|intros; apply stable_ret].
    apply stable_readList_loop, Hrt.
Qed.

Lemma stable_readIntArray fuel : stable (readIntArray fuel).
Proof.
  unfold readIntArray.
  apply stable_bind; [apply local_stable, local_readInt_valueOf|].
  intros length. destruct (length <? 0); [apply stable_throw|].
  apply stable_bind; [|intros; apply stable_ret].
  apply stable_readArray_loop, local_stable, local_readInt_valueOf.
Qed.

Lemma stable_readLongArray fuel : stable (readLongArray fuel).
Proof.
  unfold readLongArray.
  apply stable_bind; [apply local_stable, local_readInt_valueOf|].
  intros length. destruct (length <? 0); [apply stable_throw|].
  apply stable_bind; [|intros; apply stable_ret].
  apply stable_readArray_loop, local_stable, local_readLong_valueOf.
Qed.

Lemma stable_readTag fuel type : stable (readTag fuel type).
Proof.
  revert type. induction fuel as [|fuel IH]; intros type; [apply stable_diverge|].
  cbn [readTag]. destruct type.
  - split; intros; discriminate.
  - apply local_stable, local_readByte.
  - apply local_stable, local_readShort.
  - apply local_stable, local_readInt.
  - apply local_stable, local_readLong.
  - apply local_stable, local_readFloat.
  - apply local_stable, local_readDouble.
  - apply stable_readByteArray.
  - apply stable_bind; [apply stable_readString | intros; apply stable_ret].
  - apply stable_readList, IH.
  - unfold readCompound.
    apply stable_bind; [|intros; apply stable_ret].
    apply stable_readCompound_loop, IH.
  - apply stable_readIntArray.
  - apply stable_readLongArray.
Qed.

(** ** The root *)

(** What [readRoot] reads before it looks for unread bytes: the Bedrock
    header, the tag id of the root, its name and its payload. *)
Definition readRoot_tree (fuel : nat) (o : ReadOptions) : M (Tag * option jsstring) :=
  (if bedrock_truthy (bedrockLevel o)
   then readUnsignedInt fuel ;;; readUnsignedInt fuel ;;; ret tt
   else ret tt) ;;;
  type <- readTagType ;;
  match type with
  | LIST | COMPOUND =>
      rootNameV <- (if rootName_truthy (rootName o)
                    then s <- readString fuel ;; ret (Some s)
                    else ret None) ;;
      root <- readTag fuel type ;;
      ret (root, rootNameV)
  | _ => throw (ExpectedListOrCompound type)
  end.

Lemma stable_readRoot_tree fuel o : stable (readRoot_tree fuel o).
Proof.
  unfold readRoot_tree. apply stable_bind.
  - destruct (bedrock_truthy (bedrockLevel o)); [|apply stable_ret].
    apply stable_bind; [apply local_stable, local_readUnsignedInt|]. intros _.
    apply stable_bind; [apply local_stable, local_readUnsignedInt|]. intros _.
    apply stable_ret.
  - intros _. apply stable_bind; [apply local_stable, local_readTagType|].
    intros type.
    assert (S : stable (rootNameV <- (if rootName_truthy (rootName o)
                                      then s <- readString fuel ;; ret (Some s)
                                      else ret None) ;;
                        root <- readTag fuel type ;; ret (root, rootNameV))).
    { apply stable_bind.
      - destruct (rootName_truthy (rootName o)); [|apply stable_ret].
        apply stable_bind; [apply stable_readString | intros; apply stable_ret].
      - intros rn. apply stable_bind; [apply stable_readTag|].
        intros; apply stable_ret. }
    destruct type; first [exact S | apply stable_throw].
Qed.

(** [readRoot_body] is [readRoot_tree] followed by the test for unread
    bytes. *)
Lemma readRoot_body_tree fuel o r :
  readRoot_body fuel o r 0 =
  match readRoot_tree fuel o r 0 with
  | Ok ((root, rootNameV), off) =>
      if strict o && (byteLength r >? off) then
        Throw (NBTError off (byteLength r - off)
                 (mkNBTData root rootNameV (endian o) None BLnull))
      else
        Ok (mkNBTData root rootNameV (endian o) (compression o) (bedrockLevel o), off)
  | Throw e => Throw e
  | Diverge => Diverge
  | Untracked => Untracked
  end.
Proof.
  unfold readRoot_body, readRoot_tree, bind, ret, throw.
  destruct (bedrock_truthy (bedrockLevel o)), (rootName_truthy (rootName o));
    repeat first
      [ reflexivity
      | match goal with
        | |- context [match ?x with Ok _ => _ | Throw _ => _ | Diverge => _ | Untracked => _ end] =>
            lazymatch x with
            | context [match _ with Ok _ => _ | Throw _ => _ | Diverge => _ | Untracked => _ end] => fail
            | _ => destruct x as [[? ?]| | |]
            end
        end
      | match goal with t : TAG |- _ => destruct t end
      | match goal with u : unit |- _ => destruct u end
      | match goal with p : (_ * _)%type |- _ => destruct p end ].
Qed.

Variable decompress : list byte -> Compression -> result error (list byte).

(** The options of a dialect without compression. *)
Definition uncompressed (n : RootNameOption) (e : Endian) (level : BedrockLevel)
  (strict : bool) : PartialReadOptions :=
  mkPartial (Some n) (Some e) (Some None) (Some level) (Some strict).

Lemma read_uncompressed fuel d n e level st :
  read decompress fuel d (uncompressed n e level st)
  = match readRoot_tree fuel (mkReadOptions n e None level st)
            (mkReader d (match e with big => false | _ => true end)
                        (match e with little_varint => true | _ => false end)) 0
    with
    | Ok ((root, rootNameV), off) =>
        if st && (Z.of_nat (List.length d) >? off) then
          Throw (NBTError off (Z.of_nat (List.length d) - off)
                   (mkNBTData root rootNameV e None BLnull))
        else Ok (mkNBTData root rootNameV e None level)
    | Throw err => Throw err
    | Diverge => Diverge
    | Untracked => Untracked
    end.
Proof.
  unfold read, uncompressed. rewrite read_rec_pinned.
  unfold readRoot. cbn [compression]. rewrite readRoot_body_tree.
  destruct (readRoot_tree _ _ _ 0) as [[[root rn] off]| | |]; try reflexivity.
  cbn [strict endian compression bedrockLevel byteLength data].
  destruct (st && _); reflexivity.
Qed.


End TrailingBytes.


(* ================================================================== *)
(** * Objects: the listing of the own properties *)

Section Objects.

(** The keys in the order in which [Object.entries] lists them: no key
    stands after one before which it is listed, so the array indices
    come first, in ascending order. *)
Fixpoint listed (keys : list jsstring) : Prop :=
  match keys with
  | [] => True
  | a :: r => Forall (fun b => key_before b a = false) r /\ listed r
  end.

(** The own keys of an object that assignments build again as it is:
    the keys are distinct and stand in the order of the listing (as
    those of every object do), and none is [__proto__]. *)
Definition own_keys (keys : list jsstring) : Prop :=
  NoDup keys /\ listed keys /\ Forall (fun k => k <> proto_key) keys.

Definition set_entry (tag : list (jsstring * Tag)) (kv : jsstring * Tag) :=
  obj_set tag (fst kv) (snd kv).

Lemma str_eqb_eq a b : str_eqb a b = true <-> a = b.
Proof. unfold str_eqb. destruct (list_eq_dec Z.eq_dec a b); split; congruence. Qed.

Lemma has_key_In value name : has_key value name = true <-> In name (map fst value).
Proof.
  unfold has_key. rewrite existsb_exists, in_map_iff. split.
  - intros ([k v] & Hin & E). apply str_eqb_eq in E. cbn in E. subst.
    now exists (name, v).
  - intros ([k v] & E & Hin). cbn in E. subst. exists (name, v).
    split; [assumption | now apply str_eqb_eq].
Qed.

Lemma has_key_fresh value name : ~ In name (map fst value) -> has_key value name = false.
Proof.
  intros Hn. destruct (has_key value name) eqn:E; [|reflexivity].
  now apply has_key_In in E.
Qed.

Lemma listed_app_l a b : listed (a ++ b) -> listed a.
Proof.
  induction a as [|x a IH]; [intros; exact I|]. simpl. intros [H1 H2].
  split; [|now apply IH]. now apply Forall_app in H1 as [? _].
Qed.

Lemma listed_last keys k :
  listed (keys ++ [k]) -> Forall (fun x => key_before k x = false) keys.
Proof.
  induction keys as [|x keys IH]; [constructor|]. simpl. intros [H1 H2].
  constructor; [|now apply IH].
  apply Forall_app in H1 as [_ H1]. now inversion H1.
Qed.

Lemma obj_add_last value k v :
  Forall (fun x => key_before k x = false) (map fst value) ->
  obj_add value k v = value ++ [(k, v)].
Proof.
  induction value as [|[k' v'] value IH]; [reflexivity|].
  cbn [map fst]. intros H. inversion H as [|? ? Hk Hr]; subst.
  cbn [obj_add app]. rewrite Hk. f_equal. now apply IH.
Qed.

(** A new key that is listed last is stored last. *)
Lemma obj_set_fresh tag k v :
  ~ In k (map fst tag) -> listed (map fst tag ++ [k]) ->
  obj_set tag k v = tag ++ [(k, v)].
Proof.
  intros Hn Hl. unfold obj_set. rewrite (has_key_fresh _ _ Hn).
  apply obj_add_last. now apply listed_last.
Qed.

Lemma obj_replace_present pre k v post v' :
  ~ In k (map fst pre) ->
  obj_replace (pre ++ (k, v) :: post) k v' = pre ++ (k, v') :: post.
Proof.
  induction pre as [|[k1 v1] pre IH]; intros Hn.
  - cbn [app obj_replace]. now rewrite (proj2 (str_eqb_eq k k) eq_refl).
  - cbn [app obj_replace]. destruct (str_eqb k1 k) eqn:E.
    + apply str_eqb_eq in E. subst. exfalso. apply Hn. now left.
    + f_equal. apply IH. intros Hin. apply Hn. now right.
Qed.

(** A key that is there keeps its place and takes the value. *)
Lemma obj_set_present pre k v post v' :
  ~ In k (map fst pre) ->
  obj_set (pre ++ (k, v) :: post) k v' = pre ++ (k, v') :: post.
Proof.
  intros Hn. unfold obj_set.
  replace (has_key (pre ++ (k, v) :: post) k) with true.
  - now apply obj_replace_present.
  - symmetry. apply has_key_In. rewrite map_app. apply in_or_app. right. now left.
Qed.

Lemma obj_assign_key value name entry :
  name <> proto_key -> obj_assign value name entry = Some (obj_set value name entry).
Proof.
  intros Hn. unfold obj_assign. destruct (str_eqb name proto_key) eqn:E; [|reflexivity].
  now apply str_eqb_eq in E.
Qed.

Lemma fold_set_entry l tag :
  NoDup (map fst (tag ++ l)) -> listed (map fst (tag ++ l)) ->
  fold_left set_entry l tag = tag ++ l.
Proof.
  revert tag. induction l as [|[k v] l IH]; intros tag Hn Hl.
  - now rewrite app_nil_r.
  - cbn [fold_left]. unfold set_entry at 2. cbn [fst snd].
    rewrite obj_set_fresh.
    + rewrite IH; rewrite <- app_assoc; [reflexivity | exact Hn | exact Hl].
    + rewrite map_app in Hn. cbn [map fst] in Hn.
      apply NoDup_remove_2 in Hn. intros Hin. apply Hn.
      apply in_or_app. now left.
    + rewrite map_app in Hl. cbn [map fst] in Hl.
      change (k :: map fst l) with ([k] ++ map fst l) in Hl.
      rewrite app_assoc in Hl. now apply listed_app_l in Hl.
Qed.

End Objects.

(* ================================================================== *)
(** * The SNBT round trip: decimal numerals and tokens *)

Section Numerals.

Definition digit_step (acc c : Z) : Z := acc * 10 + (c - 48).

Lemma digits_value_fold s : digits_value s = fold_left digit_step s 0.
Proof. reflexivity. Qed.

Lemma digits_fuel_spec fuel n acc :
  (0 < fuel)%nat ->
  0 <= n < 2 ^ Z.of_nat fuel ->
  exists ds,
    digits_fuel fuel n acc = ds ++ acc /\
    ds <> [] /\
    forallb is_digit ds = true /\
    (forall a, fold_left digit_step ds a = a * 10 ^ Z.of_nat (List.length ds) + n) /\
    (n = 0 -> ds = [48]) /\
    (0 < n -> exists c r, ds = c :: r /\ is_digit19 c = true).
Proof.
  revert n acc. induction fuel as [|fuel IH]; intros n acc Hf Hn.
  - lia.
  - cbn [digits_fuel].
    destruct (Z.ltb_spec n 10) as [Hlt|Hge].
    + exists [48 + n mod 10]. rewrite Z.mod_small by lia.
      repeat split.
      * discriminate.
      * cbn [forallb]. rewrite andb_true_r. unfold is_digit.
        destruct (Z.leb_spec 48 (48 + n)); destruct (Z.leb_spec (48 + n) 57);
          try reflexivity; lia.
      * intros a. cbn [fold_left List.length]. unfold digit_step.
        change (10 ^ Z.of_nat 1) with 10. lia.
      * intros ->. reflexivity.
      * intros Hpos. exists (48 + n), []. split; [reflexivity|].
        unfold is_digit19.
        destruct (Z.leb_spec 49 (48 + n)); destruct (Z.leb_spec (48 + n) 57);
          try reflexivity; lia.
    + assert (Hq : 0 <= n / 10 < 2 ^ Z.of_nat fuel).
      { rewrite Nat2Z.inj_succ, Z.pow_succ_r in Hn by lia.
        split; [apply Z.div_pos; lia|].
        apply Z.div_lt_upper_bound; lia. }
      assert (Hf' : (0 < fuel)%nat).
      { destruct fuel; [|lia]. change (2 ^ Z.of_nat 0) with 1 in Hq.
        assert (1 <= n / 10) by (apply Z.div_le_lower_bound; lia). lia. }
      destruct (IH (n / 10) ((48 + n mod 10) :: acc) Hf' Hq)
        as (ds & E & Hne & Hd & Hv & _ & Hh).
      exists (ds ++ [48 + n mod 10]).
      pose proof (Z.mod_pos_bound n 10 ltac:(lia)) as Hm.
      repeat split.
      * rewrite E, <- app_assoc. reflexivity.
      * destruct ds; discriminate.
      * rewrite forallb_app, Hd. cbn [forallb andb]. rewrite andb_true_r.
        unfold is_digit.
        destruct (Z.leb_spec 48 (48 + n mod 10));
          destruct (Z.leb_spec (48 + n mod 10) 57); try reflexivity; lia.
      * intros a. rewrite fold_left_app, Hv. cbn [fold_left]. unfold digit_step.
        rewrite length_app. cbn [List.length].
        rewrite Nat2Z.inj_add, Z.pow_add_r by lia.
        change (10 ^ Z.of_nat 1) with 10.
        pose proof (Z.div_mod n 10 ltac:(lia)). lia.
      * intros ->. lia.
      * intros _. destruct Hh as (c & r & -> & Hc).
        { apply Z.div_str_pos; lia. }
        exists c, (r ++ [48 + n mod 10]). split; [reflexivity | assumption].
Qed.

Lemma digits_spec n :
  0 <= n ->
  digits n <> [] /\
  forallb is_digit (digits n) = true /\
  digits_value (digits n) = n /\
  (n = 0 -> digits n = [48]) /\
  (0 < n -> exists c r, digits n = c :: r /\ is_digit19 c = true).
Proof.
  intros Hn. unfold digits.
  assert (Hb : 0 <= n < 2 ^ Z.of_nat (S (Z.to_nat (Z.log2 n)))).
  { split; [assumption|].
    rewrite Nat2Z.inj_succ, Z2Nat.id by apply Z.log2_nonneg.
    destruct (Z.eq_dec n 0) as [->|]; [reflexivity|].
    apply Z.log2_spec. lia. }
  destruct (digits_fuel_spec (S (Z.to_nat (Z.log2 n))) n [] ltac:(lia) Hb)
    as (ds & E & Hne & Hd & Hv & H0 & Hp).
  rewrite app_nil_r in E. rewrite E.
  repeat split; try assumption.
  rewrite digits_value_fold, Hv. lia.
Qed.

Lemma digit_not_sign c : is_digit c = true -> is_sign c = false.
Proof.
  unfold is_digit, is_sign. intros H.
  apply andb_true_iff in H as [H1 H2].
  apply Z.leb_le in H1, H2.
  destruct (Z.eqb_spec c 45); destruct (Z.eqb_spec c 43); try reflexivity; lia.
Qed.

Lemma digit19_digit c : is_digit19 c = true -> is_digit c = true.
Proof.
  unfold is_digit19, is_digit. intros H.
  apply andb_true_iff in H as [H1 H2]. apply Z.leb_le in H1, H2.
  apply andb_true_iff. split; apply Z.leb_le; lia.
Qed.

Lemma digits_head_digit n :
  0 <= n -> exists c r, digits n = c :: r /\ is_digit c = true /\ forallb is_digit r = true.
Proof.
  intros Hn. destruct (digits_spec n Hn) as (Hne & Hd & _).
  destruct (digits n) as [|c r]; [congruence|].
  cbn in Hd. apply andb_true_iff in Hd as [? ?]. eauto.
Qed.

Lemma integer_body_digits n : 0 <= n -> integer_body (digits n) = true.
Proof.
  intros Hn. destruct (digits_spec n Hn) as (_ & Hd & _ & H0 & Hp).
  destruct (Z.eq_dec n 0) as [->|Hnz].
  - rewrite (H0 eq_refl). reflexivity.
  - destruct Hp as (c & r & E & Hc); [lia|]. rewrite E in *.
    unfold integer_body, strip_sign.
    rewrite (digit_not_sign c (digit19_digit c Hc)).
    cbn in Hd. apply andb_true_iff in Hd as [_ Hr].
    rewrite Hc, Hr. apply orb_true_r.
Qed.

Lemma integer_body_decimal z : integer_body (decimal z) = true.
Proof.
  unfold decimal. destruct (Z.ltb_spec z 0) as [Hz|Hz].
  - pose proof (integer_body_digits (- z) ltac:(lia)) as H.
    unfold integer_body in *. cbn [strip_sign]. change (is_sign 45) with true.
    cbn iota.
    destruct (digits_head_digit (- z) ltac:(lia)) as (c & r & E & Hc & _).
    rewrite E in *. cbn [strip_sign] in H. now rewrite (digit_not_sign c Hc) in H.
  - now apply integer_body_digits.
Qed.

Lemma integer_value_decimal z : integer_value (decimal z) = z.
Proof.
  unfold decimal. destruct (Z.ltb_spec z 0).
  - cbn [integer_value]. change (45 =? 45) with true. cbn iota.
    destruct (digits_spec (- z) ltac:(lia)) as (_ & _ & Hv & _). lia.
  - destruct (digits_head_digit z ltac:(lia)) as (c & r & E & Hc & _).
    destruct (digits_spec z ltac:(lia)) as (_ & _ & Hv & _).
    rewrite E in *. cbn [integer_value].
    pose proof (digit_not_sign c Hc) as Hs. unfold is_sign in Hs.
    apply orb_false_iff in Hs as [-> ->]. assumption.
Qed.

Lemma digit_unquoted c : is_digit c = true -> is_unquoted c = true.
Proof. unfold is_unquoted. now intros ->. Qed.

Lemma forallb_digit_unquoted s :
  forallb is_digit s = true -> forallb is_unquoted s = true.
Proof.
  induction s as [|c s IH]; [reflexivity|]. cbn.
  intros H. apply andb_true_iff in H as [Hc Hs].
  now rewrite (digit_unquoted c Hc), IH.
Qed.

Lemma decimal_unquoted z : forallb is_unquoted (decimal z) = true.
Proof.
  unfold decimal. destruct (Z.ltb_spec z 0).
  - cbn [forallb]. change (is_unquoted 45) with true.
    apply forallb_digit_unquoted, digits_spec. lia.
  - apply forallb_digit_unquoted, digits_spec. lia.
Qed.

Lemma decimal_nonempty z : decimal z <> [].
Proof.
  unfold decimal. destruct (z <? 0); [discriminate|].
  destruct (Z.le_gt_cases 0 z) as [H|H].
  - apply digits_spec. assumption.
  - unfold digits. cbn [digits_fuel]. destruct (z <? 10); [discriminate|].
    destruct (digits_fuel _ _ _) eqn:E; [|discriminate].
    exfalso. clear - E.
    assert (G : forall fuel n acc, acc <> [] -> digits_fuel fuel n acc <> []).
    { induction fuel as [|fuel IH]; intros n acc Ha; [assumption|].
      cbn [digits_fuel]. destruct (n <? 10); [discriminate|].
      apply IH. discriminate. }
    eapply G; [|exact E]. discriminate.
Qed.

(** The last character of a decimal numeral is a digit. *)
Lemma decimal_last z : exists s d, decimal z = s ++ [d] /\ is_digit d = true.
Proof.
  assert (G : forall s, s <> [] -> forallb is_digit s = true ->
                        exists s' d, s = s' ++ [d] /\ is_digit d = true).
  { intros s Hne Hd. destruct (exists_last Hne) as (s' & d & ->).
    rewrite forallb_app in Hd. apply andb_true_iff in Hd as [_ Hd].
    cbn in Hd. rewrite andb_true_r in Hd. eauto. }
  unfold decimal. destruct (Z.ltb_spec z 0).
  - destruct (digits_spec (- z) ltac:(lia)) as (Hne & Hd & _).
    destruct (G _ Hne Hd) as (s' & d & E & Hdd).
    exists (45 :: s'), d. rewrite E. split; [reflexivity | assumption].
  - destruct (digits_spec z ltac:(lia)) as (Hne & Hd & _). now apply G.
Qed.

Lemma nearest_double_small z : Z.abs z < 2 ^ 53 -> nearest_double z = z.
Proof.
  intros H. unfold nearest_double.
  destruct (Z.ltb_spec (Z.abs z) (2 ^ 53)); [reflexivity | lia].
Qed.

Lemma wrap_small w z : 0 < w -> - 2 ^ (w - 1) <= z < 2 ^ (w - 1) -> wrap w z = z.
Proof.
  intros Hw H. unfold wrap.
  assert (H2 : 2 ^ w = 2 * 2 ^ (w - 1)).
  { rewrite <- Z.pow_succ_r by lia. f_equal; lia. }
  rewrite Z.mod_small; lia.
Qed.

End Numerals.

(* ================================================================== *)
(** * The SNBT round trip: tokens *)

Section Tokens.

Import Parse.

Variable NumberToString : spec_float -> jsstring.
Variable StringToNumber : jsstring -> spec_float.

(** A Number whose decimal form is read back as the same Number: the
    form matches the float pattern, and [Number] of it is the Number
    itself.  For the Numbers of ECMAScript these are the finite ones
    other than the negative zero. *)
Definition printable (v : spec_float) : Prop :=
  float_body (NumberToString v) = true /\
  forallb is_unquoted (NumberToString v) = true /\
  StringToNumber (NumberToString v) = v.

Definition int8 (v : Z) : Prop := - 128 <= v < 128.
Definition int16 (v : Z) : Prop := - 32768 <= v < 32768.
Definition int64 (v : Z) : Prop := - 2 ^ 63 <= v < 2 ^ 63.

Lemma split_suffix_snoc p s c :
  split_suffix p (s ++ [c]) = if p c then (s, [c]) else (s ++ [c], []).
Proof.
  unfold split_suffix. rewrite rev_app_distr. cbn [rev app].
  now rewrite rev_involutive.
Qed.

Lemma digit_not_bls d : is_digit d = true -> is_bls d = false.
Proof.
  unfold is_digit, is_bls. intros H.
  apply andb_true_iff in H as [H1 H2]. apply Z.leb_le in H1, H2.
  repeat match goal with
         | |- context [?a =? ?b] => destruct (Z.eqb_spec a b); [lia|]
         end.
  reflexivity.
Qed.

Lemma Number_of_integer_decimal v :
  Z.abs v < 2 ^ 53 -> Number_of_integer (decimal v) = v.
Proof.
  intros H. unfold Number_of_integer.
  now rewrite integer_value_decimal, nearest_double_small.
Qed.

Lemma Byte_wrap v : Primitive.Byte v = wrap 8 v.
Proof. exact (shl_sar_wrap 8 v ltac:(lia)). Qed.

Lemma Short_wrap v : Primitive.Short v = wrap 16 v.
Proof. exact (shl_sar_wrap 16 v ltac:(lia)). Qed.

Lemma Int8_small v : int8 v -> Int8 v = v.
Proof.
  intros H. unfold Int8. rewrite Byte_wrap.
  apply wrap_small; unfold int8 in H; lia.
Qed.

Lemma Int16_small v : int16 v -> Int16 v = v.
Proof.
  intros H. unfold Int16. rewrite Short_wrap.
  apply wrap_small; unfold int16 in H; lia.
Qed.

Lemma Int32_small v : int32 v -> Int32 v = v.
Proof.
  intros H. unfold Int32. rewrite Int_wrap.
  apply wrap_small; unfold int32 in H; lia.
Qed.

Lemma INTEGER_PATTERN_suffixed v c :
  is_bls c = true ->
  INTEGER_PATTERN (decimal v ++ [c]) = Some (decimal v, [c]).
Proof.
  intros Hc. unfold INTEGER_PATTERN.
  now rewrite split_suffix_snoc, Hc, integer_body_decimal.
Qed.

Lemma INTEGER_PATTERN_plain v : INTEGER_PATTERN (decimal v) = Some (decimal v, []).
Proof.
  unfold INTEGER_PATTERN.
  destruct (decimal_last v) as (s & d & E & Hd).
  rewrite E at 1. rewrite split_suffix_snoc, (digit_not_bls d Hd), <- E.
  now rewrite integer_body_decimal.
Qed.

Lemma readToken_byte v :
  int8 v -> readToken StringToNumber (decimal v ++ js "b") = ByteTag v.
Proof.
  intros H. unfold readToken. change (js "b") with [98].
  rewrite (INTEGER_PATTERN_suffixed v 98 eq_refl).
  unfold readInteger. cbn [has_suffix]. change (98 =? 98) with true. cbn [orb].
  rewrite Number_of_integer_decimal by (unfold int8 in H; lia).
  now rewrite Int8_small.
Qed.

Lemma readToken_short v :
  int16 v -> readToken StringToNumber (decimal v ++ js "s") = ShortTag v.
Proof.
  intros H. unfold readToken. change (js "s") with [115].
  rewrite (INTEGER_PATTERN_suffixed v 115 eq_refl).
  unfold readInteger. cbn [has_suffix].
  change (115 =? 98) with false. change (115 =? 66) with false.
  change (115 =? 115) with true. cbn [orb].
  rewrite Number_of_integer_decimal by (unfold int16 in H; lia).
  now rewrite Int16_small.
Qed.

Lemma readToken_long v :
  readToken StringToNumber (decimal v ++ js "l") = LongTag v.
Proof.
  unfold readToken. change (js "l") with [108].
  rewrite (INTEGER_PATTERN_suffixed v 108 eq_refl).
  unfold readInteger. cbn [has_suffix].
  change (108 =? 98) with false. change (108 =? 66) with false.
  change (108 =? 115) with false. change (108 =? 83) with false.
  change (108 =? 108) with true. cbn [orb].
  unfold BigInt_of_integer. now rewrite integer_value_decimal.
Qed.

Lemma readToken_int v :
  int32 v -> readToken StringToNumber (decimal v) = IntTag v.
Proof.
  intros H. unfold readToken. rewrite INTEGER_PATTERN_plain.
  unfold readInteger. cbn [has_suffix].
  rewrite Number_of_integer_decimal by (unfold int32 in H; lia).
  now rewrite Int32_small.
Qed.

(** A string the first group of the integer pattern matches ends in a
    digit. *)
Lemma integer_body_last s c : integer_body (s ++ [c]) = true -> is_digit c = true.
Proof.
  assert (Core : forall l,
    match l ++ [c] with
    | [] => false
    | c0 :: r => ((c0 =? 48) && match r with [] => true | _ => false end)
                 || (is_digit19 c0 && forallb is_digit r)
    end = true -> is_digit c = true).
  { intros [|c0 l].
    - cbn [app forallb]. rewrite !andb_true_r. intros H.
      apply orb_true_iff in H as [H|H].
      + apply Z.eqb_eq in H. subst. reflexivity.
      + now apply digit19_digit.
    - cbn [app]. destruct (l ++ [c]) as [|x y] eqn:E.
      { destruct l; discriminate. }
      rewrite andb_false_r. cbn [orb]. intros H.
      apply andb_true_iff in H as [_ H]. rewrite <- E, forallb_app in H.
      apply andb_true_iff in H as [_ H]. cbn in H. now rewrite andb_true_r in H. }
  unfold integer_body, strip_sign. destruct s as [|a s].
  - cbn [app]. destruct (is_sign c); [discriminate | apply (Core [])].
  - cbn [app]. destruct (is_sign a); [apply (Core s) | apply (Core (a :: s))].
Qed.

Lemma INTEGER_PATTERN_float_token ns c :
  is_df c = true -> INTEGER_PATTERN (ns ++ [c]) = None.
Proof.
  intros Hc. unfold INTEGER_PATTERN. rewrite split_suffix_snoc.
  assert (Hb : is_bls c = false).
  { unfold is_df in Hc. unfold is_bls.
    repeat match type of Hc with
           | (_ || _) = true => apply orb_true_iff in Hc as [Hc|Hc]
           end; apply Z.eqb_eq in Hc; subst; reflexivity. }
  rewrite Hb.
  destruct (integer_body (ns ++ [c])) eqn:E; [|reflexivity].
  apply integer_body_last in E. exfalso.
  unfold is_df in Hc. unfold is_digit in E.
  repeat match type of Hc with
         | (_ || _) = true => apply orb_true_iff in Hc as [Hc|Hc]
         end; apply Z.eqb_eq in Hc; subst; discriminate.
Qed.

Lemma readToken_double v :
  printable v -> readToken StringToNumber (NumberToString v ++ js "d") = DoubleTag v.
Proof.
  intros (Hb & _ & Hv). unfold readToken. change (js "d") with [100].
  rewrite (INTEGER_PATTERN_float_token _ 100 eq_refl).
  unfold FLOAT_PATTERN. rewrite (split_suffix_snoc is_df _ 100).
  change (is_df 100) with true. cbn iota. rewrite Hb.
  unfold readFloat. cbn [has_suffix].
  change (100 =? 102) with false. change (100 =? 70) with false. cbn [orb].
  now rewrite Hv.
Qed.

Lemma readToken_float v :
  printable v -> fround v = v ->
  readToken StringToNumber (NumberToString v ++ js "f") = FloatTag v.
Proof.
  intros (Hb & _ & Hv) Hf. unfold readToken. change (js "f") with [102].
  rewrite (INTEGER_PATTERN_float_token _ 102 eq_refl).
  unfold FLOAT_PATTERN. rewrite (split_suffix_snoc is_df _ 102).
  change (is_df 102) with true. cbn iota. rewrite Hb.
  unfold readFloat. cbn [has_suffix].
  change (102 =? 102) with true. cbn [orb].
  unfold Float32. now rewrite Hv, Hf.
Qed.

Lemma readToken_true : readToken StringToNumber (js "true") = BooleanTag true.
Proof. reflexivity. Qed.

End Tokens.

(* ================================================================== *)
(** * The SNBT round trip: the cursor of the reader *)

Section Cursor.

Import Parse.

Variable data : jsstring.

(** The text from the cursor [o] on is [s]. *)
Definition at_ (o : nat) (s : jsstring) : Prop :=
  exists pre, data = pre ++ s /\ List.length pre = o.

Lemma at_skipn o s : at_ o s -> skipn o data = s.
Proof.
  intros (pre & -> & <-). rewrite skipn_app, skipn_all, Nat.sub_diag.
  reflexivity.
Qed.

Lemma at_app o a s : at_ o (a ++ s) -> at_ (o + List.length a) s.
Proof.
  intros (pre & -> & <-). exists (pre ++ a).
  now rewrite <- app_assoc, length_app.
Qed.

Lemma at_cons o c s : at_ o (c :: s) -> at_ (o + 1) s.
Proof. intros H. apply (at_app o [c] s H). Qed.

Lemma at_length o s : at_ o s -> List.length data = (o + List.length s)%nat.
Proof. intros (pre & -> & <-). apply length_app. Qed.

Lemma allocate_at o s n :
  at_ o s -> allocate data n o = (n <=? List.length s)%nat.
Proof.
  intros H. unfold allocate. rewrite (at_length o s H).
  destruct (Nat.leb_spec (o + n) (o + List.length s));
    destruct (Nat.leb_spec n (List.length s)); try reflexivity; lia.
Qed.

Lemma peek_at o c s : at_ o (c :: s) -> peek data 0 o = Some c.
Proof.
  intros (pre & -> & <-). unfold peek.
  rewrite Nat.add_0_r, nth_error_app2, Nat.sub_diag by lia. reflexivity.
Qed.

Lemma peek_at_end o : at_ o [] -> peek data 0 o = None.
Proof.
  intros (pre & -> & <-). unfold peek. rewrite app_nil_r, Nat.add_0_r.
  apply nth_error_None. lia.
Qed.

Lemma peek1_at o c d s : at_ o (c :: d :: s) -> peek data 1 o = Some d.
Proof.
  intros (pre & -> & <-). unfold peek.
  rewrite nth_error_app2 by lia.
  replace (List.length pre + 1 - List.length pre)%nat with 1%nat by lia.
  reflexivity.
Qed.

Lemma peek1_at_end o c : at_ o [c] -> peek data 1 o = None.
Proof.
  intros (pre & -> & <-). unfold peek. apply nth_error_None.
  rewrite length_app. cbn. lia.
Qed.

Lemma peek_is_at o c s x : at_ o (c :: s) -> peek_is data x 0 o = (c =? x).
Proof. intros H. unfold peek_is. now rewrite (peek_at o c s H). Qed.

Definition all_ws (w : jsstring) : Prop := forallb is_whitespace w = true.

(** [s] does not start with a character of the class [p]. *)
Definition stops (p : char -> bool) (s : jsstring) : Prop :=
  match s with
  | [] => True
  | c :: _ => p c = false
  end.

Lemma count_whitespace_app w s :
  all_ws w -> stops is_whitespace s -> count_whitespace (w ++ s) = List.length w.
Proof.
  unfold all_ws. induction w as [|c w IH]; intros Hw Hs.
  - cbn [app List.length]. destruct s as [|c s]; [reflexivity|].
    cbn in *. now rewrite Hs.
  - cbn in Hw. apply andb_true_iff in Hw as [Hc Hw].
    cbn [app count_whitespace List.length]. rewrite Hc. f_equal. now apply IH.
Qed.

Lemma skipWhitespace_at o w s :
  at_ o (w ++ s) -> all_ws w -> stops is_whitespace s ->
  skipWhitespace data o = (o + List.length w)%nat.
Proof.
  intros H Hw Hs. unfold skipWhitespace.
  now rewrite (at_skipn _ _ H), count_whitespace_app.
Qed.

(** No whitespace at the cursor. *)
Lemma skipWhitespace_none o s :
  at_ o s -> stops is_whitespace s -> skipWhitespace data o = o.
Proof.
  intros H Hs. rewrite (skipWhitespace_at o [] s H eq_refl Hs). cbn. lia.
Qed.

Lemma expect_at o c s : at_ o (c :: s) -> expect data c o = Ok (tt, (o + 1)%nat).
Proof.
  intros H. unfold expect.
  rewrite (allocate_at _ _ 1 H), (peek_is_at _ _ _ c H), Z.eqb_refl.
  reflexivity.
Qed.

Lemma span_stops p tok s :
  forallb p tok = true -> stops p s -> span p (tok ++ s) = (tok, s).
Proof.
  induction tok as [|c tok IH]; intros Ht Hs.
  - cbn [app]. destruct s as [|c s]; [reflexivity|]. cbn in *. now rewrite Hs.
  - cbn in Ht. apply andb_true_iff in Ht as [Hc Ht].
    cbn [app span]. rewrite Hc, IH by assumption. reflexivity.
Qed.

Lemma readUnquotedString_at o tok s :
  at_ o (tok ++ s) -> tok <> [] -> forallb is_unquoted tok = true ->
  stops is_unquoted s ->
  readUnquotedString data o = Some (tok, (o + List.length tok)%nat).
Proof.
  intros H Hne Ht Hs. unfold readUnquotedString, UNQUOTED_STRING_OPEN_PATTERN.
  rewrite (at_skipn _ _ H), span_stops by assumption.
  cbn [fst]. destruct tok; [congruence | reflexivity].
Qed.

Lemma slice_at o run s : at_ o (run ++ s) -> slice data o (o + List.length run) = run.
Proof.
  intros H. unfold slice. rewrite (at_skipn _ _ H).
  replace (o + List.length run - o)%nat with (List.length run) by lia.
  rewrite firstn_app, Nat.sub_diag, firstn_all. cbn. apply app_nil_r.
Qed.

(** The loop of [#readQuotedString] over the quoted form of [str]:
    [run] is the text between [lastPos] and the cursor. *)
Lemma readQuotedString_loop_at q str :
  q <> 92 ->
  forall run acc lastPos s,
    at_ lastPos (run ++ quoted_body q str ++ q :: s) ->
    readQuotedString_loop data q (quoted_body q str ++ q :: s)
      (lastPos + List.length run) lastPos acc
    = Ok (acc ++ run ++ str,
          (lastPos + List.length run + List.length (quoted_body q str) + 1)%nat).
Proof.
  intros Hq. induction str as [|c str IH]; intros run acc lastPos s H.
  - cbn [quoted_body app readQuotedString_loop List.length].
    destruct (Z.eqb_spec q 92); [congruence|]. rewrite Z.eqb_refl.
    replace (S (lastPos + List.length run) - 1)%nat
      with (lastPos + List.length run)%nat by lia.
    rewrite (slice_at _ _ _ H), app_nil_r. do 2 f_equal. lia.
  - cbn [quoted_body] in H |- *. destruct ((c =? q) || (c =? 92)) eqn:E.
    + cbn [app readQuotedString_loop]. change (92 =? 92) with true. cbn iota.
      assert (E' : negb (c =? q) && negb (c =? 92) = false).
      { apply orb_true_iff in E as [->| ->]; [reflexivity|].
        now rewrite andb_false_r. }
      rewrite E'.
      replace (S (lastPos + List.length run) - 1)%nat
        with (lastPos + List.length run)%nat by lia.
      rewrite (slice_at _ _ _ H).
      assert (H' : at_ (S (S (lastPos + List.length run)))
                       ([] ++ quoted_body q str ++ q :: s)).
      { apply at_app in H.
        apply (at_app _ [92; c]) in H. cbn [List.length] in H.
        replace (S (S (lastPos + List.length run)))
          with (lastPos + List.length run + 2)%nat by lia. exact H. }
      pose proof (IH [] (acc ++ run ++ [c]) _ s H') as G.
      cbn [List.length] in G. rewrite Nat.add_0_r in G. rewrite G.
      f_equal. f_equal.
      * rewrite <- !app_assoc. reflexivity.
      * cbn [List.length]. lia.
    + apply orb_false_iff in E as [E1 E2].
      cbn [app readQuotedString_loop]. rewrite E2, E1.
      assert (H' : at_ lastPos ((run ++ [c]) ++ quoted_body q str ++ q :: s)).
      { rewrite <- app_assoc. exact H. }
      pose proof (IH (run ++ [c]) acc lastPos s H') as G.
      rewrite length_app in G. cbn [List.length] in G.
      replace (S (lastPos + List.length run))
        with (lastPos + (List.length run + 1))%nat by lia.
      rewrite G. f_equal. f_equal.
      * rewrite <- !app_assoc. reflexivity.
      * cbn [List.length]. lia.
Qed.

Lemma readQuotedString_at q str o s :
  q <> 92 ->
  at_ o (q :: quoted_body q str ++ q :: s) ->
  readQuotedString data q o
  = Ok (str, (o + List.length (q :: quoted_body q str ++ [q]))%nat).
Proof.
  intros Hq H. unfold readQuotedString.
  pose proof (at_cons _ _ _ H) as H1.
  replace (S o) with (o + 1)%nat by lia.
  rewrite (at_skipn _ _ H1).
  pose proof (readQuotedString_loop_at q str Hq [] [] (o + 1)%nat s H1) as G.
  cbn [List.length app] in G. rewrite Nat.add_0_r in G. rewrite G.
  f_equal. f_equal. cbn [List.length]. rewrite length_app. cbn [List.length]. lia.
Qed.

End Cursor.

(* ================================================================== *)
(** * The SNBT round trip: trees that are written and read back *)

Section Conforming.

Import Parse.
Import Stringify.

Variable NumberToString : spec_float -> jsstring.
Variable StringToNumber : jsstring -> spec_float.

(** The first element of a list is not a string that starts with a
    semicolon. *)
Definition list_head_ok (l : list Tag) : Prop :=
  match l with
  | StringTag (59 :: _) :: _ => False
  | _ => True
  end.

Definition homogeneous (l : list Tag) : Prop :=
  Forall (fun entry => getTagType entry = Some (list_type l)) l.

(** The trees of the round trip: the values lie in the range of their
    tag, a FLOAT is a single-precision value, the Numbers are
    [printable], the elements of a list have one tag type, the keys of
    a compound are distinct, stand in the order of [Object.entries] and
    are not empty; no key is [__proto__], no boolean is [false] and no
    list starts with a string that starts with a semicolon. *)
Fixpoint conforms (t : Tag) : Prop :=
  match t with
  | BooleanTag b => b = true
  | ByteTag v => int8 v
  | ShortTag v => int16 v
  | IntTag v => int32 v
  | LongTag v => int64 v
  | FloatTag v => printable NumberToString StringToNumber v /\ fround v = v
  | DoubleTag v => printable NumberToString StringToNumber v
  | ByteArrayTag l => Forall int8 l
  | StringTag _ => True
  | ListTag l =>
      (fix all (l : list Tag) : Prop :=
         match l with
         | [] => True
         | x :: r => conforms x /\ all r
         end) l
      /\ list_head_ok l /\ homogeneous l
  | CompoundTag l =>
      (fix all (l : list (jsstring * Tag)) : Prop :=
         match l with
         | [] => True
         | kv :: r => conforms (snd kv) /\ all r
         end) l
      /\ own_keys (map fst l) /\ Forall (fun k => k <> []) (map fst l)
  | IntArrayTag l => Forall int32 l
  | LongArrayTag l => Forall int64 l
  end.

Lemma conforms_ListTag l :
  conforms (ListTag l) -> Forall conforms l /\ list_head_ok l.
Proof.
  cbn [conforms]. intros (H & Hh & _). split; [|assumption].
  clear Hh. induction l as [|x l IH]; [constructor|].
  constructor; [apply H | apply IH, H].
Qed.

Lemma conforms_CompoundTag l :
  conforms (CompoundTag l) ->
  Forall (fun kv => conforms (snd kv) /\ fst kv <> [] /\ fst kv <> proto_key) l
  /\ NoDup (map fst l) /\ listed (map fst l).
Proof.
  cbn [conforms]. intros (H & (Hn & Hl & Hp) & Hk). split; [|now split].
  clear Hn Hl. induction l as [|kv l IH]; [constructor|].
  cbn [map] in Hk, Hp. inversion Hk; subst. inversion Hp; subst. constructor.
  - split; [apply H | now split].
  - apply IH; [apply H | assumption | assumption].
Qed.

(** ** Characters *)

Definition is_delimiter (c : char) : bool :=
  (c =? 44) || (c =? 93) || (c =? 125) || is_whitespace c.

(** The characters a written tag starts with. *)
Definition is_start (c : char) : bool :=
  (c =? 123) || (c =? 91) || is_quote c || is_unquoted c.

Ltac chars :=
  unfold is_start, is_delimiter, is_quote, is_unquoted, is_whitespace,
         is_digit, is_lower, is_upper, is_sign in *;
  repeat match goal with
         | H : _ = true |- _ =>
             first [ apply orb_true_iff in H; destruct H as [H|H]
                   | apply andb_true_iff in H; destruct H as [? H]
                   | apply Z.eqb_eq in H
                   | apply Z.leb_le in H ]
         end;
  subst;
  repeat match goal with
         | |- context [?a =? ?b] => destruct (Z.eqb_spec a b); try lia
         | |- context [?a <=? ?b] => destruct (Z.leb_spec a b); try lia
         end;
  try reflexivity; try discriminate; try lia.

Lemma unquoted_not_whitespace c : is_unquoted c = true -> is_whitespace c = false.
Proof. intros H. chars. Qed.

Lemma unquoted_not_quote c : is_unquoted c = true -> is_quote c = false.
Proof. intros H. chars. Qed.

Lemma unquoted_facts c :
  is_unquoted c = true ->
  (c =? 123) = false /\ (c =? 91) = false /\ (c =? 93) = false /\
  (c =? 125) = false /\ (c =? 59) = false /\ (c =? 44) = false.
Proof. intros H. repeat split; chars. Qed.

Lemma start_facts c :
  is_start c = true ->
  is_whitespace c = false /\ (c =? 93) = false /\ (c =? 125) = false /\
  (c =? 59) = false /\ (c =? 44) = false.
Proof. intros H. repeat split; chars. Qed.

Lemma delimiter_not_unquoted c : is_delimiter c = true -> is_unquoted c = false.
Proof. intros H. chars. Qed.

Lemma delimiter_not_semicolon c : is_delimiter c = true -> (c =? 59) = false.
Proof. intros H. chars. Qed.

(** ** The text of a tag *)

Variable space : jsstring.
Hypothesis space_whitespace : forallb is_whitespace space = true.

Abbreviation text := (writeTag NumberToString space).
Abbreviation fancy := (Stringify.fancy space).

(** The whitespace the writer puts before an entry at the depth
    [level], and after a colon. *)
Definition indent (level : nat) : jsstring :=
  if fancy then 10 :: repeat_str space level else [].

Definition colon_gap : jsstring := if fancy then [32] else [].

Definition indented (l : list Tag) : bool := fancy && is_complex (list_type l).

Definition list_lead (level : nat) (l : list Tag) : jsstring :=
  if indented l then 10 :: repeat_str space level else [].

Definition list_gap (l : list Tag) : jsstring :=
  if fancy && negb (indented l) then [32] else [].

Lemma all_ws_repeat n : all_ws (repeat_str space n).
Proof.
  unfold all_ws. induction n as [|n IH]; [reflexivity|].
  cbn [repeat_str]. rewrite forallb_app. now rewrite space_whitespace, IH.
Qed.

Lemma all_ws_newline_repeat n : all_ws (10 :: repeat_str space n).
Proof.
  unfold all_ws. cbn [forallb]. change (is_whitespace 10) with true.
  apply all_ws_repeat.
Qed.

Lemma all_ws_indent level : all_ws (indent level).
Proof.
  unfold indent. destruct fancy; [apply all_ws_newline_repeat | reflexivity].
Qed.

Lemma all_ws_colon_gap : all_ws colon_gap.
Proof. unfold colon_gap. destruct fancy; reflexivity. Qed.

Lemma all_ws_list_lead level l : all_ws (list_lead level l).
Proof.
  unfold list_lead. destruct (indented l);
    [apply all_ws_newline_repeat | reflexivity].
Qed.

Lemma all_ws_list_gap l : all_ws (list_gap l).
Proof. unfold list_gap. destruct (fancy && negb (indented l)); reflexivity. Qed.

Lemma all_ws_app a b : all_ws a -> all_ws b -> all_ws (a ++ b).
Proof. unfold all_ws. intros Ha Hb. now rewrite forallb_app, Ha, Hb. Qed.

Lemma text_ListTag level l :
  text level (ListTag l)
  = 91 :: join (44 :: list_gap l)
            (map (fun entry => list_lead level l ++ text (S level) entry) l)
          ++ list_lead (level - 1) l ++ [93].
Proof. reflexivity. Qed.

Lemma text_CompoundTag level l :
  text level (CompoundTag l)
  = 123 :: join [44]
             (map (fun kv => indent level ++ writeKey (fst kv) ++ 58 :: colon_gap
                             ++ text (S level) (snd kv)) l)
           ++ (match l with [] => [] | _ => indent (level - 1) end) ++ [125].
Proof.
  cbn [writeTag]. change (js "{") with [123]. change (js "}") with [125].
  change (js ",") with [44]. change (js ":") with [58]. change (js " ") with [32].
  cbn [app].
  erewrite (map_ext _ (fun kv => indent level ++ writeKey (fst kv) ++ 58 :: colon_gap
                                 ++ text (S level) (snd kv))).
  - unfold indent. destruct fancy, l; reflexivity.
  - intros [k v]. cbn [fst snd]. unfold indent, colon_gap.
    destruct fancy; reflexivity.
Qed.

Lemma join_cons sep x r :
  join sep (x :: r) = x ++ match r with [] => [] | _ => sep ++ join sep r end.
Proof. destruct r; [symmetry; apply app_nil_r | reflexivity]. Qed.

(** The text in the quotes [q]. *)
Lemma writeString_form s :
  exists q, (q = 34 \/ q = 39) /\ writeString s = q :: quoted_body q s ++ [q].
Proof.
  unfold writeString. rewrite !replace_escape_quoted_body.
  destruct (_ <? _)%nat; [exists 39 | exists 34]; split; auto.
Qed.

(** The unquoted token of a scalar tag. *)
Definition token (t : Tag) : option jsstring :=
  match t with
  | BooleanTag b => Some (writeBoolean b)
  | ByteTag v => Some (writeByte v)
  | ShortTag v => Some (writeShort v)
  | IntTag v => Some (writeInt v)
  | LongTag v => Some (writeLong v)
  | FloatTag v => Some (writeFloat NumberToString v)
  | DoubleTag v => Some (writeDouble NumberToString v)
  | _ => None
  end.

Lemma token_text t tok level : token t = Some tok -> text level t = tok.
Proof. destruct t; cbn [token writeTag]; congruence. Qed.

Lemma float_body_nonempty s : float_body s = true -> s <> [].
Proof. intros H ->. discriminate. Qed.

Lemma token_ok t tok :
  conforms t -> token t = Some tok ->
  tok <> [] /\ forallb is_unquoted tok = true /\ readToken StringToNumber tok = t.
Proof.
  destruct t; cbn [token conforms]; intros Hc E; inversion E; subst; clear E.
  - unfold writeBoolean. split; [discriminate|]. split; [reflexivity|].
    apply readToken_true.
  - unfold writeByte. split; [|split].
    + pose proof (decimal_nonempty v). destruct (decimal v); [congruence|discriminate].
    + now rewrite forallb_app, decimal_unquoted.
    + now apply readToken_byte.
  - unfold writeShort. split; [|split].
    + pose proof (decimal_nonempty v). destruct (decimal v); [congruence|discriminate].
    + now rewrite forallb_app, decimal_unquoted.
    + now apply readToken_short.
  - unfold writeInt. split; [|split].
    + apply decimal_nonempty.
    + apply decimal_unquoted.
    + now apply readToken_int.
  - unfold writeLong. split; [|split].
    + pose proof (decimal_nonempty v). destruct (decimal v); [congruence|discriminate].
    + now rewrite forallb_app, decimal_unquoted.
    + apply readToken_long.
  - destruct Hc as [Hp Hf]. unfold writeFloat. split; [|split].
    + destruct (NumberToString v); discriminate.
    + destruct Hp as (_ & Hu & _). now rewrite forallb_app, Hu.
    + now apply (readToken_float NumberToString).
  - unfold writeDouble. split; [|split].
    + destruct (NumberToString v); discriminate.
    + destruct Hc as (_ & Hu & _). now rewrite forallb_app, Hu.
    + now apply (readToken_double NumberToString).
Qed.

Lemma writeKey_start k :
  k <> [] -> exists c r, writeKey k = c :: r /\ is_start c = true.
Proof.
  intros Hk. unfold writeKey. destruct (UNQUOTED_STRING_PATTERN k) eqn:E.
  - destruct k as [|c r]; [congruence|]. exists c, r. split; [reflexivity|].
    cbn in E. apply andb_true_iff in E as [E _].
    unfold is_start. rewrite E. now rewrite !orb_true_r.
  - destruct (writeString_form k) as (q & Hq & ->).
    exists q, (quoted_body q k ++ [q]). split; [reflexivity|].
    destruct Hq as [-> | ->]; reflexivity.
Qed.

(** A written tag starts with a brace, a bracket, a quote or a
    character of an unquoted token. *)
Lemma text_start t level :
  conforms t -> exists c r, text level t = c :: r /\ is_start c = true.
Proof.
  intros Hc. destruct (token t) as [tok|] eqn:E.
  - rewrite (token_text t tok level E).
    destruct (token_ok t tok Hc E) as (Hne & Hu & _).
    destruct tok as [|c r]; [congruence|]. exists c, r. split; [reflexivity|].
    cbn in Hu. apply andb_true_iff in Hu as [Hu _].
    unfold is_start. rewrite Hu. now rewrite !orb_true_r.
  - destruct t; try discriminate.
    + eexists _, _. split; [reflexivity | reflexivity].
    + cbn [writeTag]. destruct (writeString_form s) as (q & Hq & ->).
      exists q, (quoted_body q s ++ [q]). split; [reflexivity|].
      destruct Hq as [-> | ->]; reflexivity.
    + rewrite text_ListTag. eexists _, _. split; reflexivity.
    + rewrite text_CompoundTag. eexists _, _. split; reflexivity.
    + eexists _, _. split; reflexivity.
    + eexists _, _. split; reflexivity.
Qed.

(** ** Reading a written tag *)

Variable ToNumber_other : Tag -> spec_float.
Variable ToBigInt_other : Tag -> option Z.
Variable data : jsstring.

Abbreviation parse_tag :=
  (Parse.readTag StringToNumber ToNumber_other ToBigInt_other data).
Abbreviation here := (at_ data).

(** What follows a written tag: the end of the text, a comma, a closing
    bracket or brace, or whitespace. *)
Definition delimited (rest : jsstring) : Prop :=
  match rest with
  | [] => True
  | c :: _ => is_delimiter c = true
  end.

Lemma delimited_stops rest : delimited rest -> stops is_unquoted rest.
Proof.
  destruct rest as [|c rest]; [trivial|]. cbn. apply delimiter_not_unquoted.
Qed.

Lemma start_stops c r : is_start c = true -> stops is_whitespace (c :: r).
Proof. intros H. cbn. now apply start_facts. Qed.

Lemma readTag_token fuel o w tok rest :
  here o (w ++ tok ++ rest) -> all_ws w ->
  tok <> [] -> forallb is_unquoted tok = true -> delimited rest ->
  exists o',
    parse_tag (S fuel) o = Ok (readToken StringToNumber tok, o') /\ here o' rest.
Proof.
  intros H Hw Hne Hu Hr.
  destruct tok as [|c r]; [congruence|].
  assert (Hc : is_unquoted c = true)
    by (cbn in Hu; now apply andb_true_iff in Hu as [? _]).
  pose proof (unquoted_facts c Hc) as (E1 & E2 & _).
  cbn [Parse.readTag].
  rewrite (skipWhitespace_at data o w _ H Hw)
    by (cbn; now apply unquoted_not_whitespace).
  apply at_app in H.
  rewrite (allocate_at data _ _ 1 H). cbn [app List.length Nat.leb negb].
  rewrite (peek_at data _ _ _ H), E1, E2, (unquoted_not_quote c Hc).
  rewrite (readUnquotedString_at data _ (c :: r) rest H Hne Hu (delimited_stops _ Hr)).
  eexists. split; [reflexivity|]. now apply at_app in H.
Qed.

Lemma readTag_string fuel o w s rest :
  here o (w ++ writeString s ++ rest) -> all_ws w ->
  exists o', parse_tag (S fuel) o = Ok (StringTag s, o') /\ here o' rest.
Proof.
  intros H Hw. destruct (writeString_form s) as (q & Hq & E). rewrite E in H.
  assert (Hq' : q <> 92 /\ is_quote q = true /\ (q =? 123) = false /\
                (q =? 91) = false /\ is_whitespace q = false)
    by (destruct Hq as [-> | ->]; (split; [discriminate | repeat split])).
  destruct Hq' as (Hq1 & Hq2 & Hq3 & Hq4 & Hq5).
  cbn [Parse.readTag].
  rewrite (skipWhitespace_at data o w _ H Hw) by (cbn; assumption).
  apply at_app in H.
  rewrite (allocate_at data _ _ 1 H). cbn [app List.length Nat.leb negb].
  rewrite (peek_at data _ _ _ H), Hq3, Hq4, Hq2.
  cbn [app] in H. rewrite <- app_assoc in H. cbn [app] in H.
  rewrite (readQuotedString_at data q s _ rest Hq1 H).
  eexists. split; [reflexivity|].
  apply (at_app data _ (q :: quoted_body q s ++ [q])).
  cbn [app]. rewrite <- app_assoc. exact H.
Qed.

(** A key as [#readString] reads it. *)
Lemma readString_key o k rest :
  k <> [] -> here o (writeKey k ++ rest) -> stops is_unquoted rest ->
  exists o', Parse.readString data o = Ok (Some k, o') /\ here o' rest.
Proof.
  intros Hk H Hr. unfold writeKey in H. unfold Parse.readString.
  destruct (UNQUOTED_STRING_PATTERN k) eqn:E.
  - destruct k as [|c r]; [congruence|]. cbn [UNQUOTED_STRING_PATTERN] in E.
    assert (Hc : is_unquoted c = true)
      by (cbn in E; now apply andb_true_iff in E as [? _]).
    rewrite (peek_at data _ _ _ H), (unquoted_not_quote c Hc).
    rewrite (readUnquotedString_at data _ (c :: r) rest H Hk E Hr).
    eexists. split; [reflexivity|]. now apply at_app in H.
  - destruct (writeString_form k) as (q & Hq & Eq). rewrite Eq in H.
    assert (Hq' : q <> 92 /\ is_quote q = true)
      by (destruct Hq as [-> | ->]; (split; [discriminate | reflexivity])).
    destruct Hq' as (Hq1 & Hq2).
    cbn [app] in H. rewrite (peek_at data _ _ _ H), Hq2.
    rewrite <- app_assoc in H. cbn [app] in H.
    rewrite (readQuotedString_at data q k _ rest Hq1 H).
    eexists. split; [reflexivity|].
    apply (at_app data _ (q :: quoted_body q k ++ [q])).
    cbn [app]. rewrite <- app_assoc. exact H.
Qed.

(** ** The object a compound is read into *)

(** The object is filled by [set_entry], one entry after the other. *)

(** ** The loops of the reader over the entries of a container *)

(** A tag whose text, after whitespace and before a delimiter, is read
    back with the fuel [fuel]. *)
Definition readable (fuel level : nat) (t : Tag) : Prop :=
  forall o w rest,
    here o (w ++ text level t ++ rest) -> all_ws w -> delimited rest ->
    exists o', parse_tag fuel o = Ok (t, o') /\ here o' rest.

Definition entry_text (level : nat) (kv : jsstring * Tag) : jsstring :=
  writeKey (fst kv) ++ 58 :: colon_gap ++ text (S level) (snd kv).

(** The entries of a compound from the key of the first one on, and
    what follows the last one. *)
Fixpoint entries_tail (level : nat) (l : list (jsstring * Tag)) (finish : jsstring)
  : jsstring :=
  match l with
  | [] => finish
  | kv :: r =>
      entry_text level kv
      ++ match r with
         | [] => finish
         | _ => 44 :: indent level ++ entries_tail level r finish
         end
  end.

Lemma join_entries level l finish :
  l <> [] ->
  join [44] (map (fun kv => indent level ++ entry_text level kv) l) ++ finish
  = indent level ++ entries_tail level l finish.
Proof.
  induction l as [|kv l IH]; [congruence|]. intros _.
  cbn [map]. rewrite join_cons. cbn [entries_tail].
  destruct l as [|kv' l].
  - cbn [map]. now rewrite app_nil_r, <- app_assoc.
  - specialize (IH ltac:(discriminate)). cbn [map] in IH |- *.
    rewrite <- !app_assoc. cbn [app].
    rewrite <- IH. reflexivity.
Qed.

(** The elements of a list from the first one on. *)
Fixpoint items_tail (level : nat) (gap : jsstring) (l : list Tag) (finish : jsstring)
  : jsstring :=
  match l with
  | [] => finish
  | e :: r =>
      text (S level) e
      ++ match r with
         | [] => finish
         | _ => 44 :: gap ++ items_tail level gap r finish
         end
  end.

Lemma join_items level sep lead l finish :
  l <> [] ->
  join (44 :: sep) (map (fun e => lead ++ text (S level) e) l) ++ finish
  = lead ++ items_tail level (sep ++ lead) l finish.
Proof.
  induction l as [|e l IH]; [congruence|]. intros _.
  cbn [map]. rewrite join_cons. cbn [items_tail].
  destruct l as [|e' l].
  - cbn [map]. now rewrite app_nil_r, <- app_assoc.
  - specialize (IH ltac:(discriminate)). cbn [map] in IH |- *.
    rewrite <- !app_assoc. cbn [app].
    rewrite <- IH. reflexivity.
Qed.

Lemma whitespace_not_close c :
  is_whitespace c = true -> (c =? 93) = false /\ (c =? 125) = false /\
                            (c =? 44) = false /\ (c =? 59) = false.
Proof. intros H. repeat split; chars. Qed.

(** Before a written tag or key, possibly after whitespace, the
    character at the cursor closes no container. *)
Lemma peek_not_close o w c s x :
  here o (w ++ c :: s) -> all_ws w -> is_start c = true ->
  x = 93 \/ x = 125 ->
  Parse.allocate data 1 o = true /\ Parse.peek_is data x 0 o = false.
Proof.
  intros H Hw Hc Hx.
  rewrite (allocate_at data _ _ 1 H).
  split; [destruct w; reflexivity|].
  destruct w as [|a w].
  - cbn [app] in H. rewrite (peek_is_at data _ _ _ x H).
    destruct (start_facts c Hc) as (_ & ? & ? & _).
    destruct Hx as [-> | ->]; assumption.
  - cbn [app] in H. rewrite (peek_is_at data _ _ _ x H).
    unfold all_ws in Hw. cbn in Hw. apply andb_true_iff in Hw as [Ha _].
    destruct (whitespace_not_close a Ha) as (? & ? & _).
    destruct Hx as [-> | ->]; assumption.
Qed.

Lemma delimited_finish w c rest :
  all_ws w -> is_delimiter c = true -> delimited (w ++ c :: rest).
Proof.
  intros Hw Hc. destruct w as [|a w]; [exact Hc|].
  cbn. unfold all_ws in Hw. cbn in Hw. apply andb_true_iff in Hw as [Ha _].
  unfold is_delimiter. rewrite Ha. now rewrite !orb_true_r.
Qed.

(** [#skipSeperator()] at a comma that whitespace follows, and at the
    whitespace before a closing character. *)
Lemma skipSeperator_comma o gap s :
  here o (44 :: gap ++ s) -> all_ws gap -> stops is_whitespace s ->
  exists o', Parse.skipSeperator data o = (true, o') /\ here o' s.
Proof.
  intros H Hg Hs. unfold Parse.skipSeperator.
  rewrite (skipWhitespace_none data o _ H) by reflexivity.
  rewrite (allocate_at data _ _ 1 H), (peek_is_at data _ _ _ 44 H).
  cbn [List.length Nat.leb negb orb]. change (44 =? 44) with true. cbn [negb].
  apply at_cons in H.
  rewrite (skipWhitespace_at data _ gap s H Hg Hs).
  eexists. split; [reflexivity|]. now apply at_app in H.
Qed.

Lemma skipSeperator_close o w c rest :
  here o (w ++ c :: rest) -> all_ws w -> c = 93 \/ c = 125 ->
  exists o', Parse.skipSeperator data o = (false, o') /\ here o' (c :: rest).
Proof.
  intros H Hw Hc. unfold Parse.skipSeperator.
  rewrite (skipWhitespace_at data o w _ H Hw)
    by (destruct Hc as [-> | ->]; reflexivity).
  apply at_app in H.
  rewrite (allocate_at data _ _ 1 H), (peek_is_at data _ _ _ 44 H).
  cbn [List.length Nat.leb negb orb].
  replace (c =? 44) with false by (destruct Hc as [-> | ->]; reflexivity).
  cbn [negb]. eexists. split; [reflexivity | assumption].
Qed.

Lemma readCompoundTag_loop_entries fuel_tag level rest finish_ws :
  all_ws finish_ws ->
  forall l fuel tag o w,
    l <> [] -> (List.length l <= fuel)%nat ->
    Forall (fun kv => readable fuel_tag (S level) (snd kv)
                      /\ fst kv <> [] /\ fst kv <> proto_key) l ->
    all_ws w ->
    here o (w ++ entries_tail level l (finish_ws ++ 125 :: rest)) ->
    exists o',
      Parse.readCompoundTag_loop data (parse_tag fuel_tag) fuel tag o
      = Ok (fold_left set_entry l tag, o')
      /\ here o' (125 :: rest).
Proof.
  intros Hfin. induction l as [|[k v] l IH]; [congruence|].
  intros fuel tag o w _ Hfuel Hall Hw H.
  destruct fuel as [|fuel]; [cbn in Hfuel; lia|].
  inversion Hall as [|? ? (Hread & Hk & Hp) Hall']; subst. cbn [fst snd] in *.
  cbn [entries_tail] in H. unfold entry_text in H. cbn [fst snd] in H.
  destruct (writeKey_start k Hk) as (c & r & Ekey & Hc).
  cbn [Parse.readCompoundTag_loop].
  assert (H0 := H). rewrite Ekey in H0. cbn [app] in H0.
  destruct (peek_not_close o w c _ 125 H0 Hw Hc (or_intror eq_refl)) as (-> & ->).
  cbn [negb andb].
  rewrite (skipWhitespace_at data o w _ H0 Hw) by (now apply (start_stops c)).
  apply at_app in H0.
  rewrite (peek_is_at data _ _ _ 125 H0).
  destruct (start_facts c Hc) as (_ & _ & -> & _).
  apply at_app in H. rewrite <- !app_assoc in H. cbn [app] in H.
  rewrite <- !app_assoc in H.
  destruct (readString_key _ k _ Hk H) as (o1 & -> & H1); [reflexivity|].
  destruct k as [|k0 k']; [congruence|].
  rewrite (skipWhitespace_none data o1 _ H1) by reflexivity.
  rewrite (expect_at data o1 58 _ H1). apply at_cons in H1.
  set (tail := match l with
               | [] => finish_ws ++ 125 :: rest
               | _ => 44 :: indent level
                        ++ entries_tail level l (finish_ws ++ 125 :: rest)
               end) in *.
  assert (Htail : delimited tail).
  { unfold tail. destruct l; [|reflexivity].
    now apply delimited_finish. }
  destruct (Hread _ colon_gap tail H1 all_ws_colon_gap Htail) as (o2 & -> & H2).
  rewrite (obj_assign_key tag (k0 :: k') v Hp).
  fold (set_entry tag (k0 :: k', v)).
  destruct l as [|kv' l].
  - unfold tail in H2.
    destruct (skipSeperator_close o2 finish_ws 125 rest H2 Hfin (or_intror eq_refl))
      as (o3 & -> & H3).
    rewrite (peek_is_at data _ _ _ 125 H3). cbn [negb]. change (125 =? 125) with true.
    cbn [negb fold_left]. eauto.
  - unfold tail in H2.
    inversion Hall' as [|? ? (_ & Hk' & _) _]; subst.
    destruct (writeKey_start (fst kv') Hk') as (c' & r' & Ekey' & Hc').
    assert (Hs : stops is_whitespace
                   (entries_tail level (kv' :: l) (finish_ws ++ 125 :: rest))).
    { cbn [entries_tail]. unfold entry_text. rewrite Ekey'. cbn [app].
      now apply (start_stops c'). }
    destruct (skipSeperator_comma o2 (indent level) _ H2 (all_ws_indent level) Hs)
      as (o3 & -> & H3).
    cbn [fold_left].
    apply (IH fuel (set_entry tag (k0 :: k', v)) o3 []);
      [discriminate | cbn in Hfuel |- *; lia | assumption | reflexivity | exact H3].
Qed.

Lemma items_tail_start level gap e l finish :
  conforms e ->
  exists c r, items_tail level gap (e :: l) finish = c :: r /\ is_start c = true.
Proof.
  intros He. destruct (text_start e (S level) He) as (c & r & E & Hc).
  cbn [items_tail]. rewrite E. cbn [app]. eauto.
Qed.

Lemma readSomeList_loop_items fuel_tag level gap rest finish_ws :
  all_ws gap -> all_ws finish_ws ->
  forall l fuel tags o w,
    l <> [] -> (List.length l <= fuel)%nat ->
    Forall (fun e => readable fuel_tag (S level) e /\ conforms e) l ->
    all_ws w ->
    here o (w ++ items_tail level gap l (finish_ws ++ 93 :: rest)) ->
    exists o',
      Parse.readSomeList_loop data (parse_tag fuel_tag) fuel tags o
      = Ok (tags ++ l, o')
      /\ here o' (93 :: rest).
Proof.
  intros Hgap Hfin. induction l as [|e l IH]; [congruence|].
  intros fuel tags o w _ Hfuel Hall Hw H.
  destruct fuel as [|fuel]; [cbn in Hfuel; lia|].
  inversion Hall as [|? ? [Hread He] Hall']; subst.
  destruct (items_tail_start level gap e l (finish_ws ++ 93 :: rest) He)
    as (c & r & E & Hc).
  cbn [Parse.readSomeList_loop].
  assert (H0 := H). rewrite E in H0.
  destruct (peek_not_close o w c _ 93 H0 Hw Hc (or_introl eq_refl)) as (-> & ->).
  cbn [negb andb]. clear H0 E.
  cbn [items_tail] in H.
  set (tail := match l with
               | [] => finish_ws ++ 93 :: rest
               | _ => 44 :: gap ++ items_tail level gap l (finish_ws ++ 93 :: rest)
               end) in *.
  assert (Htail : delimited tail).
  { unfold tail. destruct l; [|reflexivity]. now apply delimited_finish. }
  destruct (Hread _ w tail H Hw Htail) as (o2 & -> & H2).
  destruct l as [|e' l].
  - unfold tail in H2.
    destruct (skipSeperator_close o2 finish_ws 93 rest H2 Hfin (or_introl eq_refl))
      as (o3 & -> & H3).
    rewrite (peek_is_at data _ _ _ 93 H3). change (93 =? 93) with true.
    cbn [negb]. eauto.
  - unfold tail in H2.
    inversion Hall' as [|? ? [_ He'] _]; subst.
    destruct (items_tail_start level gap e' l (finish_ws ++ 93 :: rest) He')
      as (c' & r' & E' & Hc').
    assert (Hs : stops is_whitespace
                   (items_tail level gap (e' :: l) (finish_ws ++ 93 :: rest)))
      by (rewrite E'; now apply (start_stops c')).
    destruct (skipSeperator_comma o2 gap _ H2 Hgap Hs) as (o3 & -> & H3).
    replace (tags ++ e :: e' :: l) with ((tags ++ [e]) ++ e' :: l)
      by (now rewrite <- app_assoc).
    apply (IH fuel (tags ++ [e]) o3 []);
      [discriminate | cbn in Hfuel |- *; lia | assumption | reflexivity | exact H3].
Qed.

(** The loop of [#readSomeList] from the character after the bracket
    or the array prefix on, the elements and the closing bracket. *)
Lemma readSomeList_loop_close fuel_tag level lead gap finish_ws rest l fuel o :
  all_ws lead -> all_ws gap -> all_ws finish_ws ->
  (l = [] -> lead = [] /\ finish_ws = []) ->
  (List.length l < fuel)%nat ->
  Forall (fun e => readable fuel_tag (S level) e /\ conforms e) l ->
  here o (lead ++ items_tail level gap l (finish_ws ++ 93 :: rest)) ->
  exists o',
    Parse.readSomeList_loop data (parse_tag fuel_tag) fuel []
      (Parse.skipWhitespace data o) = Ok (l, o')
    /\ here o' (93 :: rest).
Proof.
  intros Hlead Hgap Hfin Hnil Hfuel Hall H.
  destruct l as [|e l].
  - destruct (Hnil eq_refl) as [-> ->]. cbn [items_tail app] in H.
    rewrite (skipWhitespace_none data o _ H) by reflexivity.
    destruct fuel as [|fuel]; [lia|]. cbn [Parse.readSomeList_loop].
    rewrite (allocate_at data _ _ 1 H), (peek_is_at data _ _ _ 93 H).
    change (93 =? 93) with true. cbn [List.length Nat.leb negb andb]. eauto.
  - inversion Hall as [|? ? [_ He] _]; subst.
    destruct (items_tail_start level gap e l (finish_ws ++ 93 :: rest) He)
      as (c & r & E & Hc).
    rewrite (skipWhitespace_at data o lead _ H Hlead)
      by (rewrite E; now apply (start_stops c)).
    apply at_app in H.
    apply (readSomeList_loop_items fuel_tag level gap rest finish_ws Hgap Hfin
             (e :: l) fuel [] _ []);
      [discriminate | lia | assumption | reflexivity | exact H].
Qed.

(** The typed array a bracketed sequence of entries is stored into. *)
Lemma store_all_map conv w (mk : Z -> Tag) l :
  (forall v, conv (mk v) = Ok v) -> Forall (fun v => wrap w v = v) l ->
  Parse.store_all conv w (map mk l) = Ok l.
Proof.
  intros Hconv. induction 1 as [|v l Hv _ IH]; [reflexivity|].
  cbn [map Parse.store_all]. now rewrite Hconv, IH, Hv.
Qed.

(** ** The array prefix *)

(** After an opening bracket the reader takes the next two characters
    for an array prefix when the second is a semicolon. *)
Definition head_ok (s : jsstring) : Prop :=
  match s with
  | c :: _ => (c =? 59) = false
  | [] => True
  end.

Definition second_ok (s : jsstring) : Prop :=
  match s with
  | _ :: r => head_ok r
  | [] => True
  end.

Lemma prefix_check o s :
  here o s -> second_ok s ->
  Parse.allocate data 2 o && Parse.peek_is data 59 1 o = false.
Proof.
  intros H Hs. rewrite (allocate_at data _ _ 2 H).
  destruct s as [|c [|d s]]; try reflexivity.
  unfold Parse.peek_is. rewrite (peek1_at data _ _ _ _ H). exact Hs.
Qed.

Lemma head_ok_start c r : is_start c = true -> head_ok (c :: r).
Proof. intros H. cbn. now apply start_facts. Qed.

Lemma head_ok_ws w s : all_ws w -> head_ok s -> head_ok (w ++ s).
Proof.
  intros Hw Hs. destruct w as [|a w]; [exact Hs|].
  unfold all_ws in Hw. cbn in Hw. apply andb_true_iff in Hw as [Ha _].
  cbn. now apply whitespace_not_close.
Qed.

Lemma head_ok_delimited s : delimited s -> head_ok s.
Proof. destruct s as [|c s]; [trivial|]. cbn. apply delimiter_not_semicolon. Qed.

Lemma second_ok_ws w c r :
  all_ws w -> is_start c = true -> second_ok (w ++ c :: r) \/ w = [].
Proof.
  intros Hw Hc. destruct w as [|a w]; [now right|]. left.
  cbn [app second_ok]. apply head_ok_ws; [|now apply head_ok_start].
  unfold all_ws in *. cbn in Hw. now apply andb_true_iff in Hw as [_ ?].
Qed.

Lemma quoted_body_head q s rest :
  (q =? 59) = false ->
  match s with c :: _ => c <> 59 | [] => True end ->
  head_ok (quoted_body q s ++ q :: rest).
Proof.
  intros Hq Hs. destruct s as [|c s]; [exact Hq|].
  cbn [quoted_body]. destruct ((c =? q) || (c =? 92)); cbn; [reflexivity|].
  now apply Z.eqb_neq.
Qed.

Lemma list_head_ok_string s l :
  list_head_ok (StringTag s :: l) -> match s with c :: _ => c <> 59 | [] => True end.
Proof.
  destruct s as [|c s]; [trivial|]. intros H ->. exact H.
Qed.

(** The second character of a written tag and what follows it. *)
Lemma text_second t l level tail :
  conforms t -> list_head_ok (t :: l) -> tail <> [] -> head_ok tail ->
  second_ok (text level t ++ tail).
Proof.
  intros Hc Hh Hne Ht. destruct (token t) as [tok|] eqn:E.
  - rewrite (token_text t tok level E).
    destruct (token_ok t tok Hc E) as (Hn & Hu & _).
    destruct tok as [|c [|d r]]; [congruence | exact Ht |].
    cbn in Hu. apply andb_true_iff in Hu as [_ Hu].
    apply andb_true_iff in Hu as [Hu _].
    cbn. now apply unquoted_facts.
  - destruct t; try discriminate.
    + reflexivity.
    + cbn [writeTag]. destruct (writeString_form s) as (q & Hq & ->).
      cbn [app second_ok]. rewrite <- app_assoc. cbn [app].
      apply quoted_body_head;
        [destruct Hq as [-> | ->]; reflexivity
        | now apply (list_head_ok_string s l)].
    + rewrite text_ListTag. cbn [app second_ok].
      destruct l0 as [|e l0].
      * cbn [map join app]. unfold list_lead, indented. cbn [list_type is_complex].
        rewrite andb_false_r. reflexivity.
      * apply conforms_ListTag in Hc as [Hc _]. inversion Hc; subst.
        destruct (text_start e (S level)) as (c & r & Ee & Hs); [assumption|].
        cbn [map]. rewrite join_cons, <- !app_assoc, Ee. cbn [app].
        apply head_ok_ws; [apply all_ws_list_lead | now apply head_ok_start].
    + rewrite text_CompoundTag. cbn [app second_ok].
      destruct l0 as [|[k v] l0]; [reflexivity|].
      apply conforms_CompoundTag in Hc as [Hc _]. inversion Hc as [|? ? (_ & Hk & _) _]; subst.
      cbn [fst] in Hk. destruct (writeKey_start k Hk) as (c & r & Ek & Hs).
      cbn [map fst snd]. rewrite join_cons, <- !app_assoc, Ek. cbn [app].
      apply head_ok_ws; [apply all_ws_indent | now apply head_ok_start].
    + reflexivity.
    + reflexivity.
Qed.

(** The elements of a written list, with the whitespace around them. *)
Lemma list_items level l rest :
  join (44 :: list_gap l)
    (map (fun entry => list_lead level l ++ text (S level) entry) l)
  ++ list_lead (level - 1) l ++ 93 :: rest
  = list_lead level l
    ++ items_tail level (list_gap l ++ list_lead level l) l
         (list_lead (level - 1) l ++ 93 :: rest).
Proof.
  destruct l as [|e l]; [|now apply join_items].
  unfold list_lead, indented. cbn [list_type is_complex].
  rewrite andb_false_r. reflexivity.
Qed.

Lemma list_lead_nil level : list_lead level [] = [].
Proof.
  unfold list_lead, indented. cbn [list_type is_complex].
  now rewrite andb_false_r.
Qed.

Lemma second_ok_list level gap l rest :
  Forall conforms l -> list_head_ok l -> delimited rest ->
  second_ok (list_lead level l
             ++ items_tail level gap l (list_lead (level - 1) l ++ 93 :: rest)).
Proof.
  intros Hall Hh Hr. destruct l as [|e l].
  - rewrite !list_lead_nil. cbn. now apply head_ok_delimited.
  - inversion Hall as [|? ? He _]; subst.
    set (lead := list_lead level (e :: l)).
    set (fin := list_lead (level - 1) (e :: l) ++ 93 :: rest).
    destruct (items_tail_start level gap e l fin He) as (c & r & E & Hc).
    destruct (second_ok_ws lead c r (all_ws_list_lead _ _) Hc) as [Hs | Hs].
    + now rewrite E.
    + rewrite Hs. cbn [app items_tail].
      assert (Hfin : fin <> [] /\ head_ok fin).
      { unfold fin. split;
          [intros E0; apply app_eq_nil in E0 as [_ E0]; discriminate|].
        apply head_ok_ws; [apply all_ws_list_lead | reflexivity]. }
      apply (text_second e l); [assumption | assumption | |].
      * destruct l; [apply Hfin | discriminate].
      * destruct l; [apply Hfin | reflexivity].
Qed.

(** [#readSomeList()] in its three steps: the bracket, the array
    prefix, the elements up to the closing bracket. *)
Definition list_prefix (o : nat) : result Parse.error (TAG * nat) :=
  if Parse.allocate data 2 o && Parse.peek_is data 59 1 o then
    match Parse.peek data 0 o with
    | Some 66 => Ok (BYTE_ARRAY, (o + 2)%nat)
    | Some 73 => Ok (INT_ARRAY, (o + 2)%nat)
    | Some 76 => Ok (LONG_ARRAY, (o + 2)%nat)
    | c => Throw (Parse.InvalidArrayType c)
    end
  else Ok (LIST, o).

Definition collect (tagType : TAG) (tags : list Tag) : result Parse.error Tag :=
  match tagType with
  | BYTE_ARRAY => Parse.readByteArray ToNumber_other tags
  | INT_ARRAY => Parse.readIntArray ToNumber_other tags
  | LONG_ARRAY => Parse.readLongArray ToBigInt_other tags
  | _ => Ok (ListTag tags)
  end.

Definition list_elements (readTag : Parse.P Tag) (fuel : nat) (tagType : TAG) (o : nat)
  : result Parse.error (Tag * nat) :=
  match Parse.readSomeList_loop data readTag fuel [] (Parse.skipWhitespace data o) with
  | Ok (tags, o) =>
      if negb (Parse.allocate data 1 o) then Throw Parse.ExpectedTagOrBracket
      else
        match Parse.expect data 93 o with
        | Ok (_, o) =>
            match collect tagType tags with
            | Ok t => Ok (t, o)
            | Throw e => Throw e
            | Diverge => Diverge
            | Untracked => Untracked
            end
        | Throw e => Throw e
        | Diverge => Diverge
        | Untracked => Untracked
        end
  | Throw e => Throw e
  | Diverge => Diverge
  | Untracked => Untracked
  end.

Lemma readSomeList_steps readTag fuel o :
  Parse.readSomeList ToNumber_other ToBigInt_other data readTag fuel o
  = match Parse.expect data 91 o with
    | Ok (_, o) =>
        match list_prefix o with
        | Ok (tagType, o) => list_elements readTag fuel tagType o
        | Throw e => Throw e
        | Diverge => Diverge
        | Untracked => Untracked
        end
    | Throw e => Throw e
    | Diverge => Diverge
    | Untracked => Untracked
    end.
Proof. reflexivity. Qed.

Lemma list_elements_at fuel_tag level lead gap finish_ws rest l fuel o tagType t :
  all_ws lead -> all_ws gap -> all_ws finish_ws ->
  (l = [] -> lead = [] /\ finish_ws = []) ->
  (List.length l < fuel)%nat ->
  Forall (fun e => readable fuel_tag (S level) e /\ conforms e) l ->
  here o (lead ++ items_tail level gap l (finish_ws ++ 93 :: rest)) ->
  collect tagType l = Ok t ->
  exists o',
    list_elements (parse_tag fuel_tag) fuel tagType o = Ok (t, o') /\ here o' rest.
Proof.
  intros Hlead Hgap Hfin Hnil Hfuel Hall H Ht.
  destruct (readSomeList_loop_close fuel_tag level lead gap finish_ws rest l fuel o
              Hlead Hgap Hfin Hnil Hfuel Hall H) as (o1 & E & H1).
  unfold list_elements. rewrite E.
  rewrite (allocate_at data _ _ 1 H1). cbn [List.length Nat.leb negb].
  rewrite (expect_at data o1 93 _ H1), Ht.
  eexists. split; [reflexivity|]. now apply at_cons in H1.
Qed.

(** ** The containers *)

Lemma readSomeList_ListTag fuel_tag fuel level l o rest :
  Forall (fun e => readable fuel_tag (S level) e /\ conforms e) l ->
  list_head_ok l -> (List.length l < fuel)%nat -> delimited rest ->
  here o (text level (ListTag l) ++ rest) ->
  exists o',
    Parse.readSomeList ToNumber_other ToBigInt_other data (parse_tag fuel_tag) fuel o
    = Ok (ListTag l, o')
    /\ here o' rest.
Proof.
  intros Hall Hh Hfuel Hr H.
  rewrite text_ListTag in H. cbn [app] in H. rewrite <- !app_assoc in H.
  cbn [app] in H. rewrite list_items in H.
  rewrite readSomeList_steps, (expect_at data o 91 _ H). apply at_cons in H.
  unfold list_prefix. rewrite (prefix_check _ _ H).
  - apply (list_elements_at fuel_tag level (list_lead level l)
             (list_gap l ++ list_lead level l) (list_lead (level - 1) l) rest l);
      try assumption; try reflexivity.
    + apply all_ws_list_lead.
    + apply all_ws_app; [apply all_ws_list_gap | apply all_ws_list_lead].
    + apply all_ws_list_lead.
    + intros ->. now rewrite !list_lead_nil.
  - apply second_ok_list; [|assumption|assumption].
    eapply Forall_impl; [|exact Hall]. now intros e [_ He].
Qed.

Lemma array_items level (wr : Z -> jsstring) (mk : Z -> Tag) l rest :
  (forall v, In v l -> wr v = text (S level) (mk v)) ->
  join [44] (map wr l) ++ 93 :: rest = items_tail level [] (map mk l) (93 :: rest).
Proof.
  intros Hwr. destruct l as [|v l]; [reflexivity|].
  pose proof (join_items level [] [] (map mk (v :: l)) (93 :: rest)
                ltac:(discriminate)) as E.
  cbn [app] in E. rewrite <- E, map_map. f_equal. f_equal.
  apply map_ext_in. exact Hwr.
Qed.

Lemma readSomeList_array fuel_tag fuel level p tagType
  (wr : Z -> jsstring) (mk : Z -> Tag) l t o rest :
  (p = 66 /\ tagType = BYTE_ARRAY) \/ (p = 73 /\ tagType = INT_ARRAY)
  \/ (p = 76 /\ tagType = LONG_ARRAY) ->
  (forall v, In v l -> wr v = text (S level) (mk v)) ->
  Forall (fun e => readable fuel_tag (S level) e /\ conforms e) (map mk l) ->
  (List.length l < fuel)%nat ->
  collect tagType (map mk l) = Ok t ->
  here o (91 :: p :: 59 :: join [44] (map wr l) ++ 93 :: rest) ->
  exists o',
    Parse.readSomeList ToNumber_other ToBigInt_other data (parse_tag fuel_tag) fuel o
    = Ok (t, o')
    /\ here o' rest.
Proof.
  intros Hp Hwr Hall Hfuel Ht H.
  rewrite readSomeList_steps, (expect_at data o 91 _ H). apply at_cons in H.
  assert (E : list_prefix (o + 1) = Ok (tagType, (o + 1 + 2)%nat)).
  { unfold list_prefix, Parse.peek_is.
    rewrite (allocate_at data _ _ 2 H), (peek1_at data _ _ _ _ H), (peek_at data _ _ _ H).
    cbn [List.length Nat.leb andb]. change (59 =? 59) with true. cbn [andb].
    destruct Hp as [[-> ->] | [[-> ->] | [-> ->]]]; reflexivity. }
  rewrite E. apply (at_app data _ [p; 59]) in H.
  rewrite (array_items level wr mk l rest Hwr) in H.
  apply (list_elements_at fuel_tag level [] [] [] rest (map mk l));
    try assumption; try reflexivity.
  - now split.
  - now rewrite length_map.
Qed.

Lemma readCompoundTag_text fuel_tag fuel level l o rest :
  Forall (fun kv => readable fuel_tag (S level) (snd kv)
                    /\ fst kv <> [] /\ fst kv <> proto_key) l ->
  NoDup (map fst l) -> listed (map fst l) -> (List.length l < fuel)%nat ->
  here o (text level (CompoundTag l) ++ rest) ->
  exists o',
    Parse.readCompoundTag data (parse_tag fuel_tag) fuel o = Ok (l, o')
    /\ here o' rest.
Proof.
  intros Hall Hn Hl Hfuel H. rewrite text_CompoundTag in H. cbn [app] in H.
  unfold Parse.readCompoundTag.
  rewrite (skipWhitespace_none data o _ H) by reflexivity.
  rewrite (expect_at data o 123 _ H). apply at_cons in H.
  destruct l as [|kv l].
  - cbn [map join app] in H.
    destruct fuel as [|fuel]; [lia|]. cbn [Parse.readCompoundTag_loop].
    rewrite (allocate_at data _ _ 1 H), (peek_is_at data _ _ _ 125 H).
    change (125 =? 125) with true. cbn [List.length Nat.leb negb andb].
    rewrite (allocate_at data _ _ 1 H). cbn [List.length Nat.leb negb].
    eexists. split; [reflexivity|]. now apply at_cons in H.
  - rewrite <- !app_assoc in H. cbn [app] in H.
    change (map _ (kv :: l))
      with (map (fun kv => indent level ++ entry_text level kv) (kv :: l)) in H.
    rewrite join_entries in H by discriminate.
    destruct (readCompoundTag_loop_entries fuel_tag level rest (indent (level - 1))
                (all_ws_indent _) (kv :: l) fuel [] _ (indent level)
                ltac:(discriminate) ltac:(lia) Hall (all_ws_indent _) H)
      as (o1 & -> & H1).
    rewrite (allocate_at data _ _ 1 H1). cbn [List.length Nat.leb negb].
    rewrite (fold_set_entry (kv :: l) []) by assumption.
    eexists. split; [reflexivity|]. now apply at_cons in H1.
Qed.

(** ** The fuel a written tag needs *)

Lemma join_bounds {A} sep (wr : A -> jsstring) l :
  (forall v, In v l -> wr v <> []) ->
  (List.length l <= List.length (join sep (map wr l)))%nat
  /\ forall v, In v l ->
       (List.length (wr v) <= List.length (join sep (map wr l)))%nat.
Proof.
  induction l as [|x l IH]; intros Hne.
  - split; [cbn; lia | contradiction].
  - destruct IH as [IH1 IH2]; [intros v Hv; apply Hne; now right|].
    cbn [map]. rewrite join_cons, length_app.
    assert (Hx : (1 <= List.length (wr x))%nat).
    { specialize (Hne x (or_introl eq_refl)). destruct (wr x); [congruence|cbn; lia]. }
    destruct l as [|y l].
    + cbn [map List.length] in *. split; [lia|].
      intros v [<- | []]. lia.
    + cbn [map] in *. rewrite length_app. cbn [List.length] in *. split; [lia|].
      intros v [<- | Hv]; [lia|]. specialize (IH2 v Hv). lia.
Qed.

Lemma text_nonempty t level : conforms t -> text level t <> [].
Proof.
  intros Hc. destruct (text_start t level Hc) as (c & r & -> & _). discriminate.
Qed.

(** ** A written tag is read back *)

Lemma readTag_bracket fuel o w s :
  here o (w ++ 91 :: s) -> all_ws w ->
  parse_tag (S fuel) o
  = Parse.readSomeList ToNumber_other ToBigInt_other data (parse_tag fuel) fuel
      (o + List.length w)%nat.
Proof.
  intros H Hw. cbn [Parse.readTag].
  rewrite (skipWhitespace_at data o w _ H Hw) by reflexivity.
  apply at_app in H.
  rewrite (allocate_at data _ _ 1 H), (peek_at data _ _ _ H). reflexivity.
Qed.

Lemma readTag_brace fuel o w s :
  here o (w ++ 123 :: s) -> all_ws w ->
  parse_tag (S fuel) o
  = match Parse.readCompoundTag data (parse_tag fuel) fuel (o + List.length w)%nat with
    | Ok (tag, o) => Ok (CompoundTag tag, o)
    | Throw e => Throw e
    | Diverge => Diverge
    | Untracked => Untracked
    end.
Proof.
  intros H Hw. cbn [Parse.readTag].
  rewrite (skipWhitespace_at data o w _ H Hw) by reflexivity.
  apply at_app in H.
  rewrite (allocate_at data _ _ 1 H), (peek_at data _ _ _ H). reflexivity.
Qed.

Lemma readTag_array fuel level p tagType (wr : Z -> jsstring) (mk : Z -> Tag) l t :
  (forall t level, conforms t -> (List.length (text level t) < fuel)%nat ->
                   readable fuel level t) ->
  (p = 66 /\ tagType = BYTE_ARRAY) \/ (p = 73 /\ tagType = INT_ARRAY)
  \/ (p = 76 /\ tagType = LONG_ARRAY) ->
  (forall v, In v l -> wr v = text (S level) (mk v)) ->
  (forall v, In v l -> conforms (mk v)) ->
  collect tagType (map mk l) = Ok t ->
  text level t = 91 :: p :: 59 :: join [44] (map wr l) ++ [93] ->
  (List.length (text level t) < S fuel)%nat ->
  readable (S fuel) level t.
Proof.
  intros IH Hp Hwr Hmk Ht E Hlen o w rest H Hw Hr.
  rewrite E in H, Hlen. cbn [app] in H. rewrite <- app_assoc in H. cbn [app] in H.
  rewrite (readTag_bracket fuel o w _ H Hw). apply at_app in H.
  cbn [List.length] in Hlen. rewrite length_app in Hlen. cbn [List.length] in Hlen.
  destruct (join_bounds [44] wr l) as [Hn Hin].
  { intros v Hv. rewrite (Hwr v Hv). apply text_nonempty. now apply Hmk. }
  apply (readSomeList_array fuel fuel level p tagType wr mk l t);
    try assumption; [|lia].
  apply Forall_map, Forall_forall. intros v Hv. split; [|now apply Hmk].
  apply IH; [now apply Hmk|]. rewrite <- (Hwr v Hv). specialize (Hin v Hv). lia.
Qed.

Lemma text_ByteArrayTag level l :
  text level (ByteArrayTag l)
  = 91 :: 66 :: 59 :: join [44] (map (fun entry => writeByte (Primitive.Byte entry)) l)
    ++ [93].
Proof. reflexivity. Qed.

Lemma text_IntArrayTag level l :
  text level (IntArrayTag l)
  = 91 :: 73 :: 59 :: join [44] (map (fun entry => writeInt (Primitive.Int entry)) l)
    ++ [93].
Proof. reflexivity. Qed.

Lemma text_LongArrayTag level l :
  text level (LongArrayTag l) = 91 :: 76 :: 59 :: join [44] (map writeLong l) ++ [93].
Proof. reflexivity. Qed.

Lemma Forall_wrap (P : Z -> Prop) w l :
  (forall v, P v -> wrap w v = v) -> Forall P l -> Forall (fun v => wrap w v = v) l.
Proof. intros H. apply Forall_impl. exact H. Qed.

Lemma readTag_text fuel :
  forall t level,
    conforms t -> (List.length (text level t) < fuel)%nat -> readable fuel level t.
Proof.
  induction fuel as [|fuel IH]; [intros; lia|].
  intros t level Hc Hlen.
  destruct (token t) as [tok|] eqn:E.
  - intros o w rest H Hw Hr. rewrite (token_text t tok level E) in H.
    destruct (token_ok t tok Hc E) as (Hn & Hu & <-).
    exact (readTag_token fuel o w tok rest H Hw Hn Hu Hr).
  - destruct t; try discriminate E; cbn [conforms] in Hc.
    + apply (readTag_array fuel level 66 BYTE_ARRAY
               (fun entry => writeByte (Primitive.Byte entry)) ByteTag l);
        try assumption.
      * left. now split.
      * intros v Hv. cbn [writeTag]. f_equal. apply Int8_small.
        rewrite Forall_forall in Hc. now apply Hc.
      * intros v Hv. rewrite Forall_forall in Hc. now apply Hc.
      * unfold collect, Parse.readByteArray.
        rewrite (store_all_map _ 8 ByteTag l); [reflexivity | reflexivity |].
        apply (Forall_wrap int8); [|assumption].
        intros v Hv. apply wrap_small; unfold int8 in Hv; lia.
      * apply text_ByteArrayTag.
    + intros o w rest H Hw Hr. cbn [writeTag] in H.
      exact (readTag_string fuel o w s rest H Hw).
    + intros o w rest H Hw Hr.
      destruct (conforms_ListTag l Hc) as [Hall Hh].
      assert (H0 := H). rewrite text_ListTag in H0. cbn [app] in H0.
      rewrite (readTag_bracket fuel o w _ H0 Hw). apply at_app in H. clear H0.
      rewrite text_ListTag in Hlen. cbn [List.length] in Hlen.
      rewrite !length_app in Hlen. cbn [List.length] in Hlen.
      rewrite Forall_forall in Hall.
      destruct (join_bounds (44 :: list_gap l)
                  (fun entry => list_lead level l ++ text (S level) entry) l)
        as [Hn Hin].
      { intros v Hv E0. apply app_eq_nil in E0 as [_ E0]. revert E0.
        apply text_nonempty. now apply Hall. }
      apply (readSomeList_ListTag fuel fuel level l); try assumption; [|lia].
      apply Forall_forall. intros e He. split; [|now apply Hall].
      apply IH; [now apply Hall|].
      specialize (Hin e He). rewrite length_app in Hin. lia.
    + intros o w rest H Hw Hr.
      destruct (conforms_CompoundTag l Hc) as (Hall & Hnd & Hls).
      assert (H0 := H). rewrite text_CompoundTag in H0. cbn [app] in H0.
      rewrite (readTag_brace fuel o w _ H0 Hw). apply at_app in H. clear H0.
      rewrite text_CompoundTag in Hlen. cbn [List.length] in Hlen.
      rewrite !length_app in Hlen. cbn [List.length] in Hlen.
      rewrite Forall_forall in Hall.
      destruct (join_bounds [44]
                  (fun kv => indent level ++ writeKey (fst kv) ++ 58 :: colon_gap
                             ++ text (S level) (snd kv)) l)
        as [Hn Hin].
      { intros v _ E0. apply app_eq_nil in E0 as [_ E0].
        apply app_eq_nil in E0 as [_ E0]. discriminate. }
      destruct (readCompoundTag_text fuel fuel level l (o + List.length w) rest)
        as (o' & -> & H'); try assumption; [|lia|eauto].
      apply Forall_forall. intros kv Hkv. split; [|now apply Hall].
      apply IH; [now apply Hall|].
      specialize (Hin kv Hkv). rewrite !length_app in Hin.
      cbn [List.length] in Hin. rewrite length_app in Hin. lia.
    + apply (readTag_array fuel level 73 INT_ARRAY
               (fun entry => writeInt (Primitive.Int entry)) IntTag l);
        try assumption.
      * right. left. now split.
      * intros v Hv. cbn [writeTag]. f_equal. apply Int32_small.
        rewrite Forall_forall in Hc. now apply Hc.
      * intros v Hv. rewrite Forall_forall in Hc. now apply Hc.
      * unfold collect, Parse.readIntArray.
        rewrite (store_all_map _ 32 IntTag l); [reflexivity | reflexivity |].
        apply (Forall_wrap int32); [|assumption].
        intros v Hv. apply wrap_small; unfold int32 in Hv; lia.
      * apply text_IntArrayTag.
    + apply (readTag_array fuel level 76 LONG_ARRAY writeLong LongTag l);
        try assumption.
      * right. right. now split.
      * reflexivity.
      * intros v Hv. rewrite Forall_forall in Hc. now apply Hc.
      * unfold collect, Parse.readLongArray.
        rewrite (store_all_map _ 64 LongTag l); [reflexivity | reflexivity |].
        apply (Forall_wrap int64); [|assumption].
        intros v Hv. apply wrap_small; unfold int64 in Hv; lia.
      * apply text_LongArrayTag.
Qed.

(** The whole text: a compound written at the depth 1 and read from
    the first character on, with as much fuel as [parse] gives. *)
Lemma read_text t :
  conforms (CompoundTag t) -> data = text 1 (CompoundTag t) ->
  Parse.read StringToNumber ToNumber_other ToBigInt_other data (S (List.length data))
  = Ok t.
Proof.
  intros Hc E. unfold Parse.read.
  assert (H : here 0 (text 1 (CompoundTag t) ++ [])).
  { exists []. rewrite app_nil_r. now split. }
  destruct (conforms_CompoundTag t Hc) as (Hall & Hnd & Hls).
  assert (Hlen : List.length data = List.length (text 1 (CompoundTag t)))
    by now rewrite <- E.
  rewrite text_CompoundTag in Hlen. cbn [List.length] in Hlen.
  rewrite !length_app in Hlen. cbn [List.length] in Hlen.
  rewrite Forall_forall in Hall.
  destruct (join_bounds [44]
              (fun kv => indent 1 ++ writeKey (fst kv) ++ 58 :: colon_gap
                         ++ text 2 (snd kv)) t)
    as [Hn Hin].
  { intros v _ E0. apply app_eq_nil in E0 as [_ E0].
    apply app_eq_nil in E0 as [_ E0]. discriminate. }
  destruct (readCompoundTag_text (S (List.length data)) (S (List.length data)) 1 t 0 [])
    as (o' & -> & H'); try assumption; [|lia|].
  - apply Forall_forall. intros kv Hkv. split; [|now apply Hall].
    apply readTag_text; [now apply Hall|].
    specialize (Hin kv Hkv). rewrite !length_app in Hin.
    cbn [List.length] in Hin. rewrite length_app in Hin. lia.
  - rewrite (skipWhitespace_none data o' [] H' I).
    now rewrite (allocate_at data _ _ 1 H').
Qed.

End Conforming.

(** ** The round trip of [parse] and [stringify] *)

(** [options.space] of whitespace only; a number stands for that many
    spaces. *)
Definition whitespace_space (space : Stringify.Space) : Prop :=
  match space with
  | Stringify.SpaceString s => forallb is_whitespace s = true
  | Stringify.SpaceNumber _ => True
  end.

Lemma repeat_str_spaces n : forallb is_whitespace (Stringify.repeat_str [32] n) = true.
Proof. induction n as [|n IH]; [reflexivity | exact IH]. Qed.

(** The Numbers of the examples below are integers, written in decimal
    and read back as the binary64 value of the numeral. *)
Definition integer_toString (v : spec_float) : jsstring :=
  decimal (Parse.integral v).

Definition integer_toNumber (s : jsstring) : spec_float :=
  match integer_value s with
  | 0 => S754_zero false
  | Zpos p => to_double (S754_finite false p 0)
  | Zneg p => to_double (S754_finite true p 0)
  end.

Definition ToNumber_NaN (_ : Tag) : spec_float := S754_nan.
Definition ToBigInt_none (_ : Tag) : option Z := None.

(** C2, as the specification states it, fails for a compound with an
    empty key: the tree whose one entry has the empty string for a key
    and the byte 1 for a value conforms to the data model and holds
    no float, [stringify] writes the key as an empty quoted string, and
    [parse] refuses it with "Key cannot be empty". *)
Lemma C2_empty_key_is_refused :
  let t := [([], ByteTag 1)] in
  Stringify.stringify integer_toString t (Stringify.SpaceString [])
  = [123; 34; 34; 58; 49; 98; 125]
  /\ Parse.parse integer_toNumber ToNumber_NaN ToBigInt_none
       (Stringify.stringify integer_toString t (Stringify.SpaceString []))
     = Throw Parse.EmptyKey.
Proof. split; vm_compute; reflexivity. Qed.

(** C2 (amended): for every compound [t] that conforms -- the integers
    lie in the range of their tag, a FLOAT is a single-precision value,
    every Number is one whose text [Number] reads back to it (the
    finite ones other than the negative zero), the elements of a list
    have one tag type, the keys of a compound are distinct and stand in
    the order in which [Object.entries] lists them, none is empty and
    none is [__proto__], no boolean is [false] and no list starts with
    a string that starts with a semicolon -- and every [space] of
    whitespace, [parse(stringify(t, { space }))] returns [t]. *)
Theorem C2_round_trip
  (NumberToString : spec_float -> jsstring) (StringToNumber : jsstring -> spec_float)
  (ToNumber_other : Tag -> spec_float) (ToBigInt_other : Tag -> option Z)
  (t : list (jsstring * Tag)) (space : Stringify.Space) :
  conforms NumberToString StringToNumber (CompoundTag t) ->
  whitespace_space space ->
  Parse.parse StringToNumber ToNumber_other ToBigInt_other
    (Stringify.stringify NumberToString t space)
  = Ok t.
Proof.
  intros Hc Hs. unfold Parse.parse, Stringify.stringify.
  set (sp := match space with
             | Stringify.SpaceString s => s
             | Stringify.SpaceNumber n => Stringify.repeat_str [32] n
             end).
  apply (read_text NumberToString StringToNumber sp);
    [|exact Hc | reflexivity].
  unfold sp. destruct space as [s|n]; [exact Hs | apply repeat_str_spaces].
Qed.

(** A tree with every kind of tag, written with an indentation of two
    spaces. *)
Lemma C2_round_trip_witness :
  let three := to_double (S754_finite false 3 0) in
  let t :=
    [ (js "name", StringTag (js "it's a " ++ 34 :: js "tree" ++ [34]));
      (js "id", ByteTag (-3));
      (js "on", BooleanTag true);
      (js "pos", ListTag [DoubleTag three; DoubleTag (S754_zero false)]);
      (js "two words", CompoundTag
         [ (js "s", ShortTag 300); (js "i", IntTag (-70000));
           (js "l", LongTag 5000000000); (js "f", FloatTag three);
           (js "none", ListTag []);
           (js "nested", ListTag [ListTag [StringTag (js "a;b")]; ListTag []]) ]);
      (js "B", ByteArrayTag [1; -2]);
      (js "I", IntArrayTag []);
      (js "L", LongArrayTag [9000000000]) ] in
  Parse.parse integer_toNumber ToNumber_NaN ToBigInt_none
    (Stringify.stringify integer_toString t (Stringify.SpaceNumber 2))
  = Ok t.
Proof.
  intros three t.
  apply (C2_round_trip integer_toString integer_toNumber ToNumber_NaN ToBigInt_none
           t (Stringify.SpaceNumber 2)).
  - unfold t, three. cbn [conforms map fst snd].
    repeat match goal with
           | |- _ /\ _ => split
           | |- True => exact I
           | |- int8 _ => unfold int8; lia
           | |- int16 _ => unfold int16; lia
           | |- int32 _ => unfold int32; lia
           | |- int64 _ => unfold int64; lia
           | |- printable _ _ _ => unfold printable
           | |- homogeneous _ => unfold homogeneous
           | |- list_head_ok _ => exact I
           | |- Forall _ _ => constructor
           | |- own_keys _ => unfold own_keys
           | |- listed _ => simpl listed
           | |- NoDup _ => constructor
           | |- ~ In _ _ =>
               let H := fresh in
               intros H; vm_compute in H;
               repeat (destruct H as [H | H]; [discriminate H|]); exact H
           | |- _ <> _ =>
               let H := fresh in intros H; vm_compute in H; discriminate H
           | |- _ = _ => vm_compute; reflexivity
           end.
  - exact I.
Defined.

(* ================================================================== *)
(** * The byte codecs: what is stored is what is loaded *)

Section ByteCodecs.

Lemma byte_val_range b : 0 <= byte_val b < 256.
Proof.
  unfold byte_val. pose proof (Byte.to_N_bounded b). lia.
Qed.

Lemma byte_val_of z : byte_val (byte_of z) = z mod 256.
Proof.
  unfold byte_val, byte_of.
  assert (H : 0 <= z mod 256 < 256) by (apply Z.mod_pos_bound; lia).
  destruct (Byte.of_N (Z.to_N (z mod 256))) as [b|] eqn:E.
  - apply Byte.to_of_N in E. rewrite E. lia.
  - apply Byte.of_N_None_iff in E. lia.
Qed.

Lemma byte_of_val b : byte_of (byte_val b) = b.
Proof.
  unfold byte_of, byte_val.
  pose proof (Byte.to_N_bounded b).
  rewrite Z.mod_small by lia. rewrite N2Z.id, Byte.of_to_N. reflexivity.
Qed.

Lemma length_be_bytes n u : List.length (be_bytes n u) = n.
Proof.
  revert u. induction n as [|n IH]; intros u; [reflexivity|].
  cbn [be_bytes]. rewrite length_app, IH. cbn. lia.
Qed.

Lemma be_uint_snoc a x : be_uint (a ++ [x]) = be_uint a * 256 + byte_val x.
Proof. unfold be_uint. now rewrite fold_left_app. Qed.

Lemma be_uint_app a b :
  be_uint (a ++ b) = be_uint a * 256 ^ Z.of_nat (List.length b) + be_uint b.
Proof.
  induction b as [|x b IH] using rev_ind.
  - rewrite app_nil_r. cbn. lia.
  - rewrite app_assoc, !be_uint_snoc, IH, length_app. cbn [List.length].
    replace (Z.of_nat (List.length b + 1)) with (Z.of_nat (List.length b) + 1) by lia.
    rewrite Z.pow_add_r by lia. lia.
Qed.

Lemma be_uint_be_bytes n u : be_uint (be_bytes n u) = u mod 256 ^ Z.of_nat n.
Proof.
  revert u. induction n as [|n IH]; intros u.
  - cbn. now rewrite Z.mod_1_r.
  - cbn [be_bytes]. rewrite be_uint_snoc, IH, byte_val_of.
    replace (Z.of_nat (S n)) with (Z.of_nat n + 1) by lia.
    rewrite Z.pow_add_r by lia. change (256 ^ Z.of_nat 1) with 256.
    change (256 ^ 1) with 256.
    pose proof (Z.pow_pos_nonneg 256 (Z.of_nat n) ltac:(lia) ltac:(lia)) as Hp.
    rewrite (Z.mul_comm (256 ^ Z.of_nat n) 256).
    rewrite Z.rem_mul_r by lia. lia.
Qed.

Lemma length_set_uint le n u : List.length (set_uint le n u) = n.
Proof.
  unfold set_uint. destruct le; [rewrite length_rev|]; apply length_be_bytes.
Qed.

(** An unsigned integer of [n] bytes, stored and loaded in one byte
    order. *)
Lemma get_uint_set_uint le n u :
  get_uint le (set_uint le n u) = u mod 256 ^ Z.of_nat n.
Proof.
  unfold get_uint, set_uint. destruct le; [rewrite rev_involutive|];
    apply be_uint_be_bytes.
Qed.

Lemma pow_256 n : 256 ^ Z.of_nat n = 2 ^ (8 * Z.of_nat n).
Proof. rewrite Z.pow_mul_r by lia. reflexivity. Qed.

(** A signed integer of [n] bytes, stored and loaded in one byte
    order. *)
Lemma get_int_set_uint le n v :
  (0 < n)%nat ->
  - 2 ^ (8 * Z.of_nat n - 1) <= v < 2 ^ (8 * Z.of_nat n - 1) ->
  get_int le (set_uint le n v) = v.
Proof.
  intros Hn Hv. unfold get_int. rewrite length_set_uint, get_uint_set_uint, pow_256.
  unfold signed.
  set (w := 8 * Z.of_nat n) in *.
  assert (Hw : 2 ^ w = 2 * 2 ^ (w - 1)).
  { rewrite <- Z.pow_succ_r by lia. f_equal. lia. }
  assert (Hp : 0 < 2 ^ (w - 1)) by (apply Z.pow_pos_nonneg; lia).
  destruct (Z.ltb_spec (v mod 2 ^ w) (2 ^ (w - 1))) as [H|H].
  - destruct (Z.lt_ge_cases v 0) as [Hneg|Hpos].
    + rewrite <- (Z.mod_add v 1) in H by lia.
      rewrite Z.mod_small in H by lia. lia.
    + rewrite Z.mod_small by lia. reflexivity.
  - destruct (Z.lt_ge_cases v 0) as [Hneg|Hpos].
    + rewrite <- (Z.mod_add v 1) by lia.
      rewrite Z.mod_small by lia. lia.
    + rewrite Z.mod_small in H by lia. lia.
Qed.

End ByteCodecs.

(* ================================================================== *)
(** * The IEEE-754 encodings *)

Section FloatCodecs.

Lemma digits2_pos_bounds m :
  2 ^ (Zpos (digits2_pos m) - 1) <= Zpos m < 2 ^ Zpos (digits2_pos m).
Proof.
  induction m as [p IH|p IH|]; cbn [digits2_pos].
  - rewrite Pos2Z.inj_succ.
    replace (Z.succ (Zpos (digits2_pos p)) - 1) with (Z.succ (Zpos (digits2_pos p) - 1))
      by lia.
    rewrite !Z.pow_succ_r by lia. lia.
  - rewrite Pos2Z.inj_succ.
    replace (Z.succ (Zpos (digits2_pos p)) - 1) with (Z.succ (Zpos (digits2_pos p) - 1))
      by lia.
    rewrite !Z.pow_succ_r by lia. lia.
  - cbn. lia.
Qed.

(** The three fields of an encoding. *)
Lemma float_fields mw ew S E M :
  0 <= mw -> 0 <= ew -> 0 <= M < 2 ^ mw -> 0 <= E < 2 ^ ew ->
  let bits := S * 2 ^ (mw + ew) + E * 2 ^ mw + M in
  bits mod 2 ^ mw = M /\ (bits / 2 ^ mw) mod 2 ^ ew = E /\ bits / 2 ^ (mw + ew) = S.
Proof.
  intros Hmw Hew HM HE bits.
  assert (Pm : 0 < 2 ^ mw) by (apply Z.pow_pos_nonneg; lia).
  assert (Pe : 0 < 2 ^ ew) by (apply Z.pow_pos_nonneg; lia).
  assert (Eb : bits = (S * 2 ^ ew + E) * 2 ^ mw + M).
  { unfold bits. rewrite Z.pow_add_r by lia. ring. }
  assert (Ed : bits / 2 ^ mw = S * 2 ^ ew + E).
  { rewrite Eb. rewrite Z.div_add_l by lia. rewrite Z.div_small by lia. lia. }
  split; [|split].
  - rewrite Eb. rewrite Z.add_comm, Z.mod_add by lia. apply Z.mod_small. lia.
  - rewrite Ed. rewrite Z.add_comm, Z.mod_add by lia. apply Z.mod_small. lia.
  - rewrite Z.pow_add_r by lia. rewrite <- Z.div_div by lia. rewrite Ed.
    rewrite Z.div_add_l by lia. rewrite Z.div_small by lia. lia.
Qed.

Lemma sign_bit_odd (s : bool) : Z.odd (if s then 1 else 0) = s.
Proof. now destruct s. Qed.

(** A value of the format with [mw] stored mantissa bits and [ew]
    exponent bits is decoded from its encoding. *)
Lemma decode_encode_float mw ew v :
  0 < mw -> 1 < ew ->
  valid_binary (mw + 1) (2 ^ (ew - 1)) v = true ->
  decode_float mw ew (encode_float mw ew v) = v.
Proof.
  intros Hmw Hew Hv.
  assert (Pm : 0 < 2 ^ mw) by (apply Z.pow_pos_nonneg; lia).
  assert (Pe : 2 * 2 ^ (ew - 1) = 2 ^ ew).
  { rewrite <- Z.pow_succ_r by lia. f_equal. lia. }
  assert (Pe1 : 2 <= 2 ^ (ew - 1)).
  { change 2 with (2 ^ 1) at 1. apply Z.pow_le_mono_r; lia. }
  assert (Pm1 : 2 * 2 ^ (mw - 1) = 2 ^ mw).
  { rewrite <- Z.pow_succ_r by lia. f_equal. lia. }
  assert (Pm2 : 0 < 2 ^ (mw - 1)) by (apply Z.pow_pos_nonneg; lia).
  assert (Hsign : forall s : bool,
             (if s then 2 ^ (mw + ew) else 0) = (if s then 1 else 0) * 2 ^ (mw + ew))
    by (intros []; lia).
  unfold decode_float, encode_float.
  destruct v as [s|s| |s m e]; rewrite ?Hsign.
  - destruct (float_fields mw ew (if s then 1 else 0) 0 0) as (E1 & E2 & E3);
      try lia.
    rewrite !Z.mul_0_l, !Z.add_0_r in E1, E2, E3. rewrite E1, E2, E3.
    cbn [Z.eqb]. now rewrite sign_bit_odd.
  - destruct (float_fields mw ew (if s then 1 else 0) (2 ^ ew - 1) 0)
      as (E1 & E2 & E3); try lia.
    rewrite !Z.add_0_r in E1, E2, E3. rewrite E1, E2, E3.
    destruct (Z.eqb_spec (2 ^ ew - 1) 0); [lia|].
    rewrite Z.eqb_refl. cbn [Z.eqb]. now rewrite sign_bit_odd.
  - destruct (float_fields mw ew 0 (2 ^ ew - 1) (2 ^ (mw - 1))) as (E1 & E2 & E3);
      try lia.
    rewrite !Z.mul_0_l, !Z.add_0_l in E1, E2, E3. rewrite E1, E2.
    destruct (Z.eqb_spec (2 ^ ew - 1) 0); [lia|].
    rewrite Z.eqb_refl.
    destruct (Z.eqb_spec (2 ^ (mw - 1)) 0); [lia|reflexivity].
  - cbn [valid_binary] in Hv. unfold bounded, canonical_mantissa, fexp, emin in Hv.
    apply andb_true_iff in Hv as [Hc He].
    apply Z.eqb_eq in Hc. apply Z.leb_le in He.
    pose proof (digits2_pos_bounds m) as Hd.
    set (d := Zpos (digits2_pos m)) in *.
    assert (Hmax : Z.max (d + e - (mw + 1)) (3 - 2 ^ (ew - 1) - (mw + 1)) = e)
      by exact Hc.
    destruct (Z.ltb_spec (Zpos m) (2 ^ mw)) as [Hsub|Hnorm].
    + assert (Hd' : d <= mw).
      { destruct (Z.le_gt_cases d mw); [assumption|].
        assert (2 ^ mw <= 2 ^ (d - 1)) by (apply Z.pow_le_mono_r; lia). lia. }
      assert (Ee : e = 3 - 2 ^ (ew - 1) - (mw + 1)) by lia.
      destruct (float_fields mw ew (if s then 1 else 0) 0 (Zpos m))
        as (E1 & E2 & E3); try lia.
      rewrite !Z.mul_0_l, !Z.add_0_r in E1, E2, E3.
      rewrite E1, E2, E3. cbn [Z.eqb]. rewrite sign_bit_odd. f_equal. lia.
    + assert (Hd' : d = mw + 1).
      { assert (mw < d).
        { destruct (Z.lt_ge_cases mw d); [assumption|].
          assert (2 ^ d <= 2 ^ mw) by (apply Z.pow_le_mono_r; lia). lia. }
        lia. }
      rewrite Hd' in Hd.
      replace (mw + 1 - 1) with mw in Hd by lia.
      rewrite (Z.pow_add_r 2 mw 1) in Hd by lia. change (2 ^ 1) with 2 in Hd.
      assert (Hlo : 3 - 2 ^ (ew - 1) - (mw + 1) <= e) by lia.
      destruct (float_fields mw ew (if s then 1 else 0)
                  (e + 2 ^ (ew - 1) - 1 + mw) (Zpos m - 2 ^ mw))
        as (E1 & E2 & E3); try lia.
      rewrite <- Z.add_assoc in E1, E2, E3.
      rewrite <- Z.add_assoc. rewrite E1, E2, E3.
      destruct (Z.eqb_spec (e + 2 ^ (ew - 1) - 1 + mw) 0); [lia|].
      destruct (Z.eqb_spec (e + 2 ^ (ew - 1) - 1 + mw) (2 ^ ew - 1)); [lia|].
      replace (Zpos m - 2 ^ mw + 2 ^ mw) with (Zpos m) by lia.
      rewrite sign_bit_odd. f_equal. lia.
Qed.

Lemma encode_float_range mw ew v :
  0 < mw -> 1 < ew ->
  valid_binary (mw + 1) (2 ^ (ew - 1)) v = true ->
  0 <= encode_float mw ew v < 2 ^ (mw + ew + 1).
Proof.
  intros Hmw Hew Hv.
  assert (Pm : 0 < 2 ^ mw) by (apply Z.pow_pos_nonneg; lia).
  assert (Pew : 0 < 2 ^ ew) by (apply Z.pow_pos_nonneg; lia).
  assert (Pe : 2 * 2 ^ (ew - 1) = 2 ^ ew).
  { rewrite <- Z.pow_succ_r by lia. f_equal. lia. }
  assert (Pm1 : 2 * 2 ^ (mw - 1) = 2 ^ mw).
  { rewrite <- Z.pow_succ_r by lia. f_equal. lia. }
  assert (Pm2 : 0 < 2 ^ (mw - 1)) by (apply Z.pow_pos_nonneg; lia).
  assert (Pall : 2 ^ (mw + ew + 1) = 2 * (2 ^ mw * 2 ^ ew)).
  { rewrite !Z.pow_add_r by lia. change (2 ^ 1) with 2. ring. }
  assert (Psign : 2 ^ (mw + ew) = 2 ^ mw * 2 ^ ew) by (rewrite Z.pow_add_r; lia).
  unfold encode_float.
  destruct v as [s|s| |s m e]; rewrite ?Pall, ?Psign.
  - destruct s; nia.
  - destruct s; nia.
  - nia.
  - cbn [valid_binary] in Hv. unfold bounded, canonical_mantissa, fexp, emin in Hv.
    apply andb_true_iff in Hv as [Hc He].
    apply Z.eqb_eq in Hc. apply Z.leb_le in He.
    pose proof (digits2_pos_bounds m) as Hd.
    set (d := Zpos (digits2_pos m)) in *.
    assert (Hmax : Z.max (d + e - (mw + 1)) (3 - 2 ^ (ew - 1) - (mw + 1)) = e)
      by exact Hc.
    destruct (Z.ltb_spec (Zpos m) (2 ^ mw)) as [Hsub|Hnorm].
    + destruct s; nia.
    + assert (Hd' : d = mw + 1).
      { assert (mw < d).
        { destruct (Z.lt_ge_cases mw d); [assumption|].
          assert (2 ^ d <= 2 ^ mw) by (apply Z.pow_le_mono_r; lia). lia. }
        lia. }
      rewrite Hd' in Hd.
      replace (mw + 1 - 1) with mw in Hd by lia.
      rewrite (Z.pow_add_r 2 mw 1) in Hd by lia. change (2 ^ 1) with 2 in Hd.
      assert (Hb : 1 <= e + 2 ^ (ew - 1) - 1 + mw <= 2 ^ ew - 2) by lia.
      destruct s; nia.
Qed.

End FloatCodecs.

(* ================================================================== *)
(** * The two text codecs on the strings they agree on *)

Section TextCodecs.

(** The code units on which UTF-8 and Modified UTF-8 agree: U+0001 to
    U+FFFF without the surrogates. *)
Definition plain_char (c : Z) : Prop :=
  1 <= c < 55296 \/ 57344 <= c < 65536.

Definition plain (s : jsstring) : Prop := Forall plain_char s.

Lemma byte_cases (P : Z -> bool) :
  forallb P (map Z.of_nat (seq 0 256)) = true ->
  forall v, 0 <= v < 256 -> P v = true.
Proof.
  intros H v Hv. rewrite forallb_forall in H. apply H.
  rewrite in_map_iff. exists (Z.to_nat v). split; [lia|].
  apply in_seq. lia.
Qed.

Ltac by_byte_cases v :=
  pattern v;
  match goal with
  | |- (fun x => @?P x = true) v =>
      apply (byte_cases P); [vm_compute; reflexivity | lia]
  end.

Lemma lead1 v : 1 <= v < 128 -> (Z.land v 128 =? 0) && negb (v =? 0) = true.
Proof.
  intros H.
  assert (E : implb ((1 <=? v) && (v <? 128))
                ((Z.land v 128 =? 0) && negb (v =? 0)) = true)
    by (by_byte_cases v).
  destruct (Z.leb_spec 1 v); [|lia]. destruct (Z.ltb_spec v 128); [|lia].
  exact E.
Qed.

Lemma lead2 v :
  192 <= v < 224 ->
  (Z.land v 128 =? 0) = false /\ (Z.land v 224 =? 192) = true /\
  Z.land v 31 = v - 192.
Proof.
  intros H.
  assert (E : implb ((192 <=? v) && (v <? 224))
                (negb (Z.land v 128 =? 0) && (Z.land v 224 =? 192)
                 && (Z.land v 31 =? v - 192)) = true)
    by (by_byte_cases v).
  destruct (Z.leb_spec 192 v); [|lia]. destruct (Z.ltb_spec v 224); [|lia].
  cbn [andb implb] in E.
  apply andb_true_iff in E as [E E3]. apply andb_true_iff in E as [E1 E2].
  apply negb_true_iff in E1. apply Z.eqb_eq in E3. auto.
Qed.

Lemma lead3 v :
  224 <= v < 240 ->
  (Z.land v 128 =? 0) = false /\ (Z.land v 224 =? 192) = false /\
  (Z.land v 240 =? 224) = true /\ Z.land v 15 = v - 224.
Proof.
  intros H.
  assert (E : implb ((224 <=? v) && (v <? 240))
                (negb (Z.land v 128 =? 0) && negb (Z.land v 224 =? 192)
                 && (Z.land v 240 =? 224) && (Z.land v 15 =? v - 224)) = true)
    by (by_byte_cases v).
  destruct (Z.leb_spec 224 v); [|lia]. destruct (Z.ltb_spec v 240); [|lia].
  cbn [andb implb] in E.
  apply andb_true_iff in E as [E E4]. apply andb_true_iff in E as [E E3].
  apply andb_true_iff in E as [E1 E2].
  apply negb_true_iff in E1. apply negb_true_iff in E2. apply Z.eqb_eq in E4. auto.
Qed.

Lemma continuation v :
  128 <= v < 192 -> (Z.land v 192 =? 128) = true /\ Z.land v 63 = v - 128.
Proof.
  intros H.
  assert (E : implb ((128 <=? v) && (v <? 192))
                ((Z.land v 192 =? 128) && (Z.land v 63 =? v - 128)) = true)
    by (by_byte_cases v).
  destruct (Z.leb_spec 128 v); [|lia]. destruct (Z.ltb_spec v 192); [|lia].
  cbn [andb implb] in E.
  apply andb_true_iff in E as [E1 E2]. apply Z.eqb_eq in E2. auto.
Qed.

Lemma lor_shiftl_add h k l :
  0 <= k -> 0 <= l < 2 ^ k -> Z.lor (Z.shiftl h k) l = h * 2 ^ k + l.
Proof.
  intros Hk Hl. rewrite Z.shiftl_mul_pow2 by lia.
  rewrite <- Z.lxor_lor, <- Z.add_nocarry_lxor; try reflexivity.
  - apply Z.bits_inj'. intros n Hn. rewrite Z.land_spec, Z.bits_0.
    destruct (Z.lt_ge_cases n k).
    + rewrite Z.mul_pow2_bits_low by lia. reflexivity.
    + destruct (Z.eq_dec l 0) as [->|]; [now rewrite Z.bits_0, andb_false_r|].
      rewrite (Z.bits_above_log2 l n), andb_false_r; [reflexivity | lia |].
      apply Z.log2_lt_pow2; [lia|].
      apply Z.lt_le_trans with (2 ^ k); [lia|].
      apply Z.pow_le_mono_r; lia.
  - apply Z.bits_inj'. intros n Hn. rewrite Z.land_spec, Z.bits_0.
    destruct (Z.lt_ge_cases n k).
    + rewrite Z.mul_pow2_bits_low by lia. reflexivity.
    + destruct (Z.eq_dec l 0) as [->|]; [now rewrite Z.bits_0, andb_false_r|].
      rewrite (Z.bits_above_log2 l n), andb_false_r; [reflexivity | lia |].
      apply Z.log2_lt_pow2; [lia|].
      apply Z.lt_le_trans with (2 ^ k); [lia|].
      apply Z.pow_le_mono_r; lia.
Qed.

Lemma byte_val_of_small z : 0 <= z < 256 -> byte_val (byte_of z) = z.
Proof. intros H. rewrite byte_val_of. now apply Z.mod_small. Qed.

(** One code unit, encoded by [TextEncoder] and decoded by
    [MUtf8Decoder]. *)
Lemma mutf8_decode_scalar fuel c r :
  plain_char c ->
  mutf8_decode_fuel (S fuel) (utf8_scalar c ++ r) = c :: mutf8_decode_fuel fuel r.
Proof.
  intros Hc. unfold utf8_scalar.
  destruct (Z.ltb_spec c 128) as [H1|H1].
  - cbn [app mutf8_decode_fuel].
    rewrite byte_val_of_small by (unfold plain_char in Hc; lia).
    rewrite lead1 by (unfold plain_char in Hc; lia). reflexivity.
  - destruct (Z.ltb_spec c 2048) as [H2|H2].
    + assert (Hh : 2 <= c / 64 < 32) by (split; [apply Z.div_le_lower_bound | apply Z.div_lt_upper_bound]; lia).
      assert (Hl : 0 <= c mod 64 < 64) by (apply Z.mod_pos_bound; lia).
      cbn [app mutf8_decode_fuel]. unfold is_cont.
      rewrite !byte_val_of_small by lia.
      destruct (lead2 (192 + c / 64)) as (-> & -> & ->); [lia|].
      destruct (continuation (128 + c mod 64)) as (-> & ->); [lia|].
      cbn [andb]. f_equal.
      rewrite lor_shiftl_add by lia.
      change (2 ^ 6) with 64. pose proof (Z.div_mod c 64 ltac:(lia)). lia.
    + assert (Hc' : 2048 <= c < 65536) by (unfold plain_char in Hc; lia).
      destruct (Z.ltb_spec c 65536) as [_|]; [|lia].
      assert (Hh : 0 <= c / 4096 < 16)
        by (split; [apply Z.div_le_lower_bound | apply Z.div_lt_upper_bound]; lia).
      assert (Hm : 0 <= (c / 64) mod 64 < 64) by (apply Z.mod_pos_bound; lia).
      assert (Hl : 0 <= c mod 64 < 64) by (apply Z.mod_pos_bound; lia).
      cbn [app mutf8_decode_fuel]. unfold is_cont.
      rewrite !byte_val_of_small by lia.
      destruct (lead3 (224 + c / 4096)) as (-> & -> & -> & ->); [lia|].
      destruct (continuation (128 + (c / 64) mod 64)) as (-> & ->); [lia|].
      destruct (continuation (128 + c mod 64)) as (-> & ->); [lia|].
      cbn [andb]. f_equal.
      rewrite (lor_shiftl_add (128 + (c / 64) mod 64 - 128) 6) by lia.
      rewrite lor_shiftl_add.
      * change (2 ^ 6) with 64. change (2 ^ 12) with 4096.
        pose proof (Z.div_mod c 64 ltac:(lia)).
        pose proof (Z.div_mod (c / 64) 64 ltac:(lia)).
        assert (c / 64 / 64 = c / 4096) by (rewrite Z.div_div by lia; reflexivity).
        lia.
      * lia.
      * change (2 ^ 6) with 64. change (2 ^ 12) with 4096. lia.
Qed.

Lemma plain_not_surrogate c :
  plain_char c -> is_high_surrogate c = false /\ is_low_surrogate c = false.
Proof.
  unfold plain_char, is_high_surrogate, is_low_surrogate. intros H.
  destruct (Z.leb_spec 55296 c), (Z.leb_spec c 56319),
    (Z.leb_spec 56320 c), (Z.leb_spec c 57343); cbn; split; try reflexivity; lia.
Qed.

Lemma utf8_encode_plain c s :
  plain_char c -> utf8_encode (c :: s) = utf8_scalar c ++ utf8_encode s.
Proof.
  intros Hc. cbn [utf8_encode].
  destruct (plain_not_surrogate c Hc) as [-> ->]. reflexivity.
Qed.

Lemma utf8_scalar_nonempty c : (1 <= List.length (utf8_scalar c))%nat.
Proof.
  unfold utf8_scalar.
  destruct (c <? 128); [cbn; lia|]. destruct (c <? 2048); [cbn; lia|].
  destruct (c <? 65536); cbn; lia.
Qed.

Lemma length_utf8_encode_plain s :
  plain s -> (List.length s <= List.length (utf8_encode s))%nat.
Proof.
  induction 1 as [|c s Hc _ IH]; [cbn; lia|].
  rewrite utf8_encode_plain by assumption. rewrite length_app.
  pose proof (utf8_scalar_nonempty c). cbn [List.length]. lia.
Qed.

Lemma mutf8_decode_fuel_encode s :
  plain s ->
  forall fuel, (List.length s <= fuel)%nat ->
  mutf8_decode_fuel fuel (utf8_encode s) = s.
Proof.
  induction 1 as [|c s Hc _ IH]; intros fuel Hf.
  - destruct fuel; reflexivity.
  - destruct fuel as [|fuel]; [cbn in Hf; lia|].
    rewrite utf8_encode_plain by assumption.
    rewrite mutf8_decode_scalar by assumption. f_equal.
    apply IH. cbn in Hf. lia.
Qed.

(** The string does not start with U+FEFF, whose bytes the decoder
    takes for a byte order mark. *)
Definition no_bom (s : jsstring) : Prop :=
  match s with
  | c :: _ => c <> 65279
  | [] => True
  end.

Lemma has_bom_first b r : byte_val b <> 239 -> has_bom (b :: r) = false.
Proof.
  intros H. apply Z.eqb_neq in H.
  destruct r as [|b2 [|b3 r]]; cbn [has_bom]; try reflexivity. now rewrite H.
Qed.

Lemma has_bom_utf8_scalar c r :
  plain_char c -> c <> 65279 -> has_bom (utf8_scalar c ++ r) = false.
Proof.
  intros Hc Hn. unfold utf8_scalar.
  destruct (Z.ltb_spec c 128).
  - cbn [app]. apply has_bom_first. rewrite byte_val_of_small; unfold plain_char in Hc; lia.
  - destruct (Z.ltb_spec c 2048).
    + cbn [app]. apply has_bom_first.
      assert (0 <= c / 64 < 32)
        by (split; [apply Z.div_pos; lia | apply Z.div_lt_upper_bound; lia]).
      rewrite byte_val_of_small; lia.
    + destruct (Z.ltb_spec c 65536); [|unfold plain_char in Hc; lia].
      cbn [app has_bom].
      assert (B4 : 0 <= c / 4096 < 16)
        by (split; [apply Z.div_pos; lia | apply Z.div_lt_upper_bound; lia]).
      pose proof (Z.mod_pos_bound (c / 64) 64 ltac:(lia)) as B2.
      pose proof (Z.mod_pos_bound c 64 ltac:(lia)) as B1.
      rewrite !byte_val_of_small by lia.
      destruct (Z.eqb_spec (224 + c / 4096) 239) as [E4|]; [|reflexivity].
      destruct (Z.eqb_spec (128 + (c / 64) mod 64) 187) as [E2|]; [|reflexivity].
      destruct (Z.eqb_spec (128 + c mod 64) 191) as [E1|]; [|reflexivity].
      exfalso. apply Hn.
      pose proof (Z.div_mod c 64 ltac:(lia)) as D1.
      pose proof (Z.div_mod (c / 64) 64 ltac:(lia)) as D2.
      rewrite Z.div_div in D2 by lia. change (64 * 64) with 4096 in D2. lia.
Qed.

Lemma has_bom_utf8_encode s : plain s -> no_bom s -> has_bom (utf8_encode s) = false.
Proof.
  intros Hp Hn. destruct Hp as [|c s Hc Hs]; [reflexivity|].
  rewrite utf8_encode_plain by assumption. now apply has_bom_utf8_scalar.
Qed.

(** [MUtf8Decoder.decode(TextEncoder.encode(s))] is [s] when [s] has no
    U+0000 and no surrogate and does not start with U+FEFF. *)
Lemma mutf8_decode_utf8_encode s :
  plain s -> no_bom s -> mutf8_decode (utf8_encode s) = s.
Proof.
  intros H Hn. unfold mutf8_decode. rewrite (has_bom_utf8_encode s H Hn).
  apply mutf8_decode_fuel_encode; [assumption|].
  now apply length_utf8_encode_plain.
Qed.

End TextCodecs.

(* ================================================================== *)
(** * The binary writer and reader: a written tree is read back *)

Section BinaryRoundTrip.

Import Read.

(** The bytes [bs] lie in the buffer at the offset [o]. *)
Definition holds (r : NBTReader) (o : Z) (bs : list byte) : Prop :=
  exists pre post, data r = pre ++ bs ++ post /\ o = Z.of_nat (List.length pre).

Lemma holds_app_l r o a b : holds r o (a ++ b) -> holds r o a.
Proof.
  intros (pre & post & E & Ho). exists pre, (b ++ post).
  now rewrite <- app_assoc in E.
Qed.

Lemma holds_app_r r o a b :
  holds r o (a ++ b) -> holds r (o + Z.of_nat (List.length a)) b.
Proof.
  intros (pre & post & E & Ho). exists (pre ++ a), post. split.
  - now rewrite <- !app_assoc in *.
  - rewrite length_app. lia.
Qed.

Lemma holds_bounds r o bs :
  holds r o bs -> 0 <= o /\ o + Z.of_nat (List.length bs) <= byteLength r.
Proof.
  intros (pre & post & E & ->). unfold byteLength. rewrite E, !length_app. lia.
Qed.

Lemma holds_firstn r o bs :
  holds r o bs -> firstn (List.length bs) (skipn (Z.to_nat o) (data r)) = bs.
Proof.
  intros (pre & post & E & ->). rewrite E, Nat2Z.id.
  rewrite skipn_app, Nat.sub_diag, skipn_all. cbn [skipn app].
  rewrite firstn_app, Nat.sub_diag, firstn_all. cbn [firstn].
  now rewrite app_nil_r.
Qed.

Lemma fixed_read_holds {A} n (f : bool -> list byte -> A) r o bs :
  holds r o bs -> List.length bs = n ->
  fixed_read n f r o = Ok (f (littleEndian r) bs, o + Z.of_nat n).
Proof.
  intros H <-. pose proof (holds_bounds r o bs H) as [H0 H1].
  unfold fixed_read.
  destruct (Z.gtb_spec (o + Z.of_nat (List.length bs)) (byteLength r)); [lia|].
  destruct (Z.leb_spec 0 o); [|lia].
  destruct (Z.leb_spec (o + Z.of_nat (List.length bs)) (byteLength r)); [|lia].
  cbn [andb]. now rewrite holds_firstn.
Qed.

Lemma subarray_holds r o bs :
  holds r o bs -> subarray (data r) o (o + Z.of_nat (List.length bs)) = bs.
Proof.
  intros H. pose proof (holds_bounds r o bs H) as [H0 H1].
  unfold byteLength in H1. unfold subarray.
  destruct (Z.ltb_spec o 0); [lia|].
  destruct (Z.ltb_spec (o + Z.of_nat (List.length bs)) 0); [lia|].
  rewrite !Z.min_l by lia.
  replace (Z.to_nat (o + Z.of_nat (List.length bs) - o)) with (List.length bs) by lia.
  now apply holds_firstn.
Qed.

(** ** The scalars *)

Lemma readTagType_holds r o t :
  holds r o [byte_of (TAG_id t)] -> readTagType r o = Ok (t, o + 1).
Proof.
  intros H. unfold readTagType, bind.
  rewrite readUnsignedByte_fixed, (fixed_read_holds 1 _ r o _ H eq_refl).
  unfold get_uint, be_uint. cbn [fold_left].
  rewrite byte_val_of. now destruct t.
Qed.

Lemma readByte_holds r o v :
  holds r o [byte_of v] -> - 128 <= v < 128 -> readByte r o = Ok (ByteTag v, o + 1).
Proof.
  intros H Hv. unfold readByte, bind.
  rewrite readByte_valueOf_fixed, (fixed_read_holds 1 _ r o _ H eq_refl).
  unfold ret. do 2 f_equal.
  change [byte_of v] with (set_uint false 1 v).
  rewrite (get_int_set_uint false 1 v) by (cbn; lia).
  unfold Int8. rewrite Byte_wrap. f_equal. apply wrap_small; lia.
Qed.

Lemma readShort_holds r o v :
  holds r o (set_uint (littleEndian r) 2 v) -> - 32768 <= v < 32768 ->
  readShort r o = Ok (ShortTag v, o + 2).
Proof.
  intros H Hv.
  rewrite readShort_fixed, (fixed_read_holds 2 _ r o _ H (length_set_uint _ _ _)).
  do 3 f_equal. rewrite get_int_set_uint by (cbn; lia).
  unfold Int16. rewrite Short_wrap. apply wrap_small; lia.
Qed.

Lemma readFloat_holds r o v :
  holds r o (setFloat32 (littleEndian r) v) ->
  readFloat r o = Ok (FloatTag (Float32 (getFloat32 (littleEndian r)
                                            (setFloat32 (littleEndian r) v))), o + 4).
Proof.
  intros H.
  now rewrite readFloat_fixed, (fixed_read_holds 4 _ r o _ H (length_set_uint _ _ _)).
Qed.

Lemma readDouble_holds r o v :
  holds r o (setFloat64 (littleEndian r) v) ->
  readDouble r o = Ok (DoubleTag (getFloat64 (littleEndian r)
                                    (setFloat64 (littleEndian r) v)), o + 8).
Proof.
  intros H.
  now rewrite readDouble_fixed, (fixed_read_holds 8 _ r o _ H (length_set_uint _ _ _)).
Qed.

(** In the dialects without varints the lengths, INT and LONG are
    fixed-size reads. *)
Ltac as_fixed_read :=
  intros r o;
  unfold fixed_read, bind, allocate, view, get_littleEndian, add_byteOffset, ret;
  simpl Z.of_nat;
  match goal with
  | |- context [?a >? ?b] => destruct (a >? b); [reflexivity|]
  end;
  match goal with
  | |- context [(0 <=? ?a) && ?b] => destruct ((0 <=? a) && b); reflexivity
  end.

Lemma readUnsignedShort_plain fuel r o :
  varint r = false ->
  readUnsignedShort fuel r o = fixed_read 2 (fun le bs => get_uint le bs) r o.
Proof.
  intros Hv. unfold readUnsignedShort, bind at 1, get_varint. rewrite Hv.
  clear Hv. revert r o. as_fixed_read.
Qed.

Lemma readInt_valueOf_plain fuel r o :
  varint r = false ->
  readInt_valueOf fuel r o = fixed_read 4 (fun le bs => get_int le bs) r o.
Proof.
  intros Hv. unfold readInt_valueOf, bind at 1, get_varint. rewrite Hv.
  clear Hv. revert r o. as_fixed_read.
Qed.

Lemma readLong_valueOf_plain fuel r o :
  varint r = false ->
  readLong_valueOf fuel r o = fixed_read 8 (fun le bs => get_int le bs) r o.
Proof.
  intros Hv. unfold readLong_valueOf, bind at 1, get_varint. rewrite Hv.
  clear Hv. revert r o. as_fixed_read.
Qed.

Lemma readInt_valueOf_holds fuel r o v :
  varint r = false -> holds r o (set_uint (littleEndian r) 4 v) ->
  - 2 ^ 31 <= v < 2 ^ 31 ->
  readInt_valueOf fuel r o = Ok (v, o + 4).
Proof.
  intros Hvi H Hv.
  rewrite readInt_valueOf_plain by assumption.
  rewrite (fixed_read_holds 4 _ r o _ H (length_set_uint _ _ _)).
  now rewrite get_int_set_uint by (cbn; lia).
Qed.

Lemma readLong_valueOf_holds fuel r o v :
  varint r = false -> holds r o (set_uint (littleEndian r) 8 v) ->
  - 2 ^ 63 <= v < 2 ^ 63 ->
  readLong_valueOf fuel r o = Ok (v, o + 8).
Proof.
  intros Hvi H Hv.
  rewrite readLong_valueOf_plain by assumption.
  rewrite (fixed_read_holds 8 _ r o _ H (length_set_uint _ _ _)).
  now rewrite get_int_set_uint by (cbn; lia).
Qed.

Lemma readUnsignedShort_holds fuel r o v :
  varint r = false -> holds r o (set_uint (littleEndian r) 2 v) ->
  0 <= v < 65536 ->
  readUnsignedShort fuel r o = Ok (v, o + 2).
Proof.
  intros Hvi H Hv.
  rewrite readUnsignedShort_plain by assumption.
  rewrite (fixed_read_holds 2 _ r o _ H (length_set_uint _ _ _)).
  rewrite get_uint_set_uint. now rewrite Z.mod_small by (cbn; lia).
Qed.

(** ** Strings and typed arrays *)

(** A string of the code units both text codecs agree on, that does
    not start with U+FEFF, and whose UTF-8 form fits the unsigned
    16-bit length. *)
Definition short_plain (s : jsstring) : Prop :=
  (plain s /\ no_bom s) /\ Z.of_nat (List.length (utf8_encode s)) < 65536.

Lemma writeString_bytes le s :
  Write.writeString le s
  = Ok (set_uint le 2 (Z.of_nat (List.length (utf8_encode s))) ++ utf8_encode s).
Proof. reflexivity. Qed.

Lemma allocate_holds r o bs :
  holds r o bs -> allocate (Z.of_nat (List.length bs)) r o = Ok (tt, o).
Proof.
  intros H. pose proof (holds_bounds r o bs H). unfold allocate.
  destruct (Z.gtb_spec (o + Z.of_nat (List.length bs)) (byteLength r)); [lia|].
  reflexivity.
Qed.

Lemma readString_holds fuel r o s :
  varint r = false -> short_plain s ->
  holds r o (set_uint (littleEndian r) 2 (Z.of_nat (List.length (utf8_encode s)))
             ++ utf8_encode s) ->
  readString fuel r o = Ok (s, o + 2 + Z.of_nat (List.length (utf8_encode s))).
Proof.
  intros Hvi [Hp Hlen] H. unfold readString.
  rewrite (bind_intro _ _ _ _ _ _
             (readUnsignedShort_holds fuel r o _ Hvi (holds_app_l _ _ _ _ H)
                ltac:(lia))).
  apply holds_app_r in H. rewrite length_set_uint in H.
  change (Z.of_nat 2) with 2 in H.
  rewrite (bind_intro _ _ _ _ _ _ (allocate_holds r _ _ H)).
  unfold bind, data_subarray, add_byteOffset, ret.
  rewrite (subarray_holds r _ _ H).
  now rewrite mutf8_decode_utf8_encode.
Qed.

Lemma signed_byte v : - 128 <= v < 128 -> signed 8 (byte_val (byte_of v)) = v.
Proof.
  intros Hv. pose proof (get_int_set_uint false 1 v ltac:(lia) ltac:(cbn; lia)) as E.
  exact E.
Qed.

Lemma writeByteArray_bytes le l :
  Write.writeByteArray le l
  = Ok (set_uint le 4 (Z.of_nat (List.length l)) ++ map byte_of l).
Proof. reflexivity. Qed.

Lemma readByteArray_holds fuel r o l :
  varint r = false -> Forall int8 l -> Z.of_nat (List.length l) < 2 ^ 31 ->
  holds r o (set_uint (littleEndian r) 4 (Z.of_nat (List.length l)) ++ map byte_of l) ->
  readByteArray fuel r o = Ok (ByteArrayTag l, o + 4 + Z.of_nat (List.length l)).
Proof.
  intros Hvi Hl Hlen H. unfold readByteArray.
  rewrite (bind_intro _ _ _ _ _ _
             (readInt_valueOf_holds fuel r o _ Hvi (holds_app_l _ _ _ _ H)
                ltac:(lia))).
  apply holds_app_r in H. rewrite length_set_uint in H.
  change (Z.of_nat 4) with 4 in H.
  pose proof (allocate_holds r _ _ H) as Ha. rewrite length_map in Ha.
  rewrite (bind_intro _ _ _ _ _ _ Ha).
  unfold bind, data_subarray, add_byteOffset, ret.
  pose proof (subarray_holds r _ _ H) as Es. rewrite length_map in Es.
  rewrite Es, map_map. do 3 f_equal.
  rewrite <- (map_id l) at 2. apply map_ext_in.
  intros v Hv. apply signed_byte. rewrite Forall_forall in Hl.
  apply (Hl v Hv).
Qed.

(** The entries of an INT_ARRAY or a LONG_ARRAY, [n] bytes each. *)
Lemma write_array_bytes le n (wr : Z -> Write.W) l :
  (forall v, wr v = Ok (set_uint le n v)) ->
  fold_right (fun entry rest => Write.seq_w (wr entry) rest) (Ok []) l
  = Ok (List.concat (map (set_uint le n) l)).
Proof.
  intros Hwr. induction l as [|v l IH]; [reflexivity|].
  cbn [fold_right map List.concat]. now rewrite IH, Hwr.
Qed.

Lemma length_concat_set_uint le n l :
  List.length (List.concat (map (set_uint le n) l)) = (n * List.length l)%nat.
Proof.
  induction l as [|v l IH]; [cbn; lia|].
  cbn [map List.concat List.length]. rewrite length_app, length_set_uint, IH. lia.
Qed.

Lemma readArray_loop_holds r n (range : Z -> Prop) (readEntry : M Z) length :
  (forall o v, holds r o (set_uint (littleEndian r) n v) -> range v ->
               readEntry r o = Ok (v, o + Z.of_nat n)) ->
  forall l fuel i value o,
    Forall range l -> (List.length l < fuel)%nat ->
    i + Z.of_nat (List.length l) = length ->
    holds r o (List.concat (map (set_uint (littleEndian r) n) l)) ->
    readArray_loop readEntry fuel length i value r o
    = Ok (value ++ l, o + Z.of_nat (n * List.length l)).
Proof.
  intros Hread. induction l as [|v l IH]; intros fuel i value o Hl Hf Hi H.
  - destruct fuel as [|fuel]; [cbn in Hf; lia|]. cbn [readArray_loop].
    cbn [List.length] in Hi. destruct (Z.ltb_spec i length); [lia|].
    unfold ret. rewrite app_nil_r. do 2 f_equal.
    cbn [List.length]. rewrite Nat.mul_0_r. lia.
  - destruct fuel as [|fuel]; [cbn in Hf; lia|]. cbn [readArray_loop].
    cbn [List.length] in Hi, Hf. destruct (Z.ltb_spec i length); [|lia].
    inversion Hl; subst. cbn [map List.concat] in H.
    rewrite (bind_intro _ _ _ _ _ _ (Hread o v (holds_app_l _ _ _ _ H) ltac:(assumption))).
    apply holds_app_r in H. rewrite length_set_uint in H.
    rewrite (IH fuel (i + 1) (value ++ [v]) _ ltac:(assumption) ltac:(lia) ltac:(lia) H).
    rewrite <- app_assoc. cbn [app List.length]. do 2 f_equal. lia.
Qed.

Lemma writeIntArray_bytes le l :
  Write.writeIntArray le l
  = Ok (set_uint le 4 (Z.of_nat (List.length l)) ++ List.concat (map (set_uint le 4) l)).
Proof.
  unfold Write.writeIntArray.
  now rewrite (write_array_bytes le 4 (Write.writeInt le) l).
Qed.

Lemma writeLongArray_bytes le l :
  Write.writeLongArray le l
  = Ok (set_uint le 4 (Z.of_nat (List.length l)) ++ List.concat (map (set_uint le 8) l)).
Proof.
  unfold Write.writeLongArray.
  now rewrite (write_array_bytes le 8 (Write.writeLong le) l).
Qed.

Lemma readIntArray_holds fuel r o l :
  varint r = false -> Forall int32 l -> Z.of_nat (List.length l) < 2 ^ 31 ->
  (List.length l < fuel)%nat ->
  holds r o (set_uint (littleEndian r) 4 (Z.of_nat (List.length l))
             ++ List.concat (map (set_uint (littleEndian r) 4) l)) ->
  readIntArray fuel r o = Ok (IntArrayTag l, o + 4 + Z.of_nat (4 * List.length l)).
Proof.
  intros Hvi Hl Hlen Hf H. unfold readIntArray.
  rewrite (bind_intro _ _ _ _ _ _
             (readInt_valueOf_holds fuel r o _ Hvi (holds_app_l _ _ _ _ H)
                ltac:(lia))).
  destruct (Z.ltb_spec (Z.of_nat (List.length l)) 0); [lia|].
  apply holds_app_r in H. rewrite length_set_uint in H.
  change (Z.of_nat 4) with 4 in H.
  rewrite (bind_intro _ _ _ _ _ _
             (readArray_loop_holds r 4 int32 (readInt_valueOf fuel)
                (Z.of_nat (List.length l))
                (fun o v Ho Hv => readInt_valueOf_holds fuel r o v Hvi Ho Hv)
                l fuel 0 [] _ Hl Hf (Z.add_0_l _) H)).
  unfold ret. cbn [app]. do 3 f_equal.
  rewrite <- (map_id l) at 2. apply map_ext_in.
  intros v Hv. apply ToInt32_id. rewrite Forall_forall in Hl. now apply Hl.
Qed.

Lemma readLongArray_holds fuel r o l :
  varint r = false -> Forall int64 l -> Z.of_nat (List.length l) < 2 ^ 31 ->
  (List.length l < fuel)%nat ->
  holds r o (set_uint (littleEndian r) 4 (Z.of_nat (List.length l))
             ++ List.concat (map (set_uint (littleEndian r) 8) l)) ->
  readLongArray fuel r o = Ok (LongArrayTag l, o + 4 + Z.of_nat (8 * List.length l)).
Proof.
  intros Hvi Hl Hlen Hf H. unfold readLongArray.
  rewrite (bind_intro _ _ _ _ _ _
             (readInt_valueOf_holds fuel r o _ Hvi (holds_app_l _ _ _ _ H)
                ltac:(lia))).
  destruct (Z.ltb_spec (Z.of_nat (List.length l)) 0); [lia|].
  apply holds_app_r in H. rewrite length_set_uint in H.
  change (Z.of_nat 4) with 4 in H.
  rewrite (bind_intro _ _ _ _ _ _
             (readArray_loop_holds r 8 int64 (readLong_valueOf fuel)
                (Z.of_nat (List.length l))
                (fun o v Ho Hv => readLong_valueOf_holds fuel r o v Hvi Ho Hv)
                l fuel 0 [] _ Hl Hf (Z.add_0_l _) H)).
  unfold ret. cbn [app]. do 3 f_equal.
  rewrite <- (map_id l) at 2. apply map_ext_in.
  intros v Hv. apply wrap_small; [lia|]. rewrite Forall_forall in Hl.
  specialize (Hl v Hv). unfold int64 in Hl. lia.
Qed.

(** ** Trees *)

(** A single-precision Number: [Math.fround] keeps it, and its rounding
    is a value of the binary32 format. *)
Definition single (v : spec_float) : Prop :=
  valid_binary 24 128 (round32 v) = true /\ fround v = v.

(** The trees whose values fit their encoding: the integers lie in the
    range of their tag, a FLOAT is single-precision and a DOUBLE a
    binary64 value, strings and keys are [short_plain], the keys of a
    compound are [own_keys] (distinct, in the order of [Object.entries],
    none of them [__proto__]), and no sequence has 2^31 elements or
    more. *)
Fixpoint writable (t : Tag) : Prop :=
  match t with
  | BooleanTag _ => True
  | ByteTag v => int8 v
  | ShortTag v => int16 v
  | IntTag v => int32 v
  | LongTag v => int64 v
  | FloatTag v => single v
  | DoubleTag v => valid_binary 53 1024 v = true
  | ByteArrayTag l => Forall int8 l /\ Z.of_nat (List.length l) < 2 ^ 31
  | StringTag s => short_plain s
  | ListTag l =>
      (fix all (l : list Tag) : Prop :=
         match l with
         | [] => True
         | x :: r => writable x /\ all r
         end) l
      /\ Z.of_nat (List.length l) < 2 ^ 31
  | CompoundTag l =>
      (fix all (l : list (jsstring * Tag)) : Prop :=
         match l with
         | [] => True
         | kv :: r => (short_plain (fst kv) /\ writable (snd kv)) /\ all r
         end) l
      /\ own_keys (map fst l)
  | IntArrayTag l => Forall int32 l /\ Z.of_nat (List.length l) < 2 ^ 31
  | LongArrayTag l => Forall int64 l /\ Z.of_nat (List.length l) < 2 ^ 31
  end.

Lemma writable_ListTag l :
  writable (ListTag l) -> Forall writable l /\ Z.of_nat (List.length l) < 2 ^ 31.
Proof.
  cbn [writable]. intros (H & Hl). split; [|assumption].
  clear Hl. induction l as [|x l IH]; [constructor|].
  constructor; [apply H | apply IH, H].
Qed.

Lemma writable_CompoundTag l :
  writable (CompoundTag l) ->
  Forall (fun kv => short_plain (fst kv) /\ writable (snd kv)) l
  /\ own_keys (map fst l).
Proof.
  cbn [writable]. intros (H & Hn). split; [|assumption].
  clear Hn. induction l as [|x l IH]; [constructor|].
  constructor; [apply H | apply IH, H].
Qed.

(** The tree as the reader builds it: a boolean was written as the
    byte 1 or 0 and is read as a BYTE. *)
Fixpoint as_read (t : Tag) : Tag :=
  match t with
  | BooleanTag b => ByteTag (Write.Number_of_bool b)
  | ListTag l => ListTag (map as_read l)
  | CompoundTag l =>
      CompoundTag (map (fun kv => (fst kv, as_read (snd kv))) l)
  | _ => t
  end.

Local Infix "+++" := Write.seq_w (at level 60, right associativity).

Lemma seq_w_Ok a b bs :
  a +++ b = Ok bs -> exists x y, a = Ok x /\ b = Ok y /\ bs = x ++ y.
Proof.
  unfold Write.seq_w. destruct a as [x| | |]; try discriminate.
  destruct b as [y| | |]; try discriminate.
  intros E. inversion E. eauto.
Qed.

(** The type [#writeList] writes for a list. *)
Definition list_tag (l : list Tag) : TAG :=
  match l with
  | [] => END
  | first :: _ => Write.type_of first
  end.

(** The loop of [#writeList] and the loop of [#writeCompound]. *)
Definition write_entries (le : bool) (type : TAG) : list Tag -> Write.W :=
  fix entries (l : list Tag) : Write.W :=
    match l with
    | [] => Ok []
    | entry :: rest =>
        if TAG_eqb (Write.type_of entry) type
        then Write.writeTag le entry +++ entries rest
        else Throw Write.TypeError_list
    end.

Definition write_pairs (le : bool) : list (jsstring * Tag) -> Write.W :=
  fix entries (l : list (jsstring * Tag)) : Write.W :=
    match l with
    | [] => Ok []
    | (name, entry) :: rest =>
        Write.writeTagType (Write.type_of entry)
        +++ Write.writeString le name
        +++ Write.writeTag le entry
        +++ entries rest
    end.

Lemma writeTag_ListTag le l :
  Write.writeTag le (ListTag l)
  = Write.writeTagType (list_tag l)
    +++ Write.writeInt le (Z.of_nat (List.length l))
    +++ write_entries le (list_tag l) l.
Proof. reflexivity. Qed.

Lemma writeTag_CompoundTag le l :
  Write.writeTag le (CompoundTag l) = write_pairs le l +++ Write.writeTagType END.
Proof. reflexivity. Qed.

Lemma TAG_eqb_eq a b : TAG_eqb a b = true -> a = b.
Proof. destruct a, b; cbn; intros H; try reflexivity; discriminate. Qed.

Lemma type_of_as_read t : Write.type_of (as_read t) = Write.type_of t.
Proof. now destruct t. Qed.

Section Loops.

Variable r : NBTReader.
Hypothesis plain_dialect : varint r = false.
Variable fuel_tag : nat.

(** The hypothesis of the loops: [#readTag] with the fuel [fuel_tag]
    reads back every tree written in fewer bytes. *)
Hypothesis readTag_written :
  forall t bs o,
    writable t -> Write.writeTag (littleEndian r) t = Ok bs ->
    (List.length bs < fuel_tag)%nat -> holds r o bs ->
    readTag fuel_tag (Write.type_of t) r o
    = Ok (as_read t, o + Z.of_nat (List.length bs)).

Lemma readList_loop_written type length :
  forall l bs fuel i value o,
    write_entries (littleEndian r) type l = Ok bs ->
    Forall writable l -> (List.length bs < fuel_tag)%nat ->
    (List.length l < fuel)%nat ->
    i + Z.of_nat (List.length l) = length ->
    holds r o bs ->
    readList_loop (readTag fuel_tag type) fuel length i value r o
    = Ok (value ++ map as_read l, o + Z.of_nat (List.length bs)).
Proof.
  induction l as [|e l IH]; intros bs fuel i value o Hw Hl Hb Hf Hi H.
  - destruct fuel as [|fuel]; [cbn in Hf; lia|]. cbn [readList_loop].
    cbn [List.length] in Hi. destruct (Z.ltb_spec i length); [lia|].
    cbn [write_entries] in Hw. inversion Hw; subst.
    unfold ret. cbn [map List.length]. rewrite app_nil_r. do 2 f_equal. lia.
  - destruct fuel as [|fuel]; [cbn in Hf; lia|]. cbn [readList_loop].
    cbn [List.length] in Hi, Hf. destruct (Z.ltb_spec i length); [|lia].
    inversion Hl; subst. cbn [write_entries] in Hw.
    destruct (TAG_eqb (Write.type_of e) type) eqn:Et; [|discriminate].
    apply TAG_eqb_eq in Et. subst type.
    apply seq_w_Ok in Hw as (x & y & Hx & Hy & ->).
    rewrite length_app in Hb.
    rewrite (bind_intro _ _ _ _ _ _
               (readTag_written e x o ltac:(assumption) Hx ltac:(lia)
                  (holds_app_l _ _ _ _ H))).
    apply holds_app_r in H.
    rewrite (IH y fuel (i + 1) (value ++ [as_read e]) _ Hy
               ltac:(assumption) ltac:(lia) ltac:(lia) ltac:(lia) H).
    rewrite <- app_assoc, length_app. cbn [app map]. do 2 f_equal. lia.
Qed.

Lemma type_of_not_END t : Write.type_of t <> END.
Proof. now destruct t. Qed.

Lemma readCompound_loop_written :
  forall l bs fuel value o,
    write_pairs (littleEndian r) l = Ok bs ->
    Forall (fun kv => short_plain (fst kv) /\ writable (snd kv)) l ->
    Forall (fun k => k <> proto_key) (map fst l) ->
    (List.length bs < fuel_tag)%nat -> (List.length l < fuel)%nat ->
    holds r o (bs ++ [byte_of 0]) ->
    readCompound_loop (readTag fuel_tag) fuel value r o
    = Ok (fold_left set_entry (map (fun kv => (fst kv, as_read (snd kv))) l) value,
          o + Z.of_nat (List.length bs) + 1).
Proof.
  induction l as [|[name e] l IH]; intros bs fuel value o Hw Hl Hp Hb Hf H.
  - destruct fuel as [|fuel]; [cbn in Hf; lia|]. cbn [readCompound_loop].
    cbn [write_pairs] in Hw. inversion Hw; subst. cbn [app] in H.
    rewrite (bind_intro _ _ _ _ _ _ (readTagType_holds r o END H)).
    unfold ret. cbn [map fold_left List.length]. do 2 f_equal. lia.
  - destruct fuel as [|fuel]; [cbn in Hf; lia|]. cbn [readCompound_loop].
    inversion Hl as [|? ? [Hname He] Hl']; subst.
    cbn [map] in Hp. inversion Hp as [|? ? Hpk Hp']; subst. cbn [fst snd] in *.
    cbn [write_pairs] in Hw.
    apply seq_w_Ok in Hw as (x1 & y1 & Hx1 & Hw & ->).
    apply seq_w_Ok in Hw as (x2 & y2 & Hx2 & Hw & ->).
    apply seq_w_Ok in Hw as (x3 & y3 & Hx3 & Hw & ->).
    unfold Write.writeTagType, Write.writeUnsignedByte in Hx1.
    inversion Hx1; subst x1. clear Hx1.
    rewrite writeString_bytes in Hx2. inversion Hx2; subst x2. clear Hx2.
    rewrite <- !app_assoc in H.
    rewrite (bind_intro _ _ _ _ _ _
               (readTagType_holds r o (Write.type_of e) (holds_app_l _ _ _ _ H))).
    apply holds_app_r in H. cbn [List.length] in H. change (Z.of_nat 1) with 1 in H.
    assert (Hk : forall A (k1 k2 : M A),
               match Write.type_of e with END => k1 | _ => k2 end = k2)
      by (intros; now destruct e).
    rewrite Hk.
    rewrite (app_assoc (set_uint _ _ _)) in H.
    rewrite (bind_intro _ _ _ _ _ _
               (readString_holds fuel r (o + 1) name plain_dialect Hname
                  (holds_app_l _ _ _ _ H))).
    apply holds_app_r in H. rewrite length_app, length_set_uint in H.
    replace (o + 1 + Z.of_nat (2 + List.length (utf8_encode name)))
      with (o + 1 + 2 + Z.of_nat (List.length (utf8_encode name))) in H by lia.
    rewrite !length_app in Hb. cbn [List.length] in Hb.
    rewrite length_set_uint in Hb.
    rewrite (bind_intro _ _ _ _ _ _
               (readTag_written e x3 _ He Hx3 ltac:(lia) (holds_app_l _ _ _ _ H))).
    apply holds_app_r in H.
    rewrite (obj_assign_key value name (as_read e) Hpk).
    rewrite (IH y3 fuel _ _ Hw Hl' Hp' ltac:(lia) ltac:(cbn in Hf; lia) H).
    cbn [map fold_left fst snd]. unfold set_entry at 2. cbn [fst snd].
    do 2 f_equal. rewrite !length_app, length_set_uint. cbn [List.length]. lia.
Qed.

End Loops.

Lemma getFloat64_setFloat64 le v :
  valid_binary 53 1024 v = true -> getFloat64 le (setFloat64 le v) = v.
Proof.
  intros Hv. unfold getFloat64, setFloat64. rewrite get_uint_set_uint.
  pose proof (encode_float_range 52 11 v ltac:(lia) ltac:(lia) Hv) as Hr.
  rewrite Z.mod_small by exact Hr.
  now apply (decode_encode_float 52 11).
Qed.

Lemma getFloat32_setFloat32 le v :
  single v -> Float32 (getFloat32 le (setFloat32 le v)) = v.
Proof.
  intros [Hv Hf]. unfold Float32, getFloat32, setFloat32. rewrite get_uint_set_uint.
  pose proof (encode_float_range 23 8 (round32 v) ltac:(lia) ltac:(lia) Hv) as Hr.
  rewrite Z.mod_small by exact Hr.
  rewrite (decode_encode_float 23 8) by (try lia; exact Hv).
  fold (fround v). now rewrite !Hf.
Qed.

(** Every tag is written in one byte or more. *)
Lemma writeTag_nonempty le t bs :
  Write.writeTag le t = Ok bs -> (1 <= List.length bs)%nat.
Proof.
  destruct t; cbn [Write.writeTag]; intros E.
  - inversion E. cbn. lia.
  - inversion E. cbn. lia.
  - inversion E. rewrite length_set_uint. lia.
  - inversion E. rewrite length_set_uint. lia.
  - inversion E. rewrite length_set_uint. lia.
  - inversion E. unfold setFloat32. rewrite length_set_uint. lia.
  - inversion E. unfold setFloat64. rewrite length_set_uint. lia.
  - rewrite writeByteArray_bytes in E. inversion E.
    rewrite length_app, length_set_uint. lia.
  - rewrite writeString_bytes in E. inversion E.
    rewrite length_app, length_set_uint. lia.
  - change (Write.writeTag le (ListTag l) = Ok bs) in E.
    rewrite writeTag_ListTag in E.
    apply seq_w_Ok in E as (x1 & y1 & Hx1 & E & ->). inversion Hx1.
    cbn [app List.length]. lia.
  - change (Write.writeTag le (CompoundTag l) = Ok bs) in E.
    rewrite writeTag_CompoundTag in E.
    apply seq_w_Ok in E as (x1 & y1 & Hx1 & E & ->). inversion E.
    rewrite length_app. cbn [List.length]. lia.
  - rewrite writeIntArray_bytes in E. inversion E.
    rewrite length_app, length_set_uint. lia.
  - rewrite writeLongArray_bytes in E. inversion E.
    rewrite length_app, length_set_uint. lia.
Qed.

Lemma write_entries_count le type l bs :
  write_entries le type l = Ok bs -> (List.length l <= List.length bs)%nat.
Proof.
  revert bs. induction l as [|e l IH]; intros bs E; [cbn; lia|].
  cbn [write_entries] in E.
  destruct (TAG_eqb (Write.type_of e) type); [|discriminate].
  apply seq_w_Ok in E as (x & y & Hx & Hy & ->).
  apply writeTag_nonempty in Hx. specialize (IH y Hy).
  rewrite length_app. cbn [List.length]. lia.
Qed.

Lemma write_pairs_count le l bs :
  write_pairs le l = Ok bs -> (List.length l <= List.length bs)%nat.
Proof.
  revert bs. induction l as [|[name e] l IH]; intros bs E; [cbn; lia|].
  cbn [write_pairs] in E.
  apply seq_w_Ok in E as (x1 & y1 & Hx1 & E & ->).
  apply seq_w_Ok in E as (x2 & y2 & Hx2 & E & ->).
  apply seq_w_Ok in E as (x3 & y3 & Hx3 & E & ->).
  inversion Hx1. specialize (IH y3 E).
  rewrite !length_app. cbn [List.length]. lia.
Qed.

(** [#readTag] on the bytes [#writeTag] wrote. *)
Lemma readTag_writeTag r :
  varint r = false ->
  forall fuel t bs o,
    writable t -> Write.writeTag (littleEndian r) t = Ok bs ->
    (List.length bs < fuel)%nat -> holds r o bs ->
    readTag fuel (Write.type_of t) r o
    = Ok (as_read t, o + Z.of_nat (List.length bs)).
Proof.
  intros Hvi. induction fuel as [|fuel IH]; [intros; lia|].
  intros t bs o Hw E Hlen H.
  destruct t; cbn [Write.type_of getTagType readTag as_read];
    cbn [Write.writeTag] in E; cbn [writable] in Hw.
  - inversion E; subst. rewrite (readByte_holds r o _ H); [reflexivity|].
    destruct b; cbn; lia.
  - inversion E; subst. now rewrite (readByte_holds r o _ H Hw).
  - inversion E; subst. rewrite (readShort_holds r o _ H Hw).
    now rewrite length_set_uint.
  - inversion E; subst. unfold readInt.
    rewrite (bind_intro _ _ _ _ _ _ (readInt_valueOf_holds fuel r o _ Hvi H Hw)).
    unfold ret, Int32. rewrite Int_wrap, wrap_small, length_set_uint;
      [reflexivity | lia | exact Hw].
  - inversion E; subst. unfold readLong.
    rewrite (bind_intro _ _ _ _ _ _ (readLong_valueOf_holds fuel r o _ Hvi H Hw)).
    now rewrite length_set_uint.
  - inversion E; subst. rewrite (readFloat_holds r o _ H).
    rewrite getFloat32_setFloat32 by assumption.
    unfold setFloat32. now rewrite length_set_uint.
  - inversion E; subst. rewrite (readDouble_holds r o _ H).
    rewrite getFloat64_setFloat64 by assumption.
    unfold setFloat64. now rewrite length_set_uint.
  - rewrite writeByteArray_bytes in E. inversion E; subst. destruct Hw as [Hl Hn].
    rewrite (readByteArray_holds fuel r o l Hvi Hl Hn H).
    rewrite length_app, length_set_uint, length_map. do 2 f_equal. lia.
  - rewrite writeString_bytes in E. inversion E; subst.
    rewrite (bind_intro _ _ _ _ _ _ (readString_holds fuel r o s Hvi Hw H)).
    unfold ret. rewrite length_app, length_set_uint. do 2 f_equal. lia.
  - destruct (writable_ListTag l Hw) as [Hall Hn].
    change (Write.writeTag (littleEndian r) (ListTag l) = Ok bs) in E.
    rewrite writeTag_ListTag in E.
    apply seq_w_Ok in E as (x1 & y1 & Hx1 & E & ->).
    apply seq_w_Ok in E as (x2 & y2 & Hx2 & E & ->).
    inversion Hx1; subst x1. inversion Hx2; subst x2. clear Hx1 Hx2.
    rewrite !length_app, length_set_uint in Hlen. cbn [List.length] in Hlen.
    unfold readList.
    rewrite (bind_intro _ _ _ _ _ _
               (readTagType_holds r o (list_tag l) (holds_app_l _ _ _ _ H))).
    apply holds_app_r in H. cbn [List.length] in H. change (Z.of_nat 1) with 1 in H.
    unfold bind at 1, get_varint. rewrite Hvi.
    rewrite (bind_intro _ _ _ _ _ _
               (readInt_valueOf_holds fuel r (o + 1) _ Hvi (holds_app_l _ _ _ _ H)
                  ltac:(lia))).
    apply holds_app_r in H. rewrite length_set_uint in H.
    pose proof (write_entries_count _ _ _ _ E) as Hcount.
    rewrite (bind_intro _ _ _ _ _ _
               (readList_loop_written r fuel IH (list_tag l)
                  (Z.of_nat (List.length l)) l y2 fuel 0 [] _ E Hall
                  ltac:(lia) ltac:(lia) (Z.add_0_l _) H)).
    unfold ret. cbn [app List.length]. rewrite length_app, length_set_uint.
    do 2 f_equal. lia.
  - destruct (writable_CompoundTag l Hw) as (Hall & Hn & Hls & Hp).
    change (Write.writeTag (littleEndian r) (CompoundTag l) = Ok bs) in E.
    rewrite writeTag_CompoundTag in E.
    apply seq_w_Ok in E as (x1 & y1 & E & Hy1 & ->).
    inversion Hy1; subst y1. clear Hy1.
    rewrite length_app in Hlen. cbn [List.length] in Hlen.
    pose proof (write_pairs_count _ _ _ E) as Hcount.
    unfold readCompound.
    rewrite (bind_intro _ _ _ _ _ _
               (readCompound_loop_written r Hvi fuel IH l x1 fuel [] o E Hall Hp
                  ltac:(lia) ltac:(lia) H)).
    unfold ret. rewrite fold_set_entry.
    + cbn [app]. rewrite length_app. cbn [List.length]. do 2 f_equal. lia.
    + cbn [app]. rewrite map_map. cbn [fst]. exact Hn.
    + cbn [app]. rewrite map_map. cbn [fst]. exact Hls.
  - rewrite writeIntArray_bytes in E. inversion E; subst. destruct Hw as [Hl Hn].
    rewrite length_app, length_set_uint, length_concat_set_uint in Hlen.
    rewrite (readIntArray_holds fuel r o l Hvi Hl Hn ltac:(lia) H).
    rewrite length_app, length_set_uint, length_concat_set_uint.
    do 2 f_equal. lia.
  - rewrite writeLongArray_bytes in E. inversion E; subst. destruct Hw as [Hl Hn].
    rewrite length_app, length_set_uint, length_concat_set_uint in Hlen.
    rewrite (readLongArray_holds fuel r o l Hvi Hl Hn ltac:(lia) H).
    rewrite length_app, length_set_uint, length_concat_set_uint.
    do 2 f_equal. lia.
Qed.

(** ** The root *)

Definition name_ok (name : option jsstring) : Prop :=
  match name with
  | Some n => short_plain n
  | None => True
  end.

Definition named (name : option jsstring) : bool :=
  match name with
  | Some _ => true
  | None => false
  end.

Definition is_little (e : Endian) : bool :=
  match e with
  | little => true
  | _ => false
  end.

Lemma NBTWriter_write_bytes t name e bs :
  Write.NBTWriter_write t name e = Ok bs ->
  e <> little_varint /\
  exists body,
    Write.writeTag (is_little e) (CompoundTag t) = Ok body /\
    bs = byte_of 10
         :: match name with
            | Some n =>
                set_uint (is_little e) 2 (Z.of_nat (List.length (utf8_encode n)))
                ++ utf8_encode n
            | None => []
            end ++ body.
Proof.
  unfold Write.NBTWriter_write. intros E.
  destruct e; [| |discriminate]; (split; [discriminate|]);
    apply seq_w_Ok in E as (x1 & y1 & Hx1 & E & ->);
    apply seq_w_Ok in E as (x2 & y2 & Hx2 & E & ->);
    inversion Hx1; subst x1; exists y2; (split; [exact E|]);
    destruct name as [n|]; inversion Hx2; reflexivity.
Qed.

(** The reader of [read] for the options [endian]. *)
Definition reader_of (d : list byte) (e : Endian) : NBTReader :=
  mkReader d (match e with big => false | _ => true end)
             (match e with little_varint => true | _ => false end).

(** The root at the offset [o], after the Bedrock header if there is
    one. *)
Lemma root_written t name e bs fuel r o :
  writable (CompoundTag t) -> name_ok name ->
  Write.NBTWriter_write t name e = Ok bs ->
  (List.length bs < fuel)%nat ->
  littleEndian r = is_little e -> varint r = false ->
  holds r o bs ->
  forall n,
    rootName_truthy n = (named name) ->
    (type <- readTagType ;;
     match type with
     | LIST | COMPOUND =>
         rootNameV <- (if rootName_truthy n
                       then s <- readString fuel ;; ret (Some s)
                       else ret None) ;;
         root <- readTag fuel type ;;
         ret (root, rootNameV)
     | _ => throw (ExpectedListOrCompound type)
     end) r o
    = Ok ((as_read (CompoundTag t), name), o + Z.of_nat (List.length bs)).
Proof.
  intros Hw Hname E Hlen Hle Hvi H n Hn.
  apply NBTWriter_write_bytes in E as (_ & body & Eb & ->).
  rewrite <- Hle in Eb.
  change (byte_of 10 :: ?x) with ([byte_of (TAG_id COMPOUND)] ++ x) in H.
  rewrite (bind_intro _ _ _ _ _ _
             (readTagType_holds r o COMPOUND (holds_app_l _ _ _ _ H))).
  apply holds_app_r in H. cbn [List.length] in H. change (Z.of_nat 1) with 1 in H.
  cbn [List.length] in Hlen. rewrite length_app in Hlen.
  rewrite Hn. destruct name as [nm|]; cbn [named].
  - rewrite <- Hle in H.
    unfold bind at 1.
    rewrite (bind_intro _ _ _ _ _ _
               (readString_holds fuel r (o + 1) nm Hvi Hname (holds_app_l _ _ _ _ H))).
    unfold ret at 1.
    apply holds_app_r in H. rewrite length_app, length_set_uint in H.
    rewrite length_app, length_set_uint in Hlen.
    replace (o + 1 + Z.of_nat (2 + List.length (utf8_encode nm)))
      with (o + 1 + 2 + Z.of_nat (List.length (utf8_encode nm))) in H by lia.
    rewrite (bind_intro _ _ _ _ _ _
               (readTag_writeTag r Hvi fuel (CompoundTag t) body _ Hw Eb
                  ltac:(lia) H)).
    unfold ret. do 2 f_equal. cbn [List.length].
    rewrite !length_app, length_set_uint. lia.
  - cbn [app] in H. unfold bind at 1, ret at 1.
    rewrite (bind_intro _ _ _ _ _ _
               (readTag_writeTag r Hvi fuel (CompoundTag t) body _ Hw Eb
                  ltac:(cbn [List.length app] in Hlen; lia) H)).
    unfold ret. do 2 f_equal. cbn [List.length app]. lia.
Qed.

Lemma holds_whole d le vi : holds (mkReader d le vi) 0 d.
Proof. exists [], []. cbn [data]. now rewrite app_nil_r. Qed.

Lemma readRoot_tree_written t name e bs fuel n c level st :
  writable (CompoundTag t) -> name_ok name ->
  Write.NBTWriter_write t name e = Ok bs ->
  (List.length bs < fuel)%nat ->
  rootName_truthy n = (named name) ->
  bedrock_truthy level = false ->
  readRoot_tree fuel (mkReadOptions n e c level st) (reader_of bs e) 0
  = Ok ((as_read (CompoundTag t), name), Z.of_nat (List.length bs)).
Proof.
  intros Hw Hname E Hlen Hn Hb.
  pose proof (NBTWriter_write_bytes _ _ _ _ E) as (He & _).
  unfold readRoot_tree. cbn [bedrockLevel rootName]. rewrite Hb.
  unfold bind at 1, ret at 1.
  rewrite (root_written t name e bs fuel (reader_of bs e) 0 Hw Hname E Hlen);
    try assumption.
  - reflexivity.
  - now destruct e.
  - now destruct e.
  - apply holds_whole.
Qed.

Variable decompress : list byte -> Compression -> result error (list byte).

(** What [NBTWriter.write] writes for a [writable] tree (values that
    fit their encoding, keys that are distinct and not [__proto__], no
    string, key or root name with U+0000, a surrogate or a leading
    U+FEFF) in the big-endian or the little-endian dialect, with or
    without a root name, [read] reads back under the options of that
    dialect, in strict mode or not: the same root name and the same
    tree, the booleans as bytes. *)
Theorem write_read_round_trip (t : list (jsstring * Tag)) (name : option jsstring)
  (e : Endian) (st : bool) (bs : list byte) (fuel : nat) :
  writable (CompoundTag t) -> name_ok name ->
  Write.NBTWriter_write t name e = Ok bs ->
  (List.length bs < fuel)%nat ->
  read decompress fuel bs
    (uncompressed (RNbool (named name)) e BLnull st)
  = Ok (mkNBTData (as_read (CompoundTag t)) name e None BLnull).
Proof.
  intros Hw Hname E Hlen. rewrite read_uncompressed.
  fold (reader_of bs e).
  rewrite (readRoot_tree_written t name e bs fuel _ None BLnull st Hw Hname E Hlen)
    by reflexivity.
  rewrite Z.gtb_ltb, Z.ltb_irrefl, andb_false_r. reflexivity.
Qed.

(** ** [read] without options *)

Lemma readRoot_written t name e bs fuel n level st :
  writable (CompoundTag t) -> name_ok name ->
  Write.NBTWriter_write t name e = Ok bs ->
  (List.length bs < fuel)%nat ->
  rootName_truthy n = named name ->
  bedrock_truthy level = false ->
  readRoot decompress fuel (reader_of bs e) (mkReadOptions n e None level st)
  = Ok (mkNBTData (as_read (CompoundTag t)) name e None level).
Proof.
  intros Hw Hname E Hlen Hn Hb. unfold readRoot. cbn [compression].
  rewrite readRoot_body_tree.
  rewrite (readRoot_tree_written t name e bs fuel n None level st Hw Hname E Hlen Hn Hb).
  cbn [strict endian compression bedrockLevel]. unfold byteLength, reader_of.
  cbn [data]. rewrite Z.gtb_ltb, Z.ltb_irrefl, andb_false_r. reflexivity.
Qed.

(** What the writer wrote starts with the tag id of a compound: it has
    neither the gzip nor the zlib header. *)
Lemma written_headers t name e bs :
  Write.NBTWriter_write t name e = Ok bs ->
  gzip_header bs = Ok false /\ zlib_header bs = Ok false.
Proof.
  intros E. apply NBTWriter_write_bytes in E as (_ & body & Eb & ->).
  assert (Hrest : exists b rest,
             match name with
             | Some n =>
                 set_uint (is_little e) 2 (Z.of_nat (List.length (utf8_encode n)))
                 ++ utf8_encode n
             | None => []
             end ++ body = b :: rest).
  { destruct name as [n|].
    - pose proof (length_set_uint (is_little e) 2
                    (Z.of_nat (List.length (utf8_encode n)))) as Hl.
      destruct (set_uint _ _ _) as [|b rest]; [discriminate|].
      cbn [app]. eauto.
    - apply writeTag_nonempty in Eb. destruct body; [cbn in Eb; lia|].
      cbn [app]. eauto. }
  destruct Hrest as (b & rest & ->).
  unfold gzip_header, zlib_header, hasGzipHeader, hasZlibHeader, view, byteLength.
  cbn [data List.length].
  replace (0 + Z.of_nat 2 <=? Z.of_nat (S (S (List.length rest)))) with true
    by (symmetry; apply Z.leb_le; lia).
  replace (0 + Z.of_nat 1 <=? Z.of_nat (S (S (List.length rest)))) with true
    by (symmetry; apply Z.leb_le; lia).
  cbn [Z.leb andb Z.to_nat skipn firstn Z.compare].
  unfold get_uint, be_uint. cbn [fold_left].
  rewrite byte_val_of. pose proof (byte_val_range b).
  change (10 mod 256) with 10. split; do 2 f_equal; apply Z.eqb_neq; lia.
Qed.

(** The first attempt of [read] when no option but the compression is
    given: big-endian, with a root name, the Bedrock header as
    [hasBedrockLevelHeader] finds it (none in the big-endian dialect),
    in strict mode. *)
Lemma read_first_attempt fuel d tree :
  readRoot decompress fuel (reader_of d big)
    (mkReadOptions (RNbool true) big None (BLbool false) true) = Ok tree ->
  read decompress fuel d (mkPartial None None (Some None) None None) = Ok tree.
Proof.
  intros H. unfold read.
  cbn [read_rec read_rest with_compression with_endian with_rootName
       p_compression p_endian p_rootName p_bedrockLevel p_strict
       hasBedrockLevelHeader].
  unfold reader_of in H. rewrite H. reflexivity.
Qed.

(** What [NBTWriter.write] writes for a [writable] tree with its
    default options, the big-endian dialect and a root name, [read]
    reads back when it is given no option at all: the probes of the
    compression find no header, and the first dialect tried is the one
    written. *)
Theorem write_read_default_options (t : list (jsstring * Tag)) (name : jsstring)
  (bs : list byte) (fuel : nat) :
  writable (CompoundTag t) -> short_plain name ->
  Write.NBTWriter_write t (Some name) big = Ok bs ->
  (List.length bs < fuel)%nat ->
  read decompress fuel bs (mkPartial None None None None None)
  = Ok (mkNBTData (as_read (CompoundTag t)) (Some name) big None (BLbool false)).
Proof.
  intros Hw Hname E Hlen.
  destruct (written_headers _ _ _ _ E) as [Hg Hz].
  rewrite (read_probe_retry decompress fuel bs (mkPartial None None None None None)
             eq_refl Hg Hz).
  unfold with_compression. cbn [p_rootName p_endian p_bedrockLevel p_strict].
  rewrite (read_first_attempt fuel bs
             (mkNBTData (as_read (CompoundTag t)) (Some name) big None (BLbool false)));
    [reflexivity|].
  now apply (readRoot_written t (Some name) big bs fuel).
Qed.

(** ** The Bedrock level header *)

Variable compress : list byte -> Compression -> Write.W.

Lemma readUnsignedInt_plain fuel r o :
  varint r = false ->
  readUnsignedInt fuel r o = fixed_read 4 (fun le bs => get_uint le bs) r o.
Proof.
  intros Hv. unfold readUnsignedInt, bind at 1, get_varint. rewrite Hv.
  clear Hv. revert r o. as_fixed_read.
Qed.

Lemma view_holds n r o bs :
  holds r o bs -> List.length bs = n -> view n r o = Ok (bs, o).
Proof.
  intros H <-. pose proof (holds_bounds r o bs H) as [H0 H1]. unfold view.
  destruct (Z.leb_spec 0 o); [|lia].
  destruct (Z.leb_spec (o + Z.of_nat (List.length bs)) (byteLength r)); [|lia].
  cbn [andb]. now rewrite holds_firstn.
Qed.

(** The header [write] puts before the tree: the version and the
    length of what follows, both little-endian. *)
Definition bedrock_header (version : Z) (result : list byte) : list byte :=
  set_uint true 4 version ++ set_uint true 4 (Z.of_nat (List.length result)).

Lemma write_bedrock_bytes t name e version bs :
  Write.write compress t (Write.mkWriteOptions name e None (Some version)) = Ok bs ->
  exists result,
    Write.NBTWriter_write t name e = Ok result /\
    bs = bedrock_header version result ++ result.
Proof.
  unfold Write.write.
  cbn [Write.endian Write.name Write.bedrockLevel Write.compression].
  intros E. destruct e; [| |discriminate];
    (destruct (Write.NBTWriter_write t name _) as [result| | |]; [|discriminate..];
     inversion E; exists result; split; [reflexivity|];
     unfold bedrock_header; now rewrite <- app_assoc).
Qed.

Lemma length_bedrock_header version result :
  List.length (bedrock_header version result) = 8%nat.
Proof. unfold bedrock_header. now rewrite length_app, !length_set_uint. Qed.

Lemma hasBedrockLevelHeader_written version result le vi :
  Z.of_nat (List.length result) < 2 ^ 32 ->
  hasBedrockLevelHeader (mkReader (bedrock_header version result ++ result) le vi) little
  = Ok true.
Proof.
  intros Hlen. set (r := mkReader _ le vi).
  assert (H : holds r 0 (set_uint true 4 version
                         ++ set_uint true 4 (Z.of_nat (List.length result)) ++ result)).
  { unfold r, bedrock_header. rewrite <- app_assoc. apply holds_whole. }
  apply holds_app_r in H. rewrite length_set_uint in H.
  apply holds_app_l in H. change (0 + Z.of_nat 4) with 4 in H.
  unfold hasBedrockLevelHeader.
  assert (Hb : byteLength r = 8 + Z.of_nat (List.length result)).
  { unfold byteLength, r. cbn [data].
    rewrite length_app, length_bedrock_header. lia. }
  rewrite Hb. destruct (Z.ltb_spec (8 + Z.of_nat (List.length result)) 8); [lia|].
  rewrite (view_holds 4 r 4 _ H (length_set_uint _ _ _)).
  rewrite get_uint_set_uint. rewrite Z.mod_small by (cbn; lia).
  do 2 f_equal. apply Z.eqb_eq. lia.
Qed.

(** [write] in the little-endian dialect with a Bedrock level puts
    eight bytes before the bytes of [NBTWriter.write]: the version and
    the number of those bytes, both as little-endian unsigned 32-bit
    integers.  For a [writable] tree, [read] reads the result back when
    the Bedrock level is left to it: it finds the header by the length it holds, skips it,
    and reports [true] for the level, whatever the version written. *)
Theorem write_read_bedrock_level (t : list (jsstring * Tag)) (name : option jsstring)
  (version : Z) (st : bool) (payload : list byte) (fuel : nat) :
  writable (CompoundTag t) -> name_ok name ->
  Write.NBTWriter_write t name little = Ok payload ->
  (8 + List.length payload < fuel)%nat -> 8 + Z.of_nat (List.length payload) < 2 ^ 32 ->
  Write.write compress t (Write.mkWriteOptions name little None (Some version))
  = Ok (set_uint true 4 version
        ++ set_uint true 4 (Z.of_nat (List.length payload)) ++ payload)
  /\ read decompress fuel
       (set_uint true 4 version
        ++ set_uint true 4 (Z.of_nat (List.length payload)) ++ payload)
       (mkPartial (Some (RNbool (named name))) (Some little) (Some None) None (Some st))
     = Ok (mkNBTData (as_read (CompoundTag t)) name little None (BLbool true)).
Proof.
  intros Hw Hname E Hlen H32. split.
  - unfold Write.write.
    cbn [Write.endian Write.name Write.bedrockLevel Write.compression].
    rewrite E. reflexivity.
  - rewrite app_assoc. fold (bedrock_header version payload).
    unfold read.
    cbn [read_rec read_rest p_compression p_endian p_rootName p_bedrockLevel p_strict].
    rewrite hasBedrockLevelHeader_written by lia.
    unfold readRoot. cbn [compression]. rewrite readRoot_body_tree.
    set (r := mkReader _ true false).
    assert (H : holds r 0 (set_uint true 4 version
                           ++ set_uint true 4 (Z.of_nat (List.length payload))
                           ++ payload)).
    { unfold r, bedrock_header. rewrite <- app_assoc. apply holds_whole. }
    unfold readRoot_tree. cbn [bedrockLevel rootName bedrock_truthy].
    unfold bind at 1. unfold bind at 1.
    rewrite (readUnsignedInt_plain fuel r 0 eq_refl).
    rewrite (fixed_read_holds 4 _ r 0 _ (holds_app_l _ _ _ _ H) (length_set_uint _ _ _)).
    apply holds_app_r in H. rewrite length_set_uint in H.
    unfold bind at 1.
    rewrite (readUnsignedInt_plain fuel r _ eq_refl).
    rewrite (fixed_read_holds 4 _ r _ _ (holds_app_l _ _ _ _ H) (length_set_uint _ _ _)).
    apply holds_app_r in H. rewrite length_set_uint in H.
    unfold ret at 1.
    rewrite (root_written t name little payload fuel r _ Hw Hname E ltac:(lia)
               eq_refl eq_refl H (RNbool (named name)) eq_refl).
    cbn [strict endian compression bedrockLevel].
    replace (byteLength r >? _) with false.
    + now rewrite andb_false_r.
    + symmetry. rewrite Z.gtb_ltb. apply Z.ltb_ge. unfold byteLength, r. cbn [data].
      rewrite length_app, length_bedrock_header. lia.
Qed.

(** ** Compression *)


End BinaryRoundTrip.

(** ** A tree with every kind of tag *)

Definition sample_tree : list (jsstring * Tag) :=
  [ (js "id", ByteTag (-3));
    (js "on", BooleanTag false);
    (js "name", StringTag (js "Steve"));
    (js "pos", ListTag [DoubleTag (to_double (S754_finite false 3 (-1)));
                        DoubleTag (S754_zero true)]);
    (js "inv", CompoundTag
       [ (js "s", ShortTag 300); (js "i", IntTag (-70000));
         (js "l", LongTag 5000000000);
         (js "f", FloatTag (to_double (S754_finite false 3 (-2))));
         (js "none", ListTag []) ]);
    (js "B", ByteArrayTag [1; -2]);
    (js "I", IntArrayTag [65536]);
    (js "L", LongArrayTag []) ].

(** The bytes of a successful write. *)
Definition written (w : Write.W) : list byte :=
  match w with
  | Ok bs => bs
  | _ => []
  end.

Ltac literal_strings :=
  repeat match goal with
         | |- context [js ?s] =>
             let l := eval vm_compute in (js s) in change (js s) with l
         end.

Ltac solve_writable :=
  cbn [writable name_ok map fst snd]; literal_strings;
  repeat match goal with
         | |- _ /\ _ => split
         | |- True => exact I
         | |- int8 _ => unfold int8; lia
         | |- int16 _ => unfold int16; lia
         | |- int32 _ => unfold int32; lia
         | |- int64 _ => unfold int64; lia
         | |- single _ => split; vm_compute; reflexivity
         | |- valid_binary _ _ _ = true => vm_compute; reflexivity
         | |- short_plain _ => split
         | |- plain _ => unfold plain
         | |- plain_char _ => unfold plain_char; lia
         | |- Forall _ _ => constructor
         | |- own_keys _ => unfold own_keys
         | |- listed _ => simpl listed
         | |- no_bom _ => cbn [no_bom]
         | |- NoDup _ => constructor
         | |- _ <> _ =>
             let H := fresh in intros H; vm_compute in H; discriminate H
         | |- key_before _ _ = false => vm_compute; reflexivity
         | |- ~ In _ _ =>
             let H := fresh in
             intros H; cbn [In] in H;
             repeat (destruct H as [H | H]; [discriminate H|]); exact H
         | |- (_ < _)%Z => vm_compute; reflexivity
         end.

Lemma write_read_round_trip_witness :
  let bs := written (Write.NBTWriter_write sample_tree (Some (js "root")) little) in
  Read.read (fun _ _ => Throw Read.DecompressError) 200 bs
    (uncompressed (RNbool true) little BLnull true)
  = Ok (mkNBTData (as_read (CompoundTag sample_tree)) (Some (js "root")) little
          None BLnull).
Proof.
  intros bs.
  apply (write_read_round_trip (fun _ _ => Throw Read.DecompressError)
           sample_tree (Some (js "root")) little true bs 200).
  - unfold sample_tree. solve_writable.
  - solve_writable.
  - vm_compute. reflexivity.
  - vm_compute. lia.
Defined.

Lemma write_read_default_options_witness :
  let bs := written (Write.NBTWriter_write sample_tree (Some []) big) in
  Read.read (fun _ _ => Throw Read.DecompressError) 200 bs
    (Read.mkPartial None None None None None)
  = Ok (mkNBTData (as_read (CompoundTag sample_tree)) (Some []) big None
          (BLbool false)).
Proof.
  intros bs.
  apply (write_read_default_options (fun _ _ => Throw Read.DecompressError)
           sample_tree [] bs 200).
  - unfold sample_tree. solve_writable.
  - solve_writable.
  - vm_compute. reflexivity.
  - vm_compute. lia.
Defined.

Lemma write_read_bedrock_level_witness :
  let compress := fun (_ : list byte) (_ : Compression) =>
                    @Throw Write.error (list byte) Write.CompressError in
  let payload := written (Write.NBTWriter_write sample_tree (Some []) little) in
  let bs := set_uint true 4 10
            ++ set_uint true 4 (Z.of_nat (List.length payload)) ++ payload in
  Write.write compress sample_tree
    (Write.mkWriteOptions (Some []) little None (Some 10))
  = Ok bs
  /\ Read.read (fun _ _ => Throw Read.DecompressError) 200 bs
       (Read.mkPartial (Some (RNbool true)) (Some little) (Some None) None
          (Some true))
     = Ok (mkNBTData (as_read (CompoundTag sample_tree)) (Some []) little None
             (BLbool true)).
Proof.
  intros compress payload bs.
  apply (write_read_bedrock_level (fun _ _ => Throw Read.DecompressError) compress
           sample_tree (Some []) 10 true payload 200).
  - unfold sample_tree. solve_writable.
  - solve_writable.
  - vm_compute. reflexivity.
  - vm_compute. lia.
  - vm_compute. reflexivity.
Defined.


(* ================================================================== *)
(** * The binary writer and reader: what they refuse *)

(** Induction on a tree, with the property of the elements of a list
    and of the values of a compound at hand. *)
Section TagInduction.

Variable P : Tag -> Prop.

Hypothesis on_leaf :
  forall t, match t with ListTag _ | CompoundTag _ => False | _ => True end -> P t.
Hypothesis on_list : forall l, Forall P l -> P (ListTag l).
Hypothesis on_compound :
  forall l, Forall (fun kv : jsstring * Tag => P (snd kv)) l -> P (CompoundTag l).

Fixpoint Tag_nested_ind (t : Tag) : P t :=
  match t with
  | ListTag l =>
      on_list l
        ((fix go (l : list Tag) : Forall P l :=
            match l with
            | [] => Forall_nil P
            | x :: r => Forall_cons x (Tag_nested_ind x) (go r)
            end) l)
  | CompoundTag l =>
      on_compound l
        ((fix go (l : list (jsstring * Tag))
            : Forall (fun kv : jsstring * Tag => P (snd kv)) l :=
            match l with
            | [] => Forall_nil _
            | (k, v) :: r =>
                Forall_cons (P := fun kv : jsstring * Tag => P (snd kv))
                  (k, v) (Tag_nested_ind v) (go r)
            end) l)
  | BooleanTag b => on_leaf (BooleanTag b) I
  | ByteTag v => on_leaf (ByteTag v) I
  | ShortTag v => on_leaf (ShortTag v) I
  | IntTag v => on_leaf (IntTag v) I
  | LongTag v => on_leaf (LongTag v) I
  | FloatTag v => on_leaf (FloatTag v) I
  | DoubleTag v => on_leaf (DoubleTag v) I
  | ByteArrayTag l => on_leaf (ByteArrayTag l) I
  | StringTag s => on_leaf (StringTag s) I
  | IntArrayTag l => on_leaf (IntArrayTag l) I
  | LongArrayTag l => on_leaf (LongArrayTag l) I
  end.

End TagInduction.

Section BinaryErrors.

Import Read.

Local Infix "+++" := Write.seq_w (at level 60, right associativity).

(** ** Lists of mixed types *)

(** Every list of the tree has elements of one tag type. *)
Fixpoint uniform (t : Tag) : bool :=
  match t with
  | ListTag l =>
      forallb (fun entry => TAG_eqb (Write.type_of entry) (list_tag l) && uniform entry) l
  | CompoundTag l => forallb (fun kv => uniform (snd kv)) l
  | _ => true
  end.

(** The outcome of a write: bytes for a uniform tree, the type error
    of [#writeList] for any other. *)
Definition write_outcome (ok : bool) (w : Write.W) : Prop :=
  match w with
  | Ok _ => ok = true
  | Throw e => e = Write.TypeError_list /\ ok = false
  | Diverge => False
  | Untracked => False
  end.

Lemma write_outcome_seq a b (x y : Write.W) :
  write_outcome a x -> write_outcome b y -> write_outcome (a && b) (x +++ y).
Proof.
  destruct x as [bx|ex| |]; cbn [write_outcome Write.seq_w]; try contradiction.
  - intros ->. destruct y as [by_|ey| |]; cbn [write_outcome andb]; auto.
  - intros [-> ->]. now cbn.
Qed.

Lemma write_outcome_Ok bs : write_outcome true (Ok bs).
Proof. reflexivity. Qed.

Lemma write_entries_outcome le type l :
  Forall (fun t => write_outcome (uniform t) (Write.writeTag le t)) l ->
  write_outcome
    (forallb (fun entry => TAG_eqb (Write.type_of entry) type && uniform entry) l)
    (write_entries le type l).
Proof.
  induction 1 as [|e l He _ IH]; [reflexivity|].
  cbn [write_entries forallb].
  destruct (TAG_eqb (Write.type_of e) type); cbn [andb].
  - now apply write_outcome_seq.
  - now split.
Qed.

Lemma write_pairs_outcome le l :
  Forall (fun kv : jsstring * Tag =>
            write_outcome (uniform (snd kv)) (Write.writeTag le (snd kv))) l ->
  write_outcome (forallb (fun kv => uniform (snd kv)) l) (write_pairs le l).
Proof.
  induction 1 as [|[name e] l He _ IH]; [reflexivity|].
  cbn [write_pairs forallb snd] in *.
  apply (write_outcome_seq true _ (Ok _) _ eq_refl).
  rewrite writeString_bytes.
  apply (write_outcome_seq true _ (Ok _) _ eq_refl).
  now apply write_outcome_seq.
Qed.

Lemma writeTag_outcome le t : write_outcome (uniform t) (Write.writeTag le t).
Proof.
  induction t as [t Ht|l IH|l IH] using Tag_nested_ind.
  - destruct t; try contradiction; cbn [Write.writeTag uniform];
      rewrite ?writeByteArray_bytes, ?writeString_bytes, ?writeIntArray_bytes,
        ?writeLongArray_bytes; reflexivity.
  - rewrite writeTag_ListTag. cbn [uniform].
    apply (write_outcome_seq true _ (Ok _) _ eq_refl).
    apply (write_outcome_seq true _ (Ok _) _ eq_refl).
    now apply write_entries_outcome.
  - rewrite writeTag_CompoundTag. cbn [uniform].
    rewrite <- (andb_true_r (forallb _ l)).
    apply write_outcome_seq; [|reflexivity].
    now apply write_pairs_outcome.
Qed.

(** [NBTWriter.write] in the big-endian and the little-endian dialect
    returns bytes when every list of the tree has elements of one tag
    type, and raises the type error of [#writeList] when one has not;
    it raises nothing else. *)
Theorem write_fails_on_mixed_lists (t : list (jsstring * Tag))
  (name : option jsstring) (e : Endian) :
  e <> little_varint ->
  if uniform (CompoundTag t)
  then exists bs, Write.NBTWriter_write t name e = Ok bs
  else Write.NBTWriter_write t name e = Throw Write.TypeError_list.
Proof.
  intros He.
  pose proof (writeTag_outcome (is_little e) (CompoundTag t)) as H.
  assert (E : Write.NBTWriter_write t name e
              = Write.writeTagType COMPOUND
                +++ match name with
                    | Some n => Write.writeString (is_little e) n
                    | None => Ok []
                    end
                +++ Write.writeTag (is_little e) (CompoundTag t))
    by (destruct e; [reflexivity | reflexivity | congruence]).
  rewrite E. clear E.
  assert (En : exists nb,
             match name with
             | Some n => Write.writeString (is_little e) n
             | None => Ok []
             end = Ok nb)
    by (destruct name; [rewrite writeString_bytes|]; eauto).
  destruct En as (nb & ->).
  destruct (Write.writeTag (is_little e) (CompoundTag t)) as [bs|err| |];
    cbn [write_outcome] in H.
  - rewrite H. eexists. reflexivity.
  - destruct H as [-> ->]. reflexivity.
  - contradiction.
  - contradiction.
Qed.

(** ** The first byte of a buffer *)

Variable decompress : list byte -> Compression -> result error (list byte).

Lemma readTagType_first b rest le vi :
  readTagType (mkReader (b :: rest) le vi) 0
  = match isTagType (byte_val b) with
    | Some ty => Ok (ty, 1)
    | None => Throw (UnsupportedTagType (byte_val b) 1)
    end.
Proof.
  assert (H : holds (mkReader (b :: rest) le vi) 0 [b])
    by (exists [], rest; now split).
  unfold readTagType, bind.
  rewrite readUnsignedByte_fixed, (fixed_read_holds 1 _ _ 0 _ H eq_refl).
  unfold get_uint, be_uint. cbn [fold_left]. change (0 * 256 + byte_val b) with (byte_val b).
  now destruct (isTagType (byte_val b)).
Qed.

(** Under options that fix the dialect, without compression and
    without a Bedrock header, [read] refuses an empty buffer for want
    of bytes, a buffer whose first byte is no tag id for that byte, and
    a buffer whose first byte is the id of a tag other than a list or a
    compound for that tag. *)
Theorem read_refuses_other_roots (fuel : nat) (b : byte) (rest : list byte)
  (n : RootNameOption) (e : Endian) (st : bool) :
  read decompress fuel [] (uncompressed n e BLnull st) = Throw RanOutOfBytes
  /\ (isTagType (byte_val b) = None ->
      read decompress fuel (b :: rest) (uncompressed n e BLnull st)
      = Throw (UnsupportedTagType (byte_val b) 1))
  /\ (forall ty, isTagType (byte_val b) = Some ty -> ty <> LIST -> ty <> COMPOUND ->
      read decompress fuel (b :: rest) (uncompressed n e BLnull st)
      = Throw (ExpectedListOrCompound ty)).
Proof.
  split; [|split].
  - rewrite read_uncompressed. reflexivity.
  - intros Hb. rewrite read_uncompressed. unfold readRoot_tree.
    cbn [bedrockLevel bedrock_truthy]. unfold bind at 1, ret at 1.
    unfold bind at 1. now rewrite readTagType_first, Hb.
  - intros ty Hb Hl Hc. rewrite read_uncompressed. unfold readRoot_tree.
    cbn [bedrockLevel bedrock_truthy]. unfold bind at 1, ret at 1.
    unfold bind at 1. rewrite readTagType_first, Hb.
    destruct ty; try reflexivity; congruence.
Qed.

(** ** Lengths below zero *)

(** In the dialects without varints, a list whose length is zero or
    less is read as the empty list, whatever the type of its elements:
    the five bytes of its head are all that is read.  An INT_ARRAY and
    a LONG_ARRAY of a length below zero raise a range error. *)
Theorem lengths_below_zero (fuel : nat) (r : NBTReader) (o : Z) (ty : TAG) (len : Z) :
  varint r = false -> - 2 ^ 31 <= len ->
  (len <= 0 ->
   holds r o (byte_of (TAG_id ty) :: set_uint (littleEndian r) 4 len) ->
   readTag (S (S fuel)) LIST r o = Ok (ListTag [], o + 5))
  /\ (len < 0 ->
      holds r o (set_uint (littleEndian r) 4 len) ->
      readTag (S fuel) INT_ARRAY r o = Throw RangeError
      /\ readTag (S fuel) LONG_ARRAY r o = Throw RangeError).
Proof.
  intros Hvi Hlo. split.
  - intros Hhi H. cbn [readTag]. unfold readList.
    change (byte_of (TAG_id ty) :: ?x) with ([byte_of (TAG_id ty)] ++ x) in H.
    rewrite (bind_intro _ _ _ _ _ _
               (readTagType_holds r o ty (holds_app_l _ _ _ _ H))).
    apply holds_app_r in H. cbn [List.length] in H. change (Z.of_nat 1) with 1 in H.
    unfold bind at 1, get_varint. rewrite Hvi.
    rewrite (bind_intro _ _ _ _ _ _
               (readInt_valueOf_holds (S fuel) r (o + 1) len Hvi H ltac:(lia))).
    cbn [readList_loop]. destruct (Z.ltb_spec 0 len); [lia|].
    unfold bind, ret. do 2 f_equal. lia.
  - intros Hneg H. cbn [readTag]. unfold readIntArray, readLongArray.
    rewrite !(bind_intro _ _ _ _ _ _
                (readInt_valueOf_holds fuel r o len Hvi H ltac:(lia))).
    destruct (Z.ltb_spec len 0); [|lia]. now split.
Qed.

End BinaryErrors.

Lemma write_fails_on_mixed_lists_witness :
  Write.NBTWriter_write [(js "l", ListTag [ByteTag 1; ShortTag 2])] None big
  = Throw Write.TypeError_list.
Proof.
  exact (write_fails_on_mixed_lists [(js "l", ListTag [ByteTag 1; ShortTag 2])]
           None big ltac:(discriminate)).
Defined.

Lemma read_refuses_other_roots_witness :
  Read.read (fun _ _ => Throw Read.DecompressError) 0 [x08; x00; x00]
    (uncompressed (RNbool false) big BLnull true)
  = Throw (Read.ExpectedListOrCompound STRING).
Proof.
  apply (read_refuses_other_roots (fun _ _ => Throw Read.DecompressError) 0 x08
           [x00; x00] (RNbool false) big true).
  - reflexivity.
  - discriminate.
  - discriminate.
Defined.

(** A list of compounds with the length -1, big-endian. *)
Lemma lengths_below_zero_witness :
  Read.readTag 2 LIST (Read.mkReader [x0a; xff; xff; xff; xff] false false) 0
  = Ok (ListTag [], 5).
Proof.
  apply (lengths_below_zero 0 (Read.mkReader [x0a; xff; xff; xff; xff] false false)
           0 COMPOUND (-1)).
  - reflexivity.
  - lia.
  - lia.
  - exists [], []. split; reflexivity.
Defined.

(* ================================================================== *)
(** * The binary reader on a truncated buffer *)

Section Truncation.

Import Read.

Local Infix "+++" := Write.seq_w (at level 60, right associativity).

(** The buffer ends inside [bs]: it holds at the offset [o] a part of
    [bs] that is not all of it, and nothing after. *)
Definition cut (r : NBTReader) (o : Z) (bs : list byte) : Prop :=
  exists pre p s,
    data r = pre ++ p /\ bs = p ++ s /\ s <> [] /\ o = Z.of_nat (List.length pre).

Lemma cut_bounds r o bs :
  cut r o bs -> 0 <= o <= byteLength r /\ byteLength r < o + Z.of_nat (List.length bs).
Proof.
  intros (pre & p & s & E & -> & Hs & ->). unfold byteLength.
  rewrite E, !length_app. destruct s; [congruence|]. cbn [List.length]. lia.
Qed.

Lemma cut_app r o a b :
  cut r o (a ++ b) ->
  cut r o a \/ (holds r o a /\ cut r (o + Z.of_nat (List.length a)) b).
Proof.
  intros (pre & p & s & E & Eb & Hs & ->).
  destruct (Nat.lt_ge_cases (List.length p) (List.length a)) as [Hlt|Hge].
  - left. exists pre, p, (skipn (List.length p) a). split; [exact E|].
    assert (Hp : p = firstn (List.length p) a).
    { apply (f_equal (firstn (List.length p))) in Eb.
      rewrite firstn_app, (firstn_app _ p), Nat.sub_diag, firstn_all in Eb.
      replace (List.length p - List.length a)%nat with O in Eb by lia.
      cbn [firstn] in Eb. rewrite !app_nil_r in Eb. now symmetry. }
    split; [|split].
    + transitivity (firstn (List.length p) a ++ skipn (List.length p) a);
        [symmetry; apply firstn_skipn | now rewrite <- Hp].
    + intros Hn. apply (f_equal (@List.length byte)) in Hn.
      rewrite length_skipn in Hn. cbn in Hn. lia.
    + reflexivity.
  - right.
    assert (Ha : a = firstn (List.length a) p).
    { apply (f_equal (firstn (List.length a))) in Eb.
      rewrite firstn_app, (firstn_app _ p), Nat.sub_diag, firstn_all in Eb.
      replace (List.length a - List.length p)%nat with O in Eb by lia.
      cbn [firstn] in Eb. now rewrite !app_nil_r in Eb. }
    assert (Ep : p = a ++ skipn (List.length a) p).
    { transitivity (firstn (List.length a) p ++ skipn (List.length a) p);
        [symmetry; apply firstn_skipn | now rewrite <- Ha]. }
    set (q := skipn (List.length a) p) in *.
    split.
    + exists pre, q. split; [|reflexivity]. rewrite E. now f_equal.
    + exists (pre ++ a), q, s. split; [|split; [|split]].
      * rewrite E, <- app_assoc. now f_equal.
      * rewrite Ep, <- app_assoc in Eb. now apply app_inv_head in Eb.
      * exact Hs.
      * rewrite length_app. lia.
Qed.

Lemma fixed_read_cut {A} n (f : bool -> list byte -> A) r o bs :
  cut r o bs -> List.length bs = n -> fixed_read n f r o = Throw RanOutOfBytes.
Proof.
  intros H <-. pose proof (cut_bounds r o bs H). unfold fixed_read.
  destruct (Z.gtb_spec (o + Z.of_nat (List.length bs)) (byteLength r)); [reflexivity|lia].
Qed.

Lemma bind_Throw {A B} (m : M A) (k : A -> M B) r o e :
  m r o = Throw e -> bind m k r o = Throw e.
Proof. unfold bind. now intros ->. Qed.

Lemma readTagType_cut r o t :
  cut r o [byte_of (TAG_id t)] -> readTagType r o = Throw RanOutOfBytes.
Proof.
  intros H. unfold readTagType. apply bind_Throw.
  now rewrite readUnsignedByte_fixed, (fixed_read_cut 1 _ r o _ H eq_refl).
Qed.

Lemma readInt_valueOf_cut fuel r o v :
  varint r = false -> cut r o (set_uint (littleEndian r) 4 v) ->
  readInt_valueOf fuel r o = Throw RanOutOfBytes.
Proof.
  intros Hvi H. rewrite readInt_valueOf_plain by assumption.
  apply (fixed_read_cut 4 _ r o _ H). apply length_set_uint.
Qed.

Lemma readLong_valueOf_cut fuel r o v :
  varint r = false -> cut r o (set_uint (littleEndian r) 8 v) ->
  readLong_valueOf fuel r o = Throw RanOutOfBytes.
Proof.
  intros Hvi H. rewrite readLong_valueOf_plain by assumption.
  apply (fixed_read_cut 8 _ r o _ H). apply length_set_uint.
Qed.

Lemma allocate_cut r o bs :
  cut r o bs -> allocate (Z.of_nat (List.length bs)) r o = Throw RanOutOfBytes.
Proof.
  intros H. pose proof (cut_bounds r o bs H). unfold allocate.
  destruct (Z.gtb_spec (o + Z.of_nat (List.length bs)) (byteLength r)); [reflexivity|lia].
Qed.

Lemma readString_cut fuel r o s :
  varint r = false -> short_plain s ->
  cut r o (set_uint (littleEndian r) 2 (Z.of_nat (List.length (utf8_encode s)))
           ++ utf8_encode s) ->
  readString fuel r o = Throw RanOutOfBytes.
Proof.
  intros Hvi [Hp Hlen] H. unfold readString.
  apply cut_app in H as [H | [Hh H]].
  - apply bind_Throw. rewrite readUnsignedShort_plain by assumption.
    apply (fixed_read_cut 2 _ r o _ H). apply length_set_uint.
  - rewrite (bind_intro _ _ _ _ _ _
               (readUnsignedShort_holds fuel r o _ Hvi Hh ltac:(lia))).
    rewrite length_set_uint in H. change (Z.of_nat 2) with 2 in H.
    apply bind_Throw. now apply allocate_cut.
Qed.

Lemma readByteArray_cut fuel r o l :
  varint r = false -> Z.of_nat (List.length l) < 2 ^ 31 ->
  cut r o (set_uint (littleEndian r) 4 (Z.of_nat (List.length l)) ++ map byte_of l) ->
  readByteArray fuel r o = Throw RanOutOfBytes.
Proof.
  intros Hvi Hlen H. unfold readByteArray.
  apply cut_app in H as [H | [Hh H]].
  - apply bind_Throw. exact (readInt_valueOf_cut fuel r o _ Hvi H).
  - rewrite (bind_intro _ _ _ _ _ _
               (readInt_valueOf_holds fuel r o _ Hvi Hh ltac:(lia))).
    rewrite length_set_uint in H. change (Z.of_nat 4) with 4 in H.
    apply bind_Throw. pose proof (allocate_cut r _ _ H) as Ha.
    now rewrite length_map in Ha.
Qed.

Lemma readArray_loop_cut r n (range : Z -> Prop) (readEntry : M Z) length :
  (forall o v, holds r o (set_uint (littleEndian r) n v) -> range v ->
               readEntry r o = Ok (v, o + Z.of_nat n)) ->
  (forall o v, cut r o (set_uint (littleEndian r) n v) ->
               readEntry r o = Throw RanOutOfBytes) ->
  forall l fuel i value o,
    Forall range l -> (List.length l < fuel)%nat ->
    i + Z.of_nat (List.length l) = length ->
    cut r o (List.concat (map (set_uint (littleEndian r) n) l)) ->
    readArray_loop readEntry fuel length i value r o = Throw RanOutOfBytes.
Proof.
  intros Hread Hcut. induction l as [|v l IH]; intros fuel i value o Hl Hf Hi H.
  - destruct H as (pre & p & s & _ & E & Hs & _). cbn in E.
    symmetry in E. apply app_eq_nil in E as [_ E]. congruence.
  - destruct fuel as [|fuel]; [cbn in Hf; lia|]. cbn [readArray_loop].
    cbn [List.length] in Hi, Hf. destruct (Z.ltb_spec i length); [|lia].
    inversion Hl; subst. cbn [map List.concat] in H.
    apply cut_app in H as [H | [Hh H]].
    + apply bind_Throw. now apply (Hcut o v).
    + rewrite (bind_intro _ _ _ _ _ _ (Hread o v Hh ltac:(assumption))).
      rewrite length_set_uint in H.
      apply (IH fuel (i + 1) (value ++ [v]) _ ltac:(assumption) ltac:(lia)
               ltac:(lia) H).
Qed.

Lemma readIntArray_cut fuel r o l :
  varint r = false -> Forall int32 l -> Z.of_nat (List.length l) < 2 ^ 31 ->
  (List.length l < fuel)%nat ->
  cut r o (set_uint (littleEndian r) 4 (Z.of_nat (List.length l))
           ++ List.concat (map (set_uint (littleEndian r) 4) l)) ->
  readIntArray fuel r o = Throw RanOutOfBytes.
Proof.
  intros Hvi Hl Hlen Hf H. unfold readIntArray.
  apply cut_app in H as [H | [Hh H]].
  - apply bind_Throw. exact (readInt_valueOf_cut fuel r o _ Hvi H).
  - rewrite (bind_intro _ _ _ _ _ _
               (readInt_valueOf_holds fuel r o _ Hvi Hh ltac:(lia))).
    destruct (Z.ltb_spec (Z.of_nat (List.length l)) 0); [lia|].
    rewrite length_set_uint in H. change (Z.of_nat 4) with 4 in H.
    apply bind_Throw.
    apply (readArray_loop_cut r 4 int32 (readInt_valueOf fuel)
             (Z.of_nat (List.length l))
             (fun o v Ho Hv => readInt_valueOf_holds fuel r o v Hvi Ho Hv)
             (fun o v Ho => readInt_valueOf_cut fuel r o v Hvi Ho)
             l fuel 0 [] _ Hl Hf (Z.add_0_l _) H).
Qed.

Lemma readLongArray_cut fuel r o l :
  varint r = false -> Forall int64 l -> Z.of_nat (List.length l) < 2 ^ 31 ->
  (List.length l < fuel)%nat ->
  cut r o (set_uint (littleEndian r) 4 (Z.of_nat (List.length l))
           ++ List.concat (map (set_uint (littleEndian r) 8) l)) ->
  readLongArray fuel r o = Throw RanOutOfBytes.
Proof.
  intros Hvi Hl Hlen Hf H. unfold readLongArray.
  apply cut_app in H as [H | [Hh H]].
  - apply bind_Throw. exact (readInt_valueOf_cut fuel r o _ Hvi H).
  - rewrite (bind_intro _ _ _ _ _ _
               (readInt_valueOf_holds fuel r o _ Hvi Hh ltac:(lia))).
    destruct (Z.ltb_spec (Z.of_nat (List.length l)) 0); [lia|].
    rewrite length_set_uint in H. change (Z.of_nat 4) with 4 in H.
    apply bind_Throw.
    apply (readArray_loop_cut r 8 int64 (readLong_valueOf fuel)
             (Z.of_nat (List.length l))
             (fun o v Ho Hv => readLong_valueOf_holds fuel r o v Hvi Ho Hv)
             (fun o v Ho => readLong_valueOf_cut fuel r o v Hvi Ho)
             l fuel 0 [] _ Hl Hf (Z.add_0_l _) H).
Qed.

Lemma cut_nil r o : ~ cut r o [].
Proof.
  intros (pre & p & s & _ & E & Hs & _).
  symmetry in E. apply app_eq_nil in E as [_ E]. congruence.
Qed.

Section Loops.

Variable r : NBTReader.
Hypothesis plain_dialect : varint r = false.
Variable fuel_tag : nat.

Hypothesis readTag_cut_short :
  forall t bs o,
    writable t -> Write.writeTag (littleEndian r) t = Ok bs ->
    (List.length bs < fuel_tag)%nat -> cut r o bs ->
    readTag fuel_tag (Write.type_of t) r o = Throw RanOutOfBytes.

Lemma readList_loop_cut type length :
  forall l bs fuel i value o,
    write_entries (littleEndian r) type l = Ok bs ->
    Forall writable l -> (List.length bs < fuel_tag)%nat ->
    (List.length l < fuel)%nat ->
    i + Z.of_nat (List.length l) = length ->
    cut r o bs ->
    readList_loop (readTag fuel_tag type) fuel length i value r o
    = Throw RanOutOfBytes.
Proof.
  induction l as [|e l IH]; intros bs fuel i value o Hw Hl Hb Hf Hi H.
  - cbn [write_entries] in Hw. inversion Hw; subst. now apply cut_nil in H.
  - destruct fuel as [|fuel]; [cbn in Hf; lia|]. cbn [readList_loop].
    cbn [List.length] in Hi, Hf. destruct (Z.ltb_spec i length); [|lia].
    inversion Hl; subst. cbn [write_entries] in Hw.
    destruct (TAG_eqb (Write.type_of e) type) eqn:Et; [|discriminate].
    apply TAG_eqb_eq in Et. subst type.
    apply seq_w_Ok in Hw as (x & y & Hx & Hy & ->).
    rewrite length_app in Hb.
    apply cut_app in H as [H | [Hh H]].
    + apply bind_Throw.
      apply (readTag_cut_short e x o ltac:(assumption) Hx ltac:(lia) H).
    + rewrite (bind_intro _ _ _ _ _ _
                 (readTag_writeTag r plain_dialect fuel_tag e x o
                    ltac:(assumption) Hx ltac:(lia) Hh)).
      apply (IH y fuel (i + 1) (value ++ [as_read e]) _ Hy
               ltac:(assumption) ltac:(lia) ltac:(lia) ltac:(lia) H).
Qed.

Lemma readCompound_loop_cut :
  forall l bs fuel value o,
    write_pairs (littleEndian r) l = Ok bs ->
    Forall (fun kv => short_plain (fst kv) /\ writable (snd kv)) l ->
    Forall (fun k => k <> proto_key) (map fst l) ->
    (List.length bs < fuel_tag)%nat -> (List.length l < fuel)%nat ->
    cut r o (bs ++ [byte_of 0]) ->
    readCompound_loop (readTag fuel_tag) fuel value r o = Throw RanOutOfBytes.
Proof.
  induction l as [|[name e] l IH]; intros bs fuel value o Hw Hl Hp Hb Hf H.
  - destruct fuel as [|fuel]; [cbn in Hf; lia|]. cbn [readCompound_loop].
    cbn [write_pairs] in Hw. inversion Hw; subst. cbn [app] in H.
    apply bind_Throw. apply (readTagType_cut r o END H).
  - destruct fuel as [|fuel]; [cbn in Hf; lia|]. cbn [readCompound_loop].
    inversion Hl as [|? ? [Hname He] Hl']; subst.
    cbn [map] in Hp. inversion Hp as [|? ? Hpk Hp']; subst. cbn [fst snd] in *.
    cbn [write_pairs] in Hw.
    apply seq_w_Ok in Hw as (x1 & y1 & Hx1 & Hw & ->).
    apply seq_w_Ok in Hw as (x2 & y2 & Hx2 & Hw & ->).
    apply seq_w_Ok in Hw as (x3 & y3 & Hx3 & Hw & ->).
    unfold Write.writeTagType, Write.writeUnsignedByte in Hx1.
    inversion Hx1; subst x1. clear Hx1.
    rewrite writeString_bytes in Hx2. inversion Hx2; subst x2. clear Hx2.
    rewrite !length_app in Hb. cbn [List.length] in Hb.
    rewrite length_set_uint in Hb.
    rewrite <- !app_assoc in H.
    assert (Hk : forall A (k1 k2 : M A),
               match Write.type_of e with END => k1 | _ => k2 end = k2)
      by (intros; now destruct e).
    apply cut_app in H as [H | [Hh H]].
    { apply bind_Throw. apply (readTagType_cut r o (Write.type_of e) H). }
    rewrite (bind_intro _ _ _ _ _ _ (readTagType_holds r o (Write.type_of e) Hh)).
    cbn [List.length] in H. change (Z.of_nat 1) with 1 in H.
    rewrite Hk. rewrite (app_assoc (set_uint _ _ _)) in H.
    apply cut_app in H as [H | [Hh2 H]].
    { apply bind_Throw. apply (readString_cut fuel r (o + 1) name plain_dialect Hname H). }
    rewrite (bind_intro _ _ _ _ _ _
               (readString_holds fuel r (o + 1) name plain_dialect Hname Hh2)).
    rewrite length_app, length_set_uint in H.
    replace (o + 1 + Z.of_nat (2 + List.length (utf8_encode name)))
      with (o + 1 + 2 + Z.of_nat (List.length (utf8_encode name))) in H by lia.
    apply cut_app in H as [H | [Hh3 H]].
    { apply bind_Throw. apply (readTag_cut_short e x3 _ He Hx3 ltac:(lia) H). }
    rewrite (bind_intro _ _ _ _ _ _
               (readTag_writeTag r plain_dialect fuel_tag e x3 _ He Hx3
                  ltac:(lia) Hh3)).
    rewrite (obj_assign_key value name (as_read e) Hpk).
    apply (IH y3 fuel _ _ Hw Hl' Hp' ltac:(lia) ltac:(cbn in Hf; lia) H).
Qed.

End Loops.

(** [#readTag] on a buffer that ends inside the bytes [#writeTag]
    wrote. *)
Lemma readTag_cut r :
  varint r = false ->
  forall fuel t bs o,
    writable t -> Write.writeTag (littleEndian r) t = Ok bs ->
    (List.length bs < fuel)%nat -> cut r o bs ->
    readTag fuel (Write.type_of t) r o = Throw RanOutOfBytes.
Proof.
  intros Hvi. induction fuel as [|fuel IH]; [intros; lia|].
  intros t bs o Hw E Hlen H.
  destruct t; cbn [Write.type_of getTagType readTag];
    cbn [Write.writeTag] in E; cbn [writable] in Hw.
  - inversion E; subst. unfold readByte. apply bind_Throw.
    now rewrite readByte_valueOf_fixed, (fixed_read_cut 1 _ r o _ H eq_refl).
  - inversion E; subst. unfold readByte. apply bind_Throw.
    now rewrite readByte_valueOf_fixed, (fixed_read_cut 1 _ r o _ H eq_refl).
  - inversion E; subst.
    now rewrite readShort_fixed, (fixed_read_cut 2 _ r o _ H (length_set_uint _ _ _)).
  - inversion E; subst. unfold readInt. apply bind_Throw.
    exact (readInt_valueOf_cut fuel r o _ Hvi H).
  - inversion E; subst. unfold readLong. apply bind_Throw.
    exact (readLong_valueOf_cut fuel r o _ Hvi H).
  - inversion E; subst.
    now rewrite readFloat_fixed, (fixed_read_cut 4 _ r o _ H (length_set_uint _ _ _)).
  - inversion E; subst.
    now rewrite readDouble_fixed, (fixed_read_cut 8 _ r o _ H (length_set_uint _ _ _)).
  - rewrite writeByteArray_bytes in E. inversion E; subst. destruct Hw as [Hl Hn].
    exact (readByteArray_cut fuel r o l Hvi Hn H).
  - rewrite writeString_bytes in E. inversion E; subst.
    apply bind_Throw. exact (readString_cut fuel r o s Hvi Hw H).
  - destruct (writable_ListTag l Hw) as [Hall Hn].
    change (Write.writeTag (littleEndian r) (ListTag l) = Ok bs) in E.
    rewrite writeTag_ListTag in E.
    apply seq_w_Ok in E as (x1 & y1 & Hx1 & E & ->).
    apply seq_w_Ok in E as (x2 & y2 & Hx2 & E & ->).
    inversion Hx1; subst x1. inversion Hx2; subst x2. clear Hx1 Hx2.
    rewrite !length_app, length_set_uint in Hlen. cbn [List.length] in Hlen.
    unfold readList.
    apply cut_app in H as [H | [Hh H]].
    { apply bind_Throw. apply (readTagType_cut r o (list_tag l) H). }
    rewrite (bind_intro _ _ _ _ _ _ (readTagType_holds r o (list_tag l) Hh)).
    cbn [List.length] in H. change (Z.of_nat 1) with 1 in H.
    unfold bind at 1, get_varint. rewrite Hvi.
    apply cut_app in H as [H | [Hh2 H]].
    { apply bind_Throw. exact (readInt_valueOf_cut fuel r (o + 1) _ Hvi H). }
    rewrite (bind_intro _ _ _ _ _ _
               (readInt_valueOf_holds fuel r (o + 1) _ Hvi Hh2 ltac:(lia))).
    rewrite length_set_uint in H.
    pose proof (write_entries_count _ _ _ _ E) as Hcount.
    apply bind_Throw.
    apply (readList_loop_cut r Hvi fuel IH (list_tag l)
             (Z.of_nat (List.length l)) l y2 fuel 0 [] _ E Hall
             ltac:(lia) ltac:(lia) (Z.add_0_l _) H).
  - destruct (writable_CompoundTag l Hw) as (Hall & Hn & Hls & Hp).
    change (Write.writeTag (littleEndian r) (CompoundTag l) = Ok bs) in E.
    rewrite writeTag_CompoundTag in E.
    apply seq_w_Ok in E as (x1 & y1 & E & Hy1 & ->).
    inversion Hy1; subst y1. clear Hy1.
    rewrite length_app in Hlen. cbn [List.length] in Hlen.
    pose proof (write_pairs_count _ _ _ E) as Hcount.
    unfold readCompound. apply bind_Throw.
    apply (readCompound_loop_cut r Hvi fuel IH l x1 fuel [] o E Hall Hp
             ltac:(lia) ltac:(lia) H).
  - rewrite writeIntArray_bytes in E. inversion E; subst. destruct Hw as [Hl Hn].
    rewrite length_app, length_set_uint, length_concat_set_uint in Hlen.
    exact (readIntArray_cut fuel r o l Hvi Hl Hn ltac:(lia) H).
  - rewrite writeLongArray_bytes in E. inversion E; subst. destruct Hw as [Hl Hn].
    rewrite length_app, length_set_uint, length_concat_set_uint in Hlen.
    exact (readLongArray_cut fuel r o l Hvi Hl Hn ltac:(lia) H).
Qed.

Variable decompress : list byte -> Compression -> result error (list byte).

(** A buffer that holds a part of what [NBTWriter.write] wrote for a
    [writable] tree, and not all of it, is refused by [read] under the
    options of the dialect written, in strict mode or not, for want of
    bytes: nothing is returned for a truncated file. *)
Theorem truncated_write_is_refused (t : list (jsstring * Tag))
  (name : option jsstring) (e : Endian) (st : bool) (part rest : list byte)
  (fuel : nat) :
  writable (CompoundTag t) -> name_ok name ->
  Write.NBTWriter_write t name e = Ok (part ++ rest) -> rest <> [] ->
  (List.length (part ++ rest) < fuel)%nat ->
  read decompress fuel part (uncompressed (RNbool (named name)) e BLnull st)
  = Throw RanOutOfBytes.
Proof.
  intros Hw Hname E Hrest Hlen. rewrite read_uncompressed.
  fold (reader_of part e). set (r := reader_of part e).
  assert (H : cut r 0 (part ++ rest)).
  { exists [], part, rest. unfold r, reader_of. cbn [data]. auto. }
  assert (Hle : littleEndian r = is_little e /\ varint r = false).
  { pose proof (NBTWriter_write_bytes _ _ _ _ E) as (He & _).
    unfold r, reader_of. cbn [littleEndian varint].
    destruct e; [auto | auto | congruence]. }
  destruct Hle as [Hle Hvi].
  apply NBTWriter_write_bytes in E as (_ & body & Eb & Ebs).
  rewrite <- Hle in Eb. rewrite Ebs in H, Hlen. clear Ebs.
  enough (Hroot : readRoot_tree fuel
                    (mkReadOptions (RNbool (named name)) e None BLnull st) r 0
                  = Throw RanOutOfBytes) by now rewrite Hroot.
  unfold readRoot_tree. cbn [bedrockLevel bedrock_truthy rootName rootName_truthy].
  unfold bind at 1, ret at 1.
  change (byte_of 10 :: ?x) with ([byte_of (TAG_id COMPOUND)] ++ x) in H.
  cbn [List.length] in Hlen. rewrite length_app in Hlen.
  apply cut_app in H as [H | [Hh H]].
  { apply bind_Throw. apply (readTagType_cut r 0 COMPOUND H). }
  rewrite (bind_intro _ _ _ _ _ _ (readTagType_holds r 0 COMPOUND Hh)).
  cbn [List.length] in H. change (Z.of_nat 1) with 1 in H.
  destruct name as [nm|]; cbn [named].
  - rewrite <- Hle in H. rewrite length_app, length_set_uint in Hlen.
    apply cut_app in H as [H | [Hh2 H]].
    { apply bind_Throw. apply bind_Throw.
      apply (readString_cut fuel r (0 + 1) nm Hvi Hname H). }
    unfold bind at 1.
    rewrite (bind_intro _ _ _ _ _ _
               (readString_holds fuel r (0 + 1) nm Hvi Hname Hh2)).
    unfold ret at 1.
    rewrite length_app, length_set_uint in H.
    replace (0 + 1 + Z.of_nat (2 + List.length (utf8_encode nm)))
      with (0 + 1 + 2 + Z.of_nat (List.length (utf8_encode nm))) in H by lia.
    apply bind_Throw.
    apply (readTag_cut r Hvi fuel (CompoundTag t) body _ Hw Eb ltac:(lia) H).
  - cbn [app] in H. unfold bind at 1, ret at 1.
    apply bind_Throw.
    apply (readTag_cut r Hvi fuel (CompoundTag t) body _ Hw Eb
             ltac:(cbn [List.length app] in Hlen; lia) H).
Qed.

End Truncation.

Lemma truncated_write_is_refused_witness :
  let bs := written (Write.NBTWriter_write sample_tree (Some (js "root")) big) in
  Read.read (fun _ _ => Throw Read.DecompressError) 200 (firstn 100 bs)
    (uncompressed (RNbool true) big BLnull false)
  = Throw Read.RanOutOfBytes.
Proof.
  intros bs.
  apply (truncated_write_is_refused (fun _ _ => Throw Read.DecompressError)
           sample_tree (Some (js "root")) big false (firstn 100 bs) (skipn 100 bs) 200).
  - unfold sample_tree. solve_writable.
  - solve_writable.
  - rewrite firstn_skipn. vm_compute. reflexivity.
  - vm_compute. discriminate.
  - rewrite firstn_skipn. vm_compute. lia.
Defined.

(* ================================================================== *)
(** * What the binary reader builds *)

Section WhatReadBuilds.

Import Read.

(** The tree holds no boolean. *)
Fixpoint no_boolean (t : Tag) : bool :=
  match t with
  | BooleanTag _ => false
  | ListTag l => forallb no_boolean l
  | CompoundTag l => forallb (fun kv => no_boolean (snd kv)) l
  | _ => true
  end.

(** A tree as [#readTag(type)] builds it: a tag of the type asked for,
    without booleans, every list of it with elements of one type. *)
Definition well_built (t : Tag) : Prop := uniform t = true /\ no_boolean t = true.

Definition built (type : TAG) (t : Tag) : Prop :=
  Write.type_of t = type /\ well_built t.

(** Every value a computation returns has the property [P]. *)
Definition yields {A} (P : A -> Prop) (m : M A) : Prop :=
  forall r o a o', m r o = Ok (a, o') -> P a.

Lemma yields_ret {A} (P : A -> Prop) a : P a -> yields P (ret a).
Proof. intros H r o a' o' E. inversion E. now subst. Qed.

Lemma yields_throw {A} (P : A -> Prop) e : yields P (throw e).
Proof. intros r o a o' E. discriminate. Qed.

Lemma yields_diverge {A} (P : A -> Prop) : yields P diverge.
Proof. intros r o a o' E. discriminate. Qed.

Lemma yields_untracked {A} (P : A -> Prop) : yields P untracked.
Proof. intros r o a o' E. discriminate. Qed.

Lemma yields_bind {A B} (P : A -> Prop) (Q : B -> Prop) (m : M A) (k : A -> M B) :
  yields P m -> (forall a, P a -> yields Q (k a)) -> yields Q (bind m k).
Proof.
  intros Hm Hk r o b o' E.
  apply bind_Ok in E as (a & o1 & E1 & E2).
  exact (Hk a (Hm _ _ _ _ E1) _ _ _ _ E2).
Qed.

Lemma yields_any {A} (m : M A) : yields (fun _ => True) m.
Proof. intros r o a o' _. exact I. Qed.

Lemma yields_then {A B} (Q : B -> Prop) (m : M A) (k : A -> M B) :
  (forall a, yields Q (k a)) -> yields Q (bind m k).
Proof. intros Hk. apply (yields_bind (fun _ => True)); [apply yields_any | auto]. Qed.

Ltac leaf_built :=
  repeat first
    [ apply yields_throw
    | apply yields_ret; repeat split
    | apply yields_then; intros
    | match goal with
      | |- yields _ (if ?c then _ else _) => destruct c
      end ].

Lemma TAG_eqb_refl ty : TAG_eqb ty ty = true.
Proof. now destruct ty. Qed.

Lemma built_ListTag type l : Forall (built type) l -> built LIST (ListTag l).
Proof.
  intros H. split; [reflexivity|]. split.
  - cbn [uniform]. apply forallb_forall. intros e He.
    rewrite Forall_forall in H.
    assert (El : list_tag l = type).
    { destruct l as [|x l]; [contradiction|]. apply (H x). now left. }
    destruct (H e He) as (-> & Hu & _). now rewrite El, TAG_eqb_refl, Hu.
  - cbn [no_boolean]. apply forallb_forall. intros e He.
    rewrite Forall_forall in H. apply (H e He).
Qed.

Lemma built_CompoundTag l :
  Forall (fun kv : jsstring * Tag => well_built (snd kv)) l -> built COMPOUND (CompoundTag l).
Proof.
  intros H. rewrite Forall_forall in H. split; [reflexivity|].
  split; cbn [uniform no_boolean]; apply forallb_forall; intros kv Hkv; apply (H kv Hkv).
Qed.

Lemma Forall_obj_set (P : jsstring * Tag -> Prop) value name entry :
  (forall k, P (k, entry)) -> Forall P value -> Forall P (obj_set value name entry).
Proof.
  intros He Hv. unfold obj_set. destruct (has_key value name).
  - induction Hv as [|[k v] value Hkv Hv IH]; cbn [obj_replace]; [constructor|].
    destruct (str_eqb k name); constructor;
      [apply He | exact Hv | exact Hkv | exact IH].
  - induction Hv as [|[k v] value Hkv Hv IH]; cbn [obj_add].
    + constructor; [apply He | constructor].
    + destruct (key_before name k).
      * constructor; [apply He | now constructor].
      * constructor; [exact Hkv | exact IH].
Qed.

Lemma Forall_obj_assign (P : jsstring * Tag -> Prop) value name entry value' :
  (forall k, P (k, entry)) -> Forall P value ->
  obj_assign value name entry = Some value' -> Forall P value'.
Proof.
  intros He Hv. unfold obj_assign.
  destruct (str_eqb name proto_key); [destruct (is_object entry); [discriminate|]|];
    intros E; inversion E; subst; [assumption | now apply Forall_obj_set].
Qed.

Lemma readList_loop_built (rt : M Tag) type :
  yields (built type) rt ->
  forall fuel length i value,
    Forall (built type) value ->
    yields (Forall (built type)) (readList_loop rt fuel length i value).
Proof.
  intros Hrt. induction fuel as [|fuel IH]; intros length i value Hv;
    [apply yields_diverge|].
  cbn [readList_loop]. destruct (i <? length); [|now apply yields_ret].
  apply (yields_bind (built type)); [exact Hrt|]. intros entry He.
  apply IH. apply Forall_app. split; [exact Hv | now constructor].
Qed.

Lemma readCompound_loop_built (rt : TAG -> M Tag) :
  (forall type, yields (built type) (rt type)) ->
  forall fuel value,
    Forall (fun kv : jsstring * Tag => well_built (snd kv)) value ->
    yields (Forall (fun kv : jsstring * Tag => well_built (snd kv)))
      (readCompound_loop rt fuel value).
Proof.
  intros Hrt. induction fuel as [|fuel IH]; intros value Hv; [apply yields_diverge|].
  cbn [readCompound_loop]. apply yields_then. intros type.
  assert (Hnext : yields (Forall (fun kv : jsstring * Tag => well_built (snd kv)))
                    (name <- readString fuel ;; entry <- rt type ;;
                     match obj_assign value name entry with
                     | Some value => readCompound_loop rt fuel value
                     | None => untracked
                     end)).
  { apply yields_then. intros name.
    apply (yields_bind (built type)); [apply Hrt|]. intros entry [_ He].
    destruct (obj_assign value name entry) as [value'|] eqn:Ea;
      [|apply yields_untracked].
    apply IH. now apply (Forall_obj_assign _ value name entry). }
  destruct type; try exact Hnext. now apply yields_ret.
Qed.

Lemma readTag_built fuel : forall type, yields (built type) (readTag fuel type).
Proof.
  induction fuel as [|fuel IH]; intros type; [apply yields_diverge|].
  destruct type; cbn [readTag].
  - intros r o a o' E. discriminate.
  - unfold readByte. leaf_built.
  - unfold readShort. leaf_built.
  - unfold readInt. leaf_built.
  - unfold readLong. leaf_built.
  - unfold readFloat. leaf_built.
  - unfold readDouble. leaf_built.
  - unfold readByteArray. leaf_built.
  - leaf_built.
  - unfold readList. apply yields_then. intros type.
    apply yields_then. intros v. apply yields_then. intros length.
    apply (yields_bind (Forall (built type))).
    + apply readList_loop_built; [apply IH | constructor].
    + intros value Hv. apply yields_ret. now apply (built_ListTag type).
  - unfold readCompound.
    apply (yields_bind (Forall (fun kv : jsstring * Tag => well_built (snd kv)))).
    + apply readCompound_loop_built; [exact IH | constructor].
    + intros value Hv. apply yields_ret. now apply built_CompoundTag.
  - unfold readIntArray. leaf_built.
  - unfold readLongArray. leaf_built.
Qed.

Variable decompress : list byte -> Compression -> result error (list byte).

Lemma readRoot_built fuel r o d :
  readRoot decompress fuel r o = Ok d -> well_built (nbt_data d).
Proof.
  unfold readRoot.
  destruct (match compression o with
            | None => Ok r
            | Some c => _
            end) as [r'| | |]; try discriminate.
  destruct (readRoot_body fuel o r' 0) as [[d' off]| | |] eqn:E; try discriminate.
  intros H. inversion H. subst d'. clear H. revert E.
  assert (Hb : yields (fun d => well_built (nbt_data d)) (readRoot_body fuel o)).
  { unfold readRoot_body. apply yields_then. intros _.
    apply yields_then. intros type.
    assert (Hroot : yields (fun d => well_built (nbt_data d))
                      (rootNameV <- (if rootName_truthy (rootName o)
                                     then s <- readString fuel ;; ret (Some s)
                                     else ret None) ;;
                       root <- readTag fuel type ;;
                       fun r off =>
                         if strict o && (byteLength r >? off) then
                           Throw (NBTError off (byteLength r - off)
                                    (mkNBTData root rootNameV (endian o) None BLnull))
                         else
                           Ok (mkNBTData root rootNameV (endian o) (compression o)
                                 (bedrockLevel o), off))).
    { apply yields_then. intros rootNameV.
      apply (yields_bind (built type)); [apply readTag_built|].
      intros root [_ Hroot] r0 o0 a o' E.
      destruct (strict o && (byteLength r0 >? o0)); [discriminate|].
      inversion E. subst. exact Hroot. }
    destruct type; try apply yields_throw; exact Hroot. }
  apply Hb.
Qed.

Lemma try_catch_Ok {A} (m : result error A) handler a :
  try_catch m handler = Ok a -> m = Ok a \/ exists e, m = Throw e /\ handler e = Ok a.
Proof. destruct m as [x|e| |]; cbn; intros H; [now left | right; eauto | discriminate..]. Qed.

Lemma read_rest_built (read : PartialReadOptions -> result error NBTData)
  fuel d reader options compression data :
  (forall o x, read o = Ok x -> well_built (nbt_data x)) ->
  read_rest decompress read fuel d reader options compression = Ok data ->
  well_built (nbt_data data).
Proof.
  intros Hread. unfold read_rest.
  destruct (p_endian options) as [e|].
  - destruct (p_rootName options) as [n|].
    + destruct (match compression with None => Ok d | Some c => decompress d c end);
        try discriminate.
      destruct (match p_bedrockLevel options with
                | Some b => Ok b
                | None => _
                end); try discriminate.
      apply readRoot_built.
    + intros H. apply try_catch_Ok in H as [H | (e1 & _ & H)]; [now apply Hread in H|].
      apply try_catch_Ok in H as [H | (e2 & _ & H)]; [now apply Hread in H|].
      discriminate.
  - intros H. apply try_catch_Ok in H as [H | (e1 & _ & H)]; [now apply Hread in H|].
    apply try_catch_Ok in H as [H | (e2 & _ & H)]; [now apply Hread in H|].
    apply try_catch_Ok in H as [H | (e3 & _ & H)]; [now apply Hread in H|].
    discriminate.
Qed.

Lemma read_rec_built depth fuel d :
  forall options data,
    read_rec decompress depth fuel d options = Ok data -> well_built (nbt_data data).
Proof.
  induction depth as [|depth IH]; intros options data; [discriminate|].
  cbn [read_rec].
  destruct (p_compression options) as [c|].
  - apply read_rest_built. exact IH.
  - destruct (hasGzipHeader _) as [[|]| | |]; try discriminate.
    + apply read_rest_built. exact IH.
    + destruct (hasZlibHeader _) as [[|]| | |]; try discriminate.
      * apply read_rest_built. exact IH.
      * intros H. apply try_catch_Ok in H as [H | (e1 & _ & H)]; [now apply IH in H|].
        apply try_catch_Ok in H as [H | (e2 & _ & H)]; [now apply IH in H|].
        discriminate.
Qed.



End WhatReadBuilds.

(** A little-endian buffer with a list of bytes in its root. *)
Definition list_of_bytes_buffer : list byte :=
  [x0a; x00; x00; x09; x01; x00; x6c; x01; x02; x00; x00; x00; x05; x07; x00].



(* ================================================================== *)
(** * Strings of any length and content *)

Section AnyString.

Import Read.

(** The number of bytes of a string the reader takes: the number of
    bytes of its UTF-8 encoding as two bytes hold it. *)
Definition kept_bytes (s : jsstring) : Z :=
  Z.of_nat (List.length (utf8_encode s)) mod 65536.

(** What [#readString] returns for the bytes [#writeString] wrote, for
    every string: the writer stores the number of bytes of the UTF-8
    encoding in two bytes, without a check, so the reader takes that
    number modulo 65536 for the length, and decodes that many bytes as
    MUTF-8.  A string of 65536 bytes or more is written without an
    error and read back cut. *)
Theorem readString_after_writeString (fuel : nat) (r : NBTReader) (o : Z)
  (s : jsstring) (bs : list byte) :
  varint r = false ->
  Write.writeString (littleEndian r) s = Ok bs -> holds r o bs ->
  readString fuel r o
  = Ok (mutf8_decode (firstn (Z.to_nat (kept_bytes s)) (utf8_encode s)),
        o + 2 + kept_bytes s).
Proof.
  intros Hvi E H. rewrite writeString_bytes in E. inversion E. subst bs. clear E.
  set (bytes := utf8_encode s) in *. unfold kept_bytes. fold bytes.
  set (kept := Z.of_nat (List.length bytes) mod 65536).
  assert (Hk : 0 <= kept < 65536) by (apply Z.mod_pos_bound; lia).
  assert (Hle : kept <= Z.of_nat (List.length bytes))
    by (apply Z.mod_le; lia).
  unfold readString.
  assert (E2 : readUnsignedShort fuel r o = Ok (kept, o + 2)).
  { rewrite readUnsignedShort_plain by assumption.
    rewrite (fixed_read_holds 2 _ r o _ (holds_app_l _ _ _ _ H) (length_set_uint _ _ _)).
    now rewrite get_uint_set_uint. }
  rewrite (bind_intro _ _ _ _ _ _ E2).
  apply holds_app_r in H. rewrite length_set_uint in H.
  change (Z.of_nat 2) with 2 in H.
  rewrite <- (firstn_skipn (Z.to_nat kept) bytes) in H.
  apply holds_app_l in H.
  assert (El : Z.of_nat (List.length (firstn (Z.to_nat kept) bytes)) = kept)
    by (rewrite length_firstn; lia).
  pose proof (allocate_holds r _ _ H) as Ea. rewrite El in Ea.
  rewrite (bind_intro _ _ _ _ _ _ Ea).
  unfold bind, data_subarray, add_byteOffset, ret.
  pose proof (subarray_holds r _ _ H) as Es. rewrite El in Es.
  now rewrite Es.
Qed.

End AnyString.

(** A name of two letters in a little-endian buffer. *)
Lemma readString_after_writeString_witness :
  Read.readString 0 (Read.mkReader [x0a; x02; x00; x68; x69; x00] true false) 1
  = Ok (mutf8_decode (firstn (Z.to_nat (kept_bytes [104; 105])) (utf8_encode [104; 105])),
        1 + 2 + kept_bytes [104; 105]).
Proof.
  apply (readString_after_writeString 0
           (Read.mkReader [x0a; x02; x00; x68; x69; x00] true false) 1
           [104; 105] [x02; x00; x68; x69]).
  - reflexivity.
  - reflexivity.
  - exists [x0a], [x00]. split; reflexivity.
Defined.

(* ================================================================== *)
(** * The SNBT reader: around the root, repeated keys, and what is not
      read back *)

Section RootEntries.

Import Parse.
Import Stringify.

Variable NumberToString : spec_float -> jsstring.
Variable StringToNumber : jsstring -> spec_float.
Variable ToNumber_other : Tag -> spec_float.
Variable ToBigInt_other : Tag -> option Z.
Variable space : jsstring.
Hypothesis space_whitespace : forallb is_whitespace space = true.
Variable data : jsstring.

Abbreviation text := (writeTag NumberToString space).
Abbreviation parse_tag :=
  (readTag StringToNumber ToNumber_other ToBigInt_other data).
Abbreviation here := (at_ data).
Abbreviation entries := (entries_tail NumberToString space).

(** What [#readTag] makes of the text of a tag that stands after
    whitespace and before a delimiter: the tag it returns, or the error
    it throws. *)
Definition reads (fuel level : nat) (t : Tag) (r : result error Tag) : Prop :=
  forall o w rest,
    here o (w ++ text level t ++ rest) -> all_ws w -> delimited rest ->
    match r with
    | Ok t' => exists o', parse_tag fuel o = Ok (t', o') /\ here o' rest
    | Throw e => parse_tag fuel o = Throw e
    | _ => False
    end.

(** One turn of the loop of [#readCompoundTag] over a written entry. *)
Lemma readCompoundTag_loop_entry fuel_tag level k v r tail fuel tag o w :
  k <> [] -> all_ws w -> delimited tail -> reads fuel_tag (S level) v r ->
  here o (w ++ entry_text NumberToString space level (k, v) ++ tail) ->
  match r with
  | Ok v' =>
      k <> proto_key ->
      exists o',
        here o' tail /\
        readCompoundTag_loop data (parse_tag fuel_tag) (S fuel) tag o
        = (let (more, o) := skipSeperator data o' in
           if more
           then readCompoundTag_loop data (parse_tag fuel_tag) fuel (obj_set tag k v') o
           else if negb (peek_is data 125 0 o)
                then Throw (UnexpectedAtEndOfTag (peek data 0 o))
                else Ok (obj_set tag k v', o))
  | Throw e => readCompoundTag_loop data (parse_tag fuel_tag) (S fuel) tag o = Throw e
  | _ => True
  end.
Proof.
  intros Hk Hw Htail Hread H.
  unfold entry_text in H. cbn [fst snd] in H.
  destruct (writeKey_start k Hk) as (c & r0 & Ekey & Hc).
  cbn [readCompoundTag_loop].
  assert (H0 := H). rewrite Ekey in H0. cbn [app] in H0.
  destruct (peek_not_close data o w c _ 125 H0 Hw Hc (or_intror eq_refl)) as (-> & ->).
  cbn [negb andb].
  rewrite (skipWhitespace_at data o w _ H0 Hw) by (now apply (start_stops c)).
  apply at_app in H0.
  rewrite (peek_is_at data _ _ _ 125 H0).
  destruct (start_facts c Hc) as (_ & _ & -> & _).
  apply at_app in H. rewrite <- !app_assoc in H. cbn [app] in H.
  rewrite <- !app_assoc in H.
  destruct (readString_key data _ k _ Hk H) as (o1 & -> & H1); [reflexivity|].
  destruct k as [|k0 k']; [congruence|].
  rewrite (skipWhitespace_none data o1 _ H1) by reflexivity.
  rewrite (expect_at data o1 58 _ H1). apply at_cons in H1.
  specialize (Hread _ (colon_gap space) tail H1 (all_ws_colon_gap space) Htail).
  destruct r as [v'|e| |].
  - intros Hp. destruct Hread as (o2 & -> & H2). exists o2. split; [exact H2|].
    now rewrite (obj_assign_key tag (k0 :: k') v' Hp).
  - now rewrite Hread.
  - exact I.
  - exact I.
Qed.

Definition seen_entry (seen : Tag -> Tag) (kv : jsstring * Tag) : jsstring * Tag :=
  (fst kv, seen (snd kv)).

(** The loop over entries that are all read, each one as [seen] tells. *)
Lemma readCompoundTag_loop_seen (seen : Tag -> Tag) fuel_tag level rest finish_ws :
  all_ws finish_ws ->
  forall l fuel tag o w,
    l <> [] -> (List.length l <= fuel)%nat ->
    Forall (fun kv => reads fuel_tag (S level) (snd kv) (Ok (seen (snd kv)))
                      /\ fst kv <> [] /\ fst kv <> proto_key) l ->
    all_ws w ->
    here o (w ++ entries level l (finish_ws ++ 125 :: rest)) ->
    exists o',
      readCompoundTag_loop data (parse_tag fuel_tag) fuel tag o
      = Ok (fold_left set_entry (map (seen_entry seen) l) tag, o')
      /\ here o' (125 :: rest).
Proof.
  intros Hfin. induction l as [|[k v] l IH]; [congruence|].
  intros fuel tag o w _ Hfuel Hall Hw H.
  destruct fuel as [|fuel]; [cbn in Hfuel; lia|].
  inversion Hall as [|? ? (Hread & Hk & Hp) Hall']; subst. cbn [fst snd] in *.
  cbn [entries_tail] in H.
  set (tail := match l with
               | [] => finish_ws ++ 125 :: rest
               | _ => 44 :: indent space level
                        ++ entries level l (finish_ws ++ 125 :: rest)
               end) in *.
  assert (Htail : delimited tail).
  { unfold tail. destruct l; [|reflexivity]. now apply delimited_finish. }
  destruct (readCompoundTag_loop_entry fuel_tag level k v _ tail fuel tag o w
              Hk Hw Htail Hread H Hp) as (o2 & H2 & ->).
  cbn [map fold_left]. unfold seen_entry at 2, set_entry at 2. cbn [fst snd].
  destruct l as [|kv' l].
  - unfold tail in H2.
    destruct (skipSeperator_close data o2 finish_ws 125 rest H2 Hfin (or_intror eq_refl))
      as (o3 & -> & H3).
    rewrite (peek_is_at data _ _ _ 125 H3). change (125 =? 125) with true.
    cbn [negb map fold_left]. eauto.
  - unfold tail in H2.
    inversion Hall' as [|? ? (_ & Hk' & _) _]; subst.
    destruct (writeKey_start (fst kv') Hk') as (c' & r' & Ekey' & Hc').
    assert (Hs : stops is_whitespace (entries level (kv' :: l) (finish_ws ++ 125 :: rest))).
    { cbn [entries_tail]. unfold entry_text. rewrite Ekey'. cbn [app].
      now apply (start_stops c'). }
    destruct (skipSeperator_comma data o2 (indent space level) _ H2
                (all_ws_indent space space_whitespace level) Hs)
      as (o3 & -> & H3).
    apply (IH fuel (obj_set tag k (seen v)) o3 []);
      [discriminate | cbn in Hfuel |- *; lia | assumption | reflexivity | exact H3].
Qed.

(** The loop over entries that are read up to one whose value is
    refused: the error leaves the loop. *)
Lemma readCompoundTag_loop_throws (seen : Tag -> Tag) fuel_tag level finish k v e post :
  k <> [] -> reads fuel_tag (S level) v (Throw e) -> delimited finish ->
  forall pre fuel tag o w,
    (List.length pre < fuel)%nat ->
    Forall (fun kv => reads fuel_tag (S level) (snd kv) (Ok (seen (snd kv)))
                      /\ fst kv <> [] /\ fst kv <> proto_key) pre ->
    all_ws w ->
    here o (w ++ entries level (pre ++ (k, v) :: post) finish) ->
    readCompoundTag_loop data (parse_tag fuel_tag) fuel tag o = Throw e.
Proof.
  intros Hk Hv Hfin. induction pre as [|[k1 v1] pre IH];
    intros fuel tag o w Hfuel Hall Hw H;
    (destruct fuel as [|fuel]; [cbn in Hfuel; lia|]).
  - cbn [app entries_tail] in H.
    refine (readCompoundTag_loop_entry fuel_tag level k v (Throw e) _ fuel tag o w
              Hk Hw _ Hv H).
    destruct post; [exact Hfin | reflexivity].
  - inversion Hall as [|? ? (Hread & Hk1 & Hp1) Hall']; subst. cbn [fst snd] in *.
    cbn [app entries_tail] in H.
    assert (Enext : exists kv' l', pre ++ (k, v) :: post = kv' :: l' /\ fst kv' <> []).
    { destruct pre as [|kv' pre']; [now exists (k, v), post|].
      exists kv', (pre' ++ (k, v) :: post). split; [reflexivity|].
      inversion Hall' as [|? ? (_ & ? & _) _]. assumption. }
    destruct Enext as (kv' & l' & E & Hk').
    rewrite E in H.
    destruct (readCompoundTag_loop_entry fuel_tag level k1 v1 _ _ fuel tag o w
                Hk1 Hw (eq_refl : delimited (44 :: _)) Hread H Hp1) as (o2 & H2 & ->).
    destruct (writeKey_start (fst kv') Hk') as (c' & r' & Ekey' & Hc').
    assert (Hs : stops is_whitespace (entries level (kv' :: l') finish)).
    { cbn [entries_tail]. unfold entry_text. rewrite Ekey'. cbn [app].
      now apply (start_stops c'). }
    destruct (skipSeperator_comma data o2 (indent space level) _ H2
                (all_ws_indent space space_whitespace level) Hs)
      as (o3 & -> & H3).
    rewrite <- E in H3.
    apply (IH fuel _ o3 []); [cbn in Hfuel; lia | assumption | reflexivity | exact H3].
Qed.

(** ** The entries of the root *)

(** What [parse] returns for a written boolean: [Boolean(string)] of a
    token that is not empty. *)
Definition as_parsed (t : Tag) : Tag :=
  match t with
  | BooleanTag _ => BooleanTag true
  | _ => t
  end.

(** An entry of the root: its key is not empty and not [__proto__],
    its value conforms or is a boolean. *)
Definition entry_ok (kv : jsstring * Tag) : Prop :=
  (fst kv <> [] /\ fst kv <> proto_key)
  /\ (conforms NumberToString StringToNumber (snd kv) \/ exists b, snd kv = BooleanTag b).

Lemma reads_entry fuel level t :
  conforms NumberToString StringToNumber t \/ (exists b, t = BooleanTag b) ->
  (List.length (text level t) < fuel)%nat ->
  reads fuel level t (Ok (as_parsed t)).
Proof.
  intros [Hc | [b ->]] Hlen.
  - replace (as_parsed t) with t
      by (destruct t; try reflexivity; cbn in Hc; now subst).
    exact (readTag_text NumberToString StringToNumber space space_whitespace
             ToNumber_other ToBigInt_other data fuel t level Hc Hlen).
  - intros o w rest H Hw Hr. destruct fuel as [|fuel]; [lia|].
    cbn [writeTag] in H.
    destruct (readTag_token StringToNumber ToNumber_other ToBigInt_other data
                fuel o w (writeBoolean b) rest H Hw) as (o' & E & H');
      [destruct b; discriminate | destruct b; reflexivity | exact Hr |].
    exists o'. split; [|exact H']. rewrite E. now destruct b.
Qed.

Lemma entry_bounds t :
  (List.length t <= List.length (text 1 (CompoundTag t)))%nat
  /\ forall kv, In kv t ->
       (List.length (text 2 (snd kv)) < List.length (text 1 (CompoundTag t)))%nat.
Proof.
  rewrite text_CompoundTag. cbn [List.length]. rewrite !length_app.
  destruct (join_bounds [44]
              (fun kv => indent space 1 ++ writeKey (fst kv) ++ 58 :: colon_gap space
                         ++ text 2 (snd kv)) t)
    as [Hn Hin].
  { intros v _ E0. apply app_eq_nil in E0 as [_ E0].
    apply app_eq_nil in E0 as [_ E0]. discriminate. }
  split; [lia|]. intros kv Hkv. specialize (Hin kv Hkv).
  rewrite !length_app in Hin. cbn [List.length] in Hin. rewrite length_app in Hin. lia.
Qed.

Lemma root_text t rest :
  t <> [] ->
  text 1 (CompoundTag t) ++ rest
  = 123 :: indent space 1 ++ entries 1 t (indent space 0 ++ 125 :: rest).
Proof.
  intros Ht. rewrite text_CompoundTag. cbn [app]. f_equal.
  rewrite <- !app_assoc.
  change (map _ t)
    with (map (fun kv => indent space 1 ++ entry_text NumberToString space 1 kv) t).
  destruct t as [|kv t]; [congruence|].
  rewrite <- (join_entries NumberToString space 1 (kv :: t)) by discriminate.
  reflexivity.
Qed.

(** [#readCompoundTag()] at the root, over written entries. *)
Lemma readCompoundTag_root t w rest o :
  Forall entry_ok t -> all_ws w ->
  here o (w ++ text 1 (CompoundTag t) ++ rest) ->
  exists o',
    readCompoundTag data (parse_tag (S (List.length data))) (S (List.length data)) o
    = Ok (fold_left set_entry (map (seen_entry as_parsed) t) [], o')
    /\ here o' rest.
Proof.
  intros Hall Hw H.
  pose proof (at_length data _ _ H) as Hlen. rewrite !length_app in Hlen.
  destruct (entry_bounds t) as [Hn Hin].
  unfold readCompoundTag.
  assert (H0 := H). rewrite text_CompoundTag in H0. cbn [app] in H0.
  rewrite (skipWhitespace_at data o w _ H0 Hw) by reflexivity.
  clear H0. apply at_app in H.
  destruct t as [|kv t].
  - rewrite text_CompoundTag in H. cbn [map join app] in H.
    rewrite (expect_at data _ 123 _ H). apply at_cons in H.
    cbn [readCompoundTag_loop].
    rewrite (allocate_at data _ _ 1 H), (peek_is_at data _ _ _ 125 H).
    change (125 =? 125) with true. cbn [List.length Nat.leb negb andb].
    rewrite (allocate_at data _ _ 1 H). cbn [List.length Nat.leb negb map fold_left].
    eexists. split; [reflexivity|]. now apply at_cons in H.
  - rewrite root_text in H by discriminate.
    rewrite (expect_at data _ 123 _ H). apply at_cons in H.
    edestruct (readCompoundTag_loop_seen as_parsed (S (List.length data)) 1 rest
                 (indent space 0) (all_ws_indent space space_whitespace 0)
                 (kv :: t) (S (List.length data)) [])
      as (o1 & E1 & H1);
      [discriminate | lia | | apply (all_ws_indent space space_whitespace 1)
       | exact H | rewrite E1].
    + apply Forall_forall. intros e He.
      rewrite Forall_forall in Hall. destruct (Hall e He) as [Hk Hv].
      split; [|exact Hk]. apply reads_entry; [exact Hv|].
      specialize (Hin e He). lia.
    + rewrite (allocate_at data _ _ 1 H1). cbn [List.length Nat.leb negb].
      eexists. split; [reflexivity|]. now apply at_cons in H1.
Qed.

(** [SNBTReader.read(data)] over a written root with whitespace around
    it, and with something else after it. *)
Lemma read_root t w1 w2 :
  Forall entry_ok t -> all_ws w1 -> all_ws w2 ->
  data = w1 ++ text 1 (CompoundTag t) ++ w2 ->
  read StringToNumber ToNumber_other ToBigInt_other data (S (List.length data))
  = Ok (fold_left set_entry (map (seen_entry as_parsed) t) []).
Proof.
  intros Hall Hw1 Hw2 E. unfold read.
  assert (H : here 0 (w1 ++ text 1 (CompoundTag t) ++ w2)).
  { exists []. now split. }
  destruct (readCompoundTag_root t w1 w2 0 Hall Hw1 H) as (o' & -> & H').
  assert (H2 : here o' (w2 ++ [])) by now rewrite app_nil_r.
  rewrite (skipWhitespace_at data o' w2 [] H2 Hw2 I).
  apply at_app in H2. now rewrite (allocate_at data _ _ 1 H2).
Qed.

Lemma read_root_then t w1 w2 c rest :
  Forall entry_ok t -> all_ws w1 -> all_ws w2 -> is_whitespace c = false ->
  data = w1 ++ text 1 (CompoundTag t) ++ w2 ++ c :: rest ->
  read StringToNumber ToNumber_other ToBigInt_other data (S (List.length data))
  = Throw NonWhitespaceAfterTag.
Proof.
  intros Hall Hw1 Hw2 Hc E. unfold read.
  assert (H : here 0 (w1 ++ text 1 (CompoundTag t) ++ w2 ++ c :: rest)).
  { exists []. now split. }
  destruct (readCompoundTag_root t w1 _ 0 Hall Hw1 H) as (o' & -> & H').
  rewrite (skipWhitespace_at data o' w2 _ H' Hw2 Hc).
  apply at_app in H'. rewrite (allocate_at data _ _ 1 H').
  cbn [List.length Nat.leb getTagType]. now rewrite !orb_true_r.
Qed.

(** A root whose first character, after whitespace, is no opening
    brace. *)
Lemma read_other_root w s :
  all_ws w -> match s with [] => True | c :: _ => is_whitespace c = false /\ c <> 123 end ->
  data = w ++ s ->
  read StringToNumber ToNumber_other ToBigInt_other data (S (List.length data))
  = Throw (Expected 123).
Proof.
  intros Hw Hs E. unfold read, readCompoundTag.
  assert (H : here 0 (w ++ s)) by (exists []; now split).
  rewrite (skipWhitespace_at data 0 w s H Hw) by (destruct s; [exact I | apply Hs]).
  apply at_app in H. unfold expect.
  rewrite (allocate_at data _ _ 1 H).
  destruct s as [|c s]; [reflexivity|].
  rewrite (peek_is_at data _ _ _ 123 H).
  destruct Hs as [_ Hc]. apply Z.eqb_neq in Hc. now rewrite Hc.
Qed.

(** A list whose first element is a string that starts with a
    semicolon: the quote and the semicolon are taken for the prefix of
    a typed array. *)
Lemma reads_semicolon_list fuel level s l :
  exists q, (q = 34 \/ q = 39)
    /\ reads (S fuel) level (ListTag (StringTag (59 :: s) :: l))
         (Throw (InvalidArrayType (Some q))).
Proof.
  destruct (writeString_form (59 :: s)) as (q & Hq & Eq).
  exists q. split; [exact Hq|]. intros o w rest H Hw _.
  rewrite text_ListTag in H. cbn [map] in H. rewrite join_cons in H.
  replace (list_lead space level (StringTag (59 :: s) :: l)) with (@nil Z) in H
    by (unfold list_lead, indented; cbn [list_type getTagType is_complex];
        now rewrite andb_false_r).
  cbn [writeTag app] in H. rewrite Eq in H.
  cbn [quoted_body] in H.
  replace ((59 =? q) || (59 =? 92)) with false in H
    by (destruct Hq as [-> | ->]; reflexivity).
  cbn [app] in H. rewrite <- !app_assoc in H. cbn [app] in H.
  rewrite (readTag_bracket StringToNumber ToNumber_other ToBigInt_other data
             fuel o w _ H Hw).
  apply at_app in H.
  rewrite readSomeList_steps.
  rewrite (expect_at data _ 91 _ H). apply at_cons in H.
  unfold list_prefix.
  rewrite (allocate_at data _ _ 2 H). unfold peek_is at 1.
  rewrite (peek1_at data _ _ _ _ H), (peek_at data _ _ _ H).
  cbn [List.length Nat.leb andb]. change (59 =? 59) with true. cbn [andb].
  destruct Hq as [-> | ->]; reflexivity.
Qed.

Lemma read_semicolon_list pre k s l post :
  Forall entry_ok pre -> k <> [] ->
  data = text 1 (CompoundTag (pre ++ (k, ListTag (StringTag (59 :: s) :: l)) :: post)) ->
  exists q, (q = 34 \/ q = 39)
    /\ read StringToNumber ToNumber_other ToBigInt_other data (S (List.length data))
       = Throw (InvalidArrayType (Some q)).
Proof.
  intros Hall Hk E.
  destruct (reads_semicolon_list (List.length data) 2 s l) as (q & Hq & Hread).
  exists q. split; [exact Hq|]. unfold read, readCompoundTag.
  set (t := pre ++ (k, ListTag (StringTag (59 :: s) :: l)) :: post) in *.
  assert (H : here 0 (text 1 (CompoundTag t) ++ [])).
  { exists []. rewrite app_nil_r. now split. }
  pose proof (at_length data _ _ H) as Hlen. rewrite !length_app in Hlen.
  destruct (entry_bounds t) as [Hn Hin].
  assert (Ht : t <> []) by (unfold t; now destruct pre).
  rewrite root_text in H by exact Ht.
  rewrite (skipWhitespace_none data 0 _ H) by reflexivity.
  rewrite (expect_at data _ 123 _ H). apply at_cons in H.
  erewrite (readCompoundTag_loop_throws as_parsed (S (List.length data)) 1
              (indent space 0 ++ [125]) k _ _ post Hk Hread
              (delimited_finish _ 125 [] (all_ws_indent space space_whitespace 0) eq_refl)
              pre (S (List.length data)) []);
    [reflexivity | | | apply (all_ws_indent space space_whitespace 1) | exact H].
  - assert (List.length pre < List.length t)%nat
      by (unfold t; rewrite length_app; cbn [List.length]; lia).
    cbn [List.length] in Hlen. lia.
  - apply Forall_forall. intros e He.
    rewrite Forall_forall in Hall. destruct (Hall e He) as [Hke Hv].
    split; [|exact Hke]. apply reads_entry; [exact Hv|].
    assert (Hin' : In e t) by (unfold t; apply in_or_app; now left).
    specialize (Hin e Hin'). lia.
Qed.

End RootEntries.

(** ** [parse] over the text of [stringify] *)

Lemma space_text_whitespace (space : Stringify.Space) :
  whitespace_space space ->
  forallb is_whitespace
    (match space with
     | Stringify.SpaceString s => s
     | Stringify.SpaceNumber n => Stringify.repeat_str [32] n
     end) = true.
Proof. destruct space as [s|n]; [trivial | intros _; apply repeat_str_spaces]. Qed.

Section Conformers.

Variable NumberToString : spec_float -> jsstring.
Variable StringToNumber : jsstring -> spec_float.

Lemma as_parsed_conforms t :
  conforms NumberToString StringToNumber t -> as_parsed t = t.
Proof. destruct t; try reflexivity. cbn. now intros ->. Qed.

Lemma entry_ok_conforms l :
  Forall (fun kv => conforms NumberToString StringToNumber (snd kv)
                    /\ fst kv <> [] /\ fst kv <> proto_key) l ->
  Forall (entry_ok NumberToString StringToNumber) l
  /\ map (seen_entry as_parsed) l = l.
Proof.
  induction 1 as [|[k v] l [Hc Hk] _ [IH1 IH2]]; [now split|].
  cbn [fst snd] in *. split.
  - constructor; [split; [exact Hk | now left] | exact IH1].
  - cbn [map]. unfold seen_entry at 1. cbn [fst snd].
    now rewrite (as_parsed_conforms v Hc), IH2.
Qed.

End Conformers.

Ltac solve_conforms :=
  cbn [conforms map fst snd app];
  repeat match goal with
         | |- _ /\ _ => split
         | |- True => exact I
         | |- int8 _ => unfold int8; lia
         | |- int16 _ => unfold int16; lia
         | |- int32 _ => unfold int32; lia
         | |- int64 _ => unfold int64; lia
         | |- homogeneous _ => unfold homogeneous
         | |- list_head_ok _ => exact I
         | |- Forall _ _ => constructor
         | |- own_keys _ => unfold own_keys
         | |- listed _ => simpl listed
         | |- NoDup _ => constructor
         | |- ~ In _ _ =>
             let H := fresh in
             intros H; vm_compute in H;
             repeat (destruct H as [H | H]; [discriminate H|]); exact H
         | |- _ <> _ =>
             let H := fresh in intros H; vm_compute in H; discriminate H
         | |- _ = _ => vm_compute; reflexivity
         end.

(** [parse] skips the whitespace before and after the root: the text
    [stringify] writes for a conforming compound, with whitespace of
    any kind before the opening brace and after the closing one, is
    read back to that compound. *)
Theorem parse_skips_outer_whitespace
  (NumberToString : spec_float -> jsstring) (StringToNumber : jsstring -> spec_float)
  (ToNumber_other : Tag -> spec_float) (ToBigInt_other : Tag -> option Z)
  (t : list (jsstring * Tag)) (space : Stringify.Space) (w1 w2 : jsstring) :
  conforms NumberToString StringToNumber (CompoundTag t) ->
  whitespace_space space -> all_ws w1 -> all_ws w2 ->
  Parse.parse StringToNumber ToNumber_other ToBigInt_other
    (w1 ++ Stringify.stringify NumberToString t space ++ w2)
  = Ok t.
Proof.
  intros Hc Hs Hw1 Hw2. unfold Parse.parse, Stringify.stringify, Stringify.write, Stringify.writeCompound.
  destruct (conforms_CompoundTag _ _ t Hc) as (Hall & Hnd & Hls).
  destruct (entry_ok_conforms _ _ t Hall) as [Hok Hmap].
  rewrite (read_root NumberToString StringToNumber ToNumber_other ToBigInt_other _
             (space_text_whitespace space Hs) _ t w1 w2 Hok Hw1 Hw2 eq_refl).
  rewrite Hmap. now rewrite (fold_set_entry t []).
Qed.

Lemma parse_skips_outer_whitespace_witness :
  Parse.parse integer_toNumber ToNumber_NaN ToBigInt_none
    ([32; 10; 9]
     ++ Stringify.stringify integer_toString
          [(js "id", IntTag 7); (js "tags", ListTag [StringTag (js "a b")])]
          (Stringify.SpaceString [])
     ++ [13; 10])
  = Ok [(js "id", IntTag 7); (js "tags", ListTag [StringTag (js "a b")])].
Proof.
  apply (parse_skips_outer_whitespace integer_toString integer_toNumber
           ToNumber_NaN ToBigInt_none);
    [solve_conforms | reflexivity | reflexivity | reflexivity].
Defined.

(** [parse] refuses whatever follows the root: when the text of a
    conforming compound is followed, after any whitespace, by a
    character that is not whitespace, the error is "Unexpected
    non-whitespace character after tag", whatever comes next. *)
Theorem parse_refuses_text_after_root
  (NumberToString : spec_float -> jsstring) (StringToNumber : jsstring -> spec_float)
  (ToNumber_other : Tag -> spec_float) (ToBigInt_other : Tag -> option Z)
  (t : list (jsstring * Tag)) (space : Stringify.Space) (w1 w2 : jsstring)
  (c : char) (rest : jsstring) :
  conforms NumberToString StringToNumber (CompoundTag t) ->
  whitespace_space space -> all_ws w1 -> all_ws w2 -> is_whitespace c = false ->
  Parse.parse StringToNumber ToNumber_other ToBigInt_other
    (w1 ++ Stringify.stringify NumberToString t space ++ w2 ++ c :: rest)
  = Throw Parse.NonWhitespaceAfterTag.
Proof.
  intros Hc Hs Hw1 Hw2 Hn. unfold Parse.parse, Stringify.stringify, Stringify.write, Stringify.writeCompound.
  destruct (conforms_CompoundTag _ _ t Hc) as (Hall & _).
  destruct (entry_ok_conforms _ _ t Hall) as [Hok _].
  exact (read_root_then NumberToString StringToNumber ToNumber_other ToBigInt_other _
           (space_text_whitespace space Hs) _ t w1 w2 c rest Hok Hw1 Hw2 Hn eq_refl).
Qed.

Lemma parse_refuses_text_after_root_witness :
  Parse.parse integer_toNumber ToNumber_NaN ToBigInt_none
    ([] ++ Stringify.stringify integer_toString [(js "id", IntTag 7)]
             (Stringify.SpaceNumber 1)
     ++ [32] ++ 123 :: js "}")
  = Throw Parse.NonWhitespaceAfterTag.
Proof.
  apply (parse_refuses_text_after_root integer_toString integer_toNumber
           ToNumber_NaN ToBigInt_none);
    [solve_conforms | exact I | reflexivity | reflexivity | reflexivity].
Defined.

(** The root of an SNBT text is a compound: when the first character
    after the leading whitespace is anything but an opening brace, or
    the text ends there, [parse] throws "Expected '{'", so a list, a
    string or a number alone is not read. *)
Theorem parse_expects_an_opening_brace
  (StringToNumber : jsstring -> spec_float)
  (ToNumber_other : Tag -> spec_float) (ToBigInt_other : Tag -> option Z)
  (w s : jsstring) :
  all_ws w ->
  match s with [] => True | c :: _ => is_whitespace c = false /\ c <> 123 end ->
  Parse.parse StringToNumber ToNumber_other ToBigInt_other (w ++ s)
  = Throw (Parse.Expected 123).
Proof.
  intros Hw Hs. unfold Parse.parse, Stringify.stringify, Stringify.write, Stringify.writeCompound.
  exact (read_other_root StringToNumber ToNumber_other ToBigInt_other _ w s Hw Hs eq_refl).
Qed.

Lemma parse_expects_an_opening_brace_witness :
  Parse.parse integer_toNumber ToNumber_NaN ToBigInt_none ([32] ++ js "[1,2]")
  = Throw (Parse.Expected 123)
  /\ Parse.parse integer_toNumber ToNumber_NaN ToBigInt_none ([10; 32] ++ [])
     = Throw (Parse.Expected 123).
Proof.
  split.
  - apply (parse_expects_an_opening_brace integer_toNumber ToNumber_NaN ToBigInt_none);
      [reflexivity | split; [reflexivity | discriminate]].
  - apply (parse_expects_an_opening_brace integer_toNumber ToNumber_NaN ToBigInt_none);
      [reflexivity | exact I].
Defined.

(** A key that the text repeats keeps its place in the listing and
    takes the value of its last entry: when the entries of a conforming
    compound are written and one more entry follows under a key [k]
    that is already there, [parse] returns the compound with the new
    value under [k]. *)
Theorem parse_keeps_the_last_of_a_repeated_key
  (NumberToString : spec_float -> jsstring) (StringToNumber : jsstring -> spec_float)
  (ToNumber_other : Tag -> spec_float) (ToBigInt_other : Tag -> option Z)
  (pre post : list (jsstring * Tag)) (k : jsstring) (v v' : Tag)
  (space : Stringify.Space) :
  conforms NumberToString StringToNumber (CompoundTag (pre ++ (k, v) :: post)) ->
  conforms NumberToString StringToNumber v' ->
  whitespace_space space ->
  Parse.parse StringToNumber ToNumber_other ToBigInt_other
    (Stringify.stringify NumberToString ((pre ++ (k, v) :: post) ++ [(k, v')]) space)
  = Ok (pre ++ (k, v') :: post).
Proof.
  intros Hc Hv' Hs. unfold Parse.parse, Stringify.stringify, Stringify.write, Stringify.writeCompound.
  destruct (conforms_CompoundTag _ _ _ Hc) as (Hall & Hnd & Hls).
  assert (Hk : k <> [] /\ k <> proto_key).
  { rewrite Forall_forall in Hall.
    apply (Hall (k, v)). apply in_or_app. right. now left. }
  assert (Hall' : Forall (fun kv => conforms NumberToString StringToNumber (snd kv)
                                    /\ fst kv <> [] /\ fst kv <> proto_key)
                    ((pre ++ (k, v) :: post) ++ [(k, v')])).
  { apply Forall_app. split; [exact Hall|]. constructor; [now split | constructor]. }
  destruct (entry_ok_conforms _ _ _ Hall') as [Hok Hmap].
  rewrite (read_root NumberToString StringToNumber ToNumber_other ToBigInt_other _
             (space_text_whitespace space Hs) _ _ [] [] Hok eq_refl eq_refl);
    [|cbn [app]; now rewrite app_nil_r].
  rewrite Hmap, fold_left_app. cbn [fold_left].
  rewrite (fold_set_entry (pre ++ (k, v) :: post) []) by assumption.
  unfold set_entry. cbn [fst snd app]. f_equal.
  apply obj_set_present.
  rewrite map_app in Hnd. cbn [map fst] in Hnd.
  apply NoDup_remove_2 in Hnd. intros Hin. apply Hnd. apply in_or_app. now left.
Qed.

Lemma parse_keeps_the_last_of_a_repeated_key_witness :
  Parse.parse integer_toNumber ToNumber_NaN ToBigInt_none
    (Stringify.stringify integer_toString
       (([(js "a", ByteTag 1)] ++ (js "b", IntTag 2) :: [(js "c", ShortTag 3)])
        ++ [(js "b", StringTag (js "two"))])
       (Stringify.SpaceString []))
  = Ok ([(js "a", ByteTag 1)] ++ (js "b", StringTag (js "two")) :: [(js "c", ShortTag 3)]).
Proof.
  apply (parse_keeps_the_last_of_a_repeated_key integer_toString integer_toNumber
           ToNumber_NaN ToBigInt_none);
    [solve_conforms | exact I | reflexivity].
Defined.

(** A boolean does not survive the round trip unless it is [true]:
    [stringify] writes [false] as the word, and [parse] takes
    [Boolean(string)] of the word, which is [true] for every string
    that is not empty.  So a compound that conforms but for the value
    of a boolean entry of the root comes back with [true] there. *)
Theorem parse_reads_false_as_true
  (NumberToString : spec_float -> jsstring) (StringToNumber : jsstring -> spec_float)
  (ToNumber_other : Tag -> spec_float) (ToBigInt_other : Tag -> option Z)
  (pre post : list (jsstring * Tag)) (k : jsstring) (b : bool)
  (space : Stringify.Space) :
  conforms NumberToString StringToNumber (CompoundTag (pre ++ (k, BooleanTag true) :: post)) ->
  whitespace_space space ->
  Parse.parse StringToNumber ToNumber_other ToBigInt_other
    (Stringify.stringify NumberToString (pre ++ (k, BooleanTag b) :: post) space)
  = Ok (pre ++ (k, BooleanTag true) :: post).
Proof.
  intros Hc Hs. unfold Parse.parse, Stringify.stringify, Stringify.write, Stringify.writeCompound.
  destruct (conforms_CompoundTag _ _ _ Hc) as (Hall & Hnd & Hls).
  apply Forall_app in Hall as [Hpre Hrest].
  inversion Hrest as [|? ? [_ Hk] Hpost]; subst. cbn [fst snd] in Hk.
  destruct (entry_ok_conforms _ _ _ Hpre) as [Hok1 Hmap1].
  destruct (entry_ok_conforms _ _ _ Hpost) as [Hok2 Hmap2].
  rewrite (read_root NumberToString StringToNumber ToNumber_other ToBigInt_other _
             (space_text_whitespace space Hs) _ (pre ++ (k, BooleanTag b) :: post) [] []);
    [| | reflexivity | reflexivity | cbn [app]; now rewrite app_nil_r].
  - rewrite map_app. cbn [map]. rewrite Hmap1, Hmap2.
    unfold seen_entry. cbn [fst snd as_parsed].
    now rewrite (fold_set_entry (pre ++ (k, BooleanTag true) :: post) []).
  - apply Forall_app. split; [exact Hok1|].
    constructor; [|exact Hok2]. split; [exact Hk | right; now exists b].
Qed.

Lemma parse_reads_false_as_true_witness :
  Parse.parse integer_toNumber ToNumber_NaN ToBigInt_none
    (Stringify.stringify integer_toString
       ([(js "id", IntTag 7)] ++ (js "on", BooleanTag false) :: [(js "n", ByteTag 0)])
       (Stringify.SpaceNumber 2))
  = Ok ([(js "id", IntTag 7)] ++ (js "on", BooleanTag true) :: [(js "n", ByteTag 0)]).
Proof.
  apply (parse_reads_false_as_true integer_toString integer_toNumber
           ToNumber_NaN ToBigInt_none);
    [solve_conforms | exact I].
Defined.

(** A list whose first element is a string that starts with a
    semicolon is written but not read: after the opening bracket the
    reader finds the quote of the string and then the semicolon, takes
    the two for the prefix of a typed array, and throws "Invalid array
    type" with the quote.  The entries before it conform, with keys
    that are not empty and not [__proto__]; what follows it is not
    looked at. *)
Theorem parse_takes_a_semicolon_string_for_an_array
  (NumberToString : spec_float -> jsstring) (StringToNumber : jsstring -> spec_float)
  (ToNumber_other : Tag -> spec_float) (ToBigInt_other : Tag -> option Z)
  (pre post : list (jsstring * Tag)) (k s : jsstring) (l : list Tag)
  (space : Stringify.Space) :
  Forall (fun kv => conforms NumberToString StringToNumber (snd kv)
                    /\ fst kv <> [] /\ fst kv <> proto_key) pre ->
  k <> [] -> whitespace_space space ->
  exists q,
    (q = 34 \/ q = 39)
    /\ Parse.parse StringToNumber ToNumber_other ToBigInt_other
         (Stringify.stringify NumberToString
            (pre ++ (k, ListTag (StringTag (59 :: s) :: l)) :: post) space)
       = Throw (Parse.InvalidArrayType (Some q)).
Proof.
  intros Hpre Hk Hs. unfold Parse.parse, Stringify.stringify, Stringify.write, Stringify.writeCompound.
  destruct (entry_ok_conforms _ _ _ Hpre) as [Hok _].
  exact (read_semicolon_list NumberToString StringToNumber ToNumber_other ToBigInt_other _
           (space_text_whitespace space Hs) _ pre k s l post Hok Hk eq_refl).
Qed.

Lemma parse_takes_a_semicolon_string_for_an_array_witness :
  exists q,
    (q = 34 \/ q = 39)
    /\ Parse.parse integer_toNumber ToNumber_NaN ToBigInt_none
         (Stringify.stringify integer_toString
            ([(js "id", IntTag 7)]
             ++ (js "faces", ListTag (StringTag (59 :: js ")") :: [StringTag (js ":)")]))
             :: [])
            (Stringify.SpaceString []))
       = Throw (Parse.InvalidArrayType (Some q)).
Proof.
  apply (parse_takes_a_semicolon_string_for_an_array integer_toString integer_toNumber
           ToNumber_NaN ToBigInt_none);
    [constructor; [solve_conforms | constructor] | discriminate | reflexivity].
Defined.
